(** * ADS_set: a B+ tree set (ADS_set.h), embedded and verified

    The container [ADS_set<Key, N>] stores keys in a B+ tree of order [N].
    This development embeds the tree code of [ADS_set.h] and proves
    properties of it.

    Modelling decisions, all local to this header:

    - [Key] is instantiated at the integers ([Z]) with [<] and [=].
    - A [values] array together with [node_size] is the list of its live
      slots [values[0 .. node_size)]; a [children] array is the list of its
      live slots [children[0 .. node_size]].  Slots behind the live prefix
      are dead storage: writes to them are dropped, and an operation that
      copies a dead slot into a live one is undefined ([None]).
    - A [Node*] is [Null], the address of a leaf ([External a]) or an
      internal node.  Internal nodes are owned by exactly one parent slot and
      are never aliased, so they are kept by value.  Leaves are aliased (by
      the neighbour links of other leaves, by [left_leaf] and by iterators),
      so they live in a store, a finite map from addresses to leaf records,
      and every access through a leaf pointer is a lookup in that store.
    - [new ExternalNode] takes an address that is not allocated;
      [delete] of a leaf removes it from the store.
    - Undefined behaviour (a null or dangling dereference, a failed
      [dynamic_cast], an index outside the live slots) is [None]. *)

From stdpp Require Import gmap list sorting.
From Stdlib Require Import ZArith Lia.

Set Warnings "-register-all,-clear-no-such-hyp".

(** ** Enumerations of the class *)

Module InsertMsg.
Inductive t := SUCCESS | EXISTS | SPLIT.
End InsertMsg.

Module EraseMsg.
Inductive t := SUCCESS | NOT_EXISTENT | MERGE.
End EraseMsg.

Inductive MergeDirection := LEFT | RIGHT.

Inductive NodeType := INTERNAL | EXTERNAL.

#[global] Instance InsertMsg_eq_dec : EqDecision InsertMsg.t.
Proof. solve_decision. Defined.
#[global] Instance EraseMsg_eq_dec : EqDecision EraseMsg.t.
Proof. solve_decision. Defined.
#[global] Instance MergeDirection_eq_dec : EqDecision MergeDirection.
Proof. solve_decision. Defined.
#[global] Instance NodeType_eq_dec : EqDecision NodeType.
Proof. solve_decision. Defined.

(** ** Nodes *)

Abbreviation key_type := Z (only parsing).
Abbreviation addr := positive (only parsing).

(** [struct ExternalNode]: the live keys and the two chain links. *)
Record ExternalNode := mkExternal {
  values : list key_type;
  left_neighbour : option addr;
  right_neighbour : option addr
}.

Abbreviation store := (gmap positive ExternalNode).

Definition set_values (l : ExternalNode) (vs : list key_type) : ExternalNode :=
  mkExternal vs (left_neighbour l) (right_neighbour l).
Definition set_left (l : ExternalNode) (p : option addr) : ExternalNode :=
  mkExternal (values l) p (right_neighbour l).
Definition set_right (l : ExternalNode) (p : option addr) : ExternalNode :=
  mkExternal (values l) (left_neighbour l) p.

(** A [Node*]. *)
Inductive Node :=
| Null
| External (a : addr)
| Internal (vals : list key_type) (children : list Node).

#[global] Instance Node_inhabited : Inhabited Node := populate Null.

(** [p->f(...)] for [p = children[pos]]: the call is made on the child in
    slot [pos]; no such live slot is undefined. *)
Definition at_child {A} (f : Node → option A) : list Node → nat → option A :=
  fix go cs pos :=
    match cs with
    | [] => None
    | c :: cs' => match pos with O => f c | S p => go cs' p end
    end.

(** [Iterator]: a leaf pointer and an index. *)
Record Iterator := mkIterator {
  current_node : option addr;
  current_element : nat
}.

#[global] Instance Iterator_eq_dec : EqDecision Iterator.
Proof. solve_decision. Defined.

(** [Iterator()] *)
Definition Iterator_end : Iterator := mkIterator None 0.

(** ** Array idioms *)

(** [for (j = size; j > i; --j) a[j] = a[j-1]; a[i] = x; ++size] *)
Definition insert_at {A} (i : nat) (x : A) (l : list A) : list A :=
  take i l ++ x :: drop i l.

(** [for (j = from; j < to; ++j) a[j-1] = a[j]], every slot read being
    live. *)
Definition shift_down {A} (from to : nat) (l : list A) : list A :=
  foldl (λ a j, match a !! j with Some x => <[pred j := x]> a | None => a end)
        l (seq from (to - from)).

(** The first index whose key is greater than [elem], else the size:
    [for (i = 0; i < node_size; ++i) if (elem < values[i]) break;] *)
Fixpoint first_greater (elem : key_type) (vs : list key_type) : nat :=
  match vs with
  | [] => 0
  | v :: vs' => if bool_decide (elem < v)%Z then 0 else S (first_greater elem vs')
  end.

(** [pos - 1] on [size_type]; [0 - 1] wraps around to an index that is
    never live. *)
Definition index_before (pos : nat) : option nat :=
  match pos with O => None | S p => Some p end.

(** ** [ExternalNode] *)

(** The loop of [ExternalNode::find_pos], on [int low, high]. [fuel] bounds
    the number of iterations; [None] is fuel exhausted or a dead slot
    read. *)
Fixpoint bsearch (fuel : nat) (vs : list key_type) (elem : key_type)
    (low high : Z) : option Z :=
  if bool_decide (low ≤ high)%Z then
    match fuel with
    | O => None
    | S fuel' =>
      let mid := (low + (high - low) `quot` 2)%Z in
      v ← vs !! Z.to_nat mid;
      if bool_decide (v = elem) then Some mid
      else if bool_decide (v < elem)%Z then bsearch fuel' vs elem (mid + 1) high
      else bsearch fuel' vs elem low (mid - 1)
    end
  else Some (-1)%Z.

(** [ExternalNode::find_pos] *)
Definition External_find_pos (l : ExternalNode) (elem : key_type) : option Z :=
  if bool_decide (length (values l) = 0) then Some (-1)%Z
  else bsearch (length (values l)) (values l) elem 0 (Z.of_nat (length (values l)) - 1).

(** [ExternalNode::count] *)
Definition External_count (l : ExternalNode) (elem : key_type) : option bool :=
  i ← External_find_pos l elem;
  Some (if bool_decide (i = -1)%Z then false else true).

(** [ExternalNode::find], for the leaf at address [a] *)
Definition External_find (a : addr) (l : ExternalNode) (elem : key_type)
    : option Iterator :=
  if bool_decide (length (values l) = 0) then Some Iterator_end
  else
    i ← External_find_pos l elem;
    Some (if bool_decide (i ≠ -1)%Z then mkIterator (Some a) (Z.to_nat i)
          else Iterator_end).

Section ADS_set.

(** The template parameter [N]. *)
Variable N : nat.

Definition max_size : nat := N * 2.
Definition min_size : nat := N.

(** [ExternalNode::add_elem] *)
Definition External_add_elem (l : ExternalNode) (elem : key_type)
    : option (InsertMsg.t * ExternalNode) :=
  p ← External_find_pos l elem;
  if bool_decide (p ≠ -1)%Z then Some (InsertMsg.EXISTS, l)
  else
    let i := first_greater elem (values l) in
    let l' := set_values l (insert_at i elem (values l)) in
    Some (if bool_decide (max_size < length (values l'))
          then InsertMsg.SPLIT else InsertMsg.SUCCESS, l').

(** [ExternalNode::remove_elem] *)
Definition External_remove_elem (l : ExternalNode) (elem : key_type)
    : option (EraseMsg.t * ExternalNode) :=
  i ← External_find_pos l elem;
  if bool_decide (i = -1)%Z then Some (EraseMsg.NOT_EXISTENT, l)
  else
    let l' := set_values l (delete (Z.to_nat i) (values l)) in
    Some (if bool_decide (length (values l') < min_size)
          then EraseMsg.MERGE else EraseMsg.SUCCESS, l').

(** ** Virtual members of [Node] *)

(** [Node::type] *)
Definition type (n : Node) : option NodeType :=
  match n with
  | Null => None
  | External _ => Some EXTERNAL
  | Internal _ _ => Some INTERNAL
  end.

(** [p->node_size] *)
Definition node_size (h : store) (n : Node) : option nat :=
  match n with
  | Null => None
  | External a => l ← h !! a; Some (length (values l))
  | Internal vals _ => Some (length vals)
  end.

(** [children[i]->node_size] *)
Definition child_size (h : store) (cs : list Node) (i : nat) : option nat :=
  c ← cs !! i; node_size h c.

(** [InternalNode::find_pos] *)
Definition Internal_find_pos (vals : list key_type) (elem : key_type) : nat :=
  first_greater elem vals.

(** [Node::count] *)
Fixpoint count (n : Node) (key : key_type) (h : store) : option bool :=
  match n with
  | Null => None
  | External a => l ← h !! a; External_count l key
  | Internal vals cs =>
    at_child (λ c, count c key h) cs (Internal_find_pos vals key)
  end.

(** [Node::find] *)
Fixpoint find (n : Node) (key : key_type) (h : store) : option Iterator :=
  match n with
  | Null => None
  | External a => l ← h !! a; External_find a l key
  | Internal vals cs =>
    at_child (λ c, find c key h) cs (Internal_find_pos vals key)
  end.

(** The destructor chain started by [delete p]: [~InternalNode] deletes
    [children[0 .. node_size]] in turn ([delete_each], [k] slots to go),
    [~Node] releases the key array. Deleting a leaf that is not allocated
    is undefined. *)
Definition delete_each (del : Node → store → option store)
    : list Node → nat → store → option store :=
  fix go cs k h :=
    match cs with
    | [] => match k with O => Some h | S _ => None end
    | c :: cs' =>
      match k with
      | O => Some h
      | S k' => h' ← del c h; go cs' k' h'
      end
    end.

Fixpoint delete_node (n : Node) (h : store) : option store :=
  match n with
  | Null => Some h
  | External a => _ ← h !! a; Some (delete a h)
  | Internal vals cs => delete_each delete_node cs (S (length vals)) h
  end.

(** *** [InternalNode::split] *)

(** [case NodeType::EXTERNAL], the child being the leaf at [a]. *)
Definition split_external (vals : list key_type) (cs : list Node) (pos : nat)
    (a : addr) (h : store) : option (Node * store) :=
  child ← h !! a;
  let half := length (values child) / 2 in
  (* right_split_e = new ExternalNode {children[pos], children[pos]->right_neighbour} *)
  let r := fresh (dom h) in
  (* for (; e <= half; ++e) right_split_e->values[e] = children[pos]->values[e + half] *)
  rvals ← mapM (λ e, values child !! (e + half)) (seq 0 (S half));
  let h := <[r := mkExternal rvals (Some a) (right_neighbour child)]> h in
  (* children[pos]->node_size /= 2 *)
  let h := <[a := set_values child (take half (values child))]> h in
  (* children[pos]->right_neighbour->left_neighbour = right_split_e, unless null *)
  h ← match right_neighbour child with
      | Some b => nb ← h !! b; Some (<[b := set_left nb (Some r)]> h)
      | None => Some h
      end;
  (* children[pos]->right_neighbour = right_split_e *)
  child ← h !! a;
  let h := <[a := set_right child (Some r)]> h in
  (* values[pos] = right_split_e->values[0]; children[pos + 1] = right_split_e *)
  k ← rvals !! 0;
  Some (Internal (insert_at pos k vals) (insert_at (S pos) (External r) cs), h).

(** [case NodeType::INTERNAL], the child being [Internal cvals ccs]. *)
Definition split_internal (vals : list key_type) (cs : list Node) (pos : nat)
    (cvals : list key_type) (ccs : list Node) : option Node :=
  let half := length cvals / 2 in
  new_key ← cvals !! half;
  rvals ← mapM (λ i, cvals !! (i + half + 1)) (seq 0 half);
  rcs ← mapM (λ i, ccs !! (i + half + 1)) (seq 0 (S half));
  let left := Internal (take half cvals) (take (S half) ccs) in
  Some (Internal (insert_at pos new_key vals)
                 (insert_at (S pos) (Internal rvals rcs) (<[pos := left]> cs))).

(** [ExternalNode::split] only traces; [InternalNode::split] dispatches on
    the kind of [children[pos]]. *)
Definition split (this : Node) (pos : nat) (h : store) : option (Node * store) :=
  match this with
  | Null => None
  | External _ => Some (this, h)
  | Internal vals cs =>
    child ← cs !! pos;
    match child with
    | Null => None
    | External a => split_external vals cs pos a h
    | Internal cvals ccs => n ← split_internal vals cs pos cvals ccs; Some (n, h)
    end
  end.

(** [Node::add_elem] *)
Fixpoint add_elem (n : Node) (elem : key_type) (h : store)
    : option (InsertMsg.t * Node * store) :=
  match n with
  | Null => None
  | External a =>
    l ← h !! a;
    '(msg, l') ← External_add_elem l elem;
    Some (msg, External a, <[a := l']> h)
  | Internal vals cs =>
    let pos := Internal_find_pos vals elem in
    '(result, c, h) ← at_child (λ c, add_elem c elem h) cs pos;
    let this := Internal vals (<[pos := c]> cs) in
    if bool_decide (result = InsertMsg.SPLIT) then
      '(this, h) ← split this pos h;
      sz ← node_size h this;
      Some (if bool_decide (sz ≤ max_size) then InsertMsg.SUCCESS else result, this, h)
    else Some (result, this, h)
  end.

(** *** [InternalNode::merge] *)

(** The choice of [direction] at the head of [merge]. *)
Definition merge_direction (h : store) (vals : list key_type) (cs : list Node)
    (pos : nat) : option MergeDirection :=
  if bool_decide (pos = length vals) then Some LEFT
  else if bool_decide (pos ≠ 0) then
    p ← index_before pos;
    l ← child_size h cs p;
    r ← child_size h cs (pos + 1);
    Some (if bool_decide (l < r) then LEFT else RIGHT)
  else Some RIGHT.

(** The guard of the first "move one key" block (a key comes from
    [children[pos + 1]]). *)
Definition take_from_right (h : store) (vals : list key_type) (cs : list Node)
    (pos : nat) (direction : MergeDirection) : option bool :=
  if bool_decide (pos = 0)
     || (bool_decide (direction = LEFT) && bool_decide (pos < length vals))
  then r ← child_size h cs (pos + 1); Some (bool_decide (min_size < r))
  else Some false.

(** The guard of the second "move one key" block (a key comes from
    [children[pos - 1]]). *)
Definition take_from_left (h : store) (vals : list key_type) (cs : list Node)
    (pos : nat) (direction : MergeDirection) : option bool :=
  if bool_decide (pos = length vals)
     || (bool_decide (direction = RIGHT) && bool_decide (0 < pos))
  then p ← index_before pos; l ← child_size h cs p; Some (bool_decide (min_size < l))
  else Some false.

(** First block; the child and its right sibling have the same kind in a
    tree (all leaves are at one depth). Siblings of different kinds are left
    undefined here. *)
Definition move_from_right (vals : list key_type) (cs : list Node) (pos : nat)
    (h : store) : option (Node * store) :=
  child ← cs !! pos;
  sib ← cs !! (pos + 1);
  match child, sib with
  | External a, External b =>
    c ← h !! a;
    s ← h !! b;
    (* children[pos]->values[size] = children[pos + 1]->values[0] *)
    x ← values s !! 0;
    let h := <[a := set_values c (values c ++ [x])]> h in
    (* shift children[pos + 1] down by one *)
    let h := <[b := set_values s (drop 1 (values s))]> h in
    (* values[pos] = children[pos + 1]->values[0] *)
    y ← drop 1 (values s) !! 0;
    Some (Internal (<[pos := y]> vals) cs, h)
  | Internal cv cc, Internal rv rc =>
    v ← vals !! pos;
    r0 ← rv !! 0;
    c0 ← rc !! 0;
    let child' := Internal (cv ++ [v]) (cc ++ [c0]) in
    let sib' := Internal (drop 1 rv) (drop 1 rc) in
    Some (Internal (<[pos := r0]> vals)
                   (<[pos + 1 := sib']> (<[pos := child']> cs)), h)
  | _, _ => None
  end.

(** Second block. *)
Definition move_from_left (vals : list key_type) (cs : list Node) (pos : nat)
    (h : store) : option (Node * store) :=
  p ← index_before pos;
  child ← cs !! pos;
  sib ← cs !! p;
  match child, sib with
  | External a, External b =>
    c ← h !! a;
    s ← h !! b;
    (* values[0] of the child = last key of children[pos - 1] *)
    x ← last (values s);
    let h := <[a := set_values c (x :: values c)]> h in
    let h := <[b := set_values s (take (length (values s) - 1) (values s))]> h in
    (* values[pos - 1] = children[pos]->values[0] *)
    Some (Internal (<[p := x]> vals) cs, h)
  | Internal cv cc, Internal lv lc =>
    v ← vals !! p;
    l_last ← last lv;
    c_last ← lc !! length lv;
    let child' := Internal (v :: cv) (c_last :: cc) in
    let sib' := Internal (take (length lv - 1) lv) (take (length lv) lc) in
    Some (Internal (<[p := l_last]> vals)
                   (<[p := sib']> (<[pos := child']> cs)), h)
  | _, _ => None
  end.

(** Fusing two adjacent leaves: [dst] takes the keys of [src], its right
    neighbour, and [src] is deleted. *)
Definition fuse_external (dst src : addr) (h : store) : option store :=
  d ← h !! dst;
  s ← h !! src;
  let h := <[dst := mkExternal (values d ++ values s) (left_neighbour d)
                               (right_neighbour s)]> h in
  h ← match right_neighbour s with
      | Some c => nb ← h !! c; Some (<[c := set_left nb (Some dst)]> h)
      | None => Some h
      end;
  _ ← h !! src;
  Some (delete src h).

(** Fusing two adjacent children [dst] (left) and [src] (right) of the same
    kind; [v] is the separator pulled down between internal nodes. The
    emptied internal [src] is deleted after [node_size = 0] and
    [children[0] = nullptr]. *)
Definition fuse (dst src : Node) (v : key_type) (h : store)
    : option (Node * store) :=
  match dst, src with
  | External b, External a => h ← fuse_external b a h; Some (External b, h)
  | Internal dv dc, Internal sv sc =>
    h ← delete_node (Internal [] (<[0 := Null]> sc)) h;
    Some (Internal (dv ++ v :: sv) (dc ++ sc), h)
  | _, _ => None
  end.

(** The tail of both fuse cases: [if (children[p]->node_size > max_size)
    split(p)]. *)
Definition split_if_oversize (this : Node) (p : nat) (h : store)
    : option (Node * store) :=
  match this with
  | Internal vals cs =>
    s ← child_size h cs p;
    if bool_decide (max_size < s) then split this p h else Some (this, h)
  | _ => None
  end.

(** [case MergeDirection::LEFT] up to [--node_size]. *)
Definition fuse_left (vals : list key_type) (cs : list Node) (pos : nat)
    (h : store) : option (Node * store) :=
  p ← index_before pos;
  child ← cs !! pos;
  sib ← cs !! p;
  v ← vals !! p;
  '(fused, h) ← fuse sib child v h;
  let cs := <[p := fused]> cs in
  let size := length vals in
  (* for (j = pos; j < node_size - 1; ++j)
       { values[j - 1] = values[j]; children[j] = children[j + 1]; }
     children[j] = children[j + 1]; --node_size; *)
  Some (Internal (take (size - 1) (shift_down pos (size - 1) vals))
                 (take size (shift_down (S pos) (S size) cs)), h).

(** [case MergeDirection::RIGHT] up to [--node_size]. *)
Definition fuse_right (vals : list key_type) (cs : list Node) (pos : nat)
    (h : store) : option (Node * store) :=
  child ← cs !! pos;
  sib ← cs !! (pos + 1);
  v ← vals !! pos;
  '(fused, h) ← fuse child sib v h;
  let cs := <[pos := fused]> cs in
  let size := length vals in
  (* for (j = pos + 1; j < node_size; ++j)
       { values[j - 1] = values[j]; children[j] = children[j + 1]; }
     children[j] = children[j + 1]; --node_size; *)
  Some (Internal (take (size - 1) (shift_down (S pos) size vals))
                 (take size (shift_down (S (S pos)) (S size) cs)), h).

(** The four blocks of [merge]. *)
Inductive MergeAction := MOVE_FROM_RIGHT | MOVE_FROM_LEFT | FUSE_LEFT | FUSE_RIGHT.

#[global] Instance MergeAction_eq_dec : EqDecision MergeAction.
Proof. solve_decision. Defined.

(** The block [merge] runs: the first "move one key" block whose guard
    holds, else the case of [switch (direction)]. The guards are the same
    for a leaf and an internal child. *)
Definition merge_action (h : store) (vals : list key_type) (cs : list Node)
    (pos : nat) : option MergeAction :=
  direction ← merge_direction h vals cs pos;
  child ← cs !! pos;
  _ ← type child;
  from_right ← take_from_right h vals cs pos direction;
  if from_right : bool then Some MOVE_FROM_RIGHT
  else
    from_left ← take_from_left h vals cs pos direction;
    if from_left : bool then Some MOVE_FROM_LEFT
    else Some (match direction with LEFT => FUSE_LEFT | RIGHT => FUSE_RIGHT end).

(** [InternalNode::merge] *)
Definition merge (this : Node) (pos : nat) (h : store) : option (Node * store) :=
  match this with
  | Internal vals cs =>
    action ← merge_action h vals cs pos;
    match action with
    | MOVE_FROM_RIGHT => move_from_right vals cs pos h
    | MOVE_FROM_LEFT => move_from_left vals cs pos h
    | FUSE_LEFT =>
      '(this, h) ← fuse_left vals cs pos h;
      p ← index_before pos;
      split_if_oversize this p h
    | FUSE_RIGHT =>
      '(this, h) ← fuse_right vals cs pos h;
      split_if_oversize this pos h
    end
  | _ => None
  end.

(** [Node::remove_elem] *)
Fixpoint remove_elem (n : Node) (elem : key_type) (h : store)
    : option (EraseMsg.t * Node * store) :=
  match n with
  | Null => None
  | External a =>
    l ← h !! a;
    '(msg, l') ← External_remove_elem l elem;
    Some (msg, External a, <[a := l']> h)
  | Internal vals cs =>
    let pos := Internal_find_pos vals elem in
    '(result, c, h) ← at_child (λ c, remove_elem c elem h) cs pos;
    let this := Internal vals (<[pos := c]> cs) in
    if bool_decide (result = EraseMsg.MERGE) then
      '(this, h) ← merge this pos h;
      sz ← node_size h this;
      Some (if bool_decide (min_size ≤ sz) then EraseMsg.SUCCESS else result, this, h)
    else Some (result, this, h)
  end.

(** ** The container *)

Record ADS_set := mkSet {
  sz : nat;
  root : Node;
  left_leaf : option addr;
  heap : store
}.

(** [ADS_set()] *)
Definition ADS_set_new : ADS_set :=
  let a := fresh (dom (∅ : store)) in
  mkSet 0 (External a) (Some a) {[ a := mkExternal [] None None ]}.

Definition size (s : ADS_set) : nat := sz s.
Definition empty (s : ADS_set) : bool := bool_decide (sz s = 0).

(** [ADS_set::find] *)
Definition ADS_find (s : ADS_set) (key : key_type) : option Iterator :=
  find (root s) key (heap s).

(** [ADS_set::count] *)
Definition ADS_count (s : ADS_set) (key : key_type) : option nat :=
  b ← count (root s) key (heap s); Some (if b : bool then 1 else 0).

(** [ADS_set::insert(const key_type &)] *)
Definition insert (s : ADS_set) (key : key_type)
    : option (Iterator * bool * ADS_set) :=
  '(msg, r, h) ← add_elem (root s) key (heap s);
  match msg with
  | InsertMsg.EXISTS =>
    let s' := mkSet (sz s) r (left_leaf s) h in
    it ← ADS_find s' key; Some (it, false, s')
  | InsertMsg.SUCCESS =>
    let s' := mkSet (S (sz s)) r (left_leaf s) h in
    it ← ADS_find s' key; Some (it, true, s')
  | InsertMsg.SPLIT =>
    (* new_root->children[0] = root; root = new_root; root->split(0) *)
    '(r, h) ← split (Internal [] [r]) 0 h;
    let s' := mkSet (S (sz s)) r (left_leaf s) h in
    it ← ADS_find s' key; Some (it, true, s')
  end.

(** [ADS_set::erase] *)
Definition erase (s : ADS_set) (key : key_type) : option (nat * ADS_set) :=
  '(msg, r, h) ← remove_elem (root s) key (heap s);
  match msg with
  | EraseMsg.SUCCESS => Some (1, mkSet (sz s - 1) r (left_leaf s) h)
  | EraseMsg.NOT_EXISTENT => Some (0, mkSet (sz s) r (left_leaf s) h)
  | EraseMsg.MERGE =>
    ty ← type r;
    rs ← node_size h r;
    '(r, h) ← (if bool_decide (ty = INTERNAL) && bool_decide (rs = 0) then
                 match r with
                 | Internal vals cs =>
                   new_root ← cs !! 0;
                   h ← delete_node (Internal vals (<[0 := Null]> cs)) h;
                   Some (new_root, h)
                 | _ => None
                 end
               else Some (r, h));
    Some (1, mkSet (sz s - 1) r (left_leaf s) h)
  end.

(** [ADS_set::clear] *)
Definition clear (s : ADS_set) : option ADS_set :=
  h ← delete_node (root s) (heap s);
  let a := fresh (dom h) in
  Some (mkSet 0 (External a) (Some a) (<[a := mkExternal [] None None]> h)).

(** [ADS_set::begin], [ADS_set::end] *)
Definition begin (s : ADS_set) : Iterator :=
  if bool_decide (sz s = 0) then Iterator_end else mkIterator (left_leaf s) 0.
Definition end_ (s : ADS_set) : Iterator := Iterator_end.

(** [Iterator::operator*] *)
Definition Iterator_deref (h : store) (it : Iterator) : option key_type :=
  a ← current_node it; l ← h !! a; values l !! current_element it.

(** [Iterator::operator++] *)
Definition Iterator_incr (h : store) (it : Iterator) : option Iterator :=
  match current_node it with
  | None => Some it
  | Some a =>
    l ← h !! a;
    Some (if bool_decide (length (values l) ≤ S (current_element it))
          then mkIterator (right_neighbour l) 0
          else mkIterator (Some a) (S (current_element it)))
  end.

(** A loop [for (it = first; it != last; ++it)] that reads the key under
    [it] in its body: the keys read, in order. [fuel] bounds the number of
    steps. *)
Fixpoint iterate (fuel : nat) (h : store) (first last : Iterator)
    : option (list key_type) :=
  if bool_decide (first = last) then Some []
  else
    match fuel with
    | O => None
    | S fuel' =>
      k ← Iterator_deref h first;
      next ← Iterator_incr h first;
      rest ← iterate fuel' h next last;
      Some (k :: rest)
    end.

Definition traverse (fuel : nat) (s : ADS_set) : option (list key_type) :=
  iterate fuel (heap s) (begin s) (end_ s).

End ADS_set.

(** ** Copy assignment

    [operator=(const ADS_set &other)] takes [other] by reference, so the
    two containers are named by their places in a table of objects; [this]
    and [other] may be the same place. *)

Abbreviation objects := (gmap nat ADS_set).

(** [insert(InputIt first, InputIt last)] called on [this] with iterators
    into [other]: each step reads [other] as it is at that moment. *)
Fixpoint insert_range (N : nat) (fuel : nat) (objs : objects) (this other : nat)
    (first last : Iterator) : option objects :=
  if bool_decide (first = last) then Some objs
  else
    match fuel with
    | O => None
    | S fuel' =>
      o ← objs !! other;
      k ← Iterator_deref (heap o) first;
      t ← objs !! this;
      '(_, _, t') ← insert N t k;
      let objs := <[this := t']> objs in
      o ← objs !! other;
      next ← Iterator_incr (heap o) first;
      insert_range N fuel' objs this other next last
    end.

(** [ADS_set &operator=(const ADS_set &other)] *)
Definition assign (N : nat) (fuel : nat) (objs : objects) (this other : nat)
    : option objects :=
  t ← objs !! this;
  t' ← clear t;
  let objs := <[this := t']> objs in
  o ← objs !! other;
  insert_range N fuel objs this other (begin o) (end_ o).

(** ** Sequences of public operations *)

Inductive Op :=
| OpInsert (k : key_type)
| OpErase (k : key_type)
| OpClear.

Definition step (N : nat) (s : ADS_set) (o : Op) : option ADS_set :=
  match o with
  | OpInsert k => '(_, _, s') ← insert N s k; Some s'
  | OpErase k => '(_, s') ← erase N s k; Some s'
  | OpClear => clear s
  end.

Fixpoint run (N : nat) (s : ADS_set) (ops : list Op) : option ADS_set :=
  match ops with
  | [] => Some s
  | o :: ops' => s' ← step N s o; run N s' ops'
  end.

(** The states a container can be in: those some sequence of inserts,
    erases and clears produces from the freshly constructed container
    (the other constructors are the default one followed by inserts). *)
Definition reachable (N : nat) (s : ADS_set) : Prop :=
  ∃ ops, run N ADS_set_new ops = Some s.

(** ** What a tree holds *)

(** The keys of the leaf at [a]. *)
Definition vals_at (h : store) (a : addr) : list key_type :=
  match h !! a with Some l => values l | None => [] end.

(** The leaves below a node, left to right. *)
Fixpoint leaves (n : Node) : list addr :=
  match n with
  | Null => []
  | External a => [a]
  | Internal _ cs => cs ≫= leaves
  end.

(** The keys stored below a node, by descent through the children from
    left to right. *)
Definition keys (h : store) (n : Node) : list key_type :=
  leaves n ≫= vals_at h.

Definition stored (s : ADS_set) : list key_type := keys (heap s) (root s).

(** The nodes of a subtree, and those strictly below its top. *)
Fixpoint nodes (n : Node) : list Node :=
  n :: match n with
       | Internal _ cs => cs ≫= nodes
       | _ => []
       end.

Definition nodes_below (n : Node) : list Node :=
  match n with
  | Internal _ cs => cs ≫= nodes
  | _ => []
  end.

(** Length of the leftmost path. *)
Fixpoint height (n : Node) : nat :=
  match n with
  | Null => 0
  | External _ => 1
  | Internal _ cs => S (match cs with c :: _ => height c | [] => 0 end)
  end.

(** P1: every node but the root holds between [N] and [2N] keys. *)
Definition fill_ok (N : nat) (s : ADS_set) : Prop :=
  ∀ m, m ∈ nodes_below (root s) →
    ∃ k, node_size (heap s) m = Some k ∧ N ≤ k ≤ 2 * N.

(** ** Invariants *)

(** The in-order reading of a subtree, keys and separators together, on one
    scale: a key [k] stands at [2k + 1] and a separator [v] at [2v], so that
    "[k < v]" and "[v <= k]" are both "strictly before". *)
Definition kcode (k : key_type) : Z := (2 * k + 1)%Z.
Definition scode (v : key_type) : Z := (2 * v)%Z.

Fixpoint weave (ss : list Z) (ts : list (list Z)) : list Z :=
  match ss, ts with
  | s :: ss', t :: ts' => s :: t ++ weave ss' ts'
  | _, _ => []
  end.

Definition inorder (ts : list (list Z)) (ss : list Z) : list Z :=
  match ts with
  | [] => []
  | t :: ts' => t ++ weave ss ts'
  end.

(** The part of an in-order reading before a given child. *)
Fixpoint pre (ts : list (list Z)) (ss : list Z) : list Z :=
  match ts, ss with
  | t :: ts', s :: ss' => t ++ s :: pre ts' ss'
  | _, _ => []
  end.

Fixpoint trace (h : store) (n : Node) : list Z :=
  match n with
  | Null => []
  | External a => kcode <$> vals_at h a
  | Internal vals cs => inorder (trace h <$> cs) (scode <$> vals)
  end.

(** A subtree of depth [d] whose top holds between [mn] and [mx] keys and
    whose other nodes hold between [N] and [2N]; every internal node has one
    child more than keys, every leaf is allocated. *)
Fixpoint shape (N : nat) (h : store) (d : nat) (mn mx : nat) (n : Node) : Prop :=
  match d with
  | O => ∃ a l, n = External a ∧ h !! a = Some l ∧ mn ≤ length (values l) ≤ mx
  | S d' =>
    ∃ vals cs, n = Internal vals cs ∧ length cs = S (length vals) ∧
      mn ≤ length vals ≤ mx ∧ Forall (shape N h d' N (N * 2)) cs
  end.

(** The leaves [L], in this order, are doubly linked, [prev] before the
    first and [next] after the last. *)
Fixpoint chain (h : store) (prev : option addr) (L : list addr)
    (next : option addr) : Prop :=
  match L with
  | [] => True
  | a :: L' =>
    ∃ l, h !! a = Some l ∧ left_neighbour l = prev ∧
      right_neighbour l = from_option Some next (head L') ∧
      chain h (Some a) L' next
  end.

(** Fewest keys a root of depth [d] holds. *)
Definition root_min (d : nat) : nat := match d with O => 0 | S _ => 1 end.

Record Inv_at (N : nat) (d : nat) (s : ADS_set) : Prop := mkInv {
  inv_shape : shape N (heap s) d (root_min d) (N * 2) (root s);
  inv_sorted : StronglySorted Z.lt (trace (heap s) (root s));
  inv_chain : chain (heap s) None (leaves (root s)) None;
  inv_nodup : NoDup (leaves (root s));
  inv_left : left_leaf s = head (leaves (root s));
  inv_size : sz s = length (stored s)
}.

Definition Inv (N : nat) (s : ADS_set) : Prop := ∃ d, Inv_at N d s.

(** A subtree as a part of the whole tree: [tp] and [tq] are the in-order
    reading before and after it, [lp] and [lq] the leaves before and after
    it. *)
Definition in_ctx (h : store) (n : Node) (tp tq : list Z) (lp lq : list positive)
    : Prop :=
  StronglySorted Z.lt (tp ++ trace h n ++ tq) ∧
  chain h None (lp ++ leaves n ++ lq) None ∧
  NoDup (lp ++ leaves n ++ lq).

(** The keys of the leaves [L] are the same in [h'] as in [h]. *)
Definition same_keys (h h' : store) (L : list positive) : Prop :=
  ∀ x, x ∈ L → values <$> h' !! x = values <$> h !! x.

(** The links of the leaves [L] are the same in [h'] as in [h]. *)
Definition same_links (h h' : store) (L : list positive) : Prop :=
  ∀ x, x ∈ L →
    (λ l, (left_neighbour l, right_neighbour l)) <$> h' !! x
    = (λ l, (left_neighbour l, right_neighbour l)) <$> h !! x.

(** ** Vocabulary of the proofs *)

(** The codes of keys in a reading are the odd numbers. *)
Definition is_kcode (x : Z) : Prop := Z.odd x = true.
#[global] Instance is_kcode_dec x : Decision (is_kcode x).
Proof. unfold is_kcode. apply _. Defined.

(** The keys of the leaves [L], in their order. *)
Definition keys_of (h : store) (L : list positive) : list Z := L ≫= vals_at h.

(** [k'] is [k] with [e] put in at some place; [k'] is [k] with one [e]
    taken out. *)
Definition keys_ins (e : Z) (k k' : list Z) : Prop :=
  ∃ k1 k2, k = k1 ++ k2 ∧ k' = k1 ++ e :: k2.
Definition keys_del (e : Z) (k k' : list Z) : Prop := keys_ins e k' k.

(** What an update of the subtree [n] into [n'] leaves behind: the subtree
    fits its context again, its keys changed by [R], its first leaf is the
    same. *)
Definition updated (R : list Z → list Z → Prop) (h h' : store) (n n' : Node)
    (tp tq : list Z) (lp lq : list positive) : Prop :=
  in_ctx h' n' tp tq lp lq ∧ R (keys h n) (keys h' n') ∧
  head (leaves n') = head (leaves n).

Definition grown (h h' : store) (n n' : Node) (e : Z) :=
  updated (keys_ins e) h h' n n'.
Definition shrunk (h h' : store) (n n' : Node) (e : Z) :=
  updated (keys_del e) h h' n n'.

Definition in_context (R : list Z → list Z → Prop) : Prop :=
  ∀ K1 K2 k k', R k k' → R (K1 ++ k ++ K2) (K1 ++ k' ++ K2).

(** What [merge] leaves: a parent [new] of [k] keys over well-formed children
    of depth [d], reading as [old] did, in the same context. *)
Definition merged_to (N : nat) (h h' : store) (d : nat) (old new : Node) (k : nat)
    (tp tq : list Z) (lp lq : list positive) : Prop :=
  (∃ vals' cs', new = Internal vals' cs' ∧ length vals' = k ∧ length cs' = S k ∧
     Forall (shape N h' d N (N * 2)) cs') ∧
  in_ctx h' new tp tq lp lq ∧ keys h' new = keys h old ∧
  head (leaves new) = head (leaves old) ∧ same_keys h h' (lp ++ lq).

(** The size of a fused child. *)
Definition fused_size (N d : nat) : nat :=
  match d with O => N * 2 - 1 | S _ => N * 2 end.

(** ** The sibling [merge] works with *)

(** The side of the sibling a block of [merge] takes a key from or fuses
    with. *)
Definition sibling_used (act : MergeAction) : MergeDirection :=
  match act with
  | MOVE_FROM_RIGHT | FUSE_RIGHT => RIGHT
  | MOVE_FROM_LEFT | FUSE_LEFT => LEFT
  end.

(** The choice as the specification words it: the sibling with the larger
    size, ties toward the right, the only sibling at the two edges. [l] and
    [r] are the sizes of the children at [pos - 1] and [pos + 1], [len] the
    number of keys of the parent. *)
Definition spec_sibling (pos len l r : nat) : MergeDirection :=
  if bool_decide (pos = 0) then RIGHT
  else if bool_decide (pos = len) then LEFT
  else if bool_decide (r < l) then LEFT else RIGHT.

(** The keys of each leaf of a container, leaf by leaf. *)
Definition leaf_keys (s : ADS_set) : list (list key_type) :=
  vals_at (heap s) <$> leaves (root s).

(** The container a sequence of operations on a new container leaves (the
    new container itself where an operation is undefined). *)
Definition state_after (N : nat) (ops : list Op) : ADS_set :=
  default ADS_set_new (run N ADS_set_new ops).

(** ** Two small trees

    With [N = 1]: a parent of three leaves whose middle leaf has just lost
    its only key, between two leaves of two keys each; and a parent of two
    leaves, the right one emptied, beside a leaf of one key. *)
Definition tie_store : store :=
  <[1%positive := mkExternal [0; 1]%Z None (Some 2%positive)]>
    (<[2%positive := mkExternal [] (Some 1%positive) (Some 3%positive)]>
       (<[3%positive := mkExternal [3; 4]%Z (Some 2%positive) None]> ∅)).
Definition tie_children : list Node :=
  [External 1%positive; External 2%positive; External 3%positive].

Definition fuse_store : store :=
  <[1%positive := mkExternal [1]%Z None (Some 2%positive)]>
    (<[2%positive := mkExternal [] (Some 1%positive) None]> ∅).
Definition fuse_children : list Node := [External 1%positive; External 2%positive].

(** The container after [insert 1; insert 2; insert 3; erase 3] with
    [N = 1], and the store [remove_elem] leaves when 2 is erased from it. *)
Definition two_leaves : ADS_set :=
  state_after 1 [OpInsert 1; OpInsert 2; OpInsert 3; OpErase 3]%Z.
Definition two_leaves_fused : store :=
  match remove_elem 1 (root two_leaves) 2 (heap two_leaves) with
  | Some (_, _, h) => h
  | None => ∅
  end.


(** * Further members of [ADS_set] *)

(** [insert(std::initializer_list<key_type>)]:
    [for (const auto &elem : ilist) insert(elem);] *)
Fixpoint insert_list (N : nat) (s : ADS_set) (ilist : list key_type)
    : option ADS_set :=
  match ilist with
  | [] => Some s
  | elem :: rest => '(_, _, s') ← insert N s elem; insert_list N s' rest
  end.

(** [ADS_set(std::initializer_list<key_type>)] (and the constructor from a
    range of keys): [ADS_set()] followed by the loop of inserts. *)
Definition ADS_set_of_list (N : nat) (ilist : list key_type) : option ADS_set :=
  insert_list N ADS_set_new ilist.

(** [operator=(std::initializer_list<key_type>)]: [clear(); insert(ilist);] *)
Definition assign_list (N : nat) (s : ADS_set) (ilist : list key_type)
    : option ADS_set :=
  s' ← clear s; insert_list N s' ilist.

(** [ADS_set(const ADS_set &other)]: [ADS_set()] at the new place [this],
    then [insert(other.begin(), other.end())]. *)
Definition copy_construct (N : nat) (fuel : nat) (objs : objects)
    (this other : nat) : option objects :=
  let objs := <[this := ADS_set_new]> objs in
  o ← objs !! other;
  insert_range N fuel objs this other (begin o) (end_ o).

(** The loop of [operator==]:
    [while (lit != this->end())]: the keys under [lit] and [rit] are compared,
    [false] is returned when they differ, else both iterators advance; at
    the end of the loop [true] is returned, [h] and [rh] being the stores of the two
    containers. Reading [*rit] at the end iterator is undefined. *)
Fixpoint equal_loop (fuel : nat) (h rh : store) (lit rit : Iterator)
    : option bool :=
  if bool_decide (lit = Iterator_end) then Some true
  else
    match fuel with
    | O => None
    | S fuel' =>
      x ← Iterator_deref h lit;
      y ← Iterator_deref rh rit;
      if bool_decide (x = y) then
        lit' ← Iterator_incr h lit;
        rit' ← Iterator_incr rh rit;
        equal_loop fuel' h rh lit' rit'
      else Some false
    end.

(** [ADS_set::operator==] *)
Definition ADS_eq (fuel : nat) (this rhs : ADS_set) : option bool :=
  if bool_decide (sz this ≠ sz rhs) then Some false
  else equal_loop fuel (heap this) (heap rhs) (begin this) (begin rhs).

(** [ADS_set::operator!=] *)
Definition ADS_neq (fuel : nat) (this rhs : ADS_set) : option bool :=
  negb <$> ADS_eq fuel this rhs.

(** [~ADS_set()]: [delete root]. *)
Definition ADS_set_destroy (s : ADS_set) : option store :=
  delete_node (root s) (heap s).

(** ** The set a sequence of operations denotes *)

Definition set_step (S : gset Z) (o : Op) : gset Z :=
  match o with
  | OpInsert k => S ∪ {[ k ]}
  | OpErase k => S ∖ {[ k ]}
  | OpClear => ∅
  end.

Definition set_run (ops : list Op) : gset Z := foldl set_step ∅ ops.

(** ** The depths of the leaves below a node *)

Fixpoint leaf_depths (n : Node) : list nat :=
  match n with
  | Null => []
  | External _ => [0]
  | Internal _ cs => S <$> (cs ≫= leaf_depths)
  end.

(** ** Containers used as examples

    With [N = 1]: a container of the keys 3, 5 and 8, and two places, the
    first holding a container of the keys 7 and 9, the second the former. *)
Definition three_keys : ADS_set :=
  state_after 1 [OpInsert 5; OpInsert 3; OpInsert 8]%Z.
Definition two_places : objects :=
  <[0 := state_after 1 [OpInsert 7; OpInsert 9]%Z]> {[ 1 := three_keys ]}.
Definition one_place : objects := {[ 1 := three_keys ]}.

(** A parent of one internal child with three keys over four leaves. *)
Definition wide_child_keys : list key_type := [10; 20; 30]%Z.
Definition wide_child_children : list Node :=
  [External 1%positive; External 2%positive; External 3%positive; External 4%positive].
Definition wide_parent : Node :=
  Internal [] [Internal wide_child_keys wide_child_children].

(** ** The leaves of the store *)

(** Every allocated leaf is a leaf of the tree. *)
Definition all_in_tree (h : store) (n : Node) : Prop :=
  ∀ x, is_Some (h !! x) → x ∈ leaves n.

(** What an update of the subtree [n] into [n'] does to the store: a leaf
    allocated afterwards is a leaf of [n'], or it was allocated before and is
    no leaf of [n]. *)
Definition footprint (h h' : store) (n n' : Node) : Prop :=
  ∀ x, is_Some (h' !! x) → x ∈ leaves n' ∨ (is_Some (h !! x) ∧ x ∉ leaves n).

(** ** The nodes as objects

    Where a node is released the nodes are the objects of one heap: a leaf
    is the object at its address, an internal node an object that holds its
    keys and the pointers [children[0 .. node_size]] ([node_size] is the
    number of keys, as in [Internal]). *)
Inductive Object :=
| ExternalObject (l : ExternalNode)
| InternalObject (vals : list key_type) (children : list (option addr)).

Abbreviation object_store := (gmap addr Object).

(** The loop of [~InternalNode]: [for (i = 0; i <= node_size; ++i)
    delete children[i];], [k] slots to go. *)
Definition delete_children (del : option addr → object_store → option object_store)
    : list (option addr) → nat → object_store → option object_store :=
  fix go cs k os :=
    match cs with
    | [] => match k with O => Some os | S _ => None end
    | c :: cs' =>
      match k with
      | O => Some os
      | S k' => os' ← del c os; go cs' k' os'
      end
    end.

(** [delete p]: nothing for [nullptr]; else the destructor of the object
    runs ([~InternalNode] deletes the children, [~Node] the key array) and the
    object is released. Deleting what is not allocated is undefined. [fuel]
    bounds the depth of the chain of destructors. *)
Fixpoint delete_object (fuel : nat) (p : option addr) (os : object_store)
    : option object_store :=
  match p with
  | None => Some os
  | Some a =>
    match fuel with
    | O => None
    | S fuel' =>
      o ← os !! a;
      match o with
      | ExternalObject _ => Some (delete a os)
      | InternalObject vals children =>
        os ← delete_children (delete_object fuel') children (S (length vals)) os;
        _ ← os !! a;
        Some (delete a os)
      end
    end
  end.

(** The members of [ADS_set], the nodes being objects. *)
Record ObjectSet := mkObjectSet {
  osz : nat;
  oroot : option addr;
  oleft_leaf : option addr;
  objs : object_store
}.

(** [ADS_set::erase] from the [switch] on: [root->remove_elem(key)] has
    answered [result] and left the objects of [t]. *)
Definition erase_on_objects (fuel : nat) (result : EraseMsg.t) (t : ObjectSet)
    : option (nat * ObjectSet) :=
  match result with
  | EraseMsg.SUCCESS =>
    Some (1, mkObjectSet (osz t - 1) (oroot t) (oleft_leaf t) (objs t))
  | EraseMsg.NOT_EXISTENT => Some (0, t)
  | EraseMsg.MERGE =>
    r ← oroot t;
    o ← objs t !! r;
    t ← match o with
        | InternalObject [] children =>
          (* root->type() == INTERNAL && root->node_size == 0 *)
          new_root ← children !! 0;
          (* root->children[0] = nullptr; delete root; root = new_root *)
          let os := <[r := InternalObject [] (<[0 := None]> children)]> (objs t) in
          os ← delete_object fuel (Some r) os;
          Some (mkObjectSet (osz t) new_root (oleft_leaf t) os)
        | _ => Some t
        end;
    Some (1, mkObjectSet (osz t - 1) (oroot t) (oleft_leaf t) (objs t))
  end.

(** The pointer [p] into the objects [os] stands for the subtree [n] over
    the leaves of [h]: each leaf is the object at its address, each internal
    node an object with its keys and the pointers to its children. *)
Fixpoint represents (os : object_store) (h : store) (p : option addr) (n : Node)
    : Prop :=
  match n with
  | Null => p = None
  | External a => p = Some a ∧ ∃ l, h !! a = Some l ∧ os !! a = Some (ExternalObject l)
  | Internal vals cs =>
    ∃ a ptrs, p = Some a ∧ os !! a = Some (InternalObject vals ptrs) ∧
      (fix all (ptrs : list (option addr)) (cs : list Node) {struct cs} : Prop :=
         match ptrs, cs with
         | [], [] => True
         | q :: ptrs', c :: cs' => represents os h q c ∧ all ptrs' cs'
         | _, _ => False
         end) ptrs cs
  end.

(** The objects [remove_elem] leaves when 2 is erased from [two_leaves]: the
    fused leaf at its address, and the root, an internal node without keys,
    at another. *)
Definition two_leaves_objects : ObjectSet :=
  mkObjectSet 2 (Some 7%positive) (Some 1%positive)
    (<[7%positive := InternalObject [] [Some 1%positive]]>
       (<[1%positive := ExternalObject (mkExternal [1]%Z None None)]> ∅)).


(** * Facts about the array idioms *)

Lemma at_child_lookup {B} (f : Node → option B) cs pos :
  at_child f cs pos = cs !! pos ≫= f.
Proof. revert pos. induction cs as [|c cs IH]; intros [|p]; simpl; auto. Qed.

Section array_idioms.
Context {A : Type}.
Implicit Types l : list A.

Lemma insert_at_middle l1 l2 (x : A) i :
  i = length l1 → insert_at i x (l1 ++ l2) = l1 ++ x :: l2.
Proof.
  intros ->. unfold insert_at. by rewrite take_app_length, drop_app_length.
Qed.

Lemma insert_at_length i (x : A) l : length (insert_at i x l) = S (length l).
Proof.
  unfold insert_at. rewrite length_app. simpl.
  rewrite length_take, length_drop. lia.
Qed.

Lemma list_insert_at_middle l1 l2 (x y : A) i :
  i = length l1 → <[i := y]> (l1 ++ x :: l2) = l1 ++ y :: l2.
Proof.
  intros ->. rewrite insert_app_r_alt by lia.
  by replace (length l1 - length l1) with 0 by lia.
Qed.

Lemma lookup_middle_eq l1 l2 (x : A) i :
  i = length l1 → (l1 ++ x :: l2) !! i = Some x.
Proof. intros ->. by apply list_lookup_middle. Qed.

Lemma lookup_middle_S l1 l2 (x y : A) i :
  i = S (length l1) → (l1 ++ x :: y :: l2) !! i = Some y.
Proof.
  intros ->. rewrite (cons_middle x), app_assoc.
  apply list_lookup_middle. rewrite length_app. simpl. lia.
Qed.

Lemma delete_middle_eq l1 l2 (x : A) i :
  i = length l1 → delete i (l1 ++ x :: l2) = l1 ++ l2.
Proof. intros ->. apply delete_middle. Qed.

Lemma split_at l i (x : A) :
  l !! i = Some x → ∃ l1 l2, l = l1 ++ x :: l2 ∧ length l1 = i.
Proof.
  intros H. exists (take i l), (drop (S i) l). split.
  - by rewrite take_drop_middle.
  - rewrite length_take. apply lookup_lt_Some in H. lia.
Qed.

Lemma mapM_lookup_seq l k i n :
  i + k + n ≤ length l →
  mapM (λ e, l !! (e + k)) (seq i n) = Some (take n (drop (i + k) l)).
Proof.
  revert i. induction n as [|n IH]; intros i Hle; simpl.
  - by rewrite take_0.
  - destruct (lookup_lt_is_Some_2 l (i + k)) as [x Hx]; [lia|].
    rewrite Hx. simpl. rewrite IH by lia. simpl.
    rewrite (drop_S _ _ _ Hx). simpl. do 3 f_equal. 
Qed.

Lemma shift_down_steps l from k :
  1 ≤ from → from + k ≤ length l →
  foldl (λ a j, match a !! j with Some x => <[pred j := x]> a | None => a end)
        l (seq from k)
  = take (from - 1) l ++ take k (drop from l) ++ drop (from + k - 1) l.
Proof.
  intros Hfrom. induction k as [|k IH]; intros Hle.
  - simpl. replace (from + 0 - 1) with (from - 1) by lia.
    by rewrite take_drop.
  - rewrite seq_S, foldl_app, IH by lia. simpl.
    destruct (lookup_lt_is_Some_2 l (from + k)) as [x Hx]; [lia|].
    assert (Hlen : length (take (from - 1) l ++ take k (drop from l)) = from + k - 1).
    { rewrite length_app, !length_take, length_drop. lia. }
    assert (Hd : drop (from + k - 1) l = default x (l !! (from + k - 1)) :: x :: drop (S (from + k)) l).
    { destruct (lookup_lt_is_Some_2 l (from + k - 1)) as [y Hy]; [lia|].
      rewrite Hy. simpl. rewrite (drop_S _ _ _ Hy).
      replace (S (from + k - 1)) with (from + k) by lia.
      by rewrite (drop_S _ _ _ Hx). }
    rewrite Hd, app_assoc.
    rewrite lookup_middle_S by lia.
    rewrite list_insert_at_middle by lia.
    rewrite <- app_assoc. f_equal.
    rewrite (take_S_r _ _ x) by (rewrite lookup_drop; done).
    rewrite <- app_assoc. simpl. do 2 f_equal.
    replace (from + S k - 1) with (from + k) by lia.
    by rewrite (drop_S _ _ _ Hx).
Qed.

Lemma shift_down_nop l from to : to ≤ from → shift_down from to l = l.
Proof. intros H. unfold shift_down. by replace (to - from) with 0 by lia. Qed.

Lemma shift_down_delete l from :
  1 ≤ from → from ≤ length l →
  take (length l - 1) (shift_down from (length l) l) = delete (from - 1) l.
Proof.
  intros H1 H2. unfold shift_down. rewrite shift_down_steps by lia.
  rewrite app_assoc, take_app_length'.
  - rewrite delete_take_drop. f_equal.
    + replace (S (from - 1)) with from by lia.
      rewrite take_ge; [done|]. rewrite length_drop. lia.
  - rewrite length_app, !length_take, length_drop. lia.
Qed.

End array_idioms.

(** * Sorted lists of integers *)

Lemma sorted_lookup_lt (vs : list Z) i j x y :
  StronglySorted Z.lt vs → vs !! i = Some x → vs !! j = Some y → i < j → (x < y)%Z.
Proof.
  intros Hs. revert i j. induction Hs as [|v vs Hs IH Hall]; intros i j Hi Hj Hlt.
  - done.
  - destruct j as [|j]; [lia|]. destruct i as [|i]; simpl in *.
    + injection Hi as ->. rewrite Forall_forall in Hall. apply Hall.
      by eapply list_elem_of_lookup_2.
    + eapply IH; eauto. lia.
Qed.

Lemma sorted_sublist (l1 l2 : list Z) :
  l1 `sublist_of` l2 → StronglySorted Z.lt l2 → StronglySorted Z.lt l1.
Proof.
  induction 1 as [|x l1 l2 Hsub IH|x l1 l2 Hsub IH]; intros Hs.
  - constructor.
  - apply StronglySorted_inv in Hs as [Hs Hall]. constructor; [auto|].
    rewrite Forall_forall in *. intros y Hy. apply Hall.
    by eapply sublist_subseteq.
  - apply StronglySorted_inv in Hs as [Hs _]. auto.
Qed.

Lemma sorted_insert (P Q : list Z) (m : Z) :
  StronglySorted Z.lt (P ++ Q) →
  Forall (λ x, x < m)%Z P → Forall (λ x, m < x)%Z Q →
  StronglySorted Z.lt (P ++ m :: Q).
Proof.
  rewrite !StronglySorted_app, StronglySorted_cons, !Forall_forall.
  intros (H1 & H2 & H3) HP HQ. repeat split; auto.
  intros x1 x2 Hx1 [->|Hx2]%elem_of_cons; auto.
Qed.

Lemma sorted_insert_between (P Q : list Z) (u m w : Z) :
  StronglySorted Z.lt (P ++ u :: w :: Q) → (u < m < w)%Z →
  StronglySorted Z.lt (P ++ u :: m :: w :: Q).
Proof.
  intros Hs Hm.
  replace (P ++ u :: m :: w :: Q) with ((P ++ [u]) ++ m :: w :: Q)
    by (by rewrite <- app_assoc).
  apply sorted_insert.
  - by rewrite <- app_assoc.
  - rewrite StronglySorted_app in Hs. destruct Hs as (H1 & _ & _).
    rewrite Forall_forall. intros x [Hx| ->%list_elem_of_singleton]%elem_of_app.
    + assert (x < u)%Z by (apply H1; [done|by left]). lia.
    + lia.
  - apply StronglySorted_app_1_r in Hs.
    apply StronglySorted_inv in Hs as [Hs _].
    apply StronglySorted_inv in Hs as [_ Hall].
    constructor; [lia|]. eapply Forall_impl; [exact Hall|]. simpl. lia.
Qed.

Lemma sorted_fmap_kcode (vs : list Z) :
  StronglySorted Z.lt (kcode <$> vs) ↔ StronglySorted Z.lt vs.
Proof.
  induction vs as [|v vs IH]; simpl.
  - split; constructor.
  - rewrite !StronglySorted_cons, IH, !Forall_forall.
    split; intros [H1 H2]; split; auto.
    + intros x Hx. assert (kcode v < kcode x)%Z as Hc.
      { apply H1. by apply list_elem_of_fmap_2. }
      unfold kcode in Hc. lia.
    + intros y (x & -> & Hx)%list_elem_of_fmap. specialize (H1 x Hx).
      unfold kcode. lia.
Qed.

(** * The two searches *)

Lemma first_greater_le e vs : first_greater e vs ≤ length vs.
Proof. induction vs; simpl; [lia|]. case_bool_decide; simpl; lia. Qed.

Lemma first_greater_before e vs i v :
  vs !! i = Some v → i < first_greater e vs → (v ≤ e)%Z.
Proof.
  revert i. induction vs as [|w vs IH]; intros i Hi Hlt; [done|].
  simpl in Hlt. case_bool_decide; [lia|].
  destruct i as [|i]; simpl in Hi.
  - injection Hi as ->. lia.
  - eapply IH; eauto. lia.
Qed.

Lemma first_greater_at e vs v :
  vs !! first_greater e vs = Some v → (e < v)%Z.
Proof.
  induction vs as [|w vs IH]; simpl; [done|].
  case_bool_decide; simpl; auto. by intros [= ->].
Qed.

Lemma bsearch_spec vs e :
  StronglySorted Z.lt vs →
  ∀ fuel low high,
    (0 ≤ low)%Z → (high < Z.of_nat (length vs))%Z → (high - low + 1 ≤ Z.of_nat fuel)%Z →
    (∀ i v, vs !! i = Some v → (Z.of_nat i < low)%Z → (v < e)%Z) →
    (∀ i v, vs !! i = Some v → (high < Z.of_nat i)%Z → (e < v)%Z) →
    ∃ r, bsearch fuel vs e low high = Some r ∧
      ((r = -1 ∧ e ∉ vs)%Z ∨ (0 ≤ r ∧ vs !! Z.to_nat r = Some e)%Z).
Proof.
  intros Hs. induction fuel as [|fuel IH]; intros low high Hlow Hhigh Hfuel Hbelow Habove.
  - simpl. case_bool_decide; [lia|]. eexists; split; [done|]. left. split; [done|].
    intros [i Hi]%list_elem_of_lookup_1.
    destruct (decide (Z.of_nat i < low)%Z).
    + specialize (Hbelow _ _ Hi). lia.
    + specialize (Habove i _ Hi). lia.
  - simpl. case_bool_decide as Hle.
    2:{ eexists; split; [done|]. left. split; [done|].
        intros [i Hi]%list_elem_of_lookup_1.
        destruct (decide (Z.of_nat i < low)%Z).
        + specialize (Hbelow _ _ Hi). lia.
        + specialize (Habove i _ Hi). lia. }
    set (mid := (low + (high - low) `quot` 2)%Z).
    assert (Hmid : (low ≤ mid ≤ high)%Z).
    { unfold mid. rewrite Z.quot_div_nonneg by lia.
      assert (0 ≤ (high - low) `div` 2 ≤ high - low)%Z; [|lia].
      split; [apply Z.div_pos; lia|]. apply Z.div_le_upper_bound; lia. }
    destruct (lookup_lt_is_Some_2 vs (Z.to_nat mid)) as [v Hv]; [lia|].
    rewrite Hv. simpl.
    case_bool_decide as Heq.
    { subst v. eexists; split; [done|]. right. split; [lia|done]. }
    case_bool_decide as Hlt.
    + apply IH; try lia.
      * intros i w Hi Hi'. 
        destruct (decide (i = Z.to_nat mid)) as [->|Hne].
        { congruence. }
        assert (w < v)%Z; [|lia].
        eapply (sorted_lookup_lt vs i (Z.to_nat mid)); eauto. lia.
      * intros i w Hi Hi'. apply (Habove i w Hi). lia.
    + apply IH; try lia.
      * intros i w Hi Hi'. apply (Hbelow i w Hi). lia.
      * intros i w Hi Hi'.
        destruct (decide (i = Z.to_nat mid)) as [->|Hne].
        { assert (w = v) by congruence. lia. }
        assert (v < w)%Z; [|lia].
        eapply (sorted_lookup_lt vs (Z.to_nat mid) i); eauto. lia.
Qed.

Lemma External_find_pos_spec l e :
  StronglySorted Z.lt (values l) →
  ∃ r, External_find_pos l e = Some r ∧
    ((r = -1 ∧ e ∉ values l)%Z ∨ (0 ≤ r ∧ values l !! Z.to_nat r = Some e)%Z).
Proof.
  intros Hs. unfold External_find_pos. case_bool_decide as Hlen.
  - eexists; split; [done|]. left. split; [done|].
    destruct (values l); [|done]. apply not_elem_of_nil.
  - apply bsearch_spec; try done; try lia.
    intros i v Hi%lookup_lt_Some. lia.
Qed.

Lemma insert_at_middle_S {A} (l1 l2 : list A) (x y : A) i :
  i = S (length l1) → insert_at i x (l1 ++ y :: l2) = l1 ++ y :: x :: l2.
Proof.
  intros ->. rewrite (cons_middle y), app_assoc.
  rewrite insert_at_middle by (rewrite length_app; simpl; lia).
  by rewrite <- app_assoc.
Qed.

Lemma NoDup_insert_middle {A} (l1 l2 : list A) (x y : A) :
  NoDup (l1 ++ x :: l2) → y ∉ l1 ++ x :: l2 → NoDup (l1 ++ x :: y :: l2).
Proof.
  intros Hnd Hy.
  replace (l1 ++ x :: y :: l2) with ((l1 ++ [x]) ++ y :: l2)
    by (by rewrite <- app_assoc).
  rewrite <- Permutation_middle. apply NoDup_cons.
  by rewrite <- app_assoc.
Qed.

Lemma half_odd m : (2 * m + 1) `div` 2 = m.
Proof. symmetry. apply (Nat.div_unique (2 * m + 1) 2 m 1); lia. Qed.


(** * Induction on nodes *)

Lemma Node_ind_all (P : Node → Prop) :
  P Null → (∀ a, P (External a)) →
  (∀ vals cs, Forall P cs → P (Internal vals cs)) → ∀ n, P n.
Proof.
  intros HNull HExt HInt. fix IH 1. intros [|a|vals cs]; [exact HNull|apply HExt|].
  apply HInt. induction cs as [|c cs IHcs]; constructor; [apply IH|exact IHcs].
Qed.

(** * Interleavings *)

Lemma weave_cons s ss ts : ts ≠ [] → weave (s :: ss) ts = s :: inorder ts ss.
Proof. by destruct ts. Qed.

Lemma inorder_middle ts1 t ts2 ss1 ss2 :
  length ts1 = length ss1 →
  inorder (ts1 ++ t :: ts2) (ss1 ++ ss2) = pre ts1 ss1 ++ t ++ weave ss2 ts2.
Proof.
  revert ss1. induction ts1 as [|t0 ts1 IH]; intros [|s0 ss1] Hlen; try done.
  injection Hlen as Hlen.
  change (inorder ((t0 :: ts1) ++ t :: ts2) ((s0 :: ss1) ++ ss2))
    with (t0 ++ weave (s0 :: (ss1 ++ ss2)) (ts1 ++ t :: ts2)).
  rewrite weave_cons by (by destruct ts1). rewrite IH by done.
  simpl. by rewrite <- app_assoc.
Qed.

Lemma inorder_snoc ts t ss :
  length ts = length ss → inorder (ts ++ [t]) ss = pre ts ss ++ t.
Proof.
  intros Hlen. rewrite <- (app_nil_r ss) at 1.
  rewrite inorder_middle by done. simpl. destruct (ss ++ []); by rewrite ?app_nil_r.
Qed.

Lemma inorder_app ts1 ts2 ss1 s ss2 :
  length ts1 = S (length ss1) → ts2 ≠ [] →
  inorder (ts1 ++ ts2) (ss1 ++ s :: ss2)
  = inorder ts1 ss1 ++ s :: inorder ts2 ss2.
Proof.
  intros Hlen Hne.
  destruct (decide (ts1 = [])) as [->|Hts1]; [done|].
  destruct (exists_last Hts1) as (ts1' & t & ->).
  rewrite length_app in Hlen. simpl in Hlen.
  rewrite <- app_assoc. simpl.
  rewrite inorder_middle, inorder_snoc by lia.
  by rewrite weave_cons, <- app_assoc.
Qed.


Lemma is_kcode_kcode k : is_kcode (kcode k).
Proof.
  unfold is_kcode, kcode. rewrite Z.add_comm, Z.odd_add_mul_2. done.
Qed.

Lemma not_is_kcode_scode v : ¬ is_kcode (scode v).
Proof.
  unfold is_kcode, scode. rewrite <- (Z.add_0_l (2 * v)), Z.odd_add_mul_2. done.
Qed.

Lemma kcode_inj k1 k2 : kcode k1 = kcode k2 → k1 = k2.
Proof. unfold kcode. lia. Qed.

Lemma kcode_ne_scode k v : kcode k ≠ scode v.
Proof. unfold kcode, scode. lia. Qed.

Lemma filter_kcodes (vs : list Z) : filter is_kcode (kcode <$> vs) = kcode <$> vs.
Proof.
  induction vs as [|v vs IH]; [done|].
  rewrite fmap_cons, filter_cons_True by apply is_kcode_kcode. by rewrite IH.
Qed.

Lemma filter_weave (ss : list Z) (ts : list (list Z)) :
  length ts = length ss →
  filter is_kcode (weave (scode <$> ss) ts) = ts ≫= filter is_kcode.
Proof.
  revert ts. induction ss as [|s ss IH]; intros [|t ts] Hlen; try done.
  injection Hlen as Hlen.
  change (weave (scode <$> s :: ss) (t :: ts))
    with (scode s :: t ++ weave (scode <$> ss) ts).
  rewrite filter_cons_False by apply not_is_kcode_scode.
  rewrite filter_app, IH by done. done.
Qed.

Lemma filter_inorder (ss : list Z) (ts : list (list Z)) :
  length ts = S (length ss) →
  filter is_kcode (inorder ts (scode <$> ss)) = ts ≫= filter is_kcode.
Proof.
  destruct ts as [|t ts]; [done|]. intros [= Hlen].
  change (inorder (t :: ts) (scode <$> ss)) with (t ++ weave (scode <$> ss) ts).
  by rewrite filter_app, filter_weave.
Qed.


(** * Leaves, keys and traces of internal nodes *)

Lemma keys_of_app (h : store) (L1 L2 : list positive) :
  keys_of h (L1 ++ L2) = keys_of h L1 ++ keys_of h L2.
Proof. apply bind_app. Qed.

Lemma keys_of_cons (h : store) (a : positive) (L : list positive) :
  keys_of h (a :: L) = vals_at h a ++ keys_of h L.
Proof. done. Qed.

Lemma keys_keys_of h n : keys h n = keys_of h (leaves n).
Proof. done. Qed.

Lemma keys_Internal h vals (cs : list Node) : keys h (Internal vals cs) = cs ≫= keys h.
Proof.
  rewrite keys_keys_of. simpl. induction cs as [|c cs IH]; [done|].
  rewrite !bind_cons, keys_of_app, IH. done.
Qed.

Lemma keys_External h a : keys h (External a) = vals_at h a.
Proof. unfold keys. simpl. by rewrite app_nil_r. Qed.

Lemma leaves_Internal_middle vals (cs1 : list Node) c cs2 :
  leaves (Internal vals (cs1 ++ c :: cs2))
  = (cs1 ≫= leaves) ++ leaves c ++ (cs2 ≫= leaves).
Proof. simpl. by rewrite bind_app, bind_cons. Qed.

Lemma keys_Internal_middle h vals (cs1 : list Node) c cs2 :
  keys h (Internal vals (cs1 ++ c :: cs2))
  = (cs1 ≫= keys h) ++ keys h c ++ (cs2 ≫= keys h).
Proof. rewrite keys_Internal. by rewrite bind_app, bind_cons. Qed.

Lemma trace_Internal_middle h vs1 vs2 (cs1 : list Node) c cs2 :
  length cs1 = length vs1 →
  trace h (Internal (vs1 ++ vs2) (cs1 ++ c :: cs2))
  = pre (trace h <$> cs1) (scode <$> vs1) ++ trace h c
    ++ weave (scode <$> vs2) (trace h <$> cs2).
Proof.
  intros Hlen. simpl. rewrite !fmap_app. rewrite fmap_cons.
  apply inorder_middle. by rewrite !length_fmap.
Qed.

(** * Framing: what depends on the keys of which leaves *)

Lemma same_keys_app h h' (L1 L2 : list positive) :
  same_keys h h' (L1 ++ L2) ↔ same_keys h h' L1 ∧ same_keys h h' L2.
Proof.
  unfold same_keys. split.
  - intros H. split; intros x Hx; apply H, elem_of_app; auto.
  - intros [H1 H2] x [Hx|Hx]%elem_of_app; auto.
Qed.

Lemma same_keys_sub h h' (L1 L2 : list positive) :
  same_keys h h' L2 → L1 ⊆ L2 → same_keys h h' L1.
Proof. unfold same_keys. intros H Hsub x Hx. apply H. by apply Hsub. Qed.

Lemma same_keys_refl h (L : list positive) : same_keys h h L.
Proof. done. Qed.

Lemma same_keys_trans h1 h2 h3 (L : list positive) :
  same_keys h1 h2 L → same_keys h2 h3 L → same_keys h1 h3 L.
Proof. intros H1 H2 x Hx. by rewrite H2, H1. Qed.

Lemma vals_at_same (h h' : store) a :
  values <$> h' !! a = values <$> h !! a → vals_at h' a = vals_at h a.
Proof. unfold vals_at. by destruct (h' !! a), (h !! a); intros [=]. Qed.

Lemma keys_of_same h h' (L : list positive) :
  same_keys h h' L → keys_of h' L = keys_of h L.
Proof.
  intros Hs. unfold keys_of. apply Forall_bind_ext, Forall_forall.
  intros a Ha. apply vals_at_same, Hs. done.
Qed.

Lemma keys_same h h' n : same_keys h h' (leaves n) → keys h' n = keys h n.
Proof. apply keys_of_same. Qed.

Lemma same_keys_bind h h' (cs : list Node) c :
  same_keys h h' (cs ≫= leaves) → c ∈ cs → same_keys h h' (leaves c).
Proof.
  unfold same_keys. intros Hs Hc x Hx. apply Hs. apply list_elem_of_bind. eauto.
Qed.

Lemma trace_same h h' n : same_keys h h' (leaves n) → trace h' n = trace h n.
Proof.
  induction n as [|a|vals cs IH] using Node_ind_all; intros Hs; simpl; [done| |].
  - f_equal. apply vals_at_same, Hs. simpl. by left.
  - f_equal. apply list_fmap_ext. intros i c Hc.
    apply list_elem_of_lookup_2 in Hc. rewrite Forall_forall in IH.
    apply IH; [done|]. by eapply same_keys_bind.
Qed.

Lemma traces_same h h' (cs : list Node) :
  same_keys h h' (cs ≫= leaves) → trace h' <$> cs = trace h <$> cs.
Proof.
  intros Hs. apply list_fmap_ext. intros i c Hc.
  apply trace_same. eapply same_keys_bind; [done|]. by eapply list_elem_of_lookup_2.
Qed.

Lemma keyss_same h h' (cs : list Node) :
  same_keys h h' (cs ≫= leaves) → cs ≫= keys h' = cs ≫= keys h.
Proof.
  intros Hs. apply Forall_bind_ext, Forall_forall. intros c Hc.
  apply keys_same. by eapply same_keys_bind.
Qed.

Section shape_facts.
Context (N : nat).

Lemma shape_leaf h mn mx n :
  shape N h 0 mn mx n ↔
  ∃ a l, n = External a ∧ h !! a = Some l ∧ mn ≤ length (values l) ≤ mx.
Proof. done. Qed.

Lemma shape_node h d mn mx n :
  shape N h (S d) mn mx n ↔
  ∃ vals cs, n = Internal vals cs ∧ length cs = S (length vals) ∧
    mn ≤ length vals ≤ mx ∧ Forall (shape N h d N (N * 2)) cs.
Proof. done. Qed.

Lemma shape_same h h' d mn mx n :
  shape N h d mn mx n → same_keys h h' (leaves n) → shape N h' d mn mx n.
Proof.
  revert mn mx n. induction d as [|d IH]; intros mn mx n.
  - rewrite !shape_leaf. intros (a & l & -> & Hl & Hsz) Hs.
    specialize (Hs a). rewrite Hl in Hs. simpl in Hs.
    destruct (h' !! a) as [l'|] eqn:Hl'.
    + exists a, l'. injection (Hs ltac:(by left)) as ->. done.
    + by specialize (Hs ltac:(by left)).
  - rewrite !shape_node. intros (vals & cs & -> & Hlen & Hsz & Hall) Hs.
    exists vals, cs. repeat split; try done; try lia.
    rewrite Forall_forall in *. intros c Hc. apply IH; [by apply Hall|].
    by eapply same_keys_bind.
Qed.

Lemma shapes_same h h' d (cs : list Node) :
  Forall (shape N h d N (N * 2)) cs → same_keys h h' (cs ≫= leaves) →
  Forall (shape N h' d N (N * 2)) cs.
Proof.
  rewrite !Forall_forall. intros Hall Hs c Hc.
  eapply shape_same; [by apply Hall|]. by eapply same_keys_bind.
Qed.

Lemma shape_weaken h d mn mx mn' mx' n :
  shape N h d mn mx n → mn' ≤ mn → mx ≤ mx' → shape N h d mn' mx' n.
Proof.
  destruct d.
  - rewrite !shape_leaf. intros (a & l & -> & Hl & Hsz) ??.
    exists a, l. repeat split; try done; lia.
  - rewrite !shape_node. intros (vals & cs & -> & Hlen & Hsz & Hall) ??.
    exists vals, cs. repeat split; try done; lia.
Qed.

Lemma shape_leaves_ne h d mn mx n : shape N h d mn mx n → leaves n ≠ [].
Proof.
  revert mn mx n. induction d as [|d IH]; intros mn mx n.
  - rewrite shape_leaf. by intros (a & l & -> & _).
  - rewrite shape_node. intros (vals & cs & -> & Hlen & Hsz & Hall).
    destruct cs as [|c cs]; [done|]. simpl.
    apply Forall_cons in Hall as [Hc _]. apply IH in Hc.
    by destruct (leaves c).
Qed.

Lemma shape_alloc h d mn mx n a :
  shape N h d mn mx n → a ∈ leaves n → is_Some (h !! a).
Proof.
  revert mn mx n. induction d as [|d IH]; intros mn mx n.
  - rewrite shape_leaf. intros (b & l & -> & Hl & _) ->%list_elem_of_singleton. eauto.
  - rewrite shape_node. intros (vals & cs & -> & Hlen & Hsz & Hall).
    simpl. intros (c & Ha & Hc)%list_elem_of_bind.
    rewrite Forall_forall in Hall. eauto.
Qed.

Lemma shape_height h d mn mx n : shape N h d mn mx n → height n = S d.
Proof.
  revert mn mx n. induction d as [|d IH]; intros mn mx n.
  - rewrite shape_leaf. by intros (b & l & -> & _).
  - rewrite shape_node. intros (vals & cs & -> & Hlen & Hsz & Hall).
    destruct cs as [|c cs]; [done|]. simpl.
    apply Forall_cons in Hall as [Hc _]. by rewrite (IH _ _ _ Hc).
Qed.

Lemma shape_trace_keys h d mn mx n :
  shape N h d mn mx n → filter is_kcode (trace h n) = kcode <$> keys h n.
Proof.
  revert mn mx n. induction d as [|d IH]; intros mn mx n.
  - rewrite shape_leaf. intros (b & l & -> & _).
    rewrite keys_External. simpl. apply filter_kcodes.
  - rewrite shape_node. intros (vals & cs & -> & Hlen & Hsz & Hall).
    rewrite keys_Internal. simpl.
    rewrite filter_inorder by (by rewrite length_fmap).
    clear Hlen. induction Hall as [|c cs Hc Hall IHcs]; [done|].
    rewrite fmap_cons, !bind_cons, fmap_app, IHcs. f_equal. eauto.
Qed.

Lemma shape_nodes_size h d n m :
  shape N h d N (N * 2) n → m ∈ nodes n →
  ∃ k, node_size h m = Some k ∧ N ≤ k ≤ 2 * N.
Proof.
  revert n. induction d as [|d IH]; intros n.
  - rewrite shape_leaf. intros (b & l & -> & Hl & Hsz). simpl.
    intros ->%list_elem_of_singleton. simpl. rewrite Hl. simpl.
    eexists; split; [done|lia].
  - rewrite shape_node. intros (vals & cs & -> & Hlen & Hsz & Hall).
    simpl. intros [->|(c & Hm & Hc)%list_elem_of_bind]%elem_of_cons.
    + simpl. eexists; split; [done|lia].
    + rewrite Forall_forall in Hall. eauto.
Qed.

Lemma shape_fill h d mn mx n m :
  shape N h d mn mx n → m ∈ nodes_below n →
  ∃ k, node_size h m = Some k ∧ N ≤ k ≤ 2 * N.
Proof.
  destruct d.
  - rewrite shape_leaf. intros (b & l & -> & _). simpl. by intros ?%elem_of_nil.
  - rewrite shape_node. intros (vals & cs & -> & Hlen & Hsz & Hall).
    simpl. intros (c & Hm & Hc)%list_elem_of_bind.
    rewrite Forall_forall in Hall. eapply shape_nodes_size; eauto.
Qed.

Lemma shape_keys_ne h d mn mx n :
  0 < N → shape N h d mn mx n → (d = 0 → 0 < mn) → keys h n ≠ [].
Proof.
  intros HN. revert mn mx n. induction d as [|d IH]; intros mn mx n.
  - rewrite shape_leaf. intros (b & l & -> & Hl & Hsz) Hmn.
    rewrite keys_External. unfold vals_at. rewrite Hl.
    specialize (Hmn eq_refl). destruct (values l); [simpl in *; lia|done].
  - rewrite shape_node. intros (vals & cs & -> & Hlen & Hsz & Hall) _.
    rewrite keys_Internal. destruct cs as [|c cs]; [done|].
    apply Forall_cons in Hall as [Hc _]. apply IH in Hc; [|lia].
    rewrite bind_cons. by destruct (keys h c).
Qed.

End shape_facts.

(** * Chains *)

Lemma chain_app h prev (L1 L2 : list positive) next :
  chain h prev (L1 ++ L2) next ↔
  chain h prev L1 (from_option Some next (head L2)) ∧
  chain h (from_option Some prev (last L1)) L2 next.
Proof.
  revert prev. induction L1 as [|a L1 IH]; intros prev.
  - simpl. naive_solver.
  - assert (Hh : from_option Some next (head (L1 ++ L2))
               = from_option Some (from_option Some next (head L2)) (head L1))
      by (by destruct L1).
    assert (Hl : from_option Some prev (last (a :: L1))
               = from_option Some (Some a) (last L1)).
    { destruct L1 as [|b L1]; [done|]. rewrite last_cons_cons.
      destruct (last (b :: L1)) eqn:E; [done|]. by apply last_None in E. }
    simpl app. cbn [chain]. rewrite Hh, Hl. setoid_rewrite IH.
    naive_solver.
Qed.

Lemma chain_same h h' prev (L : list positive) next :
  same_links h h' L → chain h prev L next → chain h' prev L next.
Proof.
  revert prev. induction L as [|a L IH]; intros prev Hs; [done|].
  simpl. intros (l & Hl & Hleft & Hright & Hrest).
  pose proof (Hs a ltac:(by left)) as Ha. rewrite Hl in Ha. simpl in Ha.
  destruct (h' !! a) as [l'|]; [|done]. injection Ha as Ha1 Ha2.
  exists l'. repeat split; try congruence.
  apply IH; [|done]. intros x Hx. apply Hs. by right.
Qed.

Lemma chain_alloc h prev (L : list positive) next a :
  chain h prev L next → a ∈ L → is_Some (h !! a).
Proof.
  revert prev. induction L as [|b L IH]; intros prev Hc Ha.
  - by apply elem_of_nil in Ha.
  - destruct Hc as (l & Hl & _ & _ & Hrest).
    apply elem_of_cons in Ha as [->|Ha]; eauto.
Qed.

Lemma same_links_app h h' (L1 L2 : list positive) :
  same_links h h' (L1 ++ L2) ↔ same_links h h' L1 ∧ same_links h h' L2.
Proof.
  unfold same_links. split.
  - intros H. split; intros x Hx; apply H, elem_of_app; auto.
  - intros [H1 H2] x [Hx|Hx]%elem_of_app; auto.
Qed.

Lemma same_links_set_values (h : store) a l vs (L : list positive) :
  h !! a = Some l → same_links h (<[a := set_values l vs]> h) L.
Proof.
  intros Hl x _. destruct (decide (a = x)) as [->|Hne].
  - by rewrite lookup_insert_eq, Hl.
  - by rewrite lookup_insert_ne.
Qed.

Lemma same_keys_insert_other (h : store) a l (L : list positive) :
  a ∉ L → same_keys h (<[a := l]> h) L.
Proof.
  intros Ha x Hx. rewrite lookup_insert_ne; [done|]. by intros ->.
Qed.

(** * Two adjacent children *)

Lemma trace_Internal_pair h vs1 v vs2 (cs1 : list Node) cl cr cs2 :
  length cs1 = length vs1 →
  trace h (Internal (vs1 ++ v :: vs2) (cs1 ++ cl :: cr :: cs2))
  = pre (trace h <$> cs1) (scode <$> vs1) ++ trace h cl
    ++ scode v :: trace h cr ++ weave (scode <$> vs2) (trace h <$> cs2).
Proof. intros Hlen. by rewrite trace_Internal_middle. Qed.

Lemma leaves_Internal_pair vals (cs1 : list Node) cl cr cs2 :
  leaves (Internal vals (cs1 ++ cl :: cr :: cs2))
  = (cs1 ≫= leaves) ++ leaves cl ++ leaves cr ++ (cs2 ≫= leaves).
Proof. by rewrite leaves_Internal_middle. Qed.

Lemma keys_Internal_pair h vals (cs1 : list Node) cl cr cs2 :
  keys h (Internal vals (cs1 ++ cl :: cr :: cs2))
  = (cs1 ≫= keys h) ++ keys h cl ++ keys h cr ++ (cs2 ≫= keys h).
Proof. by rewrite keys_Internal_middle. Qed.

Lemma in_ctx_pair h vs1 v vs2 (cs1 : list Node) cl cr cs2 tp tq lp lq :
  length cs1 = length vs1 →
  in_ctx h (Internal (vs1 ++ v :: vs2) (cs1 ++ cl :: cr :: cs2)) tp tq lp lq ↔
  StronglySorted Z.lt
    ((tp ++ pre (trace h <$> cs1) (scode <$> vs1)) ++ trace h cl
     ++ scode v :: trace h cr ++ weave (scode <$> vs2) (trace h <$> cs2) ++ tq) ∧
  chain h None ((lp ++ (cs1 ≫= leaves)) ++ leaves cl ++ leaves cr
                ++ (cs2 ≫= leaves) ++ lq) None ∧
  NoDup ((lp ++ (cs1 ≫= leaves)) ++ leaves cl ++ leaves cr ++ (cs2 ≫= leaves) ++ lq).
Proof.
  intros Hlen. unfold in_ctx.
  rewrite trace_Internal_pair, leaves_Internal_pair by done.
  by rewrite <- !app_assoc, <- !app_comm_cons, <- !app_assoc.
Qed.


(** * The leaf operations on a sorted leaf *)

Section leaf_specs.
Context (N : nat).

Lemma External_add_elem_spec l e :
  StronglySorted Z.lt (values l) →
  ((e ∈ values l) ∧ External_add_elem N l e = Some (InsertMsg.EXISTS, l)) ∨
  ((e ∉ values l) ∧ ∃ V1 V2, values l = V1 ++ V2 ∧
     Forall (λ x, x < e)%Z V1 ∧ Forall (λ x, e < x)%Z V2 ∧
     External_add_elem N l e
     = Some (if bool_decide (max_size N < S (length (values l)))
             then InsertMsg.SPLIT else InsertMsg.SUCCESS,
             set_values l (V1 ++ e :: V2))).
Proof.
  intros Hs. destruct (External_find_pos_spec l e Hs) as (r & Hr & [[-> Hnot]|[Hr0 Hfound]]).
  - right. split; [done|].
    set (i := first_greater e (values l)).
    exists (take i (values l)), (drop i (values l)). split; [by rewrite take_drop|].
    split; [|split].
    + rewrite Forall_forall. intros x [j [Hj Hji]%lookup_take_Some]%list_elem_of_lookup_1.
      assert (x ≤ e)%Z by (by eapply first_greater_before).
      assert (x ≠ e); [|lia]. intros ->. apply Hnot. by eapply list_elem_of_lookup_2.
    + rewrite Forall_forall. intros x [j Hj]%list_elem_of_lookup_1.
      rewrite lookup_drop in Hj.
      destruct (lookup_lt_is_Some_2 (values l) i) as [v0 Hv0].
      { apply lookup_lt_Some in Hj. lia. }
      pose proof (first_greater_at _ _ _ Hv0) as Hlt.
      destruct j as [|j].
      * rewrite Nat.add_0_r in Hj. by simplify_eq.
      * assert (v0 < x)%Z; [|lia].
        eapply (sorted_lookup_lt (values l) i (i + S j)); eauto. lia.
    + unfold External_add_elem. rewrite Hr. simpl.
      by rewrite insert_at_length.
  - left. split; [by eapply list_elem_of_lookup_2|].
    unfold External_add_elem. rewrite Hr. simpl.
    by rewrite bool_decide_true by lia.
Qed.

Lemma External_remove_elem_spec l e :
  StronglySorted Z.lt (values l) →
  ((e ∉ values l) ∧ External_remove_elem N l e = Some (EraseMsg.NOT_EXISTENT, l)) ∨
  (∃ V1 V2, values l = V1 ++ e :: V2 ∧
     External_remove_elem N l e
     = Some (if bool_decide (length (V1 ++ V2) < min_size N)
             then EraseMsg.MERGE else EraseMsg.SUCCESS,
             set_values l (V1 ++ V2))).
Proof.
  intros Hs. destruct (External_find_pos_spec l e Hs) as (r & Hr & [[-> Hnot]|[Hr0 Hfound]]).
  - left. split; [done|]. unfold External_remove_elem. by rewrite Hr.
  - right. exists (take (Z.to_nat r) (values l)), (drop (S (Z.to_nat r)) (values l)).
    split; [by rewrite take_drop_middle|].
    unfold External_remove_elem. rewrite Hr. simpl.
    rewrite bool_decide_false by lia. simpl. by rewrite delete_take_drop.
Qed.

Lemma External_count_spec l e :
  StronglySorted Z.lt (values l) →
  External_count l e = Some (bool_decide (e ∈ values l)).
Proof.
  intros Hs. destruct (External_find_pos_spec l e Hs) as (r & Hr & [[-> Hnot]|[Hr0 Hfound]]).
  - unfold External_count. rewrite Hr. simpl. by rewrite bool_decide_false.
  - unfold External_count. rewrite Hr. simpl.
    rewrite bool_decide_false by lia. rewrite bool_decide_true; [done|].
    by eapply list_elem_of_lookup_2.
Qed.

Lemma External_find_spec a l e :
  StronglySorted Z.lt (values l) →
  ∃ it, External_find a l e = Some it ∧
    (e ∉ values l → it = Iterator_end) ∧
    (e ∈ values l → ∃ i, it = mkIterator (Some a) i ∧ values l !! i = Some e).
Proof.
  intros Hs. unfold External_find. case_bool_decide as Hlen.
  { eexists; split; [done|]. split; [done|].
    destruct (values l); [by intros ?%elem_of_nil|done]. }
  destruct (External_find_pos_spec l e Hs) as (r & Hr & [[-> Hnot]|[Hr0 Hfound]]).
  - rewrite Hr. simpl. eexists; split; [done|]. split; done.
  - rewrite Hr. simpl. rewrite bool_decide_true by lia.
    eexists; split; [done|]. split.
    + intros Hnot. exfalso. apply Hnot. by eapply list_elem_of_lookup_2.
    + eauto.
Qed.

End leaf_specs.

(** * Subtrees in context *)

Lemma in_ctx_child h vs1 vs2 (cs1 : list Node) c cs2 tp tq lp lq :
  length cs1 = length vs1 →
  in_ctx h (Internal (vs1 ++ vs2) (cs1 ++ c :: cs2)) tp tq lp lq ↔
  in_ctx h c (tp ++ pre (trace h <$> cs1) (scode <$> vs1))
             (weave (scode <$> vs2) (trace h <$> cs2) ++ tq)
             (lp ++ (cs1 ≫= leaves)) ((cs2 ≫= leaves) ++ lq).
Proof.
  intros Hlen. unfold in_ctx.
  rewrite trace_Internal_middle, leaves_Internal_middle by done.
  by rewrite <- !app_assoc.
Qed.

Lemma in_ctx_same_keys h h' n tp tq lp lq :
  same_keys h h' (leaves n) → same_links h h' (lp ++ leaves n ++ lq) →
  in_ctx h n tp tq lp lq → in_ctx h' n tp tq lp lq.
Proof.
  intros Hk Hl (Hs & Hc & Hn). split; [|split]; [|by eapply chain_same|done].
  by rewrite (trace_same h h').
Qed.

Lemma pre_snoc (ts : list (list Z)) t (ss : list Z) s :
  length ts = length ss → pre (ts ++ [t]) (ss ++ [s]) = pre ts ss ++ t ++ [s].
Proof.
  revert ss. induction ts as [|t0 ts IH]; intros [|s0 ss] Hlen; try done.
  - injection Hlen as Hlen. simpl. rewrite IH by done. by rewrite <- !app_assoc.
Qed.

Lemma Forall_lt_last (X : list Z) m z :
  StronglySorted Z.lt (X ++ [m]) → (m < z)%Z → Forall (λ x, x < z)%Z (X ++ [m]).
Proof.
  intros Hs Hm. rewrite Forall_forall.
  intros x [Hx| ->%list_elem_of_singleton]%elem_of_app; [|done].
  assert (x < m)%Z; [|lia].
  eapply StronglySorted_app_1_elem_of; [done..|by left].
Qed.

Lemma Forall_gt_head (X : list Z) m z :
  StronglySorted Z.lt (m :: X) → (z < m)%Z → Forall (λ x, z < x)%Z (m :: X).
Proof.
  intros [Hs Hall]%StronglySorted_inv Hm. constructor; [done|].
  eapply Forall_impl; [done|]. simpl. lia.
Qed.

(** The reading before the child [Internal_find_pos] picks is below the
    key, the reading after it is above. *)
Lemma find_pos_before h vals (cs : list Node) e tp tq :
  length cs = S (length vals) →
  StronglySorted Z.lt (tp ++ trace h (Internal vals cs) ++ tq) →
  Forall (λ x, x < kcode e)%Z tp →
  Forall (λ x, x < kcode e)%Z
    (tp ++ pre (trace h <$> take (Internal_find_pos vals e) cs)
               (scode <$> take (Internal_find_pos vals e) vals)).
Proof.
  intros Hlen Hs Htp. apply Forall_app. split; [done|].
  unfold Internal_find_pos. set (pos := first_greater e vals).
  assert (Hpos : pos ≤ length vals) by apply first_greater_le.
  destruct pos as [|p] eqn:Hp; [by rewrite !take_0|].
  destruct (lookup_lt_is_Some_2 vals p) as [v Hv]; [lia|].
  destruct (lookup_lt_is_Some_2 cs p) as [c Hc]; [lia|].
  destruct (lookup_lt_is_Some_2 cs (S p)) as [c1 Hc1]; [lia|].
  rewrite (take_S_r _ _ _ Hv), (take_S_r _ _ _ Hc), !fmap_app. simpl.
  rewrite pre_snoc by (rewrite !length_fmap, !length_take; lia).
  rewrite app_assoc. apply Forall_lt_last.
  - rewrite <- (take_drop (S p) vals), <- (take_drop_middle cs (S p) c1) in Hs by done.
    rewrite trace_Internal_middle in Hs by (rewrite !length_take; lia).
    rewrite (take_S_r _ _ _ Hv), (take_S_r _ _ _ Hc), !fmap_app in Hs. simpl in Hs.
    rewrite pre_snoc in Hs by (rewrite !length_fmap, !length_take; lia).
    apply StronglySorted_app_1_r, StronglySorted_app_1_l in Hs.
    apply StronglySorted_app_1_l in Hs.
    by rewrite <- app_assoc.
  - assert (v ≤ e)%Z; [|unfold scode, kcode; lia].
    eapply (first_greater_before e vals p); [done|]. fold pos. lia.
Qed.

Lemma find_pos_after h vals (cs : list Node) e tp tq :
  length cs = S (length vals) →
  StronglySorted Z.lt (tp ++ trace h (Internal vals cs) ++ tq) →
  Forall (λ x, kcode e < x)%Z tq →
  Forall (λ x, kcode e < x)%Z
    (weave (scode <$> drop (Internal_find_pos vals e) vals)
           (trace h <$> drop (S (Internal_find_pos vals e)) cs) ++ tq).
Proof.
  intros Hlen Hs Htq. apply Forall_app. split; [|done].
  unfold Internal_find_pos. set (pos := first_greater e vals).
  assert (Hpos : pos ≤ length vals) by apply first_greater_le.
  destruct (lookup_lt_is_Some_2 cs pos) as [c Hc]; [lia|].
  rewrite <- (take_drop pos vals), <- (take_drop_middle cs pos c) in Hs by done.
  rewrite trace_Internal_middle in Hs by (rewrite !length_take; lia).
  apply StronglySorted_app_1_r, StronglySorted_app_1_l in Hs.
  apply StronglySorted_app_1_r, StronglySorted_app_1_r in Hs.
  destruct (vals !! pos) as [v|] eqn:Hv.
  - rewrite (drop_S _ _ _ Hv) in Hs |- *.
    destruct (drop (S pos) cs) as [|c1 cs2]; [done|].
    rewrite !fmap_cons in Hs |- *. cbn [weave] in Hs |- *.
    apply Forall_gt_head; [done|].
    apply first_greater_at in Hv. unfold scode, kcode. lia.
  - apply lookup_ge_None in Hv. rewrite drop_ge by done. done.
Qed.

Lemma head_middle (L1 X X' L2 : list positive) :
  X ≠ [] → X' ≠ [] → head X' = head X →
  head (L1 ++ X' ++ L2) = head (L1 ++ X ++ L2).
Proof. intros. destruct L1; [|done]. simpl. by destruct X, X'. Qed.


#[local] Arguments Nat.div : simpl never.
#[local] Arguments mapM : simpl never.
#[local] Arguments seq : simpl never.
#[local] Arguments insert_at : simpl never.
#[local] Arguments shift_down : simpl never.
#[local] Arguments split_external : simpl never.
#[local] Arguments split_internal : simpl never.

(** * Splitting a leaf: the store *)

Lemma split_external_store vals cs pos a (h : store) l m :
  h !! a = Some l → length (values l) = 2 * m + 1 →
  (∀ b, right_neighbour l = Some b → b ≠ a ∧ is_Some (h !! b)) →
  ∃ h' k,
    split_external vals cs pos a h
    = Some (Internal (insert_at pos k vals)
                     (insert_at (S pos) (External (fresh (dom h))) cs), h') ∧
    h !! fresh (dom h) = None ∧ values l !! m = Some k ∧
    h' !! a = Some (mkExternal (take m (values l)) (left_neighbour l)
                               (Some (fresh (dom h)))) ∧
    h' !! fresh (dom h)
    = Some (mkExternal (drop m (values l)) (Some a) (right_neighbour l)) ∧
    (∀ b nb, right_neighbour l = Some b → h !! b = Some nb →
       h' !! b = Some (set_left nb (Some (fresh (dom h))))) ∧
    (∀ x, x ≠ a → x ≠ fresh (dom h) → right_neighbour l ≠ Some x →
       h' !! x = h !! x).
Proof.
  intros Hl Hlen Hb.
  assert (Hr : h !! fresh (dom h) = None) by (apply not_elem_of_dom, is_fresh).
  unfold split_external. generalize dependent (fresh (dom h)). intros r Hr.
  assert (Hra : r ≠ a) by congruence.
  rewrite Hl. simpl.
  rewrite Hlen, half_odd.
  rewrite (mapM_lookup_seq (values l) m 0 (S m)) by lia. simpl.
  rewrite take_ge by (rewrite length_drop; lia).
  destruct (lookup_lt_is_Some_2 (values l) m) as [k Hk]; [lia|].
  exists (match right_neighbour l with
          | Some b =>
            <[a := mkExternal (take m (values l)) (left_neighbour l) (Some r)]>
              (<[b := set_left (default l (h !! b)) (Some r)]>
                 (<[a := set_values l (take m (values l))]>
                    (<[r := mkExternal (drop m (values l)) (Some a) (right_neighbour l)]> h)))
          | None =>
            <[a := mkExternal (take m (values l)) (left_neighbour l) (Some r)]>
              (<[a := set_values l (take m (values l))]>
                 (<[r := mkExternal (drop m (values l)) (Some a) (right_neighbour l)]> h))
          end), k.
  destruct (right_neighbour l) as [b|] eqn:Hrn.
  - destruct (Hb b eq_refl) as [Hba [nb Hnb]].
    assert (Hbr : b ≠ r) by congruence.
    rewrite Hnb. simpl.
    rewrite lookup_insert_ne, lookup_insert_ne, Hnb by done. simpl.
    rewrite lookup_insert_ne, lookup_insert_eq by done. simpl.
    rewrite lookup_drop, Nat.add_0_r, Hk. simpl.
    split; [done|]. split; [done|]. split; [done|].
    split; [by rewrite lookup_insert_eq|].
    split; [by rewrite !lookup_insert_ne, lookup_insert_eq by done|].
    split.
    + intros b' nb' [= <-] Hnb'. simplify_eq.
      by rewrite lookup_insert_ne, lookup_insert_eq by done.
    + intros x Hxa Hxr Hxb. rewrite !lookup_insert_ne; congruence.
  - simpl. rewrite lookup_insert_eq. simpl.
    rewrite lookup_drop, Nat.add_0_r, Hk. simpl.
    split; [done|]. split; [done|]. split; [done|].
    split; [by rewrite lookup_insert_eq|].
    split; [by rewrite !lookup_insert_ne, lookup_insert_eq by done|].
    split; [done|].
    intros x Hxa Hxr _. rewrite !lookup_insert_ne; congruence.
Qed.

Lemma chain_split (h h' : store) LA a r LB l :
  chain h None (LA ++ a :: LB) None → NoDup (LA ++ a :: LB) →
  h !! a = Some l → h !! r = None →
  h' !! a = Some (set_right l (Some r)) ∨
    (∃ vs, h' !! a = Some (mkExternal vs (left_neighbour l) (Some r))) →
  (∃ vs, h' !! r = Some (mkExternal vs (Some a) (right_neighbour l))) →
  (∀ b nb, right_neighbour l = Some b → h !! b = Some nb →
     h' !! b = Some (set_left nb (Some r))) →
  (∀ x, x ≠ a → x ≠ r → right_neighbour l ≠ Some x → h' !! x = h !! x) →
  chain h' None (LA ++ a :: r :: LB) None.
Proof.
  intros Hc Hnd Hl Hr Ha' [rv Hr'] Hb' Hother.
  assert (Ha'' : ∃ vs, h' !! a = Some (mkExternal vs (left_neighbour l) (Some r))).
  { destruct Ha' as [Ha'|Ha']; [|done]. eexists. by rewrite Ha'. }
  clear Ha'. destruct Ha'' as [av Ha'].
  apply chain_app in Hc as [HcA HcB]. simpl in HcA.
  destruct HcB as (l0 & Hl0 & Hleft & Hright & HcB). simplify_eq.
  apply NoDup_app in Hnd as (HndA & Hdisj & [HaLB HndB]%NoDup_cons).
  assert (Hnot : ∀ x, is_Some (h !! x) → x ≠ r).
  { intros x [y Hy] ->. congruence. }
  apply chain_app. split.
  - simpl. eapply chain_same; [|done]. intros x Hx.
    rewrite Hother; [done|..].
    + intros ->. apply (Hdisj a Hx). by left.
    + apply Hnot. eapply chain_alloc; [exact HcA|exact Hx].
    + rewrite Hright. destruct LB as [|b LB]; [done|]. simpl.
      intros [= ->]. apply (Hdisj x Hx). right. by left.
  - simpl. eexists. split; [done|]. simpl. split; [done|]. split; [done|].
    eexists. split; [done|]. simpl. split; [done|]. split; [done|].
    destruct LB as [|b LB]; [done|].
    destruct HcB as (nb & Hnb & Hbl & Hbr & HcB).
    simpl in Hright. simpl. exists (set_left nb (Some r)).
    split; [by apply Hb'|]. split; [done|]. split; [done|].
    eapply chain_same; [|done]. intros x Hx.
    apply NoDup_cons in HndB as [HbLB HndB].
    rewrite Hother; [done|..].
    + intros ->. apply HaLB. by right.
    + apply Hnot. eapply chain_alloc; [exact HcB|exact Hx].
    + rewrite Hright. intros [= ->]. done.
Qed.

Lemma chain_right (h : store) LA a LB l b :
  chain h None (LA ++ a :: LB) None → NoDup (LA ++ a :: LB) →
  h !! a = Some l → right_neighbour l = Some b →
  b ≠ a ∧ is_Some (h !! b) ∧ head LB = Some b.
Proof.
  intros Hc Hnd Hl Hb.
  apply chain_app in Hc as [_ Hc]. destruct Hc as (l0 & Hl0 & _ & Hright & Hc).
  simplify_eq. rewrite Hb in Hright.
  destruct LB as [|b' LB]; [done|]. simpl in Hright. simplify_eq.
  apply NoDup_app in Hnd as (_ & _ & [HaLB _]%NoDup_cons).
  split; [|split; [|done]].
  - intros ->. apply HaLB. by left.
  - eapply chain_alloc; [exact Hc|by left].
Qed.

Ltac norm_list :=
  repeat (rewrite <- app_assoc || rewrite <- app_comm_cons).
Ltac norm_list_in H :=
  repeat (rewrite <- app_assoc in H || rewrite <- app_comm_cons in H).

Lemma sorted_eq (l1 l2 : list Z) :
  l1 = l2 → StronglySorted Z.lt l1 → StronglySorted Z.lt l2.
Proof. by intros ->. Qed.

Lemma sorted_split_keys (A B V : list Z) m k :
  0 < m → V !! m = Some k →
  StronglySorted Z.lt (A ++ (kcode <$> V) ++ B) →
  StronglySorted Z.lt
    (A ++ (kcode <$> take m V) ++ scode k :: (kcode <$> drop m V) ++ B).
Proof.
  intros Hm Hk Hs. destruct m as [|m]; [lia|].
  destruct (lookup_lt_is_Some_2 V m) as [w Hw]; [apply lookup_lt_Some in Hk; lia|].
  assert (HV : V = take m V ++ w :: k :: drop (S (S m)) V).
  { rewrite <- (take_drop_middle V (S m) k Hk) at 1.
    rewrite (take_S_r _ _ _ Hw). by rewrite <- app_assoc. }
  rewrite (take_S_r _ _ _ Hw), (drop_S _ _ _ Hk). rewrite HV in Hs.
  revert Hs. generalize (take m V) (drop (S (S m)) V). intros T D Hs.
  rewrite !fmap_app, !fmap_cons in Hs. rewrite !fmap_app, !fmap_cons.
  simpl. norm_list_in Hs. norm_list. simpl.
  rewrite app_assoc in Hs. rewrite app_assoc.
  apply sorted_insert_between; [done|].
  assert (kcode w < kcode k)%Z; [|unfold kcode, scode in *; lia].
  eapply StronglySorted_app_1_r, StronglySorted_inv in Hs as [_ Hall].
  by apply Forall_cons in Hall as [? _].
Qed.

(** * Rearrangements inside internal nodes keep the reading *)

Lemma inorder_take_drop (ts : list (list Z)) (ss : list Z) m k :
  length ts = S (length ss) → ss !! m = Some k →
  inorder ts ss
  = inorder (take (S m) ts) (take m ss) ++ k :: inorder (drop (S m) ts) (drop (S m) ss).
Proof.
  intros Hlen Hk. pose proof (lookup_lt_Some _ _ _ Hk) as Hm.
  rewrite <- (take_drop (S m) ts) at 1.
  rewrite <- (take_drop_middle ss m k) at 1 by done.
  apply inorder_app.
  - rewrite !length_take. lia.
  - intros Hnil%(f_equal length). rewrite length_drop in Hnil. simpl in Hnil. lia.
Qed.

Lemma trace_Internal_take_drop h cv (cc : list Node) m k :
  length cc = S (length cv) → cv !! m = Some k →
  trace h (Internal cv cc)
  = trace h (Internal (take m cv) (take (S m) cc))
    ++ scode k :: trace h (Internal (drop (S m) cv) (drop (S m) cc)).
Proof.
  intros Hlen Hk. simpl.
  rewrite (inorder_take_drop _ _ m (scode k)).
  - by rewrite !fmap_take, !fmap_drop.
  - by rewrite !length_fmap.
  - by rewrite list_lookup_fmap, Hk.
Qed.

Lemma trace_Internal_app h v lv (lc : list Node) rv rc :
  length lc = S (length lv) → rc ≠ [] →
  trace h (Internal (lv ++ v :: rv) (lc ++ rc))
  = trace h (Internal lv lc) ++ scode v :: trace h (Internal rv rc).
Proof.
  intros Hlen Hrc. simpl. rewrite !fmap_app, fmap_cons.
  apply inorder_app.
  - by rewrite !length_fmap.
  - by destruct rc.
Qed.

Lemma pair_of_one h vs1 v vs2 (cs1 : list Node) c cl cr cs2 :
  length cs1 = length vs1 →
  trace h c = trace h cl ++ scode v :: trace h cr →
  leaves c = leaves cl ++ leaves cr →
  trace h (Internal (vs1 ++ v :: vs2) (cs1 ++ cl :: cr :: cs2))
  = trace h (Internal (vs1 ++ vs2) (cs1 ++ c :: cs2)) ∧
  leaves (Internal (vs1 ++ v :: vs2) (cs1 ++ cl :: cr :: cs2))
  = leaves (Internal (vs1 ++ vs2) (cs1 ++ c :: cs2)).
Proof.
  intros Hlen Ht Hl.
  rewrite trace_Internal_pair, trace_Internal_middle by done.
  rewrite leaves_Internal_pair, leaves_Internal_middle.
  rewrite Ht, Hl. split; by norm_list.
Qed.

Lemma pair_of_pair h vs1 v v' vs2 (cs1 : list Node) cl cr cl' cr' cs2 :
  length cs1 = length vs1 →
  trace h cl' ++ scode v' :: trace h cr' = trace h cl ++ scode v :: trace h cr →
  leaves cl' ++ leaves cr' = leaves cl ++ leaves cr →
  trace h (Internal (vs1 ++ v' :: vs2) (cs1 ++ cl' :: cr' :: cs2))
  = trace h (Internal (vs1 ++ v :: vs2) (cs1 ++ cl :: cr :: cs2)) ∧
  leaves (Internal (vs1 ++ v' :: vs2) (cs1 ++ cl' :: cr' :: cs2))
  = leaves (Internal (vs1 ++ v :: vs2) (cs1 ++ cl :: cr :: cs2)).
Proof.
  intros Hlen Ht Hl.
  rewrite !trace_Internal_pair by done. rewrite !leaves_Internal_pair.
  split.
  - f_equal. rewrite !app_comm_cons, !app_assoc. f_equal. done.
  - f_equal. rewrite !app_assoc. f_equal. done.
Qed.

Lemma same_reading h n n' tp tq lp lq :
  trace h n' = trace h n ∧ leaves n' = leaves n →
  in_ctx h n tp tq lp lq →
  in_ctx h n' tp tq lp lq ∧ keys h n' = keys h n ∧
  head (leaves n') = head (leaves n) ∧ same_keys h h (lp ++ lq).
Proof.
  intros [Ht Hl] Hctx. unfold in_ctx, keys in *. rewrite Ht, Hl. done.
Qed.

Section split.
Context (N : nat) (HN : 0 < N).

Lemma split_ok_leaf h vs1 vs2 (cs1 : list Node) a cs2 l tp tq lp lq :
  length cs1 = length vs1 →
  h !! a = Some l → length (values l) = 2 * N + 1 →
  Forall (shape N h 0 N (N * 2)) cs1 → Forall (shape N h 0 N (N * 2)) cs2 →
  in_ctx h (Internal (vs1 ++ vs2) (cs1 ++ External a :: cs2)) tp tq lp lq →
  ∃ k r h',
    split (Internal (vs1 ++ vs2) (cs1 ++ External a :: cs2)) (length vs1) h
    = Some (Internal (vs1 ++ k :: vs2) (cs1 ++ External a :: External r :: cs2), h') ∧
    Forall (shape N h' 0 N (N * 2)) (cs1 ++ External a :: External r :: cs2) ∧
    in_ctx h' (Internal (vs1 ++ k :: vs2) (cs1 ++ External a :: External r :: cs2))
           tp tq lp lq ∧
    keys h' (Internal (vs1 ++ k :: vs2) (cs1 ++ External a :: External r :: cs2))
    = keys h (Internal (vs1 ++ vs2) (cs1 ++ External a :: cs2)) ∧
    head (leaves (Internal (vs1 ++ k :: vs2) (cs1 ++ External a :: External r :: cs2)))
    = head (leaves (Internal (vs1 ++ vs2) (cs1 ++ External a :: cs2))) ∧
    same_keys h h' (lp ++ lq).
Proof.
  intros Hlen Hl Hsz Hcs1 Hcs2 Hctx.
  apply in_ctx_child in Hctx as (Hs & Hc & Hnd); [|done].
  simpl in Hs, Hc, Hnd.
  set (LA := lp ++ cs1 ≫= leaves) in *. set (LB := (cs2 ≫= leaves) ++ lq) in *.
  destruct (split_external_store (vs1 ++ vs2) (cs1 ++ External a :: cs2)
              (length vs1) a h l N Hl Hsz)
    as (h' & k & Hsplit & Hr & Hk & Ha' & Hr' & Hb' & Hother).
  { intros b Hb. destruct (chain_right h LA a LB l b) as (? & ? & ?); done. }
  set (r := fresh (dom h)) in *.
  assert (Hvals : ∀ x, x ≠ a → x ≠ r → values <$> h' !! x = values <$> h !! x).
  { intros x Hxa Hxr. destruct (decide (right_neighbour l = Some x)) as [Hx|Hx].
    - destruct (chain_right h LA a LB l x) as (_ & [nb Hnb] & _); try done.
      by rewrite (Hb' x nb), Hnb.
    - by rewrite Hother. }
  assert (HrL : r ∉ LA ++ a :: LB).
  { intros Hx. eapply chain_alloc in Hx as [? ?]; [|exact Hc]. congruence. }
  assert (Hsame : same_keys h h' (LA ++ LB)).
  { intros x Hx. apply Hvals.
    - intros ->. apply NoDup_app in Hnd as (_ & Hd & [? _]%NoDup_cons).
      apply elem_of_app in Hx as [Hx|Hx]; [|done]. apply (Hd a Hx). by left.
    - intros ->. apply HrL. rewrite elem_of_app, elem_of_cons in *. tauto. }
  assert (Hsame1 : same_keys h h' (cs1 ≫= leaves)).
  { eapply same_keys_sub; [exact Hsame|]. unfold LA.
    intros x Hx. rewrite !elem_of_app. auto. }
  assert (Hsame2 : same_keys h h' (cs2 ≫= leaves)).
  { eapply same_keys_sub; [exact Hsame|]. unfold LB.
    intros x Hx. rewrite !elem_of_app. auto. }
  assert (Hva : vals_at h a = values l) by (unfold vals_at; by rewrite Hl).
  assert (Hva' : vals_at h' a = take N (values l)) by (unfold vals_at; by rewrite Ha').
  assert (Hvr' : vals_at h' r = drop N (values l)) by (unfold vals_at; by rewrite Hr').
  exists k, r, h'. split; [|split; [|split; [|split; [|split]]]].
  - unfold split. rewrite lookup_middle_eq by done. simpl. rewrite Hsplit.
    by rewrite insert_at_middle, insert_at_middle_S by lia.
  - apply Forall_app. split; [by eapply shapes_same|].
    apply Forall_cons. split.
    { apply shape_leaf. eexists _, _. split; [done|]. split; [done|].
      simpl. rewrite length_take. lia. }
    apply Forall_cons. split; [|by eapply shapes_same].
    apply shape_leaf. eexists _, _. split; [done|]. split; [done|].
    simpl. rewrite length_drop. lia.
  - apply in_ctx_pair; [done|]. simpl.
    rewrite (traces_same h h' cs1), (traces_same h h' cs2) by done.
    rewrite Hva', Hvr'. rewrite Hva in Hs.
    split; [|split].
    + eapply sorted_eq;
        [|apply (sorted_split_keys (tp ++ pre (trace h <$> cs1) (scode <$> vs1))
                   (weave (scode <$> vs2) (trace h <$> cs2) ++ tq) (values l) N k);
          [done|done|]].
      * by norm_list.
      * eapply sorted_eq; [|exact Hs]. by norm_list.
    + fold LA LB. eapply chain_split; try done.
      * right. eauto.
      * eauto.
    + fold LA LB. by apply NoDup_insert_middle.
  - rewrite keys_Internal_pair, keys_Internal_middle.
    rewrite (keyss_same h h' cs1), (keyss_same h h' cs2) by done.
    rewrite !keys_External, Hva, Hva', Hvr'.
    by rewrite (app_assoc (take _ _)), take_drop.
  - rewrite leaves_Internal_pair, leaves_Internal_middle.
    apply (head_middle _ [a] [a; r]); done.
  - eapply same_keys_sub; [exact Hsame|]. unfold LA, LB.
    intros x Hx. rewrite !elem_of_app in *. tauto.
Qed.

Lemma split_ok_node h d vs1 vs2 (cs1 : list Node) cv cc cs2 tp tq lp lq :
  length cs1 = length vs1 →
  length cv = 2 * N + 1 → length cc = S (length cv) →
  Forall (shape N h d N (N * 2)) cc →
  Forall (shape N h (S d) N (N * 2)) cs1 → Forall (shape N h (S d) N (N * 2)) cs2 →
  in_ctx h (Internal (vs1 ++ vs2) (cs1 ++ Internal cv cc :: cs2)) tp tq lp lq →
  ∃ k cl cr,
    split (Internal (vs1 ++ vs2) (cs1 ++ Internal cv cc :: cs2)) (length vs1) h
    = Some (Internal (vs1 ++ k :: vs2) (cs1 ++ cl :: cr :: cs2), h) ∧
    Forall (shape N h (S d) N (N * 2)) (cs1 ++ cl :: cr :: cs2) ∧
    in_ctx h (Internal (vs1 ++ k :: vs2) (cs1 ++ cl :: cr :: cs2)) tp tq lp lq ∧
    keys h (Internal (vs1 ++ k :: vs2) (cs1 ++ cl :: cr :: cs2))
    = keys h (Internal (vs1 ++ vs2) (cs1 ++ Internal cv cc :: cs2)) ∧
    head (leaves (Internal (vs1 ++ k :: vs2) (cs1 ++ cl :: cr :: cs2)))
    = head (leaves (Internal (vs1 ++ vs2) (cs1 ++ Internal cv cc :: cs2))) ∧
    same_keys h h (lp ++ lq).
Proof.
  intros Hlen Hcv Hcc Hall Hcs1 Hcs2 Hctx.
  destruct (lookup_lt_is_Some_2 cv N) as [k Hk]; [lia|].
  exists k, (Internal (take N cv) (take (S N) cc)),
         (Internal (drop (S N) cv) (drop (S N) cc)).
  split; [|split].
  - unfold split. rewrite lookup_middle_eq by done. simpl.
    unfold split_internal. rewrite Hcv, half_odd, Hk. simpl.
    rewrite (mapM_ext (λ i, cv !! (i + N + 1)) (λ e, cv !! (e + S N)))
      by (intros; f_equal; lia).
    rewrite (mapM_ext (λ i, cc !! (i + N + 1)) (λ e, cc !! (e + S N)))
      by (intros; f_equal; lia).
    rewrite !mapM_lookup_seq by lia. simpl.
    rewrite !take_ge by (rewrite length_drop; lia).
    rewrite list_insert_at_middle by done.
    by rewrite insert_at_middle, insert_at_middle_S by lia.
  - apply Forall_app. split; [done|].
    apply Forall_cons. split; [|apply Forall_cons; split; [|done]].
    + apply shape_node. eexists _, _. split; [done|].
      rewrite !length_take. split; [lia|]. split; [lia|]. by apply Forall_take.
    + apply shape_node. eexists _, _. split; [done|].
      rewrite !length_drop. split; [lia|]. split; [lia|]. by apply Forall_drop.
  - apply same_reading; [|done]. apply pair_of_one; [done|..].
    + by apply trace_Internal_take_drop.
    + simpl. by rewrite <- bind_app, take_drop.
Qed.

Lemma split_ok h d vs1 vs2 (cs1 : list Node) c cs2 tp tq lp lq :
  length cs1 = length vs1 →
  shape N h d (N * 2 + 1) (N * 2 + 1) c →
  Forall (shape N h d N (N * 2)) cs1 → Forall (shape N h d N (N * 2)) cs2 →
  in_ctx h (Internal (vs1 ++ vs2) (cs1 ++ c :: cs2)) tp tq lp lq →
  ∃ k cl cr h',
    split (Internal (vs1 ++ vs2) (cs1 ++ c :: cs2)) (length vs1) h
    = Some (Internal (vs1 ++ k :: vs2) (cs1 ++ cl :: cr :: cs2), h') ∧
    Forall (shape N h' d N (N * 2)) (cs1 ++ cl :: cr :: cs2) ∧
    in_ctx h' (Internal (vs1 ++ k :: vs2) (cs1 ++ cl :: cr :: cs2)) tp tq lp lq ∧
    keys h' (Internal (vs1 ++ k :: vs2) (cs1 ++ cl :: cr :: cs2))
    = keys h (Internal (vs1 ++ vs2) (cs1 ++ c :: cs2)) ∧
    head (leaves (Internal (vs1 ++ k :: vs2) (cs1 ++ cl :: cr :: cs2)))
    = head (leaves (Internal (vs1 ++ vs2) (cs1 ++ c :: cs2))) ∧
    same_keys h h' (lp ++ lq).
Proof.
  intros Hlen Hc Hcs1 Hcs2 Hctx. destruct d as [|d].
  - apply shape_leaf in Hc as (a & l & -> & Hl & Hsz).
    destruct (split_ok_leaf h vs1 vs2 cs1 a cs2 l tp tq lp lq)
      as (k & r & h' & H); try done; [lia|].
    by exists k, (External a), (External r), h'.
  - apply shape_node in Hc as (cv & cc & -> & Hcc & Hcv & Hall).
    destruct (split_ok_node h d vs1 vs2 cs1 cv cc cs2 tp tq lp lq)
      as (k & cl & cr & H); try done; [lia|].
    by exists k, cl, cr, h.
Qed.

End split.


Lemma add_elem_External N a e h :
  add_elem N (External a) e h
  = l ← h !! a; '(msg, l') ← External_add_elem N l e;
    Some (msg, External a, <[a := l']> h).
Proof. done. Qed.

Lemma add_elem_Internal N vals cs e h :
  add_elem N (Internal vals cs) e h
  = '(result, c, h) ← cs !! Internal_find_pos vals e ≫= (λ c, add_elem N c e h);
    let this := Internal vals (<[Internal_find_pos vals e := c]> cs) in
    if bool_decide (result = InsertMsg.SPLIT) then
      '(this, h) ← split this (Internal_find_pos vals e) h;
      sz ← node_size h this;
      Some (if bool_decide (sz ≤ max_size N) then InsertMsg.SUCCESS else result,
            this, h)
    else Some (result, this, h).
Proof. simpl. by rewrite at_child_lookup. Qed.

#[local] Arguments Nat.div : simpl never.
#[local] Arguments mapM : simpl never.
#[local] Arguments seq : simpl never.
#[local] Arguments insert_at : simpl never.
#[local] Arguments shift_down : simpl never.
#[local] Arguments split_external : simpl never.
#[local] Arguments split_internal : simpl never.
#[local] Arguments split : simpl never.
#[local] Arguments trace : simpl never.
#[local] Arguments leaves : simpl never.
#[local] Arguments shape : simpl never.
#[local] Arguments add_elem : simpl never.

Lemma trace_External h a : trace h (External a) = kcode <$> vals_at h a.
Proof. done. Qed.

Lemma leaves_External a : leaves (External a) = [a].
Proof. done. Qed.


(** * Updates of a subtree *)

Lemma keys_ins_in_context e : in_context (keys_ins e).
Proof.
  intros K1 K2 k k' (k1 & k2 & -> & ->). exists (K1 ++ k1), (k2 ++ K2).
  split; by norm_list.
Qed.

Lemma keys_del_in_context e : in_context (keys_del e).
Proof. intros K1 K2 k k' H. by apply keys_ins_in_context. Qed.

Lemma updated_parent R N h h1 d mn mx mn' mx' vs1 vs2 (cs1 : list Node) c c' cs2
    tp tq lp lq :
  in_context R → length cs1 = length vs1 →
  same_keys h h1 ((lp ++ cs1 ≫= leaves) ++ (cs2 ≫= leaves) ++ lq) →
  shape N h d mn mx c → shape N h1 d mn' mx' c' →
  updated R h h1 c c'
    (tp ++ pre (trace h <$> cs1) (scode <$> vs1))
    (weave (scode <$> vs2) (trace h <$> cs2) ++ tq)
    (lp ++ cs1 ≫= leaves) ((cs2 ≫= leaves) ++ lq) →
  updated R h h1 (Internal (vs1 ++ vs2) (cs1 ++ c :: cs2))
    (Internal (vs1 ++ vs2) (cs1 ++ c' :: cs2)) tp tq lp lq.
Proof.
  intros HR Hlen Hsame Hc Hc' (Hctx & Hkeys & Hhead).
  assert (Hsame1 : same_keys h h1 (cs1 ≫= leaves)).
  { eapply same_keys_sub; [exact Hsame|]. intros x Hx. rewrite !elem_of_app. auto. }
  assert (Hsame2 : same_keys h h1 (cs2 ≫= leaves)).
  { eapply same_keys_sub; [exact Hsame|]. intros x Hx. rewrite !elem_of_app. auto. }
  split; [|split].
  - apply in_ctx_child; [done|].
    by rewrite (traces_same h h1 cs1), (traces_same h h1 cs2).
  - rewrite !keys_Internal_middle.
    rewrite (keyss_same h h1 cs1), (keyss_same h h1 cs2) by done.
    by apply HR.
  - rewrite !leaves_Internal_middle. apply head_middle; [..|done].
    + by eapply shape_leaves_ne.
    + by eapply shape_leaves_ne.
Qed.

Lemma not_in_parent_trace h vs1 vs2 (cs1 : list Node) c cs2 tp tq (x : Z) :
  length cs1 = length vs1 →
  Forall (λ y, y < x)%Z (tp ++ pre (trace h <$> cs1) (scode <$> vs1)) →
  Forall (λ y, x < y)%Z (weave (scode <$> vs2) (trace h <$> cs2) ++ tq) →
  x ∈ trace h (Internal (vs1 ++ vs2) (cs1 ++ c :: cs2)) ↔ x ∈ trace h c.
Proof.
  intros Hlen [_ Hb]%Forall_app [Ha _]%Forall_app.
  rewrite trace_Internal_middle by done. rewrite !elem_of_app.
  rewrite Forall_forall in Hb, Ha. split; [|auto].
  intros [Hx|[Hx|Hx]]; [|done|].
  - specialize (Hb x Hx). lia.
  - specialize (Ha x Hx). lia.
Qed.

Lemma drop_middle_S {A} (l1 l2 : list A) (x : A) i :
  i = S (length l1) → drop i (l1 ++ x :: l2) = l2.
Proof.
  intros ->. rewrite (cons_middle x), app_assoc.
  apply drop_app_length'. rewrite length_app. simpl. lia.
Qed.

Section add_elem.
Context (N : nat) (HN : 0 < N).

Lemma add_elem_leaf_ok a l mn h e tp tq lp lq :
  h !! a = Some l → mn ≤ length (values l) ≤ N * 2 →
  in_ctx h (External a) tp tq lp lq →
  Forall (λ x, x < kcode e)%Z tp → Forall (λ x, kcode e < x)%Z tq →
  ∃ msg h', add_elem N (External a) e h = Some (msg, External a, h') ∧
    same_keys h h' (lp ++ lq) ∧
    match msg with
    | InsertMsg.EXISTS => h' = h ∧ kcode e ∈ trace h (External a)
    | InsertMsg.SUCCESS =>
      (kcode e ∉ trace h (External a)) ∧ shape N h' 0 mn (N * 2) (External a) ∧
      grown h h' (External a) (External a) e tp tq lp lq
    | InsertMsg.SPLIT =>
      (kcode e ∉ trace h (External a)) ∧
      shape N h' 0 (N * 2 + 1) (N * 2 + 1) (External a) ∧
      grown h h' (External a) (External a) e tp tq lp lq
    end.
Proof.
  intros Hl Hsz (Hs & Hc & Hnd) Htp Htq.
  assert (Hva : vals_at h a = values l) by (unfold vals_at; by rewrite Hl).
  rewrite trace_External, leaves_External in *. simpl in Hc, Hnd. rewrite Hva in Hs.
  assert (HsV : StronglySorted Z.lt (values l)).
  { apply sorted_fmap_kcode.
    by eapply StronglySorted_app_1_l, StronglySorted_app_1_r. }
  rewrite add_elem_External, Hl. simpl.
  destruct (External_add_elem_spec N l e HsV)
    as [[Hin ->]|(Hnot & V1 & V2 & HV & HV1 & HV2 & ->)]; simpl.
  - exists InsertMsg.EXISTS, (<[a := l]> h). split; [done|].
    rewrite insert_id by done. split; [done|]. split; [done|].
    rewrite Hva. by apply list_elem_of_fmap_2.
  - set (l' := set_values l (V1 ++ e :: V2)).
    set (h' := <[a := l']> h).
    assert (Hva' : vals_at h' a = V1 ++ e :: V2).
    { unfold vals_at, h'. by rewrite lookup_insert_eq. }
    assert (HaL : a ∉ lp ++ lq).
    { apply NoDup_app in Hnd as (_ & Hd & [Ha _]%NoDup_cons).
      intros [Hx|Hx]%elem_of_app; [|done]. apply (Hd a Hx). by left. }
    assert (Hsame : same_keys h h' (lp ++ lq)) by (by apply same_keys_insert_other).
    assert (Hnin : kcode e ∉ kcode <$> vals_at h a).
    { rewrite Hva. intros (x & Hx%kcode_inj & Hin)%list_elem_of_fmap. by subst. }
    assert (Hgrown : grown h h' (External a) (External a) e tp tq lp lq).
    { split; [|split; [|done]].
      - split; [|split; [|done]].
        + rewrite trace_External, Hva', fmap_app, fmap_cons.
          rewrite HV, fmap_app in Hs.
          eapply sorted_eq; [|apply (sorted_insert (tp ++ (kcode <$> V1))
                                       ((kcode <$> V2) ++ tq) (kcode e))].
          * by norm_list.
          * eapply sorted_eq; [|exact Hs]. by norm_list.
          * apply Forall_app. split; [done|]. apply Forall_fmap.
            eapply Forall_impl; [exact HV1|]. intros x. unfold kcode. simpl. lia.
          * apply Forall_app. split; [|done]. apply Forall_fmap.
            eapply Forall_impl; [exact HV2|]. intros x. unfold kcode. simpl. lia.
        + rewrite leaves_External. eapply chain_same; [|done].
          by apply same_links_set_values.
      - exists V1, V2. by rewrite !keys_External, Hva, Hva'. }
    assert (Hlen' : length (V1 ++ e :: V2) = S (length (values l))).
    { rewrite HV, !length_app. simpl. lia. }
    eexists _, h'. split; [done|]. split; [done|].
    unfold max_size. case_bool_decide.
    + split; [done|]. split; [|done].
      apply shape_leaf. exists a, l'. split; [done|].
      split; [by apply lookup_insert_eq|]. simpl. lia.
    + split; [done|]. split; [|done].
      apply shape_leaf. exists a, l'. split; [done|].
      split; [by apply lookup_insert_eq|]. simpl. lia.
Qed.

Lemma add_elem_ok d : ∀ n mn h e tp tq lp lq,
  shape N h d mn (N * 2) n → in_ctx h n tp tq lp lq →
  Forall (λ x, x < kcode e)%Z tp → Forall (λ x, kcode e < x)%Z tq →
  ∃ msg n' h', add_elem N n e h = Some (msg, n', h') ∧
    same_keys h h' (lp ++ lq) ∧
    match msg with
    | InsertMsg.EXISTS => n' = n ∧ h' = h ∧ kcode e ∈ trace h n
    | InsertMsg.SUCCESS =>
      (kcode e ∉ trace h n) ∧ shape N h' d mn (N * 2) n' ∧
      grown h h' n n' e tp tq lp lq
    | InsertMsg.SPLIT =>
      (kcode e ∉ trace h n) ∧ shape N h' d (N * 2 + 1) (N * 2 + 1) n' ∧
      grown h h' n n' e tp tq lp lq
    end.
Proof.
  induction d as [|d IH]; intros n mn h e tp tq lp lq Hsh Hctx Htp Htq.
  { apply shape_leaf in Hsh as (a & l & -> & Hl & Hsz).
    destruct (add_elem_leaf_ok a l mn h e tp tq lp lq)
      as (msg & h' & Hadd & Hsame & Hmsg); try done.
    exists msg, (External a), h'. split; [done|]. split; [done|].
    destruct msg; [done| |done]. by destruct Hmsg. }
  apply shape_node in Hsh as (vals & cs & -> & Hlen & Hsz & Hall).
  pose proof (find_pos_before h vals cs e tp tq Hlen (proj1 Hctx) Htp) as Hbefore.
  pose proof (find_pos_after h vals cs e tp tq Hlen (proj1 Hctx) Htq) as Hafter.
  rewrite add_elem_Internal.
  pose proof (first_greater_le e vals) as Hpos. fold (Internal_find_pos vals e) in Hpos.
  remember (Internal_find_pos vals e) as pos eqn:Hpos_def. clear Hpos_def.
  destruct (lookup_lt_is_Some_2 cs pos) as [c Hc]; [lia|].
  rewrite Hc. simpl.
  destruct (split_at cs pos c Hc) as (cs1 & cs2 & -> & Hlen1).
  assert (∃ vs1 vs2, vals = vs1 ++ vs2 ∧ length vs1 = pos) as (vs1 & vs2 & -> & Hlen2).
  { exists (take pos vals), (drop pos vals). rewrite take_drop, length_take.
    split; [done|lia]. }
  rewrite !take_app_length', !drop_app_length' in * by lia.
  rewrite drop_middle_S in Hafter by lia.
  apply Forall_app in Hall as (Hcs1 & [Hcsh Hcs2]%Forall_cons).
  pose proof Hctx as Hctx_c. apply in_ctx_child in Hctx_c; [|lia].
  destruct (IH c N h e _ _ _ _ Hcsh Hctx_c Hbefore Hafter)
    as (msg & c' & h1 & Hadd & Hsame & Hmsg).
  rewrite Hadd. simpl. rewrite list_insert_at_middle by lia.
  assert (Hsame1 : same_keys h h1 (cs1 ≫= leaves)).
  { eapply same_keys_sub; [exact Hsame|]. intros x Hx. rewrite !elem_of_app. auto. }
  assert (Hsame2 : same_keys h h1 (cs2 ≫= leaves)).
  { eapply same_keys_sub; [exact Hsame|]. intros x Hx. rewrite !elem_of_app. auto. }
  assert (Hsame0 : same_keys h h1 (lp ++ lq)).
  { eapply same_keys_sub; [exact Hsame|]. intros x Hx. rewrite !elem_of_app in *. tauto. }
  pose proof (not_in_parent_trace h vs1 vs2 cs1 c cs2 tp tq (kcode e)
                ltac:(lia) Hbefore Hafter) as Hin.
  destruct msg.
  - (* SUCCESS below *)
    destruct Hmsg as (Hnot & Hc' & Hgrown).
    rewrite bool_decide_false by done.
    eexists _, _, _. split; [done|]. split; [done|]. split; [by rewrite Hin|].
    split.
    + apply shape_node. eexists _, _. split; [done|].
      rewrite !length_app in *. simpl in *. split; [lia|]. split; [lia|].
      apply Forall_app. split; [by eapply shapes_same|].
      apply Forall_cons. split; [done|by eapply shapes_same].
    + eapply updated_parent; try done; [apply keys_ins_in_context|lia].
  - (* EXISTS below *)
    destruct Hmsg as (-> & -> & Hin').
    rewrite bool_decide_false by done.
    eexists _, _, _. split; [done|]. split; [done|]. by rewrite Hin.
  - (* SPLIT below *)
    destruct Hmsg as (Hnot & Hc' & Hgrown).
    rewrite bool_decide_true by done.
    assert (Hgrown1 : grown h h1 (Internal (vs1 ++ vs2) (cs1 ++ c :: cs2))
                        (Internal (vs1 ++ vs2) (cs1 ++ c' :: cs2)) e tp tq lp lq).
    { eapply updated_parent; try done; [apply keys_ins_in_context|lia]. }
    destruct Hgrown1 as (Hctx1 & Hkeys1 & Hhead1).
    destruct (split_ok N HN h1 d vs1 vs2 cs1 c' cs2 tp tq lp lq)
      as (k & cl & cr & h2 & Hsplit & Hall2 & Hctx2 & Hkeys2 & Hhead2 & Hsame12);
      [lia|done|by eapply shapes_same|by eapply shapes_same|done|].
    rewrite <- Hlen2, Hsplit. simpl.
    eexists _, _, _. split; [done|].
    split; [by eapply same_keys_trans|].
    assert (Hup : grown h h2 (Internal (vs1 ++ vs2) (cs1 ++ c :: cs2))
                    (Internal (vs1 ++ k :: vs2) (cs1 ++ cl :: cr :: cs2)) e tp tq lp lq).
    { split; [done|]. split; [by rewrite Hkeys2|]. by rewrite Hhead2. }
    rewrite !length_app in *. simpl in *.
    unfold max_size. case_bool_decide.
    + split; [by rewrite Hin|]. split; [|done].
      apply shape_node. eexists _, _. split; [done|].
      rewrite !length_app. simpl. split; [lia|]. split; [lia|done].
    + split; [by rewrite Hin|]. split; [|done].
      apply shape_node. eexists _, _. split; [done|].
      rewrite !length_app. simpl. split; [lia|]. split; [lia|done].
Qed.

End add_elem.


Lemma remove_elem_External N a e h :
  remove_elem N (External a) e h
  = l ← h !! a; '(msg, l') ← External_remove_elem N l e;
    Some (msg, External a, <[a := l']> h).
Proof. done. Qed.

Lemma remove_elem_Internal N vals cs e h :
  remove_elem N (Internal vals cs) e h
  = '(result, c, h) ← cs !! Internal_find_pos vals e ≫= (λ c, remove_elem N c e h);
    let this := Internal vals (<[Internal_find_pos vals e := c]> cs) in
    if bool_decide (result = EraseMsg.MERGE) then
      '(this, h) ← merge N this (Internal_find_pos vals e) h;
      sz ← node_size h this;
      Some (if bool_decide (min_size N ≤ sz) then EraseMsg.SUCCESS else result,
            this, h)
    else Some (result, this, h).
Proof. simpl. by rewrite at_child_lookup. Qed.

Lemma trace_Internal_single h c : trace h (Internal [] [c]) = trace h c.
Proof.
  change (trace h (Internal [] [c])) with (trace h c ++ []). by rewrite app_nil_r.
Qed.

Lemma leaves_Internal vals (cs : list Node) : leaves (Internal vals cs) = cs ≫= leaves.
Proof. done. Qed.

Lemma trace_Internal_cons h v vals c (cs : list Node) :
  cs ≠ [] →
  trace h (Internal (v :: vals) (c :: cs))
  = trace h c ++ scode v :: trace h (Internal vals cs).
Proof.
  intros Hcs. rewrite <- (trace_Internal_single h c).
  by apply (trace_Internal_app h v [] [c] vals cs).
Qed.

Lemma trace_Internal_snoc h v vals c (cs : list Node) :
  length cs = S (length vals) →
  trace h (Internal (vals ++ [v]) (cs ++ [c]))
  = trace h (Internal vals cs) ++ scode v :: trace h c.
Proof.
  intros Hlen. rewrite <- (trace_Internal_single h c).
  by apply (trace_Internal_app h v vals cs [] [c]).
Qed.

Lemma list_insert_at_middle_S {A} l1 l2 (x y z : A) i :
  i = S (length l1) → <[i := z]> (l1 ++ x :: y :: l2) = l1 ++ x :: z :: l2.
Proof.
  intros ->. rewrite (cons_middle x), app_assoc.
  rewrite (list_insert_at_middle (l1 ++ [x])) by (rewrite length_app; simpl; lia).
  by rewrite <- app_assoc.
Qed.

#[local] Arguments Nat.div : simpl never.
#[local] Arguments mapM : simpl never.
#[local] Arguments seq : simpl never.
#[local] Arguments insert_at : simpl never.
#[local] Arguments shift_down : simpl never.
#[local] Arguments split_external : simpl never.
#[local] Arguments split_internal : simpl never.
#[local] Arguments split : simpl never.
#[local] Arguments trace : simpl never.
#[local] Arguments leaves : simpl never.
#[local] Arguments shape : simpl never.
#[local] Arguments add_elem : simpl never.
#[local] Arguments remove_elem : simpl never.

(** * Which block [merge] runs *)

Section merge_action.
Context (N : nat).

(** The control flow of [merge], by the position of the child and the
    sizes of its siblings. *)
Lemma merge_action_spec h vals cs pos c :
  cs !! pos = Some c → is_Some (type c) → pos ≤ length vals → 1 ≤ length vals →
  (∀ i, i ≤ length vals → is_Some (child_size h cs i)) →
  ∃ act, merge_action N h vals cs pos = Some act ∧
    match act with
    | MOVE_FROM_RIGHT =>
      pos < length vals ∧ ∃ r, child_size h cs (pos + 1) = Some r ∧ N < r ∧
        (pos = 0 ∨ ∃ l, child_size h cs (pos - 1) = Some l ∧ l < r)
    | MOVE_FROM_LEFT =>
      0 < pos ∧ ∃ l, child_size h cs (pos - 1) = Some l ∧ N < l ∧
        (pos = length vals ∨ ∃ r, child_size h cs (pos + 1) = Some r ∧ r ≤ l)
    | FUSE_LEFT =>
      0 < pos ∧ ∃ l, child_size h cs (pos - 1) = Some l ∧ l ≤ N ∧
        (pos = length vals ∨ ∃ r, child_size h cs (pos + 1) = Some r ∧ l < r ∧ r ≤ N)
    | FUSE_RIGHT =>
      pos < length vals ∧ ∃ r, child_size h cs (pos + 1) = Some r ∧ r ≤ N ∧
        (pos = 0 ∨ ∃ l, child_size h cs (pos - 1) = Some l ∧ r ≤ l ∧ l ≤ N)
    end.
Proof.
  intros Hc [ty Hty] Hpos Hvals Hsz.
  unfold merge_action, merge_direction, take_from_right, take_from_left, min_size.
  rewrite Hc. simpl. rewrite Hty. simpl.
  destruct (decide (pos = length vals)) as [Hlast|Hlast].
  - (* the last child *)
    rewrite (bool_decide_true (pos = length vals)) by done. simpl.
    rewrite (bool_decide_false (pos = 0)) by lia.
    rewrite (bool_decide_false (pos < length vals)) by lia. simpl.
    destruct pos as [|p]; [lia|]. simpl.
    destruct (Hsz p ltac:(lia)) as [l Hl]. rewrite Hl. simpl.
    case_bool_decide; simpl; rewrite ?Nat.sub_0_r.
    + eexists; split; [done|]. split; [lia|]. eauto.
    + eexists; split; [done|]. split; [lia|]. exists l. split; [done|]. split; [lia|auto].
  - rewrite (bool_decide_false (pos = length vals)) by done.
    destruct pos as [|p].
    + (* the first child *)
      simpl. destruct (Hsz 1 ltac:(lia)) as [r Hr]. rewrite Hr. simpl.
      case_bool_decide; simpl.
      * eexists; split; [done|]. split; [lia|]. eauto.
      * eexists; split; [done|]. split; [lia|]. exists r. split; [done|]. split; [lia|auto].
    + (* a child between two siblings *)
      simpl. destruct (Hsz p ltac:(lia)) as [l Hl]. rewrite Hl. simpl.
      destruct (Hsz (S p + 1) ltac:(lia)) as [r Hr].
      replace (S (p + 1)) with (S p + 1) by lia. rewrite Hr. simpl.
      rewrite (bool_decide_true (S p < length vals)) by lia.
      rewrite ?(bool_decide_true (0 < S p)) by lia.
      destruct (decide (l < r)) as [Hlr|Hlr].
      * rewrite (bool_decide_true (l < r)) by done. simpl. rewrite ?Hr, ?Hl. simpl.
        case_bool_decide; simpl; rewrite ?Nat.sub_0_r.
        -- eexists; split; [done|]. split; [lia|]. exists r. split; [done|]. split; [lia|].
           right. exists l. split; [done|lia].
        -- eexists; split; [done|]. split; [lia|]. exists l. split; [done|].
           split; [lia|]. right. exists r. split; [done|]. lia.
      * rewrite (bool_decide_false (l < r)) by done. simpl. rewrite ?Hr, ?Hl. simpl.
        case_bool_decide; simpl; rewrite ?Nat.sub_0_r.
        -- eexists; split; [done|]. split; [lia|]. exists l. split; [done|]. split; [lia|].
           right. exists r. split; [done|lia].
        -- eexists; split; [done|]. split; [lia|]. exists r. split; [done|].
           split; [lia|]. right. exists l. split; [done|]. lia.
Qed.

End merge_action.

(** * Fusing two leaves: the store *)

#[local] Arguments fuse_external : simpl never.

Lemma fuse_external_store b a (h : store) d s :
  h !! b = Some d → h !! a = Some s → a ≠ b →
  (∀ c, right_neighbour s = Some c → c ≠ a ∧ c ≠ b ∧ is_Some (h !! c)) →
  ∃ h', fuse_external b a h = Some h' ∧
    h' !! b = Some (mkExternal (values d ++ values s) (left_neighbour d)
                               (right_neighbour s)) ∧
    h' !! a = None ∧
    (∀ c nb, right_neighbour s = Some c → h !! c = Some nb →
       h' !! c = Some (set_left nb (Some b))) ∧
    (∀ x, x ≠ a → x ≠ b → right_neighbour s ≠ Some x → h' !! x = h !! x).
Proof.
  intros Hd Hs Hab Hc. unfold fuse_external. rewrite Hd, Hs. simpl.
  destruct (right_neighbour s) as [c|] eqn:Hrn.
  - destruct (Hc c eq_refl) as (Hca & Hcb & [nb Hnb]).
    rewrite lookup_insert_ne, Hnb by done. simpl.
    rewrite !lookup_insert_ne, Hs by done. simpl.
    eexists. split; [done|]. split; [|split; [|split]].
    + by rewrite lookup_delete_ne, lookup_insert_ne, lookup_insert_eq by done.
    + by rewrite lookup_delete_eq.
    + intros c' nb' [= <-] Hnb'. simplify_eq.
      by rewrite lookup_delete_ne, lookup_insert_eq by done.
    + intros x Hxa Hxb Hxc.
      rewrite lookup_delete_ne, !lookup_insert_ne; congruence.
  - simpl. rewrite lookup_insert_ne, Hs by done. simpl.
    eexists. split; [done|]. split; [|split; [|split]].
    + by rewrite lookup_delete_ne, lookup_insert_eq by done.
    + by rewrite lookup_delete_eq.
    + done.
    + intros x Hxa Hxb _. rewrite lookup_delete_ne, !lookup_insert_ne; congruence.
Qed.

Lemma chain_fuse (h h' : store) LA b a LB d s :
  chain h None (LA ++ b :: a :: LB) None → NoDup (LA ++ b :: a :: LB) →
  h !! b = Some d → h !! a = Some s →
  (∃ vs, h' !! b = Some (mkExternal vs (left_neighbour d) (right_neighbour s))) →
  (∀ c nb, right_neighbour s = Some c → h !! c = Some nb →
     h' !! c = Some (set_left nb (Some b))) →
  (∀ x, x ≠ a → x ≠ b → right_neighbour s ≠ Some x → h' !! x = h !! x) →
  chain h' None (LA ++ b :: LB) None.
Proof.
  intros Hc Hnd Hd Hs [bv Hb'] Hc' Hother.
  apply chain_app in Hc as [HcA HcB]. simpl in HcA.
  destruct HcB as (d0 & Hd0 & Hdl & Hdr & s0 & Hs0 & Hsl & Hsr & HcB).
  simplify_eq.
  apply NoDup_app in Hnd as (HndA & Hdisj & [HbLB [HaLB HndB]%NoDup_cons]%NoDup_cons).
  apply chain_app. split.
  - simpl. eapply chain_same; [|done]. intros x Hx.
    rewrite Hother; [done|..].
    + intros ->. apply (Hdisj a Hx). right. by left.
    + intros ->. apply (Hdisj b Hx). by left.
    + rewrite Hsr. destruct LB as [|c LB]; [done|]. simpl.
      intros [= ->]. apply (Hdisj x Hx). right. right. by left.
  - simpl. eexists. split; [done|]. simpl. split; [done|]. split; [done|].
    destruct LB as [|c LB]; [done|].
    destruct HcB as (nb & Hnb & Hnl & Hnr & HcB).
    simpl in Hsr. simpl. exists (set_left nb (Some b)).
    split; [by apply Hc'|]. split; [done|]. split; [done|].
    eapply chain_same; [|done]. intros x Hx.
    apply NoDup_cons in HndB as [HcLB HndB].
    rewrite Hother; [done|..].
    + intros ->. apply HaLB. by right.
    + intros ->. apply HbLB. right. by right.
    + rewrite Hsr. intros [= ->]. done.
Qed.

(** * Sorted readings under the movements of [merge] *)

Lemma sorted_drop_sep (A X Y B : list Z) s :
  StronglySorted Z.lt (A ++ X ++ s :: Y ++ B) →
  StronglySorted Z.lt (A ++ X ++ Y ++ B).
Proof.
  apply sorted_sublist. apply sublist_app; [done|].
  apply sublist_app; [done|]. by apply sublist_cons.
Qed.

Lemma sorted_rotate_left (A B Va Vb : list Z) v x y :
  StronglySorted Z.lt (A ++ (kcode <$> Va) ++ scode v :: (kcode <$> x :: y :: Vb) ++ B) →
  StronglySorted Z.lt
    (A ++ (kcode <$> Va ++ [x]) ++ scode y :: (kcode <$> y :: Vb) ++ B).
Proof.
  intros Hs%sorted_drop_sep.
  rewrite fmap_app, !fmap_cons in *. simpl in *.
  eapply sorted_eq; [|apply (sorted_insert_between (A ++ (kcode <$> Va))
                               ((kcode <$> Vb) ++ B) (kcode x) (scode y) (kcode y))].
  - by norm_list.
  - eapply sorted_eq; [|exact Hs]. by norm_list.
  - assert (kcode x < kcode y)%Z; [|unfold kcode, scode in *; lia].
    do 2 apply StronglySorted_app_1_r in Hs.
    apply StronglySorted_inv in Hs as [_ Hall].
    by apply Forall_cons in Hall as [? _].
Qed.

Lemma sorted_rotate_right (A B Va Vb : list Z) v w x :
  StronglySorted Z.lt (A ++ (kcode <$> Va ++ [w; x]) ++ scode v :: (kcode <$> Vb) ++ B) →
  StronglySorted Z.lt
    (A ++ (kcode <$> Va ++ [w]) ++ scode x :: (kcode <$> x :: Vb) ++ B).
Proof.
  intros Hs%sorted_drop_sep.
  rewrite !fmap_app, !fmap_cons in *. simpl in *.
  eapply sorted_eq; [|apply (sorted_insert_between (A ++ (kcode <$> Va))
                               ((kcode <$> Vb) ++ B) (kcode w) (scode x) (kcode x))].
  - by norm_list.
  - eapply sorted_eq; [|exact Hs]. by norm_list.
  - assert (kcode w < kcode x)%Z; [|unfold kcode, scode in *; lia].
    apply StronglySorted_app_1_r in Hs. norm_list_in Hs.
    apply StronglySorted_app_1_r in Hs.
    apply StronglySorted_inv in Hs as [_ Hall].
    by apply Forall_cons in Hall as [? _].
Qed.

Lemma snoc2 {A} (l : list A) :
  2 ≤ length l → ∃ l' w x, l = l' ++ [w; x].
Proof.
  intros Hlen.
  destruct (decide (l = [])) as [->|Hne]; [simpl in Hlen; lia|].
  destruct (exists_last Hne) as (l1 & x & ->).
  rewrite length_app in Hlen. simpl in Hlen.
  destruct (decide (l1 = [])) as [->|Hne1]; [simpl in Hlen; lia|].
  destruct (exists_last Hne1) as (l2 & w & ->).
  exists l2, w, x. by rewrite <- app_assoc.
Qed.

Lemma same_links_trans h1 h2 h3 (L : list positive) :
  same_links h1 h2 L → same_links h2 h3 L → same_links h1 h3 L.
Proof. intros H1 H2 x Hx. by rewrite H2, H1. Qed.

Lemma same_links_set_values2 (h : store) a la va b lb vb (L : list positive) :
  a ≠ b → h !! a = Some la → h !! b = Some lb →
  same_links h (<[b := set_values lb vb]> (<[a := set_values la va]> h)) L.
Proof.
  intros Hab Ha Hb.
  apply (same_links_trans h (<[a := set_values la va]> h)).
  - by apply same_links_set_values.
  - apply same_links_set_values. by rewrite lookup_insert_ne.
Qed.


(** * Moving one key between two leaves *)

Section merge.
Context (N : nat) (HN : 0 < N).

Lemma NoDup_pair_facts (LA LB : list positive) a b :
  NoDup (LA ++ a :: b :: LB) →
  a ≠ b ∧ (a ∉ LA ++ LB) ∧ (b ∉ LA ++ LB).
Proof.
  intros (HA & Hd & [Ha [Hb HB]%NoDup_cons]%NoDup_cons)%NoDup_app.
  split; [|split].
  - intros ->. apply Ha. by left.
  - intros [Hx|Hx]%elem_of_app.
    + apply (Hd a Hx). by left.
    + apply Ha. by right.
  - intros [Hx|Hx]%elem_of_app; [|done]. apply (Hd b Hx). right. by left.
Qed.

Lemma two_leaves_ok h h' vs1 v v' vs2 (cs1 : list Node) a b cs2 la lb Va' Vb'
    tp tq lp lq :
  length cs1 = length vs1 →
  h !! a = Some la → h !! b = Some lb →
  h' !! a = Some (set_values la Va') → h' !! b = Some (set_values lb Vb') →
  (∀ x, x ≠ a → x ≠ b → h' !! x = h !! x) →
  Va' ++ Vb' = values la ++ values lb →
  N ≤ length Va' ≤ N * 2 → N ≤ length Vb' ≤ N * 2 →
  (∀ A B,
     StronglySorted Z.lt
       (A ++ (kcode <$> values la) ++ scode v :: (kcode <$> values lb) ++ B) →
     StronglySorted Z.lt (A ++ (kcode <$> Va') ++ scode v' :: (kcode <$> Vb') ++ B)) →
  Forall (shape N h 0 N (N * 2)) cs1 → Forall (shape N h 0 N (N * 2)) cs2 →
  in_ctx h (Internal (vs1 ++ v :: vs2) (cs1 ++ External a :: External b :: cs2))
         tp tq lp lq →
  Forall (shape N h' 0 N (N * 2)) (cs1 ++ External a :: External b :: cs2) ∧
  in_ctx h' (Internal (vs1 ++ v' :: vs2) (cs1 ++ External a :: External b :: cs2))
         tp tq lp lq ∧
  keys h' (Internal (vs1 ++ v' :: vs2) (cs1 ++ External a :: External b :: cs2))
  = keys h (Internal (vs1 ++ v :: vs2) (cs1 ++ External a :: External b :: cs2)) ∧
  head (leaves (Internal (vs1 ++ v' :: vs2) (cs1 ++ External a :: External b :: cs2)))
  = head (leaves (Internal (vs1 ++ v :: vs2) (cs1 ++ External a :: External b :: cs2))) ∧
  same_keys h h' (lp ++ lq).
Proof.
  intros Hlen Hla Hlb Ha' Hb' Hother Hkeys Hsa Hsb Hsorted Hcs1 Hcs2 Hctx.
  apply in_ctx_pair in Hctx as (Hs & Hc & Hnd); [|done].
  rewrite !trace_External, !leaves_External in *. simpl in Hc, Hnd.
  set (LA := lp ++ cs1 ≫= leaves) in *. set (LB := (cs2 ≫= leaves) ++ lq) in *.
  destruct (NoDup_pair_facts LA LB a b Hnd) as (Hab & HaL & HbL).
  assert (Hva : vals_at h a = values la) by (unfold vals_at; by rewrite Hla).
  assert (Hvb : vals_at h b = values lb) by (unfold vals_at; by rewrite Hlb).
  assert (Hva' : vals_at h' a = Va') by (unfold vals_at; by rewrite Ha').
  assert (Hvb' : vals_at h' b = Vb') by (unfold vals_at; by rewrite Hb').
  assert (Hsame : same_keys h h' (LA ++ LB)).
  { intros x Hx. rewrite Hother; [done|by intros ->..]. }
  assert (Hsame1 : same_keys h h' (cs1 ≫= leaves)).
  { eapply same_keys_sub; [exact Hsame|]. unfold LA.
    intros x Hx. rewrite !elem_of_app. auto. }
  assert (Hsame2 : same_keys h h' (cs2 ≫= leaves)).
  { eapply same_keys_sub; [exact Hsame|]. unfold LB.
    intros x Hx. rewrite !elem_of_app. auto. }
  assert (Hlinks : same_links h h' (LA ++ a :: b :: LB)).
  { intros x _. destruct (decide (x = a)) as [->|Hxa]; [by rewrite Ha', Hla|].
    destruct (decide (x = b)) as [->|Hxb]; [by rewrite Hb', Hlb|].
    by rewrite Hother. }
  split; [|split; [|split; [|split]]].
  - apply Forall_app. split; [by eapply shapes_same|].
    apply Forall_cons. split.
    { apply shape_leaf. eexists _, _. split; [done|]. split; [done|]. done. }
    apply Forall_cons. split; [|by eapply shapes_same].
    apply shape_leaf. eexists _, _. split; [done|]. split; [done|]. done.
  - apply in_ctx_pair; [done|]. rewrite !trace_External, !leaves_External.
    rewrite (traces_same h h' cs1), (traces_same h h' cs2) by done.
    rewrite Hva', Hvb'. rewrite Hva, Hvb in Hs.
    split; [|split; [|done]].
    + eapply sorted_eq;
        [|apply (Hsorted (tp ++ pre (trace h <$> cs1) (scode <$> vs1))
                         (weave (scode <$> vs2) (trace h <$> cs2) ++ tq))].
      * by norm_list.
      * eapply sorted_eq; [|exact Hs]. by norm_list.
    + simpl. by eapply chain_same.
  - rewrite !keys_Internal_pair.
    rewrite (keyss_same h h' cs1), (keyss_same h h' cs2) by done.
    rewrite !keys_External, Hva, Hvb, Hva', Hvb'.
    by rewrite !(app_assoc _ _ (cs2 ≫= keys h)), Hkeys.
  - by rewrite !leaves_Internal_pair.
  - eapply same_keys_sub; [exact Hsame|]. unfold LA, LB.
    intros x Hx. rewrite !elem_of_app in *. tauto.
Qed.

#[local] Arguments move_from_right : simpl never.
#[local] Arguments move_from_left : simpl never.
#[local] Arguments split_if_oversize : simpl never.
#[local] Arguments fuse_left : simpl never.
#[local] Arguments fuse_right : simpl never.

Lemma move_from_right_leaf h vs1 v vs2 (cs1 : list Node) a b cs2 la lb tp tq lp lq :
  length cs1 = length vs1 →
  h !! a = Some la → h !! b = Some lb →
  length (values la) = N - 1 → N < length (values lb) ≤ N * 2 →
  Forall (shape N h 0 N (N * 2)) cs1 → Forall (shape N h 0 N (N * 2)) cs2 →
  in_ctx h (Internal (vs1 ++ v :: vs2) (cs1 ++ External a :: External b :: cs2))
         tp tq lp lq →
  ∃ v' h',
    move_from_right (vs1 ++ v :: vs2) (cs1 ++ External a :: External b :: cs2)
                    (length vs1) h
    = Some (Internal (vs1 ++ v' :: vs2) (cs1 ++ External a :: External b :: cs2), h') ∧
    Forall (shape N h' 0 N (N * 2)) (cs1 ++ External a :: External b :: cs2) ∧
    in_ctx h' (Internal (vs1 ++ v' :: vs2) (cs1 ++ External a :: External b :: cs2))
           tp tq lp lq ∧
    keys h' (Internal (vs1 ++ v' :: vs2) (cs1 ++ External a :: External b :: cs2))
    = keys h (Internal (vs1 ++ v :: vs2) (cs1 ++ External a :: External b :: cs2)) ∧
    head (leaves (Internal (vs1 ++ v' :: vs2) (cs1 ++ External a :: External b :: cs2)))
    = head (leaves (Internal (vs1 ++ v :: vs2) (cs1 ++ External a :: External b :: cs2))) ∧
    same_keys h h' (lp ++ lq).
Proof.
  intros Hlen Hla Hlb Hsa Hsb Hcs1 Hcs2 Hctx.
  pose proof Hctx as (_ & _ & Hnd)%in_ctx_pair; [|done].
  rewrite !leaves_External in Hnd. simpl in Hnd.
  destruct (NoDup_pair_facts _ _ a b Hnd) as (Hab & _ & _).
  destruct (values lb) as [|x [|y Vb]] eqn:HVb; simpl in Hsb; try lia.
  exists y. eexists. split.
  - unfold move_from_right.
    rewrite ?lookup_middle_eq, ?lookup_middle_S by lia. simpl.
    rewrite ?lookup_middle_eq, ?lookup_middle_S by lia. simpl.
    rewrite Hla, Hlb. simpl. rewrite HVb. simpl.
    by rewrite list_insert_at_middle by done.
  - eapply (two_leaves_ok h _ vs1 v y vs2 cs1 a b cs2 la lb
                           (values la ++ [x]) (y :: Vb)); try done.
    + by rewrite lookup_insert_ne, lookup_insert_eq by done.
    + by rewrite lookup_insert_eq.
    + intros z Hza Hzb. by rewrite !lookup_insert_ne.
    + rewrite HVb. by rewrite <- app_assoc.
    + rewrite length_app. simpl. lia.
    + simpl. lia.
    + intros A B. rewrite HVb. apply sorted_rotate_left.
Qed.

Lemma move_from_left_leaf h vs1 v vs2 (cs1 : list Node) a b cs2 la lb tp tq lp lq :
  length cs1 = length vs1 →
  h !! a = Some la → h !! b = Some lb →
  N < length (values la) ≤ N * 2 → length (values lb) = N - 1 →
  Forall (shape N h 0 N (N * 2)) cs1 → Forall (shape N h 0 N (N * 2)) cs2 →
  in_ctx h (Internal (vs1 ++ v :: vs2) (cs1 ++ External a :: External b :: cs2))
         tp tq lp lq →
  ∃ v' h',
    move_from_left (vs1 ++ v :: vs2) (cs1 ++ External a :: External b :: cs2)
                   (S (length vs1)) h
    = Some (Internal (vs1 ++ v' :: vs2) (cs1 ++ External a :: External b :: cs2), h') ∧
    Forall (shape N h' 0 N (N * 2)) (cs1 ++ External a :: External b :: cs2) ∧
    in_ctx h' (Internal (vs1 ++ v' :: vs2) (cs1 ++ External a :: External b :: cs2))
           tp tq lp lq ∧
    keys h' (Internal (vs1 ++ v' :: vs2) (cs1 ++ External a :: External b :: cs2))
    = keys h (Internal (vs1 ++ v :: vs2) (cs1 ++ External a :: External b :: cs2)) ∧
    head (leaves (Internal (vs1 ++ v' :: vs2) (cs1 ++ External a :: External b :: cs2)))
    = head (leaves (Internal (vs1 ++ v :: vs2) (cs1 ++ External a :: External b :: cs2))) ∧
    same_keys h h' (lp ++ lq).
Proof.
  intros Hlen Hla Hlb Hsa Hsb Hcs1 Hcs2 Hctx.
  pose proof Hctx as (_ & _ & Hnd)%in_ctx_pair; [|done].
  rewrite !leaves_External in Hnd. simpl in Hnd.
  destruct (NoDup_pair_facts _ _ a b Hnd) as (Hab & _ & _).
  destruct (snoc2 (values la)) as (Va & w & x & HVa); [lia|].
  assert (Hlast : last (values la) = Some x).
  { rewrite HVa. change (Va ++ [w; x]) with (Va ++ [w] ++ [x]).
    by rewrite app_assoc, last_snoc. }
  assert (Htake : take (length (values la) - 1) (values la) = Va ++ [w]).
  { rewrite HVa. change (Va ++ [w; x]) with (Va ++ [w] ++ [x]).
    rewrite app_assoc, length_app. simpl.
    replace (length (Va ++ [w]) + 1 - 1) with (length (Va ++ [w])) by lia.
    by rewrite take_app_length. }
  exists x. eexists. split.
  - unfold move_from_left. simpl.
    rewrite ?lookup_middle_eq, ?lookup_middle_S by lia. simpl.
    rewrite ?lookup_middle_eq, ?lookup_middle_S by lia. simpl.
    rewrite Hla, Hlb. simpl. rewrite Hlast. simpl.
    by rewrite list_insert_at_middle by done.
  - eapply (two_leaves_ok h _ vs1 v x vs2 cs1 a b cs2 la lb
                           (take (length (values la) - 1) (values la))
                           (x :: values lb)); try done.
    + by rewrite lookup_insert_eq.
    + by rewrite lookup_insert_ne, lookup_insert_eq by done.
    + intros z Hza Hzb. by rewrite !lookup_insert_ne.
    + rewrite Htake, HVa. by rewrite <- !app_assoc.
    + rewrite Htake. rewrite HVa in Hsa. rewrite !length_app in *. simpl in *. lia.
    + simpl. lia.
    + intros A B. rewrite Htake, HVa. apply sorted_rotate_right.
Qed.

(** * Moving one key and one child between two internal nodes *)

Lemma move_from_right_node h d vs1 v vs2 (cs1 : list Node) lv lc rv rc cs2
    tp tq lp lq :
  length cs1 = length vs1 →
  shape N h (S d) (N - 1) (N - 1) (Internal lv lc) →
  shape N h (S d) (N + 1) (N * 2) (Internal rv rc) →
  in_ctx h (Internal (vs1 ++ v :: vs2) (cs1 ++ Internal lv lc :: Internal rv rc :: cs2))
         tp tq lp lq →
  ∃ v' L' R',
    move_from_right (vs1 ++ v :: vs2) (cs1 ++ Internal lv lc :: Internal rv rc :: cs2)
                    (length vs1) h
    = Some (Internal (vs1 ++ v' :: vs2) (cs1 ++ L' :: R' :: cs2), h) ∧
    shape N h (S d) N (N * 2) L' ∧ shape N h (S d) N (N * 2) R' ∧
    in_ctx h (Internal (vs1 ++ v' :: vs2) (cs1 ++ L' :: R' :: cs2)) tp tq lp lq ∧
    keys h (Internal (vs1 ++ v' :: vs2) (cs1 ++ L' :: R' :: cs2))
    = keys h (Internal (vs1 ++ v :: vs2) (cs1 ++ Internal lv lc :: Internal rv rc :: cs2)) ∧
    head (leaves (Internal (vs1 ++ v' :: vs2) (cs1 ++ L' :: R' :: cs2)))
    = head (leaves (Internal (vs1 ++ v :: vs2)
                             (cs1 ++ Internal lv lc :: Internal rv rc :: cs2))) ∧
    same_keys h h (lp ++ lq).
Proof.
  rewrite !shape_node.
  intros Hlen (? & ? & [= <- <-] & HlcL & HszL & HallL)
         (? & ? & [= <- <-] & HlcR & HszR & HallR) Hctx.
  destruct rv as [|r0 rv]; [simpl in HszR; lia|].
  destruct rc as [|c0 [|c1 rc]]; [done|simpl in *; lia|].
  apply Forall_cons in HallR as [Hc0 HallR]. simpl in HlcR, HszR.
  exists r0, (Internal (lv ++ [v]) (lc ++ [c0])), (Internal rv (c1 :: rc)).
  split; [|split; [|split]].
  - unfold move_from_right.
    rewrite ?lookup_middle_eq, ?lookup_middle_S by lia. simpl.
    rewrite ?lookup_middle_eq, ?lookup_middle_S by lia. simpl.
    rewrite list_insert_at_middle by done.
    rewrite (list_insert_at_middle cs1) by done.
    by rewrite list_insert_at_middle_S by lia.
  - apply shape_node. eexists _, _. split; [done|].
    rewrite !length_app. simpl. split; [lia|]. split; [lia|].
    apply Forall_app. split; [done|]. by apply Forall_cons.
  - apply shape_node. eexists _, _. split; [done|].
    simpl. split; [lia|]. split; [lia|]. done.
  - apply same_reading; [|done]. apply pair_of_pair; [done| |].
    + rewrite trace_Internal_snoc by done.
      rewrite (trace_Internal_cons h r0 rv c0 (c1 :: rc)) by done.
      by rewrite <- app_assoc.
    + rewrite !leaves_Internal, bind_app, bind_cons, (bind_cons _ c0).
      simpl. by rewrite app_nil_r, <- app_assoc.
Qed.

Lemma move_from_left_node h d vs1 v vs2 (cs1 : list Node) lv lc rv rc cs2
    tp tq lp lq :
  length cs1 = length vs1 →
  shape N h (S d) (N + 1) (N * 2) (Internal lv lc) →
  shape N h (S d) (N - 1) (N - 1) (Internal rv rc) →
  in_ctx h (Internal (vs1 ++ v :: vs2) (cs1 ++ Internal lv lc :: Internal rv rc :: cs2))
         tp tq lp lq →
  ∃ v' L' R',
    move_from_left (vs1 ++ v :: vs2) (cs1 ++ Internal lv lc :: Internal rv rc :: cs2)
                   (S (length vs1)) h
    = Some (Internal (vs1 ++ v' :: vs2) (cs1 ++ L' :: R' :: cs2), h) ∧
    shape N h (S d) N (N * 2) L' ∧ shape N h (S d) N (N * 2) R' ∧
    in_ctx h (Internal (vs1 ++ v' :: vs2) (cs1 ++ L' :: R' :: cs2)) tp tq lp lq ∧
    keys h (Internal (vs1 ++ v' :: vs2) (cs1 ++ L' :: R' :: cs2))
    = keys h (Internal (vs1 ++ v :: vs2) (cs1 ++ Internal lv lc :: Internal rv rc :: cs2)) ∧
    head (leaves (Internal (vs1 ++ v' :: vs2) (cs1 ++ L' :: R' :: cs2)))
    = head (leaves (Internal (vs1 ++ v :: vs2)
                             (cs1 ++ Internal lv lc :: Internal rv rc :: cs2))) ∧
    same_keys h h (lp ++ lq).
Proof.
  rewrite !shape_node.
  intros Hlen (? & ? & [= <- <-] & HlcL & HszL & HallL)
         (? & ? & [= <- <-] & HlcR & HszR & HallR) Hctx.
  destruct (decide (lv = [])) as [->|Hlv]; [simpl in HszL; lia|].
  destruct (exists_last Hlv) as (lv' & l_last & ->).
  destruct (decide (lc = [])) as [->|Hlc]; [done|].
  destruct (exists_last Hlc) as (lc' & c_last & ->).
  rewrite !length_app in HlcL. rewrite !length_app in HszL.
  simpl in HlcL, HszL.
  apply Forall_app in HallL as [HallL [Hcl _]%Forall_cons].
  assert (Hrc : rc ≠ []) by (intros ->; done).
  exists l_last, (Internal lv' lc'), (Internal (v :: rv) (c_last :: rc)).
  split; [|split; [|split]].
  - unfold move_from_left. simpl.
    rewrite ?lookup_middle_eq, ?lookup_middle_S by lia. simpl.
    rewrite ?lookup_middle_eq, ?lookup_middle_S by lia. simpl.
    rewrite last_snoc. simpl.
    rewrite (lookup_middle_eq lc' []) by (rewrite length_app; simpl; lia). simpl.
    rewrite list_insert_at_middle by done.
    rewrite list_insert_at_middle_S by lia.
    rewrite (list_insert_at_middle cs1) by done.
    rewrite length_app. simpl.
    replace (length lv' + 1 - 1) with (length lv') by lia.
    rewrite take_app_length.
    replace (length lv' + 1) with (length lc') by lia.
    by rewrite take_app_length.
  - apply shape_node. eexists _, _. split; [done|].
    split; [lia|]. split; [lia|]. done.
  - apply shape_node. eexists _, _. split; [done|].
    simpl. split; [lia|]. split; [lia|]. by apply Forall_cons.
  - apply same_reading; [|done]. apply pair_of_pair; [done| |].
    + rewrite trace_Internal_snoc by lia.
      rewrite (trace_Internal_cons h v rv c_last rc) by done.
      by rewrite <- app_assoc.
    + rewrite !leaves_Internal, bind_app, bind_cons, (bind_cons _ c_last).
      simpl. by rewrite app_nil_r, <- app_assoc.
Qed.

(** * Fusing two adjacent children *)

Lemma fuse_leaves h vs1 v vs2 (cs1 : list Node) b a cs2 ld ls tp tq lp lq :
  length cs1 = length vs1 →
  h !! b = Some ld → h !! a = Some ls →
  N ≤ length (values ld) + length (values ls) ≤ N * 2 →
  Forall (shape N h 0 N (N * 2)) cs1 → Forall (shape N h 0 N (N * 2)) cs2 →
  in_ctx h (Internal (vs1 ++ v :: vs2) (cs1 ++ External b :: External a :: cs2))
         tp tq lp lq →
  ∃ h', fuse (External b) (External a) v h = Some (External b, h') ∧
    vals_at h' b = values ld ++ values ls ∧
    Forall (shape N h' 0 N (N * 2)) (cs1 ++ External b :: cs2) ∧
    in_ctx h' (Internal (vs1 ++ vs2) (cs1 ++ External b :: cs2)) tp tq lp lq ∧
    keys h' (Internal (vs1 ++ vs2) (cs1 ++ External b :: cs2))
    = keys h (Internal (vs1 ++ v :: vs2) (cs1 ++ External b :: External a :: cs2)) ∧
    head (leaves (Internal (vs1 ++ vs2) (cs1 ++ External b :: cs2)))
    = head (leaves (Internal (vs1 ++ v :: vs2)
                             (cs1 ++ External b :: External a :: cs2))) ∧
    same_keys h h' (lp ++ lq).
Proof.
  intros Hlen Hld Hls Hsz Hcs1 Hcs2 Hctx.
  apply in_ctx_pair in Hctx as (Hs & Hc & Hnd); [|done].
  rewrite !trace_External, !leaves_External in *. simpl in Hc, Hnd.
  set (LA := lp ++ cs1 ≫= leaves) in *. set (LB := (cs2 ≫= leaves) ++ lq) in *.
  destruct (NoDup_pair_facts LA LB b a Hnd) as (Hba & HbL & HaL).
  assert (Hva : vals_at h a = values ls) by (unfold vals_at; by rewrite Hls).
  assert (Hvb : vals_at h b = values ld) by (unfold vals_at; by rewrite Hld).
  assert (Hright : ∀ c, right_neighbour ls = Some c →
            c ≠ a ∧ c ≠ b ∧ is_Some (h !! c)).
  { intros c Hc'.
    destruct (chain_right h (LA ++ [b]) a LB ls c) as (Hca & Hsome & Hhead);
      [by rewrite <- app_assoc|by rewrite <- app_assoc|done|done|].
    split; [done|]. split; [|done]. intros ->.
    apply HbL, elem_of_app. right. destruct LB; [done|]. injection Hhead as ->. by left. }
  destruct (fuse_external_store b a h ld ls Hld Hls) as
    (h' & Hfuse & Hb' & Ha' & Hc' & Hother); [done|done|].
  assert (Hvb' : vals_at h' b = values ld ++ values ls)
    by (unfold vals_at; by rewrite Hb').
  assert (Hsame : same_keys h h' (LA ++ LB)).
  { intros x Hx.
    assert (x ≠ a) by (by intros ->). assert (x ≠ b) by (by intros ->).
    destruct (decide (right_neighbour ls = Some x)) as [Hrx|Hrx].
    - destruct (Hright x Hrx) as (_ & _ & [nb Hnb]).
      by rewrite (Hc' x nb Hrx Hnb), Hnb.
    - by rewrite Hother. }
  assert (Hsame1 : same_keys h h' (cs1 ≫= leaves)).
  { eapply same_keys_sub; [exact Hsame|]. unfold LA.
    intros x Hx. rewrite !elem_of_app. auto. }
  assert (Hsame2 : same_keys h h' (cs2 ≫= leaves)).
  { eapply same_keys_sub; [exact Hsame|]. unfold LB.
    intros x Hx. rewrite !elem_of_app. auto. }
  exists h'. split; [|split; [done|split; [|split; [|split; [|split]]]]].
  - unfold fuse. by rewrite Hfuse.
  - apply Forall_app. split; [by eapply shapes_same|].
    apply Forall_cons. split; [|by eapply shapes_same].
    apply shape_leaf. eexists _, _. split; [done|]. split; [done|].
    simpl. by rewrite length_app.
  - apply in_ctx_child; [done|]. unfold in_ctx.
    rewrite trace_External, leaves_External, Hvb'.
    rewrite (traces_same h h' cs1), (traces_same h h' cs2) by done.
    split; [|split].
    + rewrite Hva, Hvb in Hs. apply sorted_drop_sep in Hs.
      eapply sorted_eq; [|exact Hs]. rewrite fmap_app. by norm_list.
    + simpl. eapply chain_fuse; [exact Hc|exact Hnd|exact Hld|exact Hls|by eexists|..];
        done.
    + simpl. apply (sublist_NoDup _ (LA ++ b :: a :: LB)); [exact Hnd|].
      apply sublist_app; [done|]. apply sublist_skip. by apply sublist_cons.
  - rewrite keys_Internal_pair, keys_Internal_middle.
    rewrite (keyss_same h h' cs1), (keyss_same h h' cs2) by done.
    rewrite !keys_External, Hva, Hvb, Hvb'. by rewrite <- app_assoc.
  - rewrite leaves_Internal_pair, leaves_Internal_middle, !leaves_External.
    destruct (cs1 ≫= leaves); done.
  - eapply same_keys_sub; [exact Hsame|]. unfold LA, LB.
    intros x Hx. rewrite !elem_of_app in *. tauto.
Qed.

Lemma delete_emptied (sc : list Node) (h : store) :
  sc ≠ [] → delete_node (Internal [] (<[0 := Null]> sc)) h = Some h.
Proof. destruct sc as [|c [|c' sc]]; done. Qed.

Lemma fuse_nodes h d vs1 v vs2 (cs1 : list Node) lv lc rv rc cs2 a1 a2 b1 b2
    tp tq lp lq :
  length cs1 = length vs1 →
  shape N h (S d) a1 a2 (Internal lv lc) → shape N h (S d) b1 b2 (Internal rv rc) →
  N ≤ a1 + b1 + 1 → a2 + b2 + 1 ≤ N * 2 →
  in_ctx h (Internal (vs1 ++ v :: vs2) (cs1 ++ Internal lv lc :: Internal rv rc :: cs2))
         tp tq lp lq →
  fuse (Internal lv lc) (Internal rv rc) v h
  = Some (Internal (lv ++ v :: rv) (lc ++ rc), h) ∧
  shape N h (S d) N (N * 2) (Internal (lv ++ v :: rv) (lc ++ rc)) ∧
  in_ctx h (Internal (vs1 ++ vs2) (cs1 ++ Internal (lv ++ v :: rv) (lc ++ rc) :: cs2))
         tp tq lp lq ∧
  keys h (Internal (vs1 ++ vs2) (cs1 ++ Internal (lv ++ v :: rv) (lc ++ rc) :: cs2))
  = keys h (Internal (vs1 ++ v :: vs2) (cs1 ++ Internal lv lc :: Internal rv rc :: cs2)) ∧
  head (leaves (Internal (vs1 ++ vs2)
                         (cs1 ++ Internal (lv ++ v :: rv) (lc ++ rc) :: cs2)))
  = head (leaves (Internal (vs1 ++ v :: vs2)
                           (cs1 ++ Internal lv lc :: Internal rv rc :: cs2))) ∧
  same_keys h h (lp ++ lq).
Proof.
  rewrite !shape_node.
  intros Hlen (? & ? & [= <- <-] & HlcL & HszL & HallL)
         (? & ? & [= <- <-] & HlcR & HszR & HallR) Hlo Hhi Hctx.
  assert (Hrc : rc ≠ []) by (intros ->; done).
  split; [|split].
  - unfold fuse. by rewrite delete_emptied.
  - eexists _, _. split; [done|]. rewrite !length_app. simpl.
    split; [lia|]. split; [lia|]. by apply Forall_app.
  - apply same_reading; [|done].
    destruct (pair_of_one h vs1 v vs2 cs1 (Internal (lv ++ v :: rv) (lc ++ rc))
                (Internal lv lc) (Internal rv rc) cs2) as [Ht Hl]; [done| | |done].
    + by apply trace_Internal_app.
    + by rewrite !leaves_Internal, bind_app.
Qed.

(** * The four blocks of [merge], over two adjacent children *)

Lemma shape_size h d mn mx n :
  shape N h d mn mx n → ∃ k, node_size h n = Some k ∧ mn ≤ k ≤ mx.
Proof.
  destruct d.
  - rewrite shape_leaf. intros (a & l & -> & Hl & Hsz). simpl. rewrite Hl. eauto.
  - rewrite shape_node. intros (vals & cs & -> & _ & Hsz & _). simpl. eauto.
Qed.

Lemma shape_bounds h d mn mx mn' mx' n k :
  shape N h d mn mx n → node_size h n = Some k → mn' ≤ k ≤ mx' →
  shape N h d mn' mx' n.
Proof.
  destruct d.
  - rewrite !shape_leaf. intros (a & l & -> & Hl & Hsz). simpl. rewrite Hl.
    intros [= <-] ?. eauto.
  - rewrite !shape_node. intros (vals & cs & -> & Hlen & Hsz & Hall). simpl.
    intros [= <-] ?. eexists _, _. eauto.
Qed.

Lemma shape_type h d mn mx n : shape N h d mn mx n → is_Some (type n).
Proof.
  destruct d.
  - rewrite shape_leaf. intros (a & l & -> & _). by eexists.
  - rewrite shape_node. intros (vals & cs & -> & _). by eexists.
Qed.

Lemma move_from_right_ok h d vs1 v vs2 (cs1 : list Node) L R cs2 tp tq lp lq :
  length cs1 = length vs1 → length cs2 = length vs2 →
  shape N h d (N - 1) (N - 1) L → shape N h d (N + 1) (N * 2) R →
  Forall (shape N h d N (N * 2)) cs1 → Forall (shape N h d N (N * 2)) cs2 →
  in_ctx h (Internal (vs1 ++ v :: vs2) (cs1 ++ L :: R :: cs2)) tp tq lp lq →
  ∃ n' h',
    move_from_right (vs1 ++ v :: vs2) (cs1 ++ L :: R :: cs2) (length vs1) h
    = Some (n', h') ∧
    merged_to N h h' d (Internal (vs1 ++ v :: vs2) (cs1 ++ L :: R :: cs2)) n'
              (length (vs1 ++ v :: vs2)) tp tq lp lq.
Proof.
  intros Hlen1 Hlen2 HL HR Hcs1 Hcs2 Hctx. destruct d.
  - apply shape_leaf in HL as (a & la & -> & Hla & Hsa).
    apply shape_leaf in HR as (b & lb & -> & Hlb & Hsb).
    destruct (move_from_right_leaf h vs1 v vs2 cs1 a b cs2 la lb tp tq lp lq)
      as (v' & h' & Hmove & Hshape & Hctx' & Hkeys & Hhead & Hsame);
      [done|done|done|lia|lia|done|done|done|].
    eexists _, _. split; [exact Hmove|]. split; [|done].
    eexists _, _. split; [done|]. rewrite !length_app. simpl.
    split; [done|]. split; [lia|done].
  - pose proof HL as (lv & lc & -> & _)%shape_node.
    pose proof HR as (rv & rc & -> & _)%shape_node.
    destruct (move_from_right_node h d vs1 v vs2 cs1 lv lc rv rc cs2 tp tq lp lq)
      as (v' & L' & R' & Hmove & HL' & HR' & Hctx' & Hkeys & Hhead & Hsame);
      [done|done|done|done|].
    eexists _, _. split; [exact Hmove|]. split; [|done].
    eexists _, _. split; [done|]. rewrite !length_app. simpl.
    split; [done|]. split; [lia|].
    apply Forall_app. split; [done|].
    apply Forall_cons. split; [done|]. by apply Forall_cons.
Qed.

Lemma move_from_left_ok h d vs1 v vs2 (cs1 : list Node) L R cs2 tp tq lp lq :
  length cs1 = length vs1 → length cs2 = length vs2 →
  shape N h d (N + 1) (N * 2) L → shape N h d (N - 1) (N - 1) R →
  Forall (shape N h d N (N * 2)) cs1 → Forall (shape N h d N (N * 2)) cs2 →
  in_ctx h (Internal (vs1 ++ v :: vs2) (cs1 ++ L :: R :: cs2)) tp tq lp lq →
  ∃ n' h',
    move_from_left (vs1 ++ v :: vs2) (cs1 ++ L :: R :: cs2) (S (length vs1)) h
    = Some (n', h') ∧
    merged_to N h h' d (Internal (vs1 ++ v :: vs2) (cs1 ++ L :: R :: cs2)) n'
              (length (vs1 ++ v :: vs2)) tp tq lp lq.
Proof.
  intros Hlen1 Hlen2 HL HR Hcs1 Hcs2 Hctx. destruct d.
  - apply shape_leaf in HL as (a & la & -> & Hla & Hsa).
    apply shape_leaf in HR as (b & lb & -> & Hlb & Hsb).
    destruct (move_from_left_leaf h vs1 v vs2 cs1 a b cs2 la lb tp tq lp lq)
      as (v' & h' & Hmove & Hshape & Hctx' & Hkeys & Hhead & Hsame);
      [done|done|done|lia|lia|done|done|done|].
    eexists _, _. split; [exact Hmove|]. split; [|done].
    eexists _, _. split; [done|]. rewrite !length_app. simpl.
    split; [done|]. split; [lia|done].
  - pose proof HL as (lv & lc & -> & _)%shape_node.
    pose proof HR as (rv & rc & -> & _)%shape_node.
    destruct (move_from_left_node h d vs1 v vs2 cs1 lv lc rv rc cs2 tp tq lp lq)
      as (v' & L' & R' & Hmove & HL' & HR' & Hctx' & Hkeys & Hhead & Hsame);
      [done|done|done|done|].
    eexists _, _. split; [exact Hmove|]. split; [|done].
    eexists _, _. split; [done|]. rewrite !length_app. simpl.
    split; [done|]. split; [lia|].
    apply Forall_app. split; [done|].
    apply Forall_cons. split; [done|]. by apply Forall_cons.
Qed.

(** Fusing an underfull node with a sibling of [N] keys: the fused node
    holds [2N - 1] keys (leaves) or [2N] keys (internal nodes). *)
Lemma fuse_pair h d vs1 v vs2 (cs1 : list Node) L R cs2 a b tp tq lp lq :
  length cs1 = length vs1 → length cs2 = length vs2 →
  shape N h d a a L → shape N h d b b R → a + b = N * 2 - 1 →
  Forall (shape N h d N (N * 2)) cs1 → Forall (shape N h d N (N * 2)) cs2 →
  in_ctx h (Internal (vs1 ++ v :: vs2) (cs1 ++ L :: R :: cs2)) tp tq lp lq →
  ∃ F h',
    fuse L R v h = Some (F, h') ∧
    node_size h' F = Some (match d with O => N * 2 - 1 | S _ => N * 2 end) ∧
    merged_to N h h' d (Internal (vs1 ++ v :: vs2) (cs1 ++ L :: R :: cs2))
              (Internal (vs1 ++ vs2) (cs1 ++ F :: cs2))
              (length (vs1 ++ vs2)) tp tq lp lq.
Proof.
  intros Hlen1 Hlen2 HL HR Hab Hcs1 Hcs2 Hctx. destruct d.
  - apply shape_leaf in HL as (x & lx & -> & Hlx & Hsx).
    apply shape_leaf in HR as (y & ly & -> & Hly & Hsy).
    destruct (fuse_leaves h vs1 v vs2 cs1 x y cs2 lx ly tp tq lp lq)
      as (h' & Hfuse & Hvals & Hshape & Hctx' & Hkeys & Hhead & Hsame);
      [done|done|done|lia|done|done|done|].
    eexists _, _. split; [exact Hfuse|]. split; [|split; [|done]].
    + simpl. unfold vals_at in Hvals. destruct (h' !! x) as [l'|]; simpl in *.
      * rewrite Hvals, length_app. f_equal. lia.
      * destruct (values lx), (values ly); simpl in *; try done; lia.
    + eexists _, _. split; [done|]. rewrite !length_app. simpl.
      split; [done|]. split; [lia|done].
  - pose proof HL as (lv & lc & -> & HlcL & HszL & _)%shape_node.
    pose proof HR as (rv & rc & -> & HlcR & HszR & _)%shape_node.
    destruct (fuse_nodes h d vs1 v vs2 cs1 lv lc rv rc cs2 a a b b tp tq lp lq)
      as (Hfuse & Hshape & Hctx' & Hkeys & Hhead & Hsame);
      [done|done|done|lia|lia|done|].
    eexists _, _. split; [exact Hfuse|]. split; [|split; [|done]].
    + simpl. rewrite length_app. simpl. f_equal. lia.
    + eexists _, _. split; [done|]. rewrite !length_app. simpl.
      split; [done|]. split; [lia|].
      apply Forall_app. split; [done|]. by apply Forall_cons.
Qed.

Lemma shift_down_delete_at {A} (l : list A) from n m :
  n = length l → m = length l - 1 → 1 ≤ from → from ≤ length l →
  take m (shift_down from n l) = delete (from - 1) l.
Proof. intros -> -> ??. by apply shift_down_delete. Qed.

Lemma split_if_oversize_nop vals cs p h k :
  child_size h cs p = Some k → k ≤ N * 2 →
  split_if_oversize N (Internal vals cs) p h = Some (Internal vals cs, h).
Proof.
  intros Hk Hle. unfold split_if_oversize, max_size. rewrite Hk. simpl.
  by rewrite bool_decide_false by lia.
Qed.


Lemma fuse_right_ok h d vs1 v vs2 (cs1 : list Node) L R cs2 a b tp tq lp lq :
  length cs1 = length vs1 → length cs2 = length vs2 →
  shape N h d a a L → shape N h d b b R → a + b = N * 2 - 1 →
  Forall (shape N h d N (N * 2)) cs1 → Forall (shape N h d N (N * 2)) cs2 →
  in_ctx h (Internal (vs1 ++ v :: vs2) (cs1 ++ L :: R :: cs2)) tp tq lp lq →
  ∃ F h',
    fuse_right (vs1 ++ v :: vs2) (cs1 ++ L :: R :: cs2) (length vs1) h
    = Some (Internal (vs1 ++ vs2) (cs1 ++ F :: cs2), h') ∧
    child_size h' (cs1 ++ F :: cs2) (length vs1) = Some (fused_size N d) ∧
    merged_to N h h' d (Internal (vs1 ++ v :: vs2) (cs1 ++ L :: R :: cs2))
              (Internal (vs1 ++ vs2) (cs1 ++ F :: cs2))
              (length (vs1 ++ vs2)) tp tq lp lq.
Proof.
  intros Hlen1 Hlen2 HL HR Hab Hcs1 Hcs2 Hctx.
  destruct (fuse_pair h d vs1 v vs2 cs1 L R cs2 a b tp tq lp lq)
    as (F & h' & Hfuse & Hsize & Hmerged); try done.
  exists F, h'. split; [|split; [|done]].
  - unfold fuse_right.
    rewrite ?lookup_middle_eq, ?lookup_middle_S by lia. simpl.
    rewrite ?lookup_middle_eq, ?lookup_middle_S by lia. simpl.
    rewrite Hfuse. simpl.
    rewrite (list_insert_at_middle cs1) by done.
    rewrite (shift_down_delete_at (vs1 ++ v :: vs2)) by
      (rewrite ?length_app; simpl; lia).
    rewrite (shift_down_delete_at (cs1 ++ F :: R :: cs2)) by
      (rewrite ?length_app; simpl; lia).
    simpl. rewrite !Nat.sub_0_r.
    rewrite delete_middle_eq by done.
    rewrite (cons_middle F cs1), app_assoc.
    by rewrite (delete_middle_eq (cs1 ++ [F]) cs2 R), <- app_assoc
      by (rewrite length_app; simpl; lia).
  - unfold child_size. by rewrite lookup_middle_eq by done.
Qed.

Lemma fuse_left_ok h d vs1 v (cs1 : list Node) L R a b tp tq lp lq :
  length cs1 = length vs1 →
  shape N h d a a L → shape N h d b b R → a + b = N * 2 - 1 →
  Forall (shape N h d N (N * 2)) cs1 →
  in_ctx h (Internal (vs1 ++ [v]) (cs1 ++ [L; R])) tp tq lp lq →
  ∃ F h',
    fuse_left (vs1 ++ [v]) (cs1 ++ [L; R]) (S (length vs1)) h
    = Some (Internal vs1 (cs1 ++ [F]), h') ∧
    child_size h' (cs1 ++ [F]) (length vs1) = Some (fused_size N d) ∧
    merged_to N h h' d (Internal (vs1 ++ [v]) (cs1 ++ [L; R]))
              (Internal vs1 (cs1 ++ [F])) (length vs1) tp tq lp lq.
Proof.
  intros Hlen1 HL HR Hab Hcs1 Hctx.
  destruct (fuse_pair h d vs1 v [] cs1 L R [] a b tp tq lp lq)
    as (F & h' & Hfuse & Hsize & Hmerged); try done.
  rewrite app_nil_r in Hmerged.
  exists F, h'. split; [|split; [|done]].
  - unfold fuse_left. simpl.
    rewrite ?lookup_middle_eq, ?lookup_middle_S by lia. simpl.
    rewrite ?lookup_middle_eq, ?lookup_middle_S by lia. simpl.
    rewrite Hfuse. simpl.
    rewrite (list_insert_at_middle cs1) by done.
    rewrite !shift_down_nop by (rewrite ?length_app; simpl; lia).
    rewrite length_app. simpl.
    replace (length vs1 + 1 - 1) with (length vs1) by lia.
    rewrite take_app_length.
    change (cs1 ++ [F; R]) with (cs1 ++ [F] ++ [R]).
    rewrite (app_assoc cs1 [F] [R]).
    replace (length vs1 + 1) with (length (cs1 ++ [F]))
      by (rewrite length_app; simpl; lia).
    by rewrite take_app_length.
  - unfold child_size. by rewrite lookup_middle_eq by done.
Qed.

Lemma fused_size_le d : fused_size N d ≤ N * 2.
Proof. destruct d; simpl; lia. Qed.

(** [merge] at an underfull child among well-formed siblings. *)
Lemma merge_ok h d vals (csA : list Node) c csB tp tq lp lq :
  length (csA ++ c :: csB) = S (length vals) → 1 ≤ length vals →
  shape N h d (N - 1) (N - 1) c →
  Forall (shape N h d N (N * 2)) csA → Forall (shape N h d N (N * 2)) csB →
  in_ctx h (Internal vals (csA ++ c :: csB)) tp tq lp lq →
  ∃ act n' h' k,
    merge_action N h vals (csA ++ c :: csB) (length csA) = Some act ∧
    merge N (Internal vals (csA ++ c :: csB)) (length csA) h = Some (n', h') ∧
    (k = length vals ∨ S k = length vals) ∧
    merged_to N h h' d (Internal vals (csA ++ c :: csB)) n' k tp tq lp lq ∧
    match act with
    | FUSE_RIGHT =>
      ∃ vals' cs',
        fuse_right vals (csA ++ c :: csB) (length csA) h = Some (Internal vals' cs', h') ∧
        n' = Internal vals' cs' ∧
        child_size h' cs' (length csA) = Some (fused_size N d)
    | FUSE_LEFT =>
      ∃ vals' cs',
        fuse_left vals (csA ++ c :: csB) (length csA) h = Some (Internal vals' cs', h') ∧
        n' = Internal vals' cs' ∧
        child_size h' cs' (length csA - 1) = Some (fused_size N d)
    | _ => True
    end.
Proof.
  intros Hlen Hvals Hc HcsA HcsB Hctx.
  assert (Hlen' : length csA + length csB = length vals)
    by (rewrite length_app in Hlen; simpl in Hlen; lia).
  assert (Hsizes : ∀ i, i ≤ length vals →
            is_Some (child_size h (csA ++ c :: csB) i)).
  { intros i Hi.
    destruct (lookup_lt_is_Some_2 (csA ++ c :: csB) i) as [c' Hc']; [lia|].
    unfold child_size. rewrite Hc'. simpl.
    apply list_elem_of_lookup_2 in Hc'.
    assert (∃ mn mx, shape N h d mn mx c') as (mn & mx & Hs).
    { apply elem_of_app in Hc' as [Hin|[->|Hin]%elem_of_cons].
      - rewrite Forall_forall in HcsA. eauto.
      - eauto.
      - rewrite Forall_forall in HcsB. eauto. }
    apply shape_size in Hs as (k & -> & _). done. }
  destruct (merge_action_spec N h vals (csA ++ c :: csB) (length csA) c)
    as (act & Hact & Hcase);
    [by apply list_lookup_middle|by eapply shape_type|lia|done|done|].
  exists act. unfold merge. rewrite Hact. simpl.
  destruct act.
  - (* a key from the right sibling *)
    destruct Hcase as (Hlt & r & Hr & HrN & _).
    destruct csB as [|R cs2]; [simpl in Hlen'; lia|].
    destruct (lookup_lt_is_Some_2 vals (length csA)) as [v Hv]; [done|].
    apply split_at in Hv as (vs1 & vs2 & -> & Hvs1).
    apply Forall_cons in HcsB as [HR HcsB].
    unfold child_size in Hr. rewrite lookup_middle_S in Hr by lia. simpl in Hr.
    rewrite length_app in Hlen'. simpl in Hlen'.
    destruct (shape_size _ _ _ _ _ HR) as (r0 & Hr0 & Hr0N).
    rewrite Hr in Hr0. injection Hr0 as <-.
    rewrite <- Hvs1.
    destruct (move_from_right_ok h d vs1 v vs2 csA c R cs2 tp tq lp lq)
      as (n' & h' & Hmove & Hmerged);
      [done|lia|done|by eapply shape_bounds; [exact HR|exact Hr|lia]|done|done|done|].
    exists n', h', (length (vs1 ++ v :: vs2)).
    split; [done|]. split; [exact Hmove|]. split; [by left|]. done.
  - (* a key from the left sibling *)
    destruct Hcase as (Hpos & l & Hl & HlN & _).
    destruct (decide (csA = [])) as [->|HcsAne]; [simpl in Hpos; lia|].
    destruct (exists_last HcsAne) as (cs1 & L & ->).
    rewrite length_app in Hlen', Hpos. simpl in Hlen', Hpos.
    destruct (lookup_lt_is_Some_2 vals (length cs1)) as [v Hv]; [lia|].
    apply split_at in Hv as (vs1 & vs2 & -> & Hvs1).
    apply Forall_app in HcsA as [Hcs1 [HL _]%Forall_cons].
    rewrite length_app in Hlen'. simpl in Hlen'.
    replace (length (cs1 ++ [L])) with (S (length vs1)) in *
      by (rewrite length_app; simpl; lia).
    replace ((cs1 ++ [L]) ++ c :: csB) with (cs1 ++ L :: c :: csB) in *
      by (by rewrite <- app_assoc).
    simpl in Hl. rewrite Nat.sub_0_r in Hl.
    unfold child_size in Hl. rewrite lookup_middle_eq in Hl by lia. simpl in Hl.
    destruct (shape_size _ _ _ _ _ HL) as (l0 & Hl0 & Hl0N).
    rewrite Hl in Hl0. injection Hl0 as <-.
    destruct (move_from_left_ok h d vs1 v vs2 cs1 L c csB tp tq lp lq)
      as (n' & h' & Hmove & Hmerged);
      [done|lia|by eapply shape_bounds; [exact HL|exact Hl|lia]|done|done|done|done|].
    exists n', h', (length (vs1 ++ v :: vs2)).
    split; [done|]. split; [exact Hmove|]. split; [by left|]. done.
  - (* fusing with the left sibling: only at the last child *)
    destruct Hcase as (Hpos & l & Hl & HlN & Hor).
    destruct (decide (csA = [])) as [->|HcsAne]; [simpl in Hpos; lia|].
    destruct (exists_last HcsAne) as (cs1 & L & ->).
    apply Forall_app in HcsA as [Hcs1 [HL _]%Forall_cons].
    assert (Hl' : node_size h L = Some l).
    { revert Hl. unfold child_size. rewrite length_app. simpl.
      replace (length cs1 + 1 - 1) with (length cs1) by lia.
      rewrite <- app_assoc. simpl. by rewrite lookup_middle_eq by done. }
    destruct (shape_size _ _ _ _ _ HL) as (l0 & Hl0 & Hl0N).
    rewrite Hl' in Hl0. injection Hl0 as <-.
    assert (Hlast : length (cs1 ++ [L]) = length vals).
    { destruct Hor as [?|(r & _ & ? & ?)]; [done|lia]. }
    destruct csB as [|? ?]; [|simpl in Hlen'; lia].
    destruct (decide (vals = [])) as [->|Hvne]; [simpl in Hvals; lia|].
    destruct (exists_last Hvne) as (vs1 & v & ->).
    rewrite !length_app in Hlast. simpl in Hlast.
    replace (length (cs1 ++ [L])) with (S (length vs1)) in *
      by (rewrite length_app; simpl; lia).
    replace ((cs1 ++ [L]) ++ [c]) with (cs1 ++ [L; c]) in *
      by (by rewrite <- app_assoc).
    destruct (fuse_left_ok h d vs1 v cs1 L c N (N - 1) tp tq lp lq)
      as (F & h' & Hfuse & Hsize & Hmerged);
      [lia|by eapply shape_bounds; [exact HL|exact Hl'|lia]|done|lia|done|done|].
    rewrite Hfuse. simpl.
    rewrite (split_if_oversize_nop _ _ _ _ _ Hsize) by apply fused_size_le.
    exists (Internal vs1 (cs1 ++ [F])), h', (length vs1).
    split; [done|]. split; [done|]. split; [right; rewrite length_app; simpl; lia|].
    split; [done|]. eexists _, _. split; [done|]. split; [done|].
    simpl. by rewrite Nat.sub_0_r.
  - (* fusing with the right sibling *)
    destruct Hcase as (Hlt & r & Hr & HrN & _).
    destruct csB as [|R cs2]; [simpl in Hlen'; lia|].
    destruct (lookup_lt_is_Some_2 vals (length csA)) as [v Hv]; [done|].
    apply split_at in Hv as (vs1 & vs2 & -> & Hvs1).
    apply Forall_cons in HcsB as [HR HcsB].
    unfold child_size in Hr. rewrite lookup_middle_S in Hr by lia. simpl in Hr.
    rewrite length_app in Hlen'. simpl in Hlen'.
    destruct (shape_size _ _ _ _ _ HR) as (r0 & Hr0 & Hr0N).
    rewrite Hr in Hr0. injection Hr0 as <-.
    rewrite <- Hvs1.
    destruct (fuse_right_ok h d vs1 v vs2 csA c R cs2 (N - 1) N tp tq lp lq)
      as (F & h' & Hfuse & Hsize & Hmerged);
      [done|lia|done|by eapply shape_bounds; [exact HR|exact Hr|lia]|lia|done|done|done|].
    rewrite Hfuse. simpl.
    rewrite (split_if_oversize_nop _ _ _ _ _ Hsize) by apply fused_size_le.
    exists (Internal (vs1 ++ vs2) (csA ++ F :: cs2)), h', (length (vs1 ++ vs2)).
    split; [done|]. split; [done|].
    split; [right; rewrite !length_app; simpl; lia|].
    split; [done|]. eexists _, _. split; [done|]. split; [done|]. done.
Qed.

End merge.

(** * [Node::remove_elem] *)

Section remove_elem.
Context (N : nat) (HN : 0 < N).

#[local] Arguments merge : simpl never.

Lemma remove_elem_leaf_ok a l mn h e tp tq lp lq :
  h !! a = Some l → mn ≤ length (values l) ≤ N * 2 →
  in_ctx h (External a) tp tq lp lq →
  ∃ msg h', remove_elem N (External a) e h = Some (msg, External a, h') ∧
    same_keys h h' (lp ++ lq) ∧
    match msg with
    | EraseMsg.NOT_EXISTENT => h' = h ∧ kcode e ∉ trace h (External a)
    | EraseMsg.SUCCESS =>
      kcode e ∈ trace h (External a) ∧ shape N h' 0 N (N * 2) (External a) ∧
      shrunk h h' (External a) (External a) e tp tq lp lq
    | EraseMsg.MERGE =>
      kcode e ∈ trace h (External a) ∧
      shape N h' 0 (mn - 1) (N - 1) (External a) ∧
      shrunk h h' (External a) (External a) e tp tq lp lq
    end.
Proof.
  intros Hl Hsz (Hs & Hc & Hnd).
  assert (Hva : vals_at h a = values l) by (unfold vals_at; by rewrite Hl).
  rewrite trace_External, leaves_External in *. simpl in Hc, Hnd. rewrite Hva in Hs.
  assert (HsV : StronglySorted Z.lt (values l)).
  { apply sorted_fmap_kcode.
    by eapply StronglySorted_app_1_l, StronglySorted_app_1_r. }
  rewrite remove_elem_External, Hl. simpl.
  destruct (External_remove_elem_spec N l e HsV)
    as [[Hnot ->]|(V1 & V2 & HV & ->)]; simpl.
  - exists EraseMsg.NOT_EXISTENT, (<[a := l]> h). split; [done|].
    rewrite insert_id by done. split; [done|]. split; [done|].
    rewrite Hva. intros (x & Hx%kcode_inj & Hin)%list_elem_of_fmap. by subst.
  - set (l' := set_values l (V1 ++ V2)).
    set (h' := <[a := l']> h).
    assert (Hva' : vals_at h' a = V1 ++ V2).
    { unfold vals_at, h'. by rewrite lookup_insert_eq. }
    assert (HaL : a ∉ lp ++ lq).
    { apply NoDup_app in Hnd as (_ & Hd & [Ha _]%NoDup_cons).
      intros [Hx|Hx]%elem_of_app; [|done]. apply (Hd a Hx). by left. }
    assert (Hsame : same_keys h h' (lp ++ lq)) by (by apply same_keys_insert_other).
    assert (Hin : kcode e ∈ kcode <$> vals_at h a).
    { rewrite Hva, HV. apply list_elem_of_fmap_2, elem_of_app. right. by left. }
    assert (Hshrunk : shrunk h h' (External a) (External a) e tp tq lp lq).
    { split; [|split; [|done]].
      - split; [|split; [|done]].
        + rewrite trace_External, Hva', fmap_app.
          rewrite HV, fmap_app, fmap_cons in Hs.
          eapply sorted_sublist; [|exact Hs].
          apply sublist_app; [done|]. apply sublist_app; [|done].
          apply sublist_app; [done|]. by apply sublist_cons.
        + rewrite leaves_External. eapply chain_same; [|done].
          by apply same_links_set_values.
      - exists V1, V2. by rewrite !keys_External, Hva, Hva'. }
    assert (Hlen' : S (length (V1 ++ V2)) = length (values l)).
    { rewrite HV, !length_app. simpl. lia. }
    eexists _, h'. split; [done|]. split; [done|].
    unfold min_size. case_bool_decide.
    + split; [done|]. split; [|done].
      apply shape_leaf. exists a, l'. split; [done|].
      split; [by apply lookup_insert_eq|]. simpl. lia.
    + split; [done|]. split; [|done].
      apply shape_leaf. exists a, l'. split; [done|].
      split; [by apply lookup_insert_eq|]. simpl. lia.
Qed.

Lemma remove_elem_ok d : ∀ n mn h e tp tq lp lq,
  mn ≤ N → root_min d ≤ mn →
  shape N h d mn (N * 2) n → in_ctx h n tp tq lp lq →
  Forall (λ x, x < kcode e)%Z tp → Forall (λ x, kcode e < x)%Z tq →
  ∃ msg n' h', remove_elem N n e h = Some (msg, n', h') ∧
    same_keys h h' (lp ++ lq) ∧
    match msg with
    | EraseMsg.NOT_EXISTENT => n' = n ∧ h' = h ∧ kcode e ∉ trace h n
    | EraseMsg.SUCCESS =>
      kcode e ∈ trace h n ∧ shape N h' d mn (N * 2) n' ∧
      shrunk h h' n n' e tp tq lp lq
    | EraseMsg.MERGE =>
      kcode e ∈ trace h n ∧ shape N h' d (mn - 1) (N - 1) n' ∧
      shrunk h h' n n' e tp tq lp lq
    end.
Proof.
  induction d as [|d IH]; intros n mn h e tp tq lp lq Hmn Hrm Hsh Hctx Htp Htq.
  { apply shape_leaf in Hsh as (a & l & -> & Hl & Hsz).
    destruct (remove_elem_leaf_ok a l mn h e tp tq lp lq)
      as (msg & h' & Hrem & Hsame & Hmsg); try done.
    exists msg, (External a), h'. split; [done|]. split; [done|].
    destruct msg; [|by destruct Hmsg|done].
    destruct Hmsg as (? & ? & ?). split; [done|]. split; [|done].
    eapply shape_weaken; [done|lia|lia]. }
  apply shape_node in Hsh as (vals & cs & -> & Hlen & Hsz & Hall).
  simpl in Hrm.
  pose proof (find_pos_before h vals cs e tp tq Hlen (proj1 Hctx) Htp) as Hbefore.
  pose proof (find_pos_after h vals cs e tp tq Hlen (proj1 Hctx) Htq) as Hafter.
  rewrite remove_elem_Internal.
  pose proof (first_greater_le e vals) as Hpos. fold (Internal_find_pos vals e) in Hpos.
  remember (Internal_find_pos vals e) as pos eqn:Hpos_def. clear Hpos_def.
  destruct (lookup_lt_is_Some_2 cs pos) as [c Hc]; [lia|].
  rewrite Hc. simpl.
  destruct (split_at cs pos c Hc) as (cs1 & cs2 & -> & Hlen1).
  assert (∃ vs1 vs2, vals = vs1 ++ vs2 ∧ length vs1 = pos) as (vs1 & vs2 & -> & Hlen2).
  { exists (take pos vals), (drop pos vals). rewrite take_drop, length_take.
    split; [done|lia]. }
  rewrite !take_app_length', !drop_app_length' in * by lia.
  rewrite drop_middle_S in Hafter by lia.
  apply Forall_app in Hall as (Hcs1 & [Hcsh Hcs2]%Forall_cons).
  pose proof Hctx as Hctx_c. apply in_ctx_child in Hctx_c; [|lia].
  destruct (IH c N h e _ _ _ _ ltac:(lia) ltac:(destruct d; simpl; lia)
              Hcsh Hctx_c Hbefore Hafter)
    as (msg & c' & h1 & Hrem & Hsame & Hmsg).
  rewrite Hrem. simpl. rewrite list_insert_at_middle by lia.
  assert (Hsame1 : same_keys h h1 (cs1 ≫= leaves)).
  { eapply same_keys_sub; [exact Hsame|]. intros x Hx. rewrite !elem_of_app. auto. }
  assert (Hsame2 : same_keys h h1 (cs2 ≫= leaves)).
  { eapply same_keys_sub; [exact Hsame|]. intros x Hx. rewrite !elem_of_app. auto. }
  assert (Hsame0 : same_keys h h1 (lp ++ lq)).
  { eapply same_keys_sub; [exact Hsame|]. intros x Hx. rewrite !elem_of_app in *. tauto. }
  pose proof (not_in_parent_trace h vs1 vs2 cs1 c cs2 tp tq (kcode e)
                ltac:(lia) Hbefore Hafter) as Hin.
  destruct msg.
  - (* SUCCESS below *)
    destruct Hmsg as (Hisin & Hc' & Hshrunk).
    rewrite bool_decide_false by done.
    eexists _, _, _. split; [done|]. split; [done|]. split; [by rewrite Hin|].
    split.
    + apply shape_node. eexists _, _. split; [done|].
      rewrite !length_app in *. simpl in *. split; [lia|]. split; [lia|].
      apply Forall_app. split; [by eapply shapes_same|].
      apply Forall_cons. split; [done|by eapply shapes_same].
    + eapply updated_parent; try done; [apply keys_del_in_context|lia].
  - (* NOT_EXISTENT below *)
    destruct Hmsg as (-> & -> & Hnotin).
    rewrite bool_decide_false by done.
    eexists _, _, _. split; [done|]. split; [done|]. by rewrite Hin.
  - (* MERGE below *)
    destruct Hmsg as (Hisin & Hc' & Hshrunk).
    rewrite bool_decide_true by done.
    assert (Hshrunk1 : shrunk h h1 (Internal (vs1 ++ vs2) (cs1 ++ c :: cs2))
                         (Internal (vs1 ++ vs2) (cs1 ++ c' :: cs2)) e tp tq lp lq).
    { eapply updated_parent; try done; [apply keys_del_in_context|lia]. }
    destruct Hshrunk1 as (Hctx1 & Hkeys1 & Hhead1).
    destruct (merge_ok N HN h1 d (vs1 ++ vs2) cs1 c' cs2 tp tq lp lq)
      as (act & n' & h2 & k & _ & Hmerge & Hk &
          ((vals' & cs' & -> & Hlv' & Hlc' & Hall') & Hctx2 & Hkeys2 & Hhead2 & Hsame12)
          & _);
      [by rewrite length_app in *|lia|done
      |by eapply shapes_same|by eapply shapes_same|done|].
    rewrite Hlen1 in Hmerge. rewrite Hmerge. simpl.
    eexists _, _, _. split; [done|].
    split; [by eapply same_keys_trans|].
    assert (Hup : shrunk h h2 (Internal (vs1 ++ vs2) (cs1 ++ c :: cs2))
                    (Internal vals' cs') e tp tq lp lq).
    { split; [done|]. split; [by rewrite Hkeys2|]. by rewrite Hhead2. }
    unfold min_size. case_bool_decide.
    + split; [by rewrite Hin|]. split; [|done].
      apply shape_node. eexists _, _. split; [done|].
      split; [lia|]. split; [lia|done].
    + split; [by rewrite Hin|]. split; [|done].
      apply shape_node. eexists _, _. split; [done|].
      split; [lia|]. split; [lia|done].
Qed.

End remove_elem.


Lemma find_External a e h :
  find (External a) e h = l ← h !! a; External_find a l e.
Proof. done. Qed.

Lemma find_Internal vals cs e h :
  find (Internal vals cs) e h
  = cs !! Internal_find_pos vals e ≫= (λ c, find c e h).
Proof. simpl. by rewrite at_child_lookup. Qed.

Lemma count_Internal vals cs e h :
  count (Internal vals cs) e h
  = cs !! Internal_find_pos vals e ≫= (λ c, count c e h).
Proof. simpl. by rewrite at_child_lookup. Qed.

Lemma delete_node_Internal vals cs h :
  delete_node (Internal vals cs) h = delete_each delete_node cs (S (length vals)) h.
Proof. done. Qed.

#[local] Arguments Nat.div : simpl never.
#[local] Arguments mapM : simpl never.
#[local] Arguments seq : simpl never.
#[local] Arguments insert_at : simpl never.
#[local] Arguments shift_down : simpl never.
#[local] Arguments split_external : simpl never.
#[local] Arguments split_internal : simpl never.
#[local] Arguments split : simpl never.
#[local] Arguments trace : simpl never.
#[local] Arguments leaves : simpl never.
#[local] Arguments shape : simpl never.
#[local] Arguments add_elem : simpl never.
#[local] Arguments remove_elem : simpl never.
#[local] Arguments find : simpl never.
#[local] Arguments count : simpl never.
#[local] Arguments delete_node : simpl never.

(** * Keys and readings *)

Section reading.
Context (N : nat).

Lemma trace_keys_elem h d mn mx n e :
  shape N h d mn mx n → kcode e ∈ trace h n ↔ e ∈ keys h n.
Proof.
  intros Hsh. pose proof (shape_trace_keys N h d mn mx n Hsh) as Hf. split.
  - intros Hin.
    assert (kcode e ∈ filter is_kcode (trace h n)) as Hin'
      by (apply list_elem_of_filter; split; [apply is_kcode_kcode|done]).
    rewrite Hf in Hin'.
    apply list_elem_of_fmap in Hin' as (x & Hx%kcode_inj & Hin'). by subst.
  - intros Hin.
    assert (kcode e ∈ filter is_kcode (trace h n)) as Hin'
      by (rewrite Hf; by apply list_elem_of_fmap_2).
    by apply list_elem_of_filter in Hin' as [_ ?].
Qed.

Lemma sorted_keys h d mn mx n :
  shape N h d mn mx n → StronglySorted Z.lt (trace h n) →
  StronglySorted Z.lt (keys h n).
Proof.
  intros Hsh Hs. apply sorted_fmap_kcode.
  rewrite <- (shape_trace_keys N h d mn mx n Hsh).
  eapply sorted_sublist; [apply sublist_filter|done].
Qed.

Lemma keys_ins_length e k k' : keys_ins e k k' → length k' = S (length k).
Proof. intros (k1 & k2 & -> & ->). rewrite !length_app. simpl. lia. Qed.

Lemma keys_ins_elem e k k' x : keys_ins e k k' → x ∈ k' ↔ x = e ∨ x ∈ k.
Proof.
  intros (k1 & k2 & -> & ->). rewrite !elem_of_app, elem_of_cons. tauto.
Qed.

(** [find] goes down to the one leaf that can hold the key. *)
Lemma find_ok d : ∀ n mn mx h e tp tq,
  shape N h d mn mx n → StronglySorted Z.lt (tp ++ trace h n ++ tq) →
  Forall (λ x, x < kcode e)%Z tp → Forall (λ x, kcode e < x)%Z tq →
  ∃ it, find n e h = Some it ∧
    (kcode e ∉ trace h n → it = Iterator_end) ∧
    (kcode e ∈ trace h n → Iterator_deref h it = Some e).
Proof.
  induction d as [|d IH]; intros n mn mx h e tp tq Hsh Hs Htp Htq.
  { apply shape_leaf in Hsh as (a & l & -> & Hl & Hsz).
    assert (Hva : vals_at h a = values l) by (unfold vals_at; by rewrite Hl).
    rewrite trace_External, Hva in *.
    assert (HsV : StronglySorted Z.lt (values l)).
    { apply sorted_fmap_kcode.
      by eapply StronglySorted_app_1_l, StronglySorted_app_1_r. }
    rewrite find_External, Hl. simpl.
    destruct (External_find_spec a l e HsV) as (it & -> & Hnot & Hin).
    exists it. split; [done|]. split.
    - intros Hn. apply Hnot. intros He. apply Hn. by apply list_elem_of_fmap_2.
    - intros (x & Hx%kcode_inj & Hx')%list_elem_of_fmap. subst x.
      destruct (Hin Hx') as (i & -> & Hi).
      unfold Iterator_deref. simpl. by rewrite Hl. }
  apply shape_node in Hsh as (vals & cs & -> & Hlen & Hsz & Hall).
  pose proof (find_pos_before h vals cs e tp tq Hlen Hs Htp) as Hbefore.
  pose proof (find_pos_after h vals cs e tp tq Hlen Hs Htq) as Hafter.
  rewrite find_Internal.
  pose proof (first_greater_le e vals) as Hpos. fold (Internal_find_pos vals e) in Hpos.
  remember (Internal_find_pos vals e) as pos eqn:Hpos_def. clear Hpos_def.
  destruct (lookup_lt_is_Some_2 cs pos) as [c Hc]; [lia|].
  rewrite Hc. simpl.
  destruct (split_at cs pos c Hc) as (cs1 & cs2 & -> & Hlen1).
  assert (∃ vs1 vs2, vals = vs1 ++ vs2 ∧ length vs1 = pos) as (vs1 & vs2 & -> & Hlen2).
  { exists (take pos vals), (drop pos vals). rewrite take_drop, length_take.
    split; [done|lia]. }
  rewrite !take_app_length', !drop_app_length' in * by lia.
  rewrite drop_middle_S in Hafter by lia.
  apply Forall_app in Hall as (Hcs1 & [Hcsh Hcs2]%Forall_cons).
  rewrite trace_Internal_middle in Hs by lia.
  destruct (IH c N (N * 2) h e (tp ++ pre (trace h <$> cs1) (scode <$> vs1))
              (weave (scode <$> vs2) (trace h <$> cs2) ++ tq) Hcsh)
    as (it & Hfind & Hnot & Hin); [|done|done|].
  { eapply sorted_eq; [|exact Hs]. by norm_list. }
  pose proof (not_in_parent_trace h vs1 vs2 cs1 c cs2 tp tq (kcode e)
                ltac:(lia) Hbefore Hafter) as Hiff.
  exists it. split; [done|]. rewrite Hiff. done.
Qed.

(** [count] likewise. *)
Lemma count_ok d : ∀ n mn mx h e tp tq,
  shape N h d mn mx n → StronglySorted Z.lt (tp ++ trace h n ++ tq) →
  Forall (λ x, x < kcode e)%Z tp → Forall (λ x, kcode e < x)%Z tq →
  count n e h = Some (bool_decide (kcode e ∈ trace h n)).
Proof.
  induction d as [|d IH]; intros n mn mx h e tp tq Hsh Hs Htp Htq.
  { apply shape_leaf in Hsh as (a & l & -> & Hl & Hsz).
    assert (Hva : vals_at h a = values l) by (unfold vals_at; by rewrite Hl).
    rewrite trace_External, Hva in *.
    assert (HsV : StronglySorted Z.lt (values l)).
    { apply sorted_fmap_kcode.
      by eapply StronglySorted_app_1_l, StronglySorted_app_1_r. }
    unfold count. rewrite Hl. simpl. rewrite (External_count_spec l e HsV).
    f_equal. apply bool_decide_ext. split.
    - by apply list_elem_of_fmap_2.
    - intros (x & Hx%kcode_inj & Hx')%list_elem_of_fmap. by subst x. }
  apply shape_node in Hsh as (vals & cs & -> & Hlen & Hsz & Hall).
  pose proof (find_pos_before h vals cs e tp tq Hlen Hs Htp) as Hbefore.
  pose proof (find_pos_after h vals cs e tp tq Hlen Hs Htq) as Hafter.
  rewrite count_Internal.
  pose proof (first_greater_le e vals) as Hpos. fold (Internal_find_pos vals e) in Hpos.
  remember (Internal_find_pos vals e) as pos eqn:Hpos_def. clear Hpos_def.
  destruct (lookup_lt_is_Some_2 cs pos) as [c Hc]; [lia|].
  rewrite Hc. simpl.
  destruct (split_at cs pos c Hc) as (cs1 & cs2 & -> & Hlen1).
  assert (∃ vs1 vs2, vals = vs1 ++ vs2 ∧ length vs1 = pos) as (vs1 & vs2 & -> & Hlen2).
  { exists (take pos vals), (drop pos vals). rewrite take_drop, length_take.
    split; [done|lia]. }
  rewrite !take_app_length', !drop_app_length' in * by lia.
  rewrite drop_middle_S in Hafter by lia.
  apply Forall_app in Hall as (Hcs1 & [Hcsh Hcs2]%Forall_cons).
  rewrite trace_Internal_middle in Hs by lia.
  rewrite (IH c N (N * 2) h e (tp ++ pre (trace h <$> cs1) (scode <$> vs1))
              (weave (scode <$> vs2) (trace h <$> cs2) ++ tq) Hcsh); [| |done|done].
  - f_equal. apply bool_decide_ext. symmetry.
    apply (not_in_parent_trace h vs1 vs2 cs1 c cs2 tp tq (kcode e)); [lia|done|done].
  - eapply sorted_eq; [|exact Hs]. by norm_list.
Qed.

End reading.

(** * The container *)

Section container.
Context (N : nat) (HN : 0 < N).

Lemma Inv_in_ctx d s : Inv_at N d s → in_ctx (heap s) (root s) [] [] [] [].
Proof.
  intros [Hsh Hs Hc Hnd Hl Hsz]. unfold in_ctx. simpl. by rewrite !app_nil_r.
Qed.

Lemma Inv_of_ctx d r h ll n :
  shape N h d (root_min d) (N * 2) r → in_ctx h r [] [] [] [] →
  ll = head (leaves r) → n = length (keys h r) →
  Inv_at N d (mkSet n r ll h).
Proof.
  intros Hsh (Hs & Hc & Hnd) -> ->. simpl in Hs, Hc, Hnd. rewrite app_nil_r in *.
  by split.
Qed.

Lemma Inv_new : Inv_at N 0 ADS_set_new.
Proof.
  unfold ADS_set_new. set (a := fresh (dom (∅ : store))).
  apply Inv_of_ctx.
  - apply shape_leaf. eexists _, _. split; [done|].
    split; [apply lookup_singleton_eq|]. simpl. lia.
  - unfold in_ctx. rewrite trace_External, leaves_External. unfold vals_at.
    rewrite lookup_singleton_eq. simpl. split; [constructor|]. split.
    + eexists. split; [apply lookup_singleton_eq|]. done.
    + apply NoDup_singleton.
  - done.
  - rewrite keys_External. unfold vals_at. by rewrite lookup_singleton_eq.
Qed.

Lemma find_total d s k :
  Inv_at N d s →
  ∃ it, ADS_find s k = Some it ∧
    (k ∉ stored s → it = Iterator_end) ∧
    (k ∈ stored s → Iterator_deref (heap s) it = Some k).
Proof.
  intros Hinv. pose proof Hinv as [Hsh Hs _ _ _ _].
  destruct (find_ok N d (root s) _ _ (heap s) k [] [] Hsh) as (it & Hfind & Hnot & Hin);
    [by rewrite app_nil_r|done|done|].
  exists it. split; [done|]. unfold stored.
  rewrite <- !(trace_keys_elem N _ _ _ _ _ _ Hsh). done.
Qed.

Lemma count_total d s k :
  Inv_at N d s → ADS_count s k = Some (if bool_decide (k ∈ stored s) then 1 else 0).
Proof.
  intros [Hsh Hs _ _ _ _]. unfold ADS_count.
  rewrite (count_ok N d (root s) _ _ (heap s) k [] [] Hsh);
    [|by rewrite app_nil_r|done|done].
  simpl. f_equal. unfold stored.
  by rewrite (bool_decide_ext _ _ (trace_keys_elem N _ _ _ _ _ k Hsh)).
Qed.

Lemma keys_root_single h n : keys h (Internal [] [n]) = keys h n.
Proof. rewrite keys_Internal, bind_cons. simpl. by rewrite app_nil_r. Qed.

Lemma leaves_root_single n : leaves (Internal [] [n]) = leaves n.
Proof. rewrite leaves_Internal, bind_cons. simpl. by rewrite app_nil_r. Qed.

(** [insert]: the outcome and the invariant. *)
Lemma insert_ok d s k :
  Inv_at N d s →
  ∃ it b s' d',
    insert N s k = Some (it, b, s') ∧ Inv_at N d' s' ∧ ADS_find s' k = Some it ∧
    if b then (k ∉ stored s) ∧ keys_ins k (stored s) (stored s') ∧ sz s' = S (sz s)
    else k ∈ stored s ∧ s' = s.
Proof.
  intros Hinv. pose proof Hinv as [Hsh Hs _ _ Hleft Hsize].
  destruct (add_elem_ok N HN d (root s) (root_min d) (heap s) k [] [] [] [])
    as (msg & n' & h' & Hadd & _ & Hmsg); [done|by eapply Inv_in_ctx|done|done|].
  unfold insert. rewrite Hadd. simpl. destruct msg.
  - destruct Hmsg as (Hnot & Hsh' & (Hctx' & Hkeys & Hhead)).
    assert (Hinv' : Inv_at N d (mkSet (S (sz s)) n' (left_leaf s) h')).
    { apply Inv_of_ctx; [done|done|by rewrite Hhead|].
      by rewrite (keys_ins_length _ _ _ Hkeys), Hsize. }
    destruct (find_total d _ k Hinv') as (it & Hfind & _).
    rewrite Hfind. simpl. eexists it, true, _, d.
    split; [done|]. split; [done|]. split; [done|].
    split; [|done]. unfold stored. by rewrite <- (trace_keys_elem N _ _ _ _ _ _ Hsh).
  - destruct Hmsg as (-> & -> & Hin).
    assert (Hs' : mkSet (sz s) (root s) (left_leaf s) (heap s) = s) by (by destruct s).
    rewrite Hs'.
    destruct (find_total d _ k Hinv) as (it & Hfind & _).
    rewrite Hfind. simpl. exists it, false, s, d.
    split; [done|]. split; [done|]. split; [done|].
    split; [|done]. unfold stored. by rewrite <- (trace_keys_elem N _ _ _ _ _ _ Hsh).
  - destruct Hmsg as (Hnot & Hsh' & (Hctx' & Hkeys & Hhead)).
    destruct (split_ok N HN h' d [] [] [] n' [] [] [] [] [])
      as (v & cl & cr & h2 & Hsplit & Hall2 & Hctx2 & Hkeys2 & Hhead2 & _);
      [done|done|done|done|by apply (in_ctx_child h' [] [] [] n' [] [] [] [] [])|].
    simpl in Hsplit, Hall2, Hctx2, Hkeys2, Hhead2.
    rewrite Hsplit. simpl.
    rewrite keys_root_single in Hkeys2. rewrite leaves_root_single in Hhead2.
    assert (Hinv' : Inv_at N (S d) (mkSet (S (sz s)) (Internal [v] [cl; cr])
                                     (left_leaf s) h2)).
    { apply Inv_of_ctx; [|done|by rewrite Hhead2, Hhead|].
      - apply shape_node. eexists _, _. split; [done|]. simpl.
        split; [done|]. split; [lia|done].
      - by rewrite Hkeys2, (keys_ins_length _ _ _ Hkeys), Hsize. }
    destruct (find_total (S d) _ k Hinv') as (it & Hfind & _).
    rewrite Hfind. simpl. eexists it, true, _, (S d).
    split; [done|]. split; [done|]. split; [done|].
    split; [|split; [|done]].
    + unfold stored. by rewrite <- (trace_keys_elem N _ _ _ _ _ _ Hsh).
    + unfold stored. simpl. by rewrite Hkeys2.
Qed.

Lemma keys_del_length e k k' : keys_del e k k' → length k = S (length k').
Proof. intros H. by apply keys_ins_length in H. Qed.

(** [erase]: the outcome and the invariant. *)
Lemma erase_ok d s k :
  Inv_at N d s →
  ∃ r s' d',
    erase N s k = Some (r, s') ∧ Inv_at N d' s' ∧
    if bool_decide (k ∈ stored s)
    then r = 1 ∧ keys_del k (stored s) (stored s') ∧ S (sz s') = sz s
    else r = 0 ∧ s' = s.
Proof.
  intros Hinv. pose proof Hinv as [Hsh Hs _ _ Hleft Hsize].
  destruct (remove_elem_ok N HN d (root s) (root_min d) (heap s) k [] [] [] [])
    as (msg & n' & h' & Hrem & _ & Hmsg);
    [destruct d; simpl; lia|done|done|by eapply Inv_in_ctx|done|done|].
  unfold erase. rewrite Hrem. simpl.
  pose proof (trace_keys_elem N _ _ _ _ _ k Hsh) as Hiff. fold (stored s) in Hiff.
  destruct msg.
  - destruct Hmsg as (Hin & Hsh' & (Hctx' & Hkeys & Hhead)).
    pose proof (keys_del_length _ _ _ Hkeys) as Hlen. fold (stored s) in Hlen.
    eexists 1, _, d. split; [done|]. split.
    { apply Inv_of_ctx; [done|done|by rewrite Hhead|lia]. }
    rewrite bool_decide_true by (by apply Hiff).
    split; [done|]. split; [done|]. simpl. lia.
  - destruct Hmsg as (-> & -> & Hnot).
    assert (Hs' : mkSet (sz s) (root s) (left_leaf s) (heap s) = s) by (by destruct s).
    rewrite Hs'. exists 0, s, d. split; [done|]. split; [done|].
    rewrite bool_decide_false by (by rewrite <- Hiff). done.
  - destruct Hmsg as (Hin & Hsh' & (Hctx' & Hkeys & Hhead)).
    pose proof (keys_del_length _ _ _ Hkeys) as Hlen. fold (stored s) in Hlen.
    rewrite bool_decide_true by (by apply Hiff).
    destruct d as [|d].
    + apply shape_leaf in Hsh' as (a & l & -> & Hl & Hsz). simpl. rewrite Hl. simpl.
      eexists 1, _, 0. split; [done|]. split.
      { apply Inv_of_ctx; [|done|by rewrite Hhead|lia].
        apply shape_leaf. eexists _, _. split; [done|]. split; [done|]. simpl. lia. }
      split; [done|]. split; [done|]. simpl. lia.
    + apply shape_node in Hsh' as (vals' & cs' & -> & Hlc & Hlv & Hall). simpl.
      destruct vals' as [|v vals'].
      * (* the root lost its last separator *)
        destruct cs' as [|c [|? ?]]; try done. simpl.
        change (delete_node (Internal [] [Null]) h') with (Some h'). simpl.
        apply Forall_cons in Hall as [Hc _].
        eexists 1, _, d. split; [done|]. split.
        { apply Inv_of_ctx.
          - eapply shape_weaken; [done|destruct d; simpl; lia|lia].
          - by apply (in_ctx_child h' [] [] [] c [] [] [] [] []).
          - by rewrite <- (leaves_root_single c), Hhead.
          - rewrite keys_root_single in Hlen. lia. }
        split; [done|]. split; [|simpl; lia].
        unfold stored. simpl. by rewrite <- (keys_root_single h' c).
      * simpl. eexists 1, _, (S d). split; [done|]. split.
        { apply Inv_of_ctx; [|done|by rewrite Hhead|lia].
          apply shape_node. eexists _, _. split; [done|].
          split; [done|]. simpl in *. split; [lia|done]. }
        split; [done|]. split; [done|]. simpl. lia.
Qed.

(** [delete] of a subtree releases its leaves and nothing else. *)
Lemma delete_each_ok (d : nat) (cs : list Node) :
  (∀ c h, c ∈ cs → shape N h d N (N * 2) c → NoDup (leaves c) →
     ∃ h', delete_node c h = Some h' ∧ ∀ x, x ∉ leaves c → h' !! x = h !! x) →
  ∀ h, Forall (shape N h d N (N * 2)) cs → NoDup (cs ≫= leaves) →
  ∃ h', delete_each delete_node cs (length cs) h = Some h' ∧
    ∀ x, x ∉ cs ≫= leaves → h' !! x = h !! x.
Proof.
  induction cs as [|c cs IH]; intros Hdel h Hall Hnd.
  { exists h. done. }
  apply Forall_cons in Hall as [Hc Hall].
  rewrite bind_cons in Hnd. apply NoDup_app in Hnd as (Hndc & Hdisj & Hndcs).
  destruct (Hdel c h ltac:(by left) Hc Hndc) as (h1 & Hdel1 & Hframe1).
  simpl. rewrite Hdel1. simpl.
  destruct (IH ltac:(intros c' h0 Hc'; apply Hdel; by right) h1) as (h2 & Hdel2 & Hframe2).
  - eapply shapes_same; [done|]. intros x Hx. rewrite Hframe1; [done|].
    intros Hxc. by apply (Hdisj x Hxc).
  - done.
  - exists h2. split; [done|]. intros x Hx. rewrite ?bind_cons in Hx.
    rewrite Hframe2, Hframe1; [done|..]; intros ?; apply Hx, elem_of_app; auto.
Qed.

Lemma delete_node_ok d : ∀ n mn mx h,
  shape N h d mn mx n → NoDup (leaves n) →
  ∃ h', delete_node n h = Some h' ∧ ∀ x, x ∉ leaves n → h' !! x = h !! x.
Proof.
  induction d as [|d IH]; intros n mn mx h Hsh Hnd.
  - apply shape_leaf in Hsh as (a & l & -> & Hl & _).
    unfold delete_node. rewrite Hl. simpl. eexists. split; [done|].
    intros x Hx. rewrite leaves_External in Hx.
    apply lookup_delete_ne. intros ->. apply Hx. by left.
  - apply shape_node in Hsh as (vals & cs & -> & Hlen & _ & Hall).
    rewrite delete_node_Internal, <- Hlen. rewrite leaves_Internal in Hnd |- *.
    apply delete_each_ok with (d := d); [|done|done].
    intros c h0 _ Hc Hndc. by eapply IH.
Qed.

(** [clear]: an empty leaf at a new address. *)
Lemma clear_ok d s :
  Inv_at N d s → ∃ s', clear s = Some s' ∧ Inv_at N 0 s' ∧ stored s' = [].
Proof.
  intros [Hsh Hs Hc Hnd Hl Hsz].
  destruct (delete_node_ok d (root s) _ _ (heap s) Hsh Hnd) as (h' & Hdel & _).
  unfold clear. rewrite Hdel. simpl. set (a := fresh (dom h')).
  eexists. split; [done|].
  assert (Hk : keys (<[a:=mkExternal [] None None]> h') (External a) = []).
  { rewrite keys_External. unfold vals_at. by rewrite lookup_insert_eq. }
  split; [|done].
  apply Inv_of_ctx.
  - apply shape_leaf. eexists _, _. split; [done|].
    split; [apply lookup_insert_eq|]. simpl. lia.
  - unfold in_ctx. rewrite trace_External, leaves_External. unfold vals_at.
    rewrite lookup_insert_eq. simpl. split; [constructor|]. split.
    + eexists. split; [apply lookup_insert_eq|]. done.
    + apply NoDup_singleton.
  - done.
  - by rewrite Hk.
Qed.

(** Every public operation is defined on a well-formed container and
    leaves it well-formed. *)
Lemma step_ok s o : Inv N s → ∃ s', step N s o = Some s' ∧ Inv N s'.
Proof.
  intros [d Hinv]. destruct o as [k|k|]; simpl.
  - destruct (insert_ok d s k Hinv) as (it & b & s' & d' & -> & Hinv' & _).
    exists s'. split; [done|]. by exists d'.
  - destruct (erase_ok d s k Hinv) as (r & s' & d' & -> & Hinv' & _).
    exists s'. split; [done|]. by exists d'.
  - destruct (clear_ok d s Hinv) as (s' & -> & Hinv' & _).
    exists s'. split; [done|]. by exists 0.
Qed.

Lemma run_ok ops : ∀ s, Inv N s → ∃ s', run N s ops = Some s' ∧ Inv N s'.
Proof.
  induction ops as [|o ops IH]; intros s Hinv; simpl.
  - by exists s.
  - destruct (step_ok s o Hinv) as (s1 & -> & Hinv1). simpl. by apply IH.
Qed.

Lemma reachable_Inv s : reachable N s → Inv N s.
Proof.
  intros [ops Hrun].
  destruct (run_ok ops ADS_set_new) as (s' & Hrun' & Hinv); [exists 0; apply Inv_new|].
  rewrite Hrun in Hrun'. by injection Hrun' as ->.
Qed.

(** * Iteration *)

Lemma iterate_end fuel h : iterate fuel h Iterator_end Iterator_end = Some [].
Proof. by destruct fuel. Qed.

Lemma iterate_leaf h a l : ∀ fuel i,
  h !! a = Some l → i < length (values l) → length (values l) - i ≤ fuel →
  iterate fuel h (mkIterator (Some a) i) Iterator_end
  = rest ← iterate (fuel - (length (values l) - i)) h
             (mkIterator (right_neighbour l) 0) Iterator_end;
    Some (drop i (values l) ++ rest).
Proof.
  induction fuel as [|fuel IH]; intros i Hl Hi Hfuel; [lia|].
  destruct (lookup_lt_is_Some_2 (values l) i Hi) as [x Hx].
  cbn [iterate]. rewrite bool_decide_false by done.
  unfold Iterator_deref, Iterator_incr. cbn [current_node current_element].
  cbn [mbind option_bind]. rewrite Hl. cbn [mbind option_bind]. rewrite Hx.
  cbn [mbind option_bind].
  rewrite (drop_S _ _ _ Hx).
  case_bool_decide as Hlast.
  - replace (S fuel - (length (values l) - i)) with fuel by lia.
    rewrite (drop_ge (values l) (S i)) by lia.
    by destruct (iterate fuel h _ _).
  - rewrite IH by (done || lia).
    replace (S fuel - (length (values l) - i)) with (fuel - (length (values l) - S i))
      by lia.
    by destruct (iterate _ h _ _).
Qed.

Lemma iterate_chain h : ∀ L prev a fuel,
  chain h prev (a :: L) None → Forall (λ x, vals_at h x ≠ []) (a :: L) →
  length (keys_of h (a :: L)) ≤ fuel →
  iterate fuel h (mkIterator (Some a) 0) Iterator_end = Some (keys_of h (a :: L)).
Proof.
  induction L as [|b L IH]; intros prev a fuel (l & Hl & _ & Hright & Hc)
    [Ha Hne]%Forall_cons Hfuel.
  all: assert (Hva : vals_at h a = values l) by (unfold vals_at; by rewrite Hl).
  all: rewrite keys_of_cons, Hva in *; rewrite length_app in Hfuel.
  all: assert (0 < length (values l)) by (destruct (values l); [done|simpl; lia]).
  all: rewrite (iterate_leaf h a l) by (done || lia); rewrite Hright, drop_0.
  - simpl. fold Iterator_end. by rewrite iterate_end.
  - simpl. rewrite (IH (Some a) b) by (done || lia). done.
Qed.

Lemma shape_leaves_filled h d mn mx n :
  shape N h d mn mx n → (d = 0 → 0 < mn) →
  Forall (λ x, vals_at h x ≠ []) (leaves n).
Proof.
  revert mn mx n. induction d as [|d IH]; intros mn mx n.
  - rewrite shape_leaf. intros (a & l & -> & Hl & Hsz) Hmn.
    rewrite leaves_External. apply Forall_singleton. unfold vals_at. rewrite Hl.
    specialize (Hmn eq_refl). destruct (values l); [simpl in *; lia|done].
  - rewrite shape_node. intros (vals & cs & -> & _ & _ & Hall) _.
    rewrite leaves_Internal. apply Forall_bind.
    eapply Forall_impl; [exact Hall|]. intros c Hc. apply (IH _ _ _ Hc). lia.
Qed.

(** A walk from [begin] to [end] reads the stored keys, leaf by leaf. *)
Lemma traverse_ok d s fuel :
  Inv_at N d s → sz s ≤ fuel → traverse fuel s = Some (stored s).
Proof.
  intros [Hsh Hs Hc Hnd Hleft Hsize] Hfuel. unfold traverse, begin, end_.
  case_bool_decide as Hz.
  - rewrite iterate_end. rewrite Hz in Hsize. by destruct (stored s).
  - assert (Hfilled : Forall (λ x, vals_at (heap s) x ≠ []) (leaves (root s))).
    { destruct d.
      - pose proof Hsh as (a & l & Hr & Hl & _)%shape_leaf.
        apply (shape_leaves_filled _ 0 1 (N * 2)); [|lia].
        apply shape_leaf. exists a, l. split; [done|]. split; [done|].
        unfold stored in Hsize. rewrite Hr, keys_External in Hsize.
        unfold vals_at in Hsize. rewrite Hl in Hsize.
        apply shape_leaf in Hsh as (a' & l' & Hr' & Hl' & Hsz').
        rewrite Hr in Hr'. injection Hr' as <-. rewrite Hl in Hl'.
        injection Hl' as <-. lia.
      - by apply (shape_leaves_filled _ _ _ _ _ Hsh). }
    unfold stored in *. rewrite keys_keys_of in *.
    destruct (leaves (root s)) as [|a L] eqn:HL.
    { simpl in Hsize. lia. }
    rewrite Hleft. simpl. eapply iterate_chain; [done|done|lia].
Qed.

End container.


(** * The properties of the specification *)

#[local] Arguments Nat.div : simpl never.
#[local] Arguments mapM : simpl never.
#[local] Arguments seq : simpl never.
#[local] Arguments insert_at : simpl never.
#[local] Arguments shift_down : simpl never.
#[local] Arguments split_external : simpl never.
#[local] Arguments split_internal : simpl never.
#[local] Arguments split : simpl never.
#[local] Arguments trace : simpl never.
#[local] Arguments leaves : simpl never.
#[local] Arguments shape : simpl never.
#[local] Arguments add_elem : simpl never.
#[local] Arguments remove_elem : simpl never.
#[local] Arguments find : simpl never.
#[local] Arguments count : simpl never.
#[local] Arguments delete_node : simpl never.

Lemma reachable_state_after N ops s :
  run N ADS_set_new ops = Some s → reachable N (state_after N ops).
Proof. intros Hrun. exists ops. unfold state_after. by rewrite Hrun. Qed.

(** C2: after any sequence of inserts, erases and clears on a new container
    every operation is defined, and in the state reached every node below
    the root holds between [N] and [2N] keys. *)
Theorem fill_after_operations (N : nat) (ops : list Op) :
  0 < N → ∃ s, run N ADS_set_new ops = Some s ∧ fill_ok N s.
Proof.
  intros HN.
  assert (Inv N ADS_set_new) as Hnew by (exists 0; by apply Inv_new).
  destruct (run_ok N HN ops ADS_set_new Hnew) as (s & Hrun & d & Hinv).
  exists s. split; [done|]. intros m Hm.
  destruct Hinv as [Hsh _ _ _ _ _]. by eapply shape_fill.
Qed.

Lemma fill_after_operations_witness :
  ∃ s, run 1 ADS_set_new
         [OpInsert 5; OpInsert 3; OpInsert 8; OpInsert 1; OpInsert 9; OpErase 3;
          OpInsert 2; OpInsert 7; OpErase 5; OpClear; OpInsert 4; OpInsert 6;
          OpInsert 1; OpErase 4]%Z = Some s ∧ fill_ok 1 s.
Proof. apply (fill_after_operations 1). lia. Defined.

(** C3: on a reachable container a walk from [begin()] to [end()] (given
    steps enough for [size()] elements) yields a strictly increasing list of
    [size()] keys, and a key is in it exactly when [count] finds it. *)
Theorem iteration_sorted_complete (N : nat) (s : ADS_set) (fuel : nat) :
  0 < N → reachable N s → size s ≤ fuel →
  ∃ l, traverse fuel s = Some l ∧ StronglySorted Z.lt l ∧ length l = size s ∧
    ∀ k, k ∈ l ↔ ADS_count s k = Some 1.
Proof.
  intros HN [d Hinv]%(reachable_Inv N HN) Hfuel.
  exists (stored s). split; [by eapply traverse_ok|].
  pose proof Hinv as [Hsh Hs _ _ _ Hsize].
  split; [by eapply sorted_keys|]. split; [done|].
  intros k. rewrite (count_total N d s k Hinv). case_bool_decide; naive_solver.
Qed.

Lemma iteration_sorted_complete_witness :
  ∃ l, traverse 4 (state_after 1 [OpInsert 5; OpInsert 3; OpInsert 8; OpInsert 1;
                                   OpErase 3; OpInsert 2]%Z) = Some l ∧
    StronglySorted Z.lt l ∧
    length l = size (state_after 1 [OpInsert 5; OpInsert 3; OpInsert 8; OpInsert 1;
                                     OpErase 3; OpInsert 2]%Z) ∧
    ∀ k, k ∈ l ↔ ADS_count (state_after 1 [OpInsert 5; OpInsert 3; OpInsert 8;
                                           OpInsert 1; OpErase 3; OpInsert 2]%Z) k
                 = Some 1.
Proof.
  apply (iteration_sorted_complete 1); [lia| |vm_compute; lia].
  eapply reachable_state_after. vm_compute. reflexivity.
Defined.

(** C7: on a reachable container [erase(k)] returns 1 or 0: 1, with
    [size()] one less, when [count] finds [k]; 0, with the container as it
    was, when it does not. On the new container it returns 0 and leaves the
    empty container with its leaf root. *)
Theorem erase_outcome (N : nat) (s : ADS_set) (k : key_type) :
  0 < N → reachable N s →
  (∃ r s', erase N s k = Some (r, s') ∧ (r = 1 ∨ r = 0) ∧
     (ADS_count s k = Some 1 ∨ ADS_count s k = Some 0) ∧
     (ADS_count s k = Some 1 → r = 1 ∧ S (size s') = size s) ∧
     (ADS_count s k = Some 0 → r = 0 ∧ s' = s)) ∧
  erase N ADS_set_new k = Some (0, ADS_set_new) ∧
  size ADS_set_new = 0 ∧ type (root ADS_set_new) = Some EXTERNAL.
Proof.
  intros HN [d Hinv]%(reachable_Inv N HN). split.
  - destruct (erase_ok N HN d s k Hinv) as (r & s' & d' & Herase & _ & Hr).
    exists r, s'. split; [done|]. rewrite (count_total N d s k Hinv).
    case_bool_decide; naive_solver.
  - pose proof (Inv_new N HN) as Hnew.
    destruct (erase_ok N HN 0 ADS_set_new k Hnew) as (r & s' & d' & Herase & _ & Hr).
    assert (Hempty : stored ADS_set_new = []).
    { destruct Hnew as [_ _ _ _ _ Hsize]. simpl in Hsize.
      by destruct (stored ADS_set_new). }
    rewrite bool_decide_false in Hr by (rewrite Hempty; apply not_elem_of_nil).
    destruct Hr as [-> ->]. done.
Qed.

Lemma erase_outcome_witness :
  (∃ r s', erase 1 (state_after 1 [OpInsert 5; OpInsert 3; OpInsert 8]%Z) 3%Z
           = Some (r, s') ∧ (r = 1 ∨ r = 0) ∧
     (ADS_count (state_after 1 [OpInsert 5; OpInsert 3; OpInsert 8]%Z) 3%Z = Some 1 ∨
      ADS_count (state_after 1 [OpInsert 5; OpInsert 3; OpInsert 8]%Z) 3%Z = Some 0) ∧
     (ADS_count (state_after 1 [OpInsert 5; OpInsert 3; OpInsert 8]%Z) 3%Z = Some 1 →
      r = 1 ∧ S (size s') = size (state_after 1 [OpInsert 5; OpInsert 3; OpInsert 8]%Z)) ∧
     (ADS_count (state_after 1 [OpInsert 5; OpInsert 3; OpInsert 8]%Z) 3%Z = Some 0 →
      r = 0 ∧ s' = state_after 1 [OpInsert 5; OpInsert 3; OpInsert 8]%Z)) ∧
  erase 1 ADS_set_new 3%Z = Some (0, ADS_set_new) ∧
  size ADS_set_new = 0 ∧ type (root ADS_set_new) = Some EXTERNAL.
Proof.
  apply (erase_outcome 1); [lia|].
  eapply reachable_state_after. vm_compute. reflexivity.
Defined.

(** C8: on a reachable container a second [insert(k)] right after the
    first returns the same iterator with [inserted == false] and leaves the
    container exactly as the first call left it. *)
Theorem insert_twice (N : nat) (s : ADS_set) (k : key_type) :
  0 < N → reachable N s →
  ∃ it b s1, insert N s k = Some (it, b, s1) ∧
    insert N s1 k = Some (it, false, s1) ∧ size s1 = size s + (if b then 1 else 0).
Proof.
  intros HN [d Hinv]%(reachable_Inv N HN).
  destruct (insert_ok N HN d s k Hinv) as (it & b & s1 & d1 & Hins & Hinv1 & Hfind & Hb).
  exists it, b, s1. split; [done|].
  assert (Hin : k ∈ stored s1).
  { destruct b.
    - destruct Hb as (_ & Hkeys & _). apply (keys_ins_elem _ _ _ _ Hkeys). by left.
    - by destruct Hb as [? ->]. }
  destruct (insert_ok N HN d1 s1 k Hinv1) as (it2 & b2 & s2 & d2 & Hins2 & _ & Hfind2 & Hb2).
  destruct b2; [by destruct Hb2|]. destruct Hb2 as [_ ->].
  rewrite Hfind in Hfind2. injection Hfind2 as <-. split; [done|].
  unfold size. destruct b.
  - destruct Hb as (_ & _ & ->). lia.
  - destruct Hb as [_ ->]. lia.
Qed.

Lemma insert_twice_witness :
  ∃ it b s1,
    insert 1 (state_after 1 [OpInsert 5; OpInsert 3; OpInsert 8]%Z) 4%Z
    = Some (it, b, s1) ∧
    insert 1 s1 4%Z = Some (it, false, s1) ∧
    size s1 = size (state_after 1 [OpInsert 5; OpInsert 3; OpInsert 8]%Z)
              + (if b then 1 else 0).
Proof.
  apply (insert_twice 1); [lia|].
  eapply reachable_state_after. vm_compute. reflexivity.
Defined.

(** C10: assigning a reachable container to itself leaves it empty:
    [operator=] clears [this] and then inserts the range [begin(), end())
    of [other], which is the cleared container itself. *)
Theorem self_assignment_empties (N : nat) (s : ADS_set) (objs : objects) (i : nat)
    (fuel : nat) :
  0 < N → reachable N s → objs !! i = Some s →
  ∃ s', assign N fuel objs i i = Some (<[i := s']> objs) ∧
    size s' = 0 ∧ traverse fuel s' = Some [] ∧ ∀ k, ADS_count s' k = Some 0.
Proof.
  intros HN [d Hinv]%(reachable_Inv N HN) Hi.
  destruct (clear_ok N HN d s Hinv) as (s' & Hclear & Hinv' & Hstored).
  assert (Hsz : sz s' = 0).
  { destruct Hinv' as [_ _ _ _ _ Hsize]. by rewrite Hsize, Hstored. }
  exists s'. unfold assign. rewrite Hi. simpl. rewrite Hclear. simpl.
  rewrite lookup_insert_eq. simpl. unfold begin, end_.
  rewrite bool_decide_true by done.
  split; [by destruct fuel|]. split; [done|]. split.
  - rewrite (traverse_ok N HN 0 s' fuel Hinv') by lia. by rewrite Hstored.
  - intros k. rewrite (count_total N 0 s' k Hinv'), Hstored.
    by rewrite bool_decide_false by apply not_elem_of_nil.
Qed.

Lemma self_assignment_empties_witness :
  ∃ s',
    assign 1 5 {[ 0 := state_after 1 [OpInsert 5; OpInsert 3; OpInsert 8]%Z ]} 0 0
    = Some (<[0 := s']>
              {[ 0 := state_after 1 [OpInsert 5; OpInsert 3; OpInsert 8]%Z ]}) ∧
    size s' = 0 ∧ traverse 5 s' = Some [] ∧ ∀ k, ADS_count s' k = Some 0.
Proof.
  apply (self_assignment_empties 1 (state_after 1 [OpInsert 5; OpInsert 3; OpInsert 8]%Z));
    [lia| |apply lookup_singleton_eq].
  eapply reachable_state_after. vm_compute. reflexivity.
Defined.

(** C4: [split(pos)] on a leaf child of [2N + 1] keys, whose right
    neighbour (if any) is another allocated leaf: the leaf keeps its lower
    [N] keys, a leaf at a new address gets the upper [N + 1] keys and stands
    in the chain between the leaf and its former right neighbour, in both
    directions, and the key put into the parent at [pos] is the first key of
    the new leaf, which becomes child [pos + 1]. *)
Theorem split_leaf_child (N : nat) (vals : list key_type) (cs : list Node)
    (pos : nat) (a : addr) (h : store) (l : ExternalNode) :
  cs !! pos = Some (External a) → h !! a = Some l →
  length (values l) = 2 * N + 1 →
  (∀ b, right_neighbour l = Some b → b ≠ a ∧ is_Some (h !! b)) →
  ∃ r k h',
    split (Internal vals cs) pos h
    = Some (Internal (insert_at pos k vals) (insert_at (S pos) (External r) cs), h') ∧
    h !! r = None ∧
    h' !! a = Some (mkExternal (take N (values l)) (left_neighbour l) (Some r)) ∧
    h' !! r = Some (mkExternal (drop N (values l)) (Some a) (right_neighbour l)) ∧
    length (take N (values l)) = N ∧ length (drop N (values l)) = N + 1 ∧
    head (drop N (values l)) = Some k ∧
    (∀ b nb, right_neighbour l = Some b → h !! b = Some nb →
       h' !! b = Some (set_left nb (Some r))) ∧
    (∀ x, x ≠ a → x ≠ r → right_neighbour l ≠ Some x → h' !! x = h !! x).
Proof.
  intros Hc Hl Hlen Hb.
  destruct (split_external_store vals cs pos a h l N Hl Hlen Hb)
    as (h' & k & Hsplit & Hr & Hk & Ha' & Hr' & Hb' & Hother).
  exists (fresh (dom h)), k, h'.
  split; [unfold split; by rewrite Hc|].
  split; [done|]. split; [done|]. split; [done|].
  split; [rewrite length_take; lia|]. split; [rewrite length_drop; lia|].
  split; [|done].
  rewrite <- (Nat.add_0_r N) in Hk. rewrite <- lookup_drop in Hk.
  by destruct (drop N (values l)).
Qed.

Lemma split_leaf_child_witness :
  ∃ r k h',
    split (Internal [] [External 1%positive]) 0
          {[ 1%positive := mkExternal [10; 20; 30]%Z None None ]}
    = Some (Internal (insert_at 0 k []) (insert_at 1 (External r) [External 1%positive]),
            h') ∧
    ({[ 1%positive := mkExternal [10; 20; 30]%Z None None ]} : store) !! r = None ∧
    h' !! 1%positive = Some (mkExternal (take 1 [10; 20; 30]%Z) None (Some r)) ∧
    h' !! r = Some (mkExternal (drop 1 [10; 20; 30]%Z) (Some 1%positive) None) ∧
    length (take 1 [10; 20; 30]%Z) = 1 ∧ length (drop 1 [10; 20; 30]%Z) = 1 + 1 ∧
    head (drop 1 [10; 20; 30]%Z) = Some k ∧
    (∀ b nb, (None : option addr) = Some b →
       ({[ 1%positive := mkExternal [10; 20; 30]%Z None None ]} : store) !! b = Some nb →
       h' !! b = Some (set_left nb (Some r))) ∧
    (∀ x, x ≠ 1%positive → x ≠ r → (None : option addr) ≠ Some x →
       h' !! x = ({[ 1%positive := mkExternal [10; 20; 30]%Z None None ]} : store) !! x).
Proof.
  apply (split_leaf_child 1 [] [External 1%positive] 0 1%positive
           {[ 1%positive := mkExternal [10; 20; 30]%Z None None ]}
           (mkExternal [10; 20; 30]%Z None None)).
  - reflexivity.
  - vm_compute. reflexivity.
  - reflexivity.
  - intros b Hb. discriminate Hb.
Defined.

(** * Sibling choice and fusing in [merge] *)

Lemma leaf_of_size N h a l mn mx :
  h !! a = Some l → mn ≤ length (values l) ≤ mx → shape N h 0 mn mx (External a).
Proof. intros Hl Hsz. apply shape_leaf. by exists a, l. Qed.

(** C9: in a parent whose child at [length csA] is underfull ([N - 1]
    keys) among well-formed siblings, whenever [merge] fuses, the fused
    child holds [2N - 1] keys if it is a leaf and [2N] keys if it is an
    internal node, so the test [node_size > max_size] after the fuse fails
    and [merge] returns the fused parent without the second split. *)
Theorem fuse_within_bounds (N : nat) (h : store) (d : nat) (vals : list key_type)
    (csA : list Node) (c : Node) (csB : list Node) (tp tq : list Z)
    (lp lq : list positive) :
  0 < N → length (csA ++ c :: csB) = S (length vals) → 1 ≤ length vals →
  shape N h d (N - 1) (N - 1) c →
  Forall (shape N h d N (N * 2)) csA → Forall (shape N h d N (N * 2)) csB →
  in_ctx h (Internal vals (csA ++ c :: csB)) tp tq lp lq →
  ∃ act, merge_action N h vals (csA ++ c :: csB) (length csA) = Some act ∧
    ∀ p, (act = FUSE_LEFT ∧ p = length csA - 1) ∨ (act = FUSE_RIGHT ∧ p = length csA) →
      ∃ vals' cs' h' k,
        (if bool_decide (act = FUSE_LEFT)
         then fuse_left vals (csA ++ c :: csB) (length csA) h
         else fuse_right vals (csA ++ c :: csB) (length csA) h)
        = Some (Internal vals' cs', h') ∧
        child_size h' cs' p = Some k ∧
        (type c = Some EXTERNAL → k = 2 * N - 1) ∧
        (type c = Some INTERNAL → k = 2 * N) ∧
        ¬ max_size N < k ∧
        split_if_oversize N (Internal vals' cs') p h' = Some (Internal vals' cs', h') ∧
        merge N (Internal vals (csA ++ c :: csB)) (length csA) h
        = Some (Internal vals' cs', h').
Proof.
  intros HN Hlen Hvals Hc HcsA HcsB Hctx.
  destruct (merge_ok N HN h d vals csA c csB tp tq lp lq)
    as (act & n' & h' & k & Hact & Hmerge & _ & _ & Hfused); try done.
  exists act. split; [done|].
  assert (Hty : (type c = Some EXTERNAL → fused_size N d = 2 * N - 1) ∧
                (type c = Some INTERNAL → fused_size N d = 2 * N)).
  { destruct d.
    - apply shape_leaf in Hc as (a & l & -> & _). simpl. split; [lia|done].
    - apply shape_node in Hc as (cv & cc & -> & _). simpl. split; [done|lia]. }
  pose proof (fused_size_le N HN d) as Hle.
  intros p [[-> ->]|[-> ->]]; simpl;
    destruct Hfused as (vals' & cs' & Hfuse & -> & Hsize);
    exists vals', cs', h', (fused_size N d).
  all: split; [done|]; split; [done|]; split; [tauto|]; split; [tauto|].
  all: split; [unfold max_size; lia|]; split; [|done].
  all: by apply (split_if_oversize_nop N HN _ _ _ _ (fused_size N d)).
Qed.

Lemma fuse_within_bounds_witness :
  ∃ act, merge_action 1 fuse_store [2%Z] ([External 1%positive] ++ External 2%positive :: [])
                      (length [External 1%positive]) = Some act ∧
    ∀ p, (act = FUSE_LEFT ∧ p = length [External 1%positive] - 1) ∨
         (act = FUSE_RIGHT ∧ p = length [External 1%positive]) →
      ∃ vals' cs' h' k,
        (if bool_decide (act = FUSE_LEFT)
         then fuse_left [2%Z] ([External 1%positive] ++ External 2%positive :: [])
                        (length [External 1%positive]) fuse_store
         else fuse_right [2%Z] ([External 1%positive] ++ External 2%positive :: [])
                         (length [External 1%positive]) fuse_store)
        = Some (Internal vals' cs', h') ∧
        child_size h' cs' p = Some k ∧
        (type (External 2%positive) = Some EXTERNAL → k = 2 * 1 - 1) ∧
        (type (External 2%positive) = Some INTERNAL → k = 2 * 1) ∧
        ¬ max_size 1 < k ∧
        split_if_oversize 1 (Internal vals' cs') p h' = Some (Internal vals' cs', h') ∧
        merge 1 (Internal [2%Z] ([External 1%positive] ++ External 2%positive :: []))
              (length [External 1%positive]) fuse_store
        = Some (Internal vals' cs', h').
Proof.
  apply (fuse_within_bounds 1 fuse_store 0 [2%Z] [External 1%positive]
           (External 2%positive) [] [] [] [] []).
  - lia.
  - reflexivity.
  - simpl. lia.
  - apply (leaf_of_size 1 fuse_store 2%positive (mkExternal [] (Some 1%positive) None));
      [reflexivity|simpl; lia].
  - apply Forall_cons. split; [|apply Forall_nil_2].
    apply (leaf_of_size 1 fuse_store 1%positive (mkExternal [1]%Z None (Some 2%positive)));
      [reflexivity|simpl; lia].
  - apply Forall_nil_2.
  - split; [|split].
    + vm_compute. repeat constructor.
    + vm_compute. eexists. split; [reflexivity|]. split; [reflexivity|].
      split; [reflexivity|]. eexists. split; [reflexivity|]. done.
    + refine (bool_decide_unpack _ _). vm_compute. exact I.
Defined.

(** C1, as the code has it: in [merge(pos)] on a parent whose other
    children hold at least [N] keys, the first child works with its right
    sibling and the last child with its left sibling; between two siblings
    of different sizes a key comes from the larger one; between two siblings
    of the same size the LEFT one gives a key when they hold more than [N]
    keys, and the child is fused with the RIGHT one when they hold [N]. *)
Theorem merge_sibling_choice (N : nat) (h : store) (vals : list key_type)
    (cs : list Node) (pos : nat) (c : Node) :
  cs !! pos = Some c → is_Some (type c) → pos ≤ length vals → 1 ≤ length vals →
  (∀ i, i ≤ length vals → ∃ k, child_size h cs i = Some k ∧ (i ≠ pos → N ≤ k)) →
  ∃ act, merge_action N h vals cs pos = Some act ∧
    (pos = 0 → sibling_used act = RIGHT) ∧
    (pos = length vals → sibling_used act = LEFT) ∧
    (∀ l r, 0 < pos < length vals →
       child_size h cs (pos - 1) = Some l → child_size h cs (pos + 1) = Some r →
       (l < r → act = MOVE_FROM_RIGHT) ∧ (r < l → act = MOVE_FROM_LEFT) ∧
       (l = r → N < l → act = MOVE_FROM_LEFT) ∧ (l = r → l = N → act = FUSE_RIGHT)).
Proof.
  intros Hc Hty Hpos Hvals Hsizes.
  destruct (merge_action_spec N h vals cs pos c Hc Hty Hpos Hvals)
    as (act & Hact & Hcase).
  { intros i Hi. destruct (Hsizes i Hi) as (k & -> & _). done. }
  exists act. split; [done|].
  assert (Hl : ∀ l, 0 < pos → child_size h cs (pos - 1) = Some l → N ≤ l).
  { intros l Hp Hl. destruct (Hsizes (pos - 1) ltac:(lia)) as (k & Hk & HkN).
    rewrite Hl in Hk. injection Hk as <-. apply HkN. lia. }
  assert (Hr : ∀ r, pos < length vals → child_size h cs (pos + 1) = Some r → N ≤ r).
  { intros r Hp Hr. destruct (Hsizes (pos + 1) ltac:(lia)) as (k & Hk & HkN).
    rewrite Hr in Hk. injection Hk as <-. apply HkN. lia. }
  destruct act; simpl.
  - destruct Hcase as (Hlt & r & Hrs & HrN & Hor).
    split; [done|]. split; [lia|]. intros l' r' Hmid Hl' Hr'.
    rewrite Hrs in Hr'. injection Hr' as <-.
    destruct Hor as [?|(l & Hls & Hlr)]; [lia|].
    rewrite Hls in Hl'. injection Hl' as <-.
    repeat split; intros; (done || lia).
  - destruct Hcase as (Hp & l & Hls & HlN & Hor).
    split; [lia|]. split; [done|]. intros l' r' Hmid Hl' Hr'.
    rewrite Hls in Hl'. injection Hl' as <-.
    destruct Hor as [?|(r & Hrs & Hrl)]; [lia|].
    rewrite Hrs in Hr'. injection Hr' as <-.
    repeat split; intros; (done || lia).
  - destruct Hcase as (Hp & l & Hls & HlN & Hor).
    split; [lia|]. split; [done|]. intros l' r' Hmid Hl' Hr'.
    rewrite Hls in Hl'. injection Hl' as <-.
    destruct Hor as [?|(r & Hrs & Hlr & HrN)]; [lia|].
    specialize (Hl l ltac:(lia) Hls). lia.
  - destruct Hcase as (Hlt & r & Hrs & HrN & Hor).
    split; [done|]. split; [lia|]. intros l' r' Hmid Hl' Hr'.
    rewrite Hrs in Hr'. injection Hr' as <-.
    destruct Hor as [?|(l & Hls & Hrl & HlN)]; [lia|].
    rewrite Hls in Hl'. injection Hl' as <-.
    specialize (Hr r ltac:(lia) Hrs).
    repeat split; intros; (done || lia).
Qed.

Lemma merge_sibling_choice_witness :
  ∃ act, merge_action 1 tie_store [2; 3]%Z tie_children 1 = Some act ∧
    (1 = 0 → sibling_used act = RIGHT) ∧
    (1 = length [2; 3]%Z → sibling_used act = LEFT) ∧
    (∀ l r, 0 < 1 < length [2; 3]%Z →
       child_size tie_store tie_children (1 - 1) = Some l →
       child_size tie_store tie_children (1 + 1) = Some r →
       (l < r → act = MOVE_FROM_RIGHT) ∧ (r < l → act = MOVE_FROM_LEFT) ∧
       (l = r → 1 < l → act = MOVE_FROM_LEFT) ∧ (l = r → l = 1 → act = FUSE_RIGHT)).
Proof.
  apply (merge_sibling_choice 1 tie_store [2; 3]%Z tie_children 1 (External 2%positive)).
  - reflexivity.
  - eexists. reflexivity.
  - simpl. lia.
  - simpl. lia.
  - intros [|[|[|i]]] Hi; simpl in Hi; [| | |lia].
    + exists 2. split; [reflexivity|]. intros _. lia.
    + exists 0. split; [reflexivity|]. intros Hne. by destruct Hne.
    + exists 2. split; [reflexivity|]. intros _. lia.
Defined.

(** C1, against the specification's rule ("ties broken toward the right"):
    with [N = 1], between two siblings of two keys each [merge] takes the
    key from the left sibling. The tree arises from inserting 1, 2, 3, 4, 0
    into a new container, and [erase(2)] moves the key 1 from the left leaf
    into the emptied middle leaf. *)
Lemma merge_tie_moves_from_left :
  child_size tie_store tie_children 0 = Some 2 ∧
  child_size tie_store tie_children 2 = Some 2 ∧
  merge_action 1 tie_store [2; 3]%Z tie_children 1 = Some MOVE_FROM_LEFT ∧
  sibling_used MOVE_FROM_LEFT = LEFT ∧ spec_sibling 1 2 2 2 = RIGHT ∧
  leaf_keys (state_after 1 [OpInsert 1; OpInsert 2; OpInsert 3; OpInsert 4;
                            OpInsert 0]%Z)
  = [[0; 1]; [2]; [3; 4]]%Z ∧
  ∃ s', erase 1 (state_after 1 [OpInsert 1; OpInsert 2; OpInsert 3; OpInsert 4;
                                OpInsert 0]%Z) 2%Z = Some (1, s') ∧
    leaf_keys s' = [[0]; [1]; [3; 4]]%Z.
Proof.
  repeat split; try (vm_compute; reflexivity).
  eexists. split; vm_compute; reflexivity.
Qed.

(** * The root: collapse and promotion *)

(** The objects: what stands for a subtree, and what releasing the root
    leaves of it. *)
Lemma represents_Internal os h p vals cs :
  represents os h p (Internal vals cs) ↔
  ∃ a ptrs, p = Some a ∧ os !! a = Some (InternalObject vals ptrs) ∧
    Forall2 (represents os h) ptrs cs.
Proof.
  simpl. split; intros (a & ptrs & Hp & Ha & Hall); exists a, ptrs;
    (split; [done|split; [done|]]).
  - clear Ha. revert ptrs Hall.
    induction cs as [|c cs IH]; intros [|q ptrs]; try done.
    intros [Hq Hall]. constructor; [done|]. by apply IH.
  - clear Ha. induction Hall as [|q c ptrs cs' Hq Hall IH]; simpl; [done|]. by split.
Qed.

Lemma delete_object_null fuel os : delete_object fuel None os = Some os.
Proof. by destruct fuel. Qed.

Lemma represents_released N os h p ptrs0 d : ∀ q c,
  0 < N → os !! p = Some (InternalObject [] ptrs0) →
  shape N h d N (N * 2) c → represents os h q c →
  represents (delete p os) h q c.
Proof.
  induction d as [|d IH]; intros q c HN Hp Hsh Hrep.
  - apply shape_leaf in Hsh as (a & l & -> & _).
    destruct Hrep as (-> & l' & Hl' & Ha). split; [done|]. exists l'.
    split; [done|]. rewrite lookup_delete_ne; [done|]. intros ->.
    rewrite Hp in Ha. discriminate Ha.
  - apply shape_node in Hsh as (vals & cs & -> & _ & Hsz & Hall).
    apply represents_Internal in Hrep as (a & ptrs & -> & Ha & Hreps).
    apply represents_Internal. exists a, ptrs. split; [done|]. split.
    { rewrite lookup_delete_ne; [done|]. intros ->. rewrite Hp in Ha.
      injection Ha as <- _. simpl in Hsz. lia. }
    clear Ha. induction Hreps as [|q c ptrs cs' Hq Hreps IHr]; [constructor|].
    apply Forall_cons in Hall as [Hc Hall].
    constructor; [by apply IH|by apply IHr].
Qed.

(** C6: when [remove_elem] on the root of a reachable container leaves an
    internal root without keys, that root has exactly one child, [erase]
    returns 1 with [size()] one less, the child becomes the root, one level
    lower, and the leaves are those [remove_elem] left. On the objects that
    stand for this tree, the [switch] of [erase] makes the pointer to the
    child the root and releases the object of the former root, and only it:
    every other object, so the whole subtree of the adopted child, is as it
    was. *)
Theorem erase_collapses_root (N : nat) (s : ADS_set) (k : key_type)
    (msg : EraseMsg.t) (cs : list Node) (h1 : store) (t : ObjectSet) (fuel : nat) :
  0 < N → reachable N s →
  remove_elem N (root s) k (heap s) = Some (msg, Internal [] cs, h1) →
  represents (objs t) h1 (oroot t) (Internal [] cs) →
  osz t = size s → oleft_leaf t = left_leaf s → 0 < fuel →
  ∃ c s' p t', cs = [c] ∧ erase N s k = Some (1, s') ∧
    root s' = c ∧ heap s' = h1 ∧ left_leaf s' = left_leaf s ∧
    S (size s') = size s ∧ S (height (root s')) = height (root s) ∧
    (∀ a, a ∈ leaves c → is_Some (h1 !! a)) ∧
    oroot t = Some p ∧ erase_on_objects fuel msg t = Some (1, t') ∧
    objs t' !! p = None ∧ (∀ x, x ≠ p → objs t' !! x = objs t !! x) ∧
    represents (objs t') h1 (oroot t') (root s') ∧
    osz t' = size s' ∧ oleft_leaf t' = left_leaf s'.
Proof.
  intros HN [d Hinv]%(reachable_Inv N HN) Hrem Hrep Hosz Holeft Hfuel.
  pose proof Hinv as [Hsh Hs _ _ Hleft Hsize].
  destruct (remove_elem_ok N HN d (root s) (root_min d) (heap s) k [] [] [] [])
    as (msg0 & n' & h' & Hrem' & _ & Hmsg);
    [destruct d; simpl; lia|done|done|by eapply Inv_in_ctx|done|done|].
  rewrite Hrem in Hrem'. injection Hrem' as <- <- <-.
  assert (Hno : ∀ h, ¬ shape N h d (root_min d) (N * 2) (Internal [] cs)).
  { intros h Hbad. destruct d.
    - by apply shape_leaf in Hbad as (? & ? & ? & _).
    - apply shape_node in Hbad as (? & ? & [= <- <-] & _ & Hsz & _).
      simpl in Hsz. lia. }
  destruct msg.
  - destruct Hmsg as (_ & Hbad & _). by apply Hno in Hbad.
  - destruct Hmsg as (Hroot & _ & _). rewrite <- Hroot in Hsh. by apply Hno in Hsh.
  - destruct Hmsg as (_ & Hsh' & (_ & Hkeys & _)).
    destruct d as [|d]; [by apply shape_leaf in Hsh' as (? & ? & ? & _)|].
    apply shape_node in Hsh' as (? & ? & [= <- <-] & Hlc & _ & Hall).
    destruct cs as [|c [|? ?]]; try done.
    apply Forall_cons in Hall as [Hc _].
    apply represents_Internal in Hrep as (p & ptrs & Hp & Hobj & Hreps).
    apply Forall2_cons_inv_r in Hreps as (q & ptrs' & Hq & Hnil & ->).
    apply Forall2_nil_inv_r in Hnil as ->.
    apply keys_del_length in Hkeys. fold (stored s) in Hkeys.
    destruct fuel as [|fuel]; [lia|].
    eexists c, _, p, _. split; [done|]. split.
    { unfold erase. rewrite Hrem. simpl.
      change (delete_node (Internal [] [Null]) h1) with (Some h1). done. }
    simpl. split; [done|]. split; [done|]. split; [done|].
    split; [unfold size; simpl; lia|].
    split; [by rewrite (shape_height _ _ _ _ _ _ Hsh), (shape_height _ _ _ _ _ _ Hc)|].
    split; [intros a Ha; by eapply shape_alloc|].
    split; [done|]. split.
    { unfold erase_on_objects. rewrite Hp. simpl. rewrite Hobj. simpl.
      rewrite lookup_insert_eq. simpl. rewrite delete_object_null. simpl.
      rewrite lookup_insert_eq. simpl. done. }
    simpl. rewrite delete_insert_eq.
    split; [apply lookup_delete_eq|]. split; [intros x Hx; by apply lookup_delete_ne|].
    split; [by apply (represents_released N _ _ p [q] d)|].
    split; [unfold size in *; simpl; lia|done].
Qed.

Lemma erase_collapses_root_witness :
  ∃ c s' p t', [External 1%positive] = [c] ∧ erase 1 two_leaves 2%Z = Some (1, s') ∧
    root s' = c ∧ heap s' = two_leaves_fused ∧ left_leaf s' = left_leaf two_leaves ∧
    S (size s') = size two_leaves ∧ S (height (root s')) = height (root two_leaves) ∧
    (∀ a, a ∈ leaves c → is_Some (two_leaves_fused !! a)) ∧
    oroot two_leaves_objects = Some p ∧
    erase_on_objects 1 EraseMsg.MERGE two_leaves_objects = Some (1, t') ∧
    objs t' !! p = None ∧
    (∀ x, x ≠ p → objs t' !! x = objs two_leaves_objects !! x) ∧
    represents (objs t') two_leaves_fused (oroot t') (root s') ∧
    osz t' = size s' ∧ oleft_leaf t' = left_leaf s'.
Proof.
  apply (erase_collapses_root 1 two_leaves 2%Z EraseMsg.MERGE [External 1%positive]
           two_leaves_fused two_leaves_objects 1).
  - lia.
  - eapply reachable_state_after. vm_compute. reflexivity.
  - vm_compute. reflexivity.
  - exists 7%positive, [Some 1%positive]. split; [reflexivity|].
    split; [reflexivity|]. split; [|exact I]. split; [reflexivity|].
    exists (mkExternal [1]%Z None None). split; vm_compute; reflexivity.
  - reflexivity.
  - reflexivity.
  - lia.
Defined.

Lemma run_app N (ops1 ops2 : list Op) s :
  run N s (ops1 ++ ops2) = run N s ops1 ≫= λ s1, run N s1 ops2.
Proof.
  revert s. induction ops1 as [|o ops1 IH]; intros s; [done|].
  simpl. destruct (step N s o) as [s1|]; [|done]. simpl. apply IH.
Qed.

Lemma External_add_elem_last N l k :
  StronglySorted Z.lt (values l) → Forall (λ x, x < k)%Z (values l) →
  External_add_elem N l k
  = Some (if bool_decide (max_size N < S (length (values l)))
          then InsertMsg.SPLIT else InsertMsg.SUCCESS,
          set_values l (values l ++ [k])).
Proof.
  intros Hs Hall. rewrite Forall_forall in Hall.
  destruct (External_add_elem_spec N l k Hs)
    as [[Hin _]|(_ & V1 & V2 & HV & _ & HV2 & ->)].
  - specialize (Hall k Hin). lia.
  - destruct V2 as [|v V2].
    + rewrite app_nil_r in HV. by rewrite HV.
    + apply Forall_cons in HV2 as [Hv _].
      assert (v < k)%Z; [|lia]. apply Hall. rewrite HV, elem_of_app. right. by left.
Qed.

Lemma sorted_snoc (vs ks : list Z) (k : Z) :
  StronglySorted Z.lt (vs ++ k :: ks) →
  StronglySorted Z.lt vs ∧ Forall (λ x, x < k)%Z vs ∧ StronglySorted Z.lt (vs ++ [k]).
Proof.
  intros Hs.
  assert (H1 : StronglySorted Z.lt vs) by (by eapply StronglySorted_app_1_l).
  assert (H2 : Forall (λ x, x < k)%Z vs).
  { apply StronglySorted_app in Hs as (Hlt & ? & ?). rewrite Forall_forall.
    intros x Hx. apply Hlt; [done|]. by left. }
  split; [done|]. split; [done|].
  apply (sorted_insert vs [] k); [by rewrite app_nil_r|done|done].
Qed.

(** Increasing keys put one after the other into a root that is a leaf with
    room for them. *)
Lemma run_inserts_leaf N : ∀ ks s a l,
  root s = External a → heap s !! a = Some l →
  StronglySorted Z.lt (values l ++ ks) → length (values l ++ ks) ≤ N * 2 →
  run N s (OpInsert <$> ks)
  = Some (mkSet (sz s + length ks) (External a) (left_leaf s)
                (<[a := set_values l (values l ++ ks)]> (heap s))).
Proof.
  induction ks as [|k ks IH]; intros s a l Hroot Hl Hs Hlen.
  { simpl. rewrite app_nil_r, Nat.add_0_r.
    replace (set_values l (values l)) with l by (by destruct l).
    rewrite insert_id by done. destruct s. simpl in *. by subst. }
  destruct (sorted_snoc _ _ _ Hs) as (HsV & Hlt & Hs1).
  rewrite length_app in Hlen. simpl in Hlen.
  set (l1 := set_values l (values l ++ [k])).
  set (s1 := mkSet (S (sz s)) (External a) (left_leaf s) (<[a := l1]> (heap s))).
  assert (Hins : ∃ it, insert N s k = Some (it, true, s1)).
  { unfold insert. rewrite Hroot, add_elem_External, Hl. simpl.
    rewrite (External_add_elem_last N l k HsV Hlt). simpl.
    rewrite bool_decide_false by (unfold max_size; lia). simpl.
    unfold ADS_find. simpl. rewrite find_External, lookup_insert_eq. simpl.
    fold l1. destruct (External_find_spec a l1 k Hs1) as (it & -> & _). by exists it. }
  destruct Hins as [it Hins].
  rewrite fmap_cons. cbn [run step]. rewrite Hins. simpl.
  rewrite (IH s1 a l1); [| done | by apply lookup_insert_eq | |].
  - f_equal. unfold s1, l1. simpl. rewrite insert_insert_eq.
    rewrite <- app_assoc. simpl. f_equal. lia.
  - unfold l1. simpl. by rewrite <- app_assoc.
  - unfold l1. simpl. rewrite !length_app. simpl. lia.
Qed.

(** C5: [2N + 1] increasing keys put into a new container leave an
    internal root of height 2 with one key, over a left leaf with the first
    [N] keys and a right leaf with the other [N + 1]; the key of the root is
    the first key of the right leaf, and a walk yields the keys in order.
    The witness is [N = 3] with the keys 1 to 7. *)
Theorem increasing_keys_promote_root (N : nat) (ks : list key_type) :
  0 < N → length ks = 2 * N + 1 → StronglySorted Z.lt ks →
  ∃ s v a b, run N ADS_set_new (OpInsert <$> ks) = Some s ∧
    root s = Internal [v] [External a; External b] ∧ height (root s) = 2 ∧
    vals_at (heap s) a = take N ks ∧ vals_at (heap s) b = drop N ks ∧
    head (drop N ks) = Some v ∧ traverse (2 * N + 1) s = Some ks.
Proof.
  intros HN Hlen Hs.
  destruct (decide (ks = [])) as [->|Hne]; [simpl in Hlen; lia|].
  destruct (exists_last Hne) as (ks0 & k & ->).
  rewrite length_app in Hlen. simpl in Hlen.
  set (a := fresh (dom (∅ : store))).
  set (l0 := set_values (mkExternal [] None None) ks0).
  set (s0 := mkSet (0 + length ks0) (External a) (Some a)
                   (<[a := l0]> {[ a := mkExternal [] None None ]})).
  assert (Hrun0 : run N ADS_set_new (OpInsert <$> ks0) = Some s0).
  { apply (run_inserts_leaf N ks0 ADS_set_new a (mkExternal [] None None)).
    - done.
    - apply lookup_singleton_eq.
    - simpl. by eapply StronglySorted_app_1_l.
    - simpl. lia. }
  destruct (sorted_snoc ks0 [] k Hs) as (Hs0 & Hlt & _).
  (* the last key splits the leaf *)
  set (l1 := set_values l0 (ks0 ++ [k])).
  set (h1 := <[a := l1]> (heap s0)).
  destruct (split_external_store [] [External a] 0 a h1 l1 N)
    as (h2 & v & Hsplit & Hr & Hv & Ha2 & Hr2 & _);
    [by apply lookup_insert_eq|simpl; rewrite length_app; simpl; lia|done|].
  set (r := fresh (dom h1)) in *.
  set (s2 := mkSet (S (sz s0)) (Internal [v] [External a; External r]) (Some a) h2).
  assert (Hins : insert N s0 k = it ← ADS_find s2 k; Some (it, true, s2)).
  { unfold insert. simpl. rewrite add_elem_External, lookup_insert_eq. simpl.
    rewrite (External_add_elem_last N l0 k Hs0 Hlt). simpl.
    rewrite bool_decide_true by (unfold max_size; lia). simpl.
    match goal with
    | |- context [split ?n ?p ?h] =>
      change (split n p h) with (split_external [] [External a] 0 a h1)
    end.
    rewrite Hsplit. done. }
  assert (Hreach0 : reachable N s0) by (by eexists).
  destruct (reachable_Inv N HN s0 Hreach0) as [d0 Hinv0].
  destruct (insert_ok N HN d0 s0 k Hinv0) as (it & b & s' & d' & Hins' & Hinv' & _).
  rewrite Hins in Hins'.
  destruct (ADS_find s2 k) as [it2|]; [|done]. simpl in Hins'.
  injection Hins' as <- <- <-.
  assert (Hrun : run N ADS_set_new (OpInsert <$> ks0 ++ [k]) = Some s2).
  { rewrite fmap_app, run_app, Hrun0. simpl. by rewrite Hins. }
  assert (Hva : vals_at h2 a = take N (ks0 ++ [k])) by (unfold vals_at; by rewrite Ha2).
  assert (Hvr : vals_at h2 r = drop N (ks0 ++ [k])) by (unfold vals_at; by rewrite Hr2).
  exists s2, v, a, r. split; [done|]. split; [done|]. split; [done|].
  split; [done|]. split; [done|]. split.
  { simpl in Hv. rewrite <- (Nat.add_0_r N), <- lookup_drop in Hv.
    by destruct (drop N (ks0 ++ [k])). }
  rewrite (traverse_ok N HN d' s2) by (done || simpl; lia).
  f_equal. unfold stored. simpl.
  rewrite keys_Internal, !bind_cons, !keys_External, Hva, Hvr. simpl.
  by rewrite app_nil_r, take_drop.
Qed.

Lemma increasing_keys_promote_root_witness :
  ∃ s v a b, run 3 ADS_set_new (OpInsert <$> [1; 2; 3; 4; 5; 6; 7]%Z) = Some s ∧
    root s = Internal [v] [External a; External b] ∧ height (root s) = 2 ∧
    vals_at (heap s) a = [1; 2; 3]%Z ∧ vals_at (heap s) b = [4; 5; 6; 7]%Z ∧
    Some 4%Z = Some v ∧ traverse 7 s = Some [1; 2; 3; 4; 5; 6; 7]%Z.
Proof.
  apply (increasing_keys_promote_root 3 [1; 2; 3; 4; 5; 6; 7]%Z).
  - lia.
  - reflexivity.
  - repeat constructor.
Defined.


#[local] Arguments Nat.div : simpl never.
#[local] Arguments mapM : simpl never.
#[local] Arguments seq : simpl never.
#[local] Arguments insert_at : simpl never.
#[local] Arguments shift_down : simpl never.
#[local] Arguments split_external : simpl never.
#[local] Arguments split_internal : simpl never.
#[local] Arguments split : simpl never.
#[local] Arguments trace : simpl never.
#[local] Arguments leaves : simpl never.
#[local] Arguments shape : simpl never.
#[local] Arguments add_elem : simpl never.
#[local] Arguments remove_elem : simpl never.
#[local] Arguments find : simpl never.
#[local] Arguments count : simpl never.
#[local] Arguments delete_node : simpl never.

(** * The leaf operations *)

Lemma sorted_NoDup (l : list Z) : StronglySorted Z.lt l → NoDup l.
Proof.
  induction 1 as [|x l Hs IH Hall]; constructor; [|done].
  intros Hx. rewrite Forall_forall in Hall. specialize (Hall x Hx). lia.
Qed.

(** [ExternalNode::find_pos] on a sorted leaf: the binary search ends within
    [node_size] rounds, with the index of the key when the leaf holds it and
    with -1 when it does not. *)
Theorem leaf_find_pos_correct (l : ExternalNode) (e : key_type) :
  StronglySorted Z.lt (values l) →
  ∃ r, External_find_pos l e = Some r ∧
    ((r = -1)%Z ∧ e ∉ values l ∨
     (0 ≤ r < Z.of_nat (length (values l)))%Z ∧ values l !! Z.to_nat r = Some e).
Proof.
  intros Hs. destruct (External_find_pos_spec l e Hs) as (r & Hr & [[-> Hnot]|[Hr0 Hfound]]).
  - exists (-1)%Z. split; [done|]. by left.
  - exists r. split; [done|]. right. split; [|done].
    apply lookup_lt_Some in Hfound. lia.
Qed.

Lemma leaf_find_pos_correct_witness :
  ∃ r, External_find_pos (mkExternal [2; 3; 5; 7; 11]%Z None None) 7%Z = Some r ∧
    ((r = -1)%Z ∧ 7%Z ∉ [2; 3; 5; 7; 11]%Z ∨
     (0 ≤ r < Z.of_nat (length [2; 3; 5; 7; 11]%Z))%Z ∧
     [2; 3; 5; 7; 11]%Z !! Z.to_nat r = Some 7%Z).
Proof.
  apply (leaf_find_pos_correct (mkExternal [2; 3; 5; 7; 11]%Z None None) 7%Z).
  simpl. repeat constructor.
Defined.

(** [InternalNode::find_pos]: the index returned is at most [node_size],
    every key before it is at most [elem] and the key at it, if there is
    one, is greater than [elem]. *)
Theorem node_find_pos_first_greater (vals : list key_type) (elem : key_type) :
  Internal_find_pos vals elem ≤ length vals ∧
  (∀ i v, i < Internal_find_pos vals elem → vals !! i = Some v → (v ≤ elem)%Z) ∧
  (∀ v, vals !! Internal_find_pos vals elem = Some v → (elem < v)%Z).
Proof.
  unfold Internal_find_pos. split; [apply first_greater_le|]. split.
  - intros i v Hi Hv. by eapply first_greater_before.
  - intros v Hv. by eapply first_greater_at.
Qed.

(** [ExternalNode::add_elem] on a sorted leaf: a key the leaf holds leaves it
    as it was, with [EXISTS]; a new key is put in at its place, the leaf
    stays sorted with one key more, its links are untouched, and the answer
    is [SPLIT] exactly when the leaf now holds more than [2N] keys. *)
Theorem leaf_add_elem_sorted (N : nat) (l : ExternalNode) (e : key_type) :
  StronglySorted Z.lt (values l) →
  ∃ msg l', External_add_elem N l e = Some (msg, l') ∧
    StronglySorted Z.lt (values l') ∧ (∀ x, x ∈ values l' ↔ x = e ∨ x ∈ values l) ∧
    left_neighbour l' = left_neighbour l ∧ right_neighbour l' = right_neighbour l ∧
    (e ∈ values l → msg = InsertMsg.EXISTS ∧ l' = l) ∧
    (e ∉ values l → length (values l') = S (length (values l)) ∧
       msg = if bool_decide (N * 2 < length (values l'))
             then InsertMsg.SPLIT else InsertMsg.SUCCESS).
Proof.
  intros Hs.
  destruct (External_add_elem_spec N l e Hs)
    as [[Hin ->]|(Hnot & V1 & V2 & HV & HV1 & HV2 & ->)].
  - exists InsertMsg.EXISTS, l. split; [done|]. split; [done|].
    split; [naive_solver|]. done.
  - eexists _, _. split; [done|]. simpl.
    assert (Hlen : length (V1 ++ e :: V2) = S (length (values l))).
    { rewrite HV, !length_app. simpl. lia. }
    split; [apply sorted_insert; by rewrite <- ?HV|].
    split; [intros x; rewrite HV, !elem_of_app, elem_of_cons; tauto|].
    split; [done|]. split; [done|]. split; [done|]. intros _. split; [done|].
    rewrite Hlen. unfold max_size. done.
Qed.

Lemma leaf_add_elem_sorted_witness :
  ∃ msg l', External_add_elem 2 (mkExternal [2; 3; 5; 7]%Z None None) 4%Z
            = Some (msg, l') ∧
    StronglySorted Z.lt (values l') ∧
    (∀ x, x ∈ values l' ↔ x = 4%Z ∨ x ∈ [2; 3; 5; 7]%Z) ∧
    left_neighbour l' = None ∧ right_neighbour l' = None ∧
    (4%Z ∈ [2; 3; 5; 7]%Z → msg = InsertMsg.EXISTS ∧
       l' = mkExternal [2; 3; 5; 7]%Z None None) ∧
    (4%Z ∉ [2; 3; 5; 7]%Z → length (values l') = S (length [2; 3; 5; 7]%Z) ∧
       msg = if bool_decide (2 * 2 < length (values l'))
             then InsertMsg.SPLIT else InsertMsg.SUCCESS).
Proof.
  apply (leaf_add_elem_sorted 2 (mkExternal [2; 3; 5; 7]%Z None None) 4%Z).
  simpl. repeat constructor.
Defined.

(** [ExternalNode::remove_elem] on a sorted leaf: a key the leaf does not
    hold leaves it as it was, with [NOT_EXISTENT]; a key it holds is taken
    out, the other keys keep their order, the links are untouched, and the
    answer is [MERGE] exactly when fewer than [N] keys are left. *)
Theorem leaf_remove_elem_sorted (N : nat) (l : ExternalNode) (e : key_type) :
  StronglySorted Z.lt (values l) →
  ∃ msg l', External_remove_elem N l e = Some (msg, l') ∧
    StronglySorted Z.lt (values l') ∧ (∀ x, x ∈ values l' ↔ x ≠ e ∧ x ∈ values l) ∧
    left_neighbour l' = left_neighbour l ∧ right_neighbour l' = right_neighbour l ∧
    (e ∉ values l → msg = EraseMsg.NOT_EXISTENT ∧ l' = l) ∧
    (e ∈ values l → S (length (values l')) = length (values l) ∧
       msg = if bool_decide (length (values l') < N)
             then EraseMsg.MERGE else EraseMsg.SUCCESS).
Proof.
  intros Hs.
  destruct (External_remove_elem_spec N l e Hs) as [[Hnot ->]|(V1 & V2 & HV & ->)].
  - exists EraseMsg.NOT_EXISTENT, l. split; [done|]. split; [done|].
    split; [naive_solver|]. done.
  - eexists _, _. split; [done|]. simpl.
    assert (Hlen : S (length (V1 ++ V2)) = length (values l)).
    { rewrite HV, !length_app. simpl. lia. }
    assert (Hnd : NoDup (V1 ++ e :: V2)).
    { rewrite <- HV. by apply sorted_NoDup. }
    apply NoDup_app in Hnd as (_ & Hd & [He _]%NoDup_cons).
    split.
    { eapply sorted_sublist; [|exact Hs]. rewrite HV.
      apply sublist_app; [done|]. by apply sublist_cons. }
    split.
    { intros x. rewrite HV, !elem_of_app, elem_of_cons. split.
      - intros [Hx|Hx]; (split; [intros ->|tauto]).
        + apply (Hd e Hx). by left.
        + done.
      - tauto. }
    split; [done|]. split; [done|].
    split; [intros Hn; exfalso; apply Hn; rewrite HV, elem_of_app; right; by left|].
    intros _. split; [done|]. unfold min_size. done.
Qed.

Lemma leaf_remove_elem_sorted_witness :
  ∃ msg l', External_remove_elem 2 (mkExternal [2; 3; 5]%Z None None) 3%Z
            = Some (msg, l') ∧
    StronglySorted Z.lt (values l') ∧
    (∀ x, x ∈ values l' ↔ x ≠ 3%Z ∧ x ∈ [2; 3; 5]%Z) ∧
    left_neighbour l' = None ∧ right_neighbour l' = None ∧
    (3%Z ∉ [2; 3; 5]%Z → msg = EraseMsg.NOT_EXISTENT ∧
       l' = mkExternal [2; 3; 5]%Z None None) ∧
    (3%Z ∈ [2; 3; 5]%Z → S (length (values l')) = length [2; 3; 5]%Z ∧
       msg = if bool_decide (length (values l') < 2)
             then EraseMsg.MERGE else EraseMsg.SUCCESS).
Proof.
  apply (leaf_remove_elem_sorted 2 (mkExternal [2; 3; 5]%Z None None) 3%Z).
  simpl. repeat constructor.
Defined.

(** * Lookup after insertion and removal *)

Lemma reachable_step N s o s' :
  reachable N s → step N s o = Some s' → reachable N s'.
Proof.
  intros [ops Hrun] Hstep. exists (ops ++ [o]).
  rewrite run_app, Hrun. simpl. by rewrite Hstep.
Qed.

Lemma count_stored N d s k :
  Inv_at N d s → (ADS_count s k = Some 1 ↔ k ∈ stored s) ∧
                 (ADS_count s k = Some 0 ↔ k ∉ stored s).
Proof.
  intros Hinv. rewrite (count_total N d s k Hinv). case_bool_decide; naive_solver.
Qed.

Lemma stored_NoDup N d s : Inv_at N d s → NoDup (stored s).
Proof.
  intros [Hsh Hs _ _ _ _]. apply sorted_NoDup. by eapply sorted_keys.
Qed.

Lemma keys_del_elem e k k' x :
  NoDup k → keys_del e k k' → x ∈ k' ↔ x ≠ e ∧ x ∈ k.
Proof.
  intros Hnd (k1 & k2 & -> & ->).
  apply NoDup_app in Hnd as (_ & Hd & [He _]%NoDup_cons).
  rewrite !elem_of_app, elem_of_cons. split.
  - intros [Hx|Hx]; (split; [intros ->|tauto]).
    + apply (Hd e Hx). by left.
    + done.
  - tauto.
Qed.

(** [find] on a reachable container: the end iterator when [count] is 0, an
    iterator on the key itself when [count] is 1; [count] is one of the
    two. *)
Theorem find_hit_or_miss (N : nat) (s : ADS_set) (k : key_type) :
  0 < N → reachable N s →
  ∃ it, ADS_find s k = Some it ∧
    (ADS_count s k = Some 0 ∨ ADS_count s k = Some 1) ∧
    (ADS_count s k = Some 0 → it = end_ s) ∧
    (ADS_count s k = Some 1 → it ≠ end_ s ∧ Iterator_deref (heap s) it = Some k).
Proof.
  intros HN [d Hinv]%(reachable_Inv N HN).
  destruct (find_total N d s k Hinv) as (it & Hfind & Hmiss & Hhit).
  destruct (count_stored N d s k Hinv) as [H1 H0].
  exists it. split; [done|]. split.
  { rewrite (count_total N d s k Hinv). case_bool_decide; auto. }
  split; [intros Hc; apply Hmiss; by apply H0|].
  intros Hc%H1. specialize (Hhit Hc). split; [|done].
  intros ->. unfold end_, Iterator_deref in Hhit. done.
Qed.

Lemma find_hit_or_miss_witness :
  ∃ it, ADS_find (state_after 1 [OpInsert 5; OpInsert 3; OpInsert 8; OpInsert 1]%Z) 8%Z
        = Some it ∧
    (ADS_count (state_after 1 [OpInsert 5; OpInsert 3; OpInsert 8; OpInsert 1]%Z) 8%Z
     = Some 0 ∨
     ADS_count (state_after 1 [OpInsert 5; OpInsert 3; OpInsert 8; OpInsert 1]%Z) 8%Z
     = Some 1) ∧
    (ADS_count (state_after 1 [OpInsert 5; OpInsert 3; OpInsert 8; OpInsert 1]%Z) 8%Z
     = Some 0 →
     it = end_ (state_after 1 [OpInsert 5; OpInsert 3; OpInsert 8; OpInsert 1]%Z)) ∧
    (ADS_count (state_after 1 [OpInsert 5; OpInsert 3; OpInsert 8; OpInsert 1]%Z) 8%Z
     = Some 1 →
     it ≠ end_ (state_after 1 [OpInsert 5; OpInsert 3; OpInsert 8; OpInsert 1]%Z) ∧
     Iterator_deref
       (heap (state_after 1 [OpInsert 5; OpInsert 3; OpInsert 8; OpInsert 1]%Z)) it
     = Some 8%Z).
Proof.
  apply (find_hit_or_miss 1); [lia|].
  eapply reachable_state_after. vm_compute. reflexivity.
Defined.

(** [insert(k)] on a reachable container: afterwards [count(k)] is 1, the
    iterator returned stands on [k], the count of every other key is as
    before, [inserted] says whether [k] was new, and [size()] grew by one
    exactly then. The container reached is reachable. *)
Theorem insert_then_lookup (N : nat) (s : ADS_set) (k : key_type) :
  0 < N → reachable N s →
  ∃ it b s', insert N s k = Some (it, b, s') ∧ reachable N s' ∧
    ADS_count s' k = Some 1 ∧ Iterator_deref (heap s') it = Some k ∧
    (∀ k', k' ≠ k → ADS_count s' k' = ADS_count s k') ∧
    (b = true ↔ ADS_count s k = Some 0) ∧
    size s' = size s + (if b then 1 else 0).
Proof.
  intros HN Hreach. pose proof Hreach as [d Hinv]%(reachable_Inv N HN).
  destruct (insert_ok N HN d s k Hinv)
    as (it & b & s' & d' & Hins & Hinv' & Hfind & Hb).
  exists it, b, s'. split; [done|].
  split. { apply (reachable_step N s (OpInsert k)); [done|]. simpl. by rewrite Hins. }
  assert (Hin : k ∈ stored s').
  { destruct b.
    - destruct Hb as (_ & Hkeys & _). apply (keys_ins_elem _ _ _ _ Hkeys). by left.
    - by destruct Hb as [? ->]. }
  split; [by apply (count_stored N d' s' k Hinv')|].
  split.
  { destruct (find_total N d' s' k Hinv') as (it' & Hfind' & _ & Hhit).
    rewrite Hfind in Hfind'. injection Hfind' as <-. auto. }
  split.
  { intros k' Hne. rewrite (count_total N d' s' k' Hinv'), (count_total N d s k' Hinv).
    f_equal. destruct b.
    - destruct Hb as (_ & Hkeys & _).
      rewrite (bool_decide_ext _ (k' ∈ stored s)); [done|].
      rewrite (keys_ins_elem _ _ _ _ Hkeys). naive_solver.
    - by destruct Hb as [_ ->]. }
  split.
  { rewrite (proj2 (count_stored N d s k Hinv)). destruct b.
    - by destruct Hb as (? & _).
    - destruct Hb as [? _]. split; [done|]. intros Hn. by destruct Hn. }
  unfold size. destruct b.
  - destruct Hb as (_ & _ & ->). lia.
  - destruct Hb as [_ ->]. lia.
Qed.

Lemma insert_then_lookup_witness :
  ∃ it b s', insert 1 (state_after 1 [OpInsert 5; OpInsert 3; OpInsert 8]%Z) 4%Z
             = Some (it, b, s') ∧ reachable 1 s' ∧
    ADS_count s' 4%Z = Some 1 ∧ Iterator_deref (heap s') it = Some 4%Z ∧
    (∀ k', k' ≠ 4%Z →
       ADS_count s' k'
       = ADS_count (state_after 1 [OpInsert 5; OpInsert 3; OpInsert 8]%Z) k') ∧
    (b = true ↔
     ADS_count (state_after 1 [OpInsert 5; OpInsert 3; OpInsert 8]%Z) 4%Z = Some 0) ∧
    size s' = size (state_after 1 [OpInsert 5; OpInsert 3; OpInsert 8]%Z)
              + (if b then 1 else 0).
Proof.
  apply (insert_then_lookup 1); [lia|].
  eapply reachable_state_after. vm_compute. reflexivity.
Defined.

(** [erase(k)] on a reachable container: afterwards [count(k)] is 0 and
    [find(k)] is the end iterator, the count of every other key is as
    before, the value returned is what [count(k)] was, and [size()] fell by
    it. The container reached is reachable. *)
Theorem erase_then_lookup (N : nat) (s : ADS_set) (k : key_type) :
  0 < N → reachable N s →
  ∃ r s', erase N s k = Some (r, s') ∧ reachable N s' ∧
    ADS_count s' k = Some 0 ∧ ADS_find s' k = Some (end_ s') ∧
    (∀ k', k' ≠ k → ADS_count s' k' = ADS_count s k') ∧
    ADS_count s k = Some r ∧ size s' + r = size s.
Proof.
  intros HN Hreach. pose proof Hreach as [d Hinv]%(reachable_Inv N HN).
  destruct (erase_ok N HN d s k Hinv) as (r & s' & d' & Herase & Hinv' & Hr).
  pose proof (stored_NoDup N d s Hinv) as Hnd.
  exists r, s'. split; [done|].
  split. { apply (reachable_step N s (OpErase k)); [done|]. simpl. by rewrite Herase. }
  assert (Hout : k ∉ stored s').
  { case_bool_decide as Hk.
    - destruct Hr as (_ & Hkeys & _). rewrite (keys_del_elem _ _ _ _ Hnd Hkeys). tauto.
    - by destruct Hr as [_ ->]. }
  split; [by apply (count_stored N d' s' k Hinv')|].
  split.
  { destruct (find_total N d' s' k Hinv') as (it & -> & Hmiss & _). by rewrite Hmiss. }
  split.
  { intros k' Hne. rewrite (count_total N d' s' k' Hinv'), (count_total N d s k' Hinv).
    f_equal. case_bool_decide as Hk.
    - destruct Hr as (_ & Hkeys & _).
      rewrite (bool_decide_ext _ (k' ∈ stored s)); [done|].
      rewrite (keys_del_elem _ _ _ _ Hnd Hkeys). naive_solver.
    - by destruct Hr as [_ ->]. }
  rewrite (count_total N d s k Hinv). unfold size. case_bool_decide.
  - destruct Hr as (-> & _ & Hsz). split; [done|]. lia.
  - destruct Hr as [-> ->]. split; [done|]. lia.
Qed.

Lemma erase_then_lookup_witness :
  ∃ r s', erase 1 (state_after 1 [OpInsert 5; OpInsert 3; OpInsert 8]%Z) 3%Z
          = Some (r, s') ∧ reachable 1 s' ∧
    ADS_count s' 3%Z = Some 0 ∧ ADS_find s' 3%Z = Some (end_ s') ∧
    (∀ k', k' ≠ 3%Z →
       ADS_count s' k'
       = ADS_count (state_after 1 [OpInsert 5; OpInsert 3; OpInsert 8]%Z) k') ∧
    ADS_count (state_after 1 [OpInsert 5; OpInsert 3; OpInsert 8]%Z) 3%Z = Some r ∧
    size s' + r = size (state_after 1 [OpInsert 5; OpInsert 3; OpInsert 8]%Z).
Proof.
  apply (erase_then_lookup 1); [lia|].
  eapply reachable_state_after. vm_compute. reflexivity.
Defined.

(** * Sequences of operations and the set they denote *)

Section refinement.
Context (N : nat) (HN : 0 < N).

Lemma step_abstraction d s o (S : gset Z) :
  Inv_at N d s → (∀ k, k ∈ stored s ↔ k ∈ S) →
  ∃ s' d', step N s o = Some s' ∧ Inv_at N d' s' ∧
    ∀ k, k ∈ stored s' ↔ k ∈ set_step S o.
Proof.
  intros Hinv Habs. destruct o as [k|k|]; simpl.
  - destruct (insert_ok N HN d s k Hinv) as (it & b & s' & d' & -> & Hinv' & _ & Hb).
    exists s', d'. split; [done|]. split; [done|]. intros x. destruct b.
    + destruct Hb as (_ & Hkeys & _). rewrite (keys_ins_elem _ _ _ _ Hkeys), Habs.
      set_solver.
    + destruct Hb as [Hk ->]. apply Habs in Hk. rewrite Habs. set_solver.
  - destruct (erase_ok N HN d s k Hinv) as (r & s' & d' & -> & Hinv' & Hr).
    exists s', d'. split; [done|]. split; [done|]. intros x.
    pose proof (stored_NoDup N d s Hinv) as Hnd.
    case_bool_decide as Hk.
    + destruct Hr as (_ & Hkeys & _). rewrite (keys_del_elem _ _ _ _ Hnd Hkeys), Habs.
      set_solver.
    + destruct Hr as [_ ->]. rewrite Habs in Hk. rewrite Habs. set_solver.
  - destruct (clear_ok N HN d s Hinv) as (s' & -> & Hinv' & Hstored).
    exists s', 0. split; [done|]. split; [done|]. intros x. rewrite Hstored.
    set_solver.
Qed.

Lemma run_abstraction ops : ∀ d s (S : gset Z),
  Inv_at N d s → (∀ k, k ∈ stored s ↔ k ∈ S) →
  ∃ s' d', run N s ops = Some s' ∧ Inv_at N d' s' ∧
    ∀ k, k ∈ stored s' ↔ k ∈ foldl set_step S ops.
Proof.
  induction ops as [|o ops IH]; intros d s S Hinv Habs; simpl.
  - by exists s, d.
  - destruct (step_abstraction d s o S Hinv Habs) as (s1 & d1 & -> & Hinv1 & Habs1).
    simpl. by eapply IH.
Qed.

Lemma stored_new : stored ADS_set_new = [].
Proof.
  pose proof (Inv_new N HN) as [_ _ _ _ _ Hsize]. simpl in Hsize.
  by destruct (stored ADS_set_new).
Qed.

Lemma abstraction_size d s (S : gset Z) :
  Inv_at N d s → (∀ k, k ∈ stored s ↔ k ∈ S) → size s = base.size S.
Proof.
  intros Hinv Habs. pose proof (stored_NoDup N d s Hinv) as Hnd.
  destruct Hinv as [_ _ _ _ _ Hsize]. unfold size. rewrite Hsize.
  rewrite <- (size_list_to_set (C := gset Z) (stored s) Hnd). f_equal.
  apply set_eq. intros x. by rewrite elem_of_list_to_set, Habs.
Qed.

End refinement.

(** Any sequence of inserts, erases and clears on a new container is
    defined and leaves a container that stands for the set the sequence
    denotes: [size()] is the size of the set, [count] is its membership
    test, and a walk from [begin()] to [end()] lists its elements in
    increasing order. *)
Theorem operations_denote_set (N : nat) (ops : list Op) :
  0 < N →
  ∃ s, run N ADS_set_new ops = Some s ∧ size s = base.size (set_run ops) ∧
    (∀ k, ADS_count s k = Some (if bool_decide (k ∈ set_run ops) then 1 else 0)) ∧
    ∃ l, traverse (size s) s = Some l ∧ StronglySorted Z.lt l ∧
      list_to_set l = set_run ops.
Proof.
  intros HN.
  destruct (run_abstraction N HN ops 0 ADS_set_new ∅ (Inv_new N HN))
    as (s & d & Hrun & Hinv & Habs).
  { intros k. rewrite (stored_new N HN). set_solver. }
  exists s. split; [done|]. split; [by eapply abstraction_size|]. split.
  { intros k. rewrite (count_total N d s k Hinv).
    by rewrite (bool_decide_ext _ _ (Habs k)). }
  exists (stored s). split; [by eapply traverse_ok|]. split.
  { destruct Hinv as [Hsh Hs _ _ _ _]. by eapply sorted_keys. }
  apply set_eq. intros x. by rewrite elem_of_list_to_set, Habs.
Qed.

Lemma operations_denote_set_witness :
  ∃ s, run 1 ADS_set_new [OpInsert 5; OpInsert 3; OpErase 5; OpInsert 8; OpClear;
                          OpInsert 2; OpInsert 2; OpErase 7]%Z = Some s ∧
    size s = base.size (set_run [OpInsert 5; OpInsert 3; OpErase 5; OpInsert 8; OpClear;
                                 OpInsert 2; OpInsert 2; OpErase 7]%Z) ∧
    (∀ k, ADS_count s k
          = Some (if bool_decide
                       (k ∈ set_run [OpInsert 5; OpInsert 3; OpErase 5; OpInsert 8;
                                     OpClear; OpInsert 2; OpInsert 2; OpErase 7]%Z)
                  then 1 else 0)) ∧
    ∃ l, traverse (size s) s = Some l ∧ StronglySorted Z.lt l ∧
      list_to_set l = set_run [OpInsert 5; OpInsert 3; OpErase 5; OpInsert 8; OpClear;
                               OpInsert 2; OpInsert 2; OpErase 7]%Z.
Proof. apply (operations_denote_set 1). lia. Defined.

(** * Lists of keys *)

Lemma insert_list_run N (l : list key_type) : ∀ s,
  insert_list N s l = run N s (OpInsert <$> l).
Proof.
  induction l as [|k l IH]; intros s; [done|].
  simpl. destruct (insert N s k) as [[[it b] s']|]; [|done]. simpl. apply IH.
Qed.

Lemma foldl_set_step_inserts (l : list key_type) : ∀ S : gset Z,
  foldl set_step S (OpInsert <$> l) = S ∪ list_to_set l.
Proof.
  induction l as [|k l IH]; intros S; simpl; [set_solver|].
  rewrite IH. set_solver.
Qed.

Lemma reachable_run N s ops s' :
  reachable N s → run N s ops = Some s' → reachable N s'.
Proof.
  intros [ops0 Hrun0] Hrun. exists (ops0 ++ ops). by rewrite run_app, Hrun0.
Qed.

(** [insert(ilist)] on a reachable container adds exactly the keys of the
    list; the constructor from a list builds the container of exactly its
    keys, of as many elements as the list has different keys; and
    [operator=(ilist)] leaves exactly the keys of the list, whatever the
    container held. *)
Theorem insert_list_adds_keys (N : nat) (s : ADS_set) (l : list key_type) :
  0 < N → reachable N s →
  (∃ s', insert_list N s l = Some s' ∧ reachable N s' ∧
     ∀ k, ADS_count s' k = Some 1 ↔ k ∈ l ∨ ADS_count s k = Some 1) ∧
  (∃ s', ADS_set_of_list N l = Some s' ∧ reachable N s' ∧
     (∀ k, ADS_count s' k = Some 1 ↔ k ∈ l) ∧
     size s' = base.size (list_to_set l : gset Z)) ∧
  (∃ s', assign_list N s l = Some s' ∧ reachable N s' ∧
     ∀ k, ADS_count s' k = Some 1 ↔ k ∈ l).
Proof.
  intros HN Hreach. pose proof Hreach as [d Hinv]%(reachable_Inv N HN).
  assert (Hlist : ∀ d s (S : gset Z), reachable N s → Inv_at N d s →
            (∀ k, k ∈ stored s ↔ k ∈ S) →
            ∃ s', insert_list N s l = Some s' ∧ reachable N s' ∧
              size s' = base.size (S ∪ list_to_set l) ∧
              ∀ k, ADS_count s' k = Some 1 ↔ k ∈ l ∨ k ∈ S).
  { intros d0 s0 S Hreach0 Hinv0 Habs.
    destruct (run_abstraction N HN (OpInsert <$> l) d0 s0 S Hinv0 Habs)
      as (s' & d' & Hrun & Hinv' & Habs').
    rewrite foldl_set_step_inserts in Habs'.
    exists s'. split; [by rewrite insert_list_run|].
    split; [by eapply reachable_run|].
    split; [by eapply abstraction_size|].
    intros k. rewrite (proj1 (count_stored N d' s' k Hinv')), Habs'.
    rewrite elem_of_union, elem_of_list_to_set. tauto. }
  split; [|split].
  - destruct (Hlist d s (list_to_set (stored s)) Hreach Hinv)
      as (s' & Hs' & Hreach' & _ & Hcount).
    { intros k. by rewrite elem_of_list_to_set. }
    exists s'. split; [done|]. split; [done|]. intros k.
    rewrite Hcount, elem_of_list_to_set, (proj1 (count_stored N d s k Hinv)). done.
  - destruct (Hlist 0 ADS_set_new ∅) as (s' & Hs' & Hreach' & Hsize & Hcount).
    { by exists []. }
    { by apply Inv_new. }
    { intros k. rewrite (stored_new N HN). set_solver. }
    exists s'. split; [done|]. split; [done|]. split.
    + intros k. rewrite Hcount. set_solver.
    + rewrite Hsize. f_equal. set_solver.
  - destruct (clear_ok N HN d s Hinv) as (sc & Hclear & Hinvc & Hstored).
    destruct (Hlist 0 sc ∅) as (s' & Hs' & Hreach' & _ & Hcount).
    { apply (reachable_step N s OpClear); done. }
    { done. }
    { intros k. rewrite Hstored. set_solver. }
    exists s'. unfold assign_list. rewrite Hclear. simpl.
    split; [done|]. split; [done|]. intros k. rewrite Hcount. set_solver.
Qed.

Lemma insert_list_adds_keys_witness :
  (∃ s', insert_list 1 (state_after 1 [OpInsert 5; OpInsert 3]%Z) [8; 3; 1; 8]%Z
         = Some s' ∧ reachable 1 s' ∧
     ∀ k, ADS_count s' k = Some 1 ↔
          k ∈ [8; 3; 1; 8]%Z ∨
          ADS_count (state_after 1 [OpInsert 5; OpInsert 3]%Z) k = Some 1) ∧
  (∃ s', ADS_set_of_list 1 [8; 3; 1; 8]%Z = Some s' ∧ reachable 1 s' ∧
     (∀ k, ADS_count s' k = Some 1 ↔ k ∈ [8; 3; 1; 8]%Z) ∧
     size s' = base.size (list_to_set [8; 3; 1; 8]%Z : gset Z)) ∧
  (∃ s', assign_list 1 (state_after 1 [OpInsert 5; OpInsert 3]%Z) [8; 3; 1; 8]%Z
         = Some s' ∧ reachable 1 s' ∧
     ∀ k, ADS_count s' k = Some 1 ↔ k ∈ [8; 3; 1; 8]%Z).
Proof.
  apply (insert_list_adds_keys 1); [lia|].
  eapply reachable_state_after. vm_compute. reflexivity.
Defined.

(** * Comparison and copies *)

Lemma sorted_ext (l1 l2 : list Z) :
  StronglySorted Z.lt l1 → StronglySorted Z.lt l2 →
  (∀ x, x ∈ l1 ↔ x ∈ l2) → l1 = l2.
Proof.
  intros Hs1. revert l2. induction Hs1 as [|x l1 Hs1 IH Hall1]; intros l2 Hs2 Hext.
  - destruct l2 as [|y l2]; [done|]. exfalso.
    apply (not_elem_of_nil y), Hext. by left.
  - destruct Hs2 as [|y l2 Hs2 Hall2].
    { exfalso. apply (not_elem_of_nil x), Hext. by left. }
    rewrite Forall_forall in Hall1, Hall2.
    assert (x = y) as <-.
    { assert (Hx : x ∈ y :: l2) by (apply Hext; by left).
      assert (Hy : y ∈ x :: l1) by (apply Hext; by left).
      apply elem_of_cons in Hx as [?|Hx]; [done|].
      apply elem_of_cons in Hy as [?|Hy]; [done|].
      specialize (Hall1 y Hy). specialize (Hall2 x Hx). lia. }
    f_equal. apply IH; [done|]. intros z. split; intros Hz.
    + assert (Hz' : z ∈ x :: l2) by (apply Hext; by right).
      apply elem_of_cons in Hz' as [->|?]; [|done].
      specialize (Hall1 x Hz). lia.
    + assert (Hz' : z ∈ x :: l1) by (apply Hext; by right).
      apply elem_of_cons in Hz' as [->|?]; [|done].
      specialize (Hall2 x Hz). lia.
Qed.

Lemma iterate_nil_end fuel h it : iterate fuel h it Iterator_end = Some [] → it = Iterator_end.
Proof.
  destruct fuel; simpl; case_bool_decide; try done.
  destruct (Iterator_deref h it); [|done]. simpl.
  destruct (Iterator_incr h it); [|done]. simpl.
  by destruct (iterate fuel h _ _).
Qed.

Lemma iterate_cons fuel h it k rest :
  iterate fuel h it Iterator_end = Some (k :: rest) →
  ∃ fuel' next, fuel = S fuel' ∧ it ≠ Iterator_end ∧ Iterator_deref h it = Some k ∧
    Iterator_incr h it = Some next ∧ iterate fuel' h next Iterator_end = Some rest.
Proof.
  destruct fuel; simpl; case_bool_decide; try done.
  destruct (Iterator_deref h it) as [k'|]; [|done]. simpl.
  destruct (Iterator_incr h it) as [next|]; [|done]. simpl.
  destruct (iterate fuel h next Iterator_end) as [rest'|] eqn:Hrest; [|done]. simpl.
  intros [= -> ->]. by exists fuel, next.
Qed.

(** The loop of [operator==] along two walks of the same length. *)
Lemma equal_loop_iterate : ∀ fuel h rh lit rit la lb,
  iterate fuel h lit Iterator_end = Some la →
  iterate fuel rh rit Iterator_end = Some lb → length la = length lb →
  equal_loop fuel h rh lit rit = Some (bool_decide (la = lb)).
Proof.
  induction fuel as [|fuel IH]; intros h rh lit rit la lb Ha Hb Hlen.
  all: destruct la as [|x la].
  all: try (apply iterate_nil_end in Ha as ->; destruct lb; [|discriminate Hlen];
            simpl; rewrite ?bool_decide_true by done; done).
  - by apply iterate_cons in Ha as (f1 & lit' & [=] & _).
  - destruct lb as [|y lb]; [discriminate Hlen|].
    apply iterate_cons in Ha as (f1 & lit' & [= <-] & Hne & Hx & Hlit' & Ha).
    apply iterate_cons in Hb as (f2 & rit' & [= <-] & _ & Hy & Hrit' & Hb).
    cbn [equal_loop]. rewrite bool_decide_false by done.
    rewrite Hx, Hy. simpl. case_bool_decide as Hxy.
    + subst y. rewrite Hlit', Hrit'. simpl.
      rewrite (IH _ _ _ _ la lb) by (done || (simpl in Hlen; lia)).
      f_equal. apply bool_decide_ext. naive_solver.
    + f_equal. symmetry. apply bool_decide_false. naive_solver.
Qed.

Lemma same_counts_stored N d1 d2 a b :
  Inv_at N d1 a → Inv_at N d2 b →
  (∀ k, ADS_count a k = ADS_count b k) ↔ stored a = stored b.
Proof.
  intros Ha Hb. split.
  - intros Hc. apply sorted_ext.
    + destruct Ha as [Hsh Hs _ _ _ _]. by eapply sorted_keys.
    + destruct Hb as [Hsh Hs _ _ _ _]. by eapply sorted_keys.
    + intros k. rewrite <- (proj1 (count_stored N d1 a k Ha)).
      rewrite <- (proj1 (count_stored N d2 b k Hb)). by rewrite Hc.
  - intros Heq k. by rewrite (count_total N d1 a k Ha), (count_total N d2 b k Hb), Heq.
Qed.

(** [operator==] on two well-formed containers compares the lists of their
    keys. *)
Lemma ADS_eq_stored N (HN : 0 < N) d1 d2 a b fuel :
  Inv_at N d1 a → Inv_at N d2 b → sz a ≤ fuel →
  ADS_eq fuel a b = Some (bool_decide (stored a = stored b)).
Proof.
  intros Ha Hb Hfuel. unfold ADS_eq. case_bool_decide as Hsz.
  - rewrite bool_decide_false; [done|]. intros Heq. apply Hsz.
    destruct Ha as [_ _ _ _ _ ->]. destruct Hb as [_ _ _ _ _ ->]. by rewrite Heq.
  - apply equal_loop_iterate.
    + by apply (traverse_ok N HN d1 a fuel).
    + apply (traverse_ok N HN d2 b fuel); [done|]. lia.
    + destruct Ha as [_ _ _ _ _ Ha]. destruct Hb as [_ _ _ _ _ Hb]. lia.
Qed.

(** [operator==] on two reachable containers (given steps enough for
    [size()] elements) returns [true] exactly when [count] agrees on every
    key, and [operator!=] returns the opposite. *)
Theorem equality_compares_keys (N : nat) (a b : ADS_set) (fuel : nat) :
  0 < N → reachable N a → reachable N b → size a ≤ fuel →
  ∃ r, ADS_eq fuel a b = Some r ∧ ADS_neq fuel a b = Some (negb r) ∧
    (r = true ↔ ∀ k, ADS_count a k = ADS_count b k).
Proof.
  intros HN [d1 Ha]%(reachable_Inv N HN) [d2 Hb]%(reachable_Inv N HN) Hfuel.
  unfold ADS_neq. rewrite (ADS_eq_stored N HN d1 d2 a b fuel Ha Hb Hfuel).
  eexists. split; [done|]. split; [done|].
  by rewrite bool_decide_eq_true, (same_counts_stored N d1 d2 a b Ha Hb).
Qed.

Lemma equality_compares_keys_witness :
  ∃ r, ADS_eq 3 (state_after 1 [OpInsert 5; OpInsert 3; OpInsert 8]%Z)
              (state_after 1 [OpInsert 8; OpInsert 1; OpInsert 5; OpInsert 3;
                              OpErase 1]%Z) = Some r ∧
    ADS_neq 3 (state_after 1 [OpInsert 5; OpInsert 3; OpInsert 8]%Z)
              (state_after 1 [OpInsert 8; OpInsert 1; OpInsert 5; OpInsert 3;
                              OpErase 1]%Z) = Some (negb r) ∧
    (r = true ↔
     ∀ k, ADS_count (state_after 1 [OpInsert 5; OpInsert 3; OpInsert 8]%Z) k
          = ADS_count (state_after 1 [OpInsert 8; OpInsert 1; OpInsert 5; OpInsert 3;
                                      OpErase 1]%Z) k).
Proof.
  apply (equality_compares_keys 1); [lia| | |vm_compute; lia].
  - eapply reachable_state_after. vm_compute. reflexivity.
  - eapply reachable_state_after. vm_compute. reflexivity.
Defined.

(** The loop of [insert(first, last)] over another container: the keys the
    walk reads are inserted one after the other. *)
Lemma insert_range_iterate N : ∀ fuel (objs : objects) i j first ks t o,
  i ≠ j → objs !! i = Some t → objs !! j = Some o →
  iterate fuel (heap o) first Iterator_end = Some ks →
  insert_range N fuel objs i j first Iterator_end
  = t' ← insert_list N t ks; Some (<[i := t']> objs).
Proof.
  induction fuel as [|fuel IH]; intros objs i j first ks t o Hij Hi Hj Hit.
  all: destruct ks as [|k ks].
  all: try (apply iterate_nil_end in Hit as ->; simpl;
            rewrite ?bool_decide_true by done; by rewrite insert_id).
  - by apply iterate_cons in Hit as (f1 & next & [=] & _).
  - apply iterate_cons in Hit as (f1 & next & [= <-] & Hne & Hk & Hnext & Hit).
    cbn [insert_range insert_list]. rewrite bool_decide_false by done.
    rewrite Hj. simpl. rewrite Hk. simpl. rewrite Hi. simpl.
    destruct (insert N t k) as [[[it b] t1]|]; [|done]. simpl.
    rewrite lookup_insert_ne, Hj by done. simpl. rewrite Hnext. simpl.
    rewrite (IH _ i j next ks t1 o); [|done|by rewrite lookup_insert_eq
                                      |by rewrite lookup_insert_ne|done].
    destruct (insert_list N t1 ks); [|done]. simpl. by rewrite insert_insert_eq.
Qed.

Lemma copy_of_keys N (HN : 0 < N) d t o :
  reachable N t → Inv_at N d t → stored t = [] → reachable N o →
  ∃ t', insert_list N t (stored o) = Some t' ∧ reachable N t' ∧
    stored t' = stored o ∧ size t' = size o ∧
    ∀ k, ADS_count t' k = ADS_count o k.
Proof.
  intros Hreach Hinv Hempty Hreach_o.
  pose proof Hreach_o as [d2 Hinv_o]%(reachable_Inv N HN).
  destruct (run_abstraction N HN (OpInsert <$> stored o) d t ∅ Hinv)
    as (t' & d' & Hrun & Hinv' & Habs).
  { intros k. rewrite Hempty. set_solver. }
  rewrite foldl_set_step_inserts in Habs.
  assert (Hstored : stored t' = stored o).
  { apply sorted_ext.
    - destruct Hinv' as [Hsh Hs _ _ _ _]. by eapply sorted_keys.
    - destruct Hinv_o as [Hsh Hs _ _ _ _]. by eapply sorted_keys.
    - intros k. rewrite Habs. set_solver. }
  exists t'. split; [by rewrite insert_list_run|].
  split; [exact (reachable_run N t _ t' Hreach Hrun)|]. split; [done|]. split.
  - destruct Hinv' as [_ _ _ _ _ Hs']. destruct Hinv_o as [_ _ _ _ _ Hso].
    unfold size. by rewrite Hs', Hso, Hstored.
  - by apply (same_counts_stored N d' d2).
Qed.

(** [operator=(const ADS_set &)] between two different reachable
    containers (given steps enough for the source's [size()] elements):
    the destination ends with the keys of the source, equal to it under
    [operator==], and the source is as it was. *)
Theorem assignment_copies_keys (N : nat) (objs : objects) (i j : nat)
    (t o : ADS_set) (fuel : nat) :
  0 < N → i ≠ j → objs !! i = Some t → objs !! j = Some o →
  reachable N t → reachable N o → size o ≤ fuel →
  ∃ t', assign N fuel objs i j = Some (<[i := t']> objs) ∧
    (<[i := t']> objs) !! j = Some o ∧ reachable N t' ∧ size t' = size o ∧
    (∀ k, ADS_count t' k = ADS_count o k) ∧ ADS_eq fuel t' o = Some true.
Proof.
  intros HN Hij Hi Hj Hreach_t Hreach_o Hfuel.
  pose proof Hreach_t as [d Hinv]%(reachable_Inv N HN).
  pose proof Hreach_o as [d2 Hinv_o]%(reachable_Inv N HN).
  destruct (clear_ok N HN d t Hinv) as (tc & Hclear & Hinvc & Hstored).
  destruct (copy_of_keys N HN 0 tc o) as (t' & Hlist & Hreach' & Hst & Hsize & Hcount);
    [by apply (reachable_step N t OpClear)|done|done|done|].
  exists t'. unfold assign. rewrite Hi. simpl. rewrite Hclear. simpl.
  rewrite lookup_insert_ne, Hj by done. simpl. unfold end_.
  rewrite (insert_range_iterate N fuel _ i j (begin o) (stored o) tc o);
    [|done|by rewrite lookup_insert_eq|by rewrite lookup_insert_ne
     |by apply (traverse_ok N HN d2 o fuel)].
  rewrite Hlist. simpl. rewrite insert_insert_eq.
  split; [done|]. split; [by rewrite lookup_insert_ne|]. split; [done|].
  split; [done|]. split; [done|].
  pose proof Hreach' as [d' Hinv']%(reachable_Inv N HN).
  rewrite (ADS_eq_stored N HN d' d2 t' o fuel Hinv' Hinv_o) by (unfold size in *; lia).
  by rewrite bool_decide_true.
Qed.

Lemma assignment_copies_keys_witness :
  ∃ t', assign 1 3 two_places 0 1 = Some (<[0 := t']> two_places) ∧
    (<[0 := t']> two_places) !! 1 = Some three_keys ∧
    reachable 1 t' ∧ size t' = size three_keys ∧
    (∀ k, ADS_count t' k = ADS_count three_keys k) ∧
    ADS_eq 3 t' three_keys = Some true.
Proof.
  apply (assignment_copies_keys 1 two_places 0 1
           (state_after 1 [OpInsert 7; OpInsert 9]%Z) three_keys 3).
  - lia.
  - lia.
  - reflexivity.
  - reflexivity.
  - eapply reachable_state_after. vm_compute. reflexivity.
  - eapply reachable_state_after. vm_compute. reflexivity.
  - vm_compute. lia.
Defined.

(** [ADS_set(const ADS_set &other)] at a place other than that of a
    reachable [other] (given steps enough for its [size()] elements): the
    new container holds the keys of [other], which is as it was. *)
Theorem copy_constructor_copies_keys (N : nat) (objs : objects) (i j : nat)
    (o : ADS_set) (fuel : nat) :
  0 < N → i ≠ j → objs !! j = Some o → reachable N o → size o ≤ fuel →
  ∃ t', copy_construct N fuel objs i j = Some (<[i := t']> objs) ∧
    (<[i := t']> objs) !! j = Some o ∧ reachable N t' ∧ size t' = size o ∧
    (∀ k, ADS_count t' k = ADS_count o k) ∧ ADS_eq fuel t' o = Some true.
Proof.
  intros HN Hij Hj Hreach_o Hfuel.
  pose proof Hreach_o as [d2 Hinv_o]%(reachable_Inv N HN).
  destruct (copy_of_keys N HN 0 ADS_set_new o)
    as (t' & Hlist & Hreach' & Hst & Hsize & Hcount);
    [by exists []|by apply Inv_new|exact (stored_new N HN)|done|].
  exists t'. unfold copy_construct. simpl.
  rewrite lookup_insert_ne, Hj by done. simpl. unfold end_.
  rewrite (insert_range_iterate N fuel _ i j (begin o) (stored o) ADS_set_new o);
    [|done|by rewrite lookup_insert_eq|by rewrite lookup_insert_ne
     |by apply (traverse_ok N HN d2 o fuel)].
  rewrite Hlist. simpl. rewrite insert_insert_eq.
  split; [done|]. split; [by rewrite lookup_insert_ne|]. split; [done|].
  split; [done|]. split; [done|].
  pose proof Hreach' as [d' Hinv']%(reachable_Inv N HN).
  rewrite (ADS_eq_stored N HN d' d2 t' o fuel Hinv' Hinv_o) by (unfold size in *; lia).
  by rewrite bool_decide_true.
Qed.

Lemma copy_constructor_copies_keys_witness :
  ∃ t', copy_construct 1 3 one_place 0 1 = Some (<[0 := t']> one_place) ∧
    (<[0 := t']> one_place) !! 1 = Some three_keys ∧
    reachable 1 t' ∧ size t' = size three_keys ∧
    (∀ k, ADS_count t' k = ADS_count three_keys k) ∧
    ADS_eq 3 t' three_keys = Some true.
Proof.
  apply (copy_constructor_copies_keys 1 one_place 0 1 three_keys 3).
  - lia.
  - lia.
  - reflexivity.
  - eapply reachable_state_after. vm_compute. reflexivity.
  - vm_compute. lia.
Defined.

(** * Insertion undone by removal *)

Lemma split_around_unique (a b a' b' : list Z) (k : Z) :
  NoDup (a ++ k :: b) → a ++ k :: b = a' ++ k :: b' → a = a' ∧ b = b'.
Proof.
  revert a'. induction a as [|x a IH]; intros [|x' a'] Hnd Heq; simpl in *.
  - by injection Heq as <-.
  - injection Heq as <- Heq. apply NoDup_cons in Hnd as [Hk _].
    exfalso. apply Hk. rewrite Heq, elem_of_app. right. by left.
  - injection Heq as -> Heq. apply NoDup_cons in Hnd as [Hk _].
    exfalso. apply Hk. rewrite elem_of_app. right. by left.
  - injection Heq as <- Heq. apply NoDup_cons in Hnd as [_ Hnd].
    destruct (IH a' Hnd Heq) as [-> ->]. done.
Qed.

(** On a reachable container, [insert(k)] of a new key followed by
    [erase(k)] gives back the keys there were: the same [size()], and the
    same walk from [begin()] to [end()]. *)
Theorem insert_then_erase_restores (N : nat) (s : ADS_set) (k : key_type)
    (fuel : nat) :
  0 < N → reachable N s → ADS_count s k = Some 0 → size s ≤ fuel →
  ∃ it s1 s2, insert N s k = Some (it, true, s1) ∧ erase N s1 k = Some (1, s2) ∧
    size s2 = size s ∧ traverse fuel s2 = traverse fuel s ∧
    ∀ k', ADS_count s2 k' = ADS_count s k'.
Proof.
  intros HN [d Hinv]%(reachable_Inv N HN) Hcount Hfuel.
  apply (count_stored N d s k Hinv) in Hcount.
  destruct (insert_ok N HN d s k Hinv) as (it & b & s1 & d1 & Hins & Hinv1 & _ & Hb).
  destruct b; [|by destruct Hb]. destruct Hb as (_ & Hkeys & Hsz1).
  destruct (erase_ok N HN d1 s1 k Hinv1) as (r & s2 & d2 & Herase & Hinv2 & Hr).
  rewrite bool_decide_true in Hr by (apply (keys_ins_elem _ _ _ _ Hkeys); by left).
  destruct Hr as (-> & Hdel & Hsz2).
  assert (Hstored : stored s2 = stored s).
  { destruct Hkeys as (a & b & Hs & Hs1). destruct Hdel as (a' & b' & Hs2 & Hs1').
    destruct (split_around_unique a b a' b' k) as [-> ->]; [| |congruence].
    - rewrite <- Hs1. by eapply stored_NoDup.
    - by rewrite <- Hs1, <- Hs1'. }
  exists it, s1, s2. split; [done|]. split; [done|].
  split; [unfold size in *; lia|]. split.
  - rewrite (traverse_ok N HN d2 s2 fuel Hinv2) by (unfold size in *; lia).
    rewrite (traverse_ok N HN d s fuel Hinv) by done. by rewrite Hstored.
  - by apply (same_counts_stored N d2 d).
Qed.

Lemma insert_then_erase_restores_witness :
  ∃ it s1 s2,
    insert 1 (state_after 1 [OpInsert 5; OpInsert 3; OpInsert 8]%Z) 4%Z
    = Some (it, true, s1) ∧ erase 1 s1 4%Z = Some (1, s2) ∧
    size s2 = size (state_after 1 [OpInsert 5; OpInsert 3; OpInsert 8]%Z) ∧
    traverse 3 s2 = traverse 3 (state_after 1 [OpInsert 5; OpInsert 3; OpInsert 8]%Z) ∧
    ∀ k', ADS_count s2 k'
          = ADS_count (state_after 1 [OpInsert 5; OpInsert 3; OpInsert 8]%Z) k'.
Proof.
  apply (insert_then_erase_restores 1); [lia| |vm_compute; reflexivity|vm_compute; lia].
  eapply reachable_state_after. vm_compute. reflexivity.
Defined.

(** * The form of the tree *)

Lemma length_bind_bounds {A B} (f : A → list B) (l : list A) (lo hi : nat) :
  Forall (λ x, lo ≤ length (f x) ≤ hi) l →
  length l * lo ≤ length (l ≫= f) ≤ length l * hi.
Proof.
  induction 1 as [|x l Hx _ IH]; [done|].
  rewrite bind_cons, length_app. simpl. lia.
Qed.

Lemma shape_leaf_depths N h d mn mx n :
  shape N h d mn mx n → Forall (λ x, x = d) (leaf_depths n).
Proof.
  revert mn mx n. induction d as [|d IH]; intros mn mx n.
  - rewrite shape_leaf. intros (a & l & -> & _). by apply Forall_singleton.
  - rewrite shape_node. intros (vals & cs & -> & _ & _ & Hall).
    cbn [leaf_depths]. apply Forall_fmap, Forall_bind.
    eapply Forall_impl; [exact Hall|]. intros c Hc. simpl.
    eapply Forall_impl; [exact (IH _ _ _ Hc)|]. by intros x ->.
Qed.

Lemma shape_keys_bounds N h d n :
  shape N h d N (N * 2) n →
  N * (N + 1) ^ d ≤ length (keys h n) ≤ N * 2 * (N * 2 + 1) ^ d.
Proof.
  revert n. induction d as [|d IH]; intros n.
  - rewrite shape_leaf. intros (a & l & -> & Hl & Hsz).
    rewrite keys_External. unfold vals_at. rewrite Hl. simpl. lia.
  - rewrite shape_node. intros (vals & cs & -> & Hlen & Hsz & Hall).
    rewrite keys_Internal.
    pose proof (length_bind_bounds (keys h) cs (N * (N + 1) ^ d)
                  (N * 2 * (N * 2 + 1) ^ d)) as Hb.
    destruct Hb as [Hlo Hhi].
    { eapply Forall_impl; [exact Hall|]. intros c Hc. by apply IH. }
    rewrite !Nat.pow_succ_r'. split; [|nia].
    etrans; [|exact Hlo]. nia.
Qed.

(** The tree of a reachable container is balanced and dense: every leaf
    lies at the same depth [d] below the root, the height being [d + 1];
    a tree with internal nodes holds at least [2 N (N + 1)^(d - 1)] keys,
    and any tree at most [2 N (2 N + 1)^d]. *)
Theorem reachable_tree_balanced (N : nat) (s : ADS_set) :
  0 < N → reachable N s →
  ∃ d, height (root s) = S d ∧ Forall (λ x, x = d) (leaf_depths (root s)) ∧
    (0 < d → N * 2 * (N + 1) ^ (d - 1) ≤ size s) ∧
    size s ≤ N * 2 * (N * 2 + 1) ^ d.
Proof.
  intros HN [d [Hsh _ _ _ _ Hsize]]%(reachable_Inv N HN).
  exists d. split; [by eapply shape_height|].
  split; [by eapply shape_leaf_depths|].
  unfold size. rewrite Hsize. unfold stored. clear Hsize.
  destruct d as [|d].
  - split; [lia|]. apply shape_leaf in Hsh as (a & l & Hr & Hl & Hsz).
    rewrite Hr, keys_External. unfold vals_at. rewrite Hl. simpl in *. lia.
  - apply shape_node in Hsh as (vals & cs & Hr & Hlen & Hsz & Hall).
    rewrite Hr, keys_Internal.
    destruct (length_bind_bounds (keys (heap s)) cs (N * (N + 1) ^ d)
                (N * 2 * (N * 2 + 1) ^ d)) as [Hlo Hhi].
    { eapply Forall_impl; [exact Hall|]. intros c Hc. by apply shape_keys_bounds. }
    simpl in Hsz. replace (S d - 1) with d by lia. rewrite Nat.pow_succ_r'.
    split; [intros _|]; nia.
Qed.

Lemma reachable_tree_balanced_witness :
  ∃ d, height (root three_keys) = S d ∧
    Forall (λ x, x = d) (leaf_depths (root three_keys)) ∧
    (0 < d → 1 * 2 * (1 + 1) ^ (d - 1) ≤ size three_keys) ∧
    size three_keys ≤ 1 * 2 * (1 * 2 + 1) ^ d.
Proof.
  apply (reachable_tree_balanced 1 three_keys); [lia|].
  eapply reachable_state_after. vm_compute. reflexivity.
Defined.

(** * The list of leaves *)

Lemma chain_lookup h : ∀ (L : list addr) prev next i a,
  chain h prev L next → L !! i = Some a →
  ∃ l, h !! a = Some l ∧
    left_neighbour l = match i with O => prev | S j => L !! j end ∧
    right_neighbour l = from_option Some next (L !! S i).
Proof.
  induction L as [|b L IH]; intros prev next i a Hc Hi; [done|].
  destruct Hc as (l & Hl & Hleft & Hright & Hc). destruct i as [|i].
  - injection Hi as <-. exists l. split; [done|]. split; [done|].
    rewrite Hright. by destruct L.
  - destruct (IH (Some b) next i a Hc Hi) as (l' & Hl' & Hleft' & Hright').
    exists l'. split; [done|]. split; [|done].
    rewrite Hleft'. by destruct i.
Qed.

(** In a reachable container the doubly linked list of leaves is the row
    of leaves of the tree, from left to right: [left_leaf] is the first
    leaf, no leaf occurs twice, every leaf is allocated, its
    [left_neighbour] is the leaf before it and its [right_neighbour] the
    leaf after it, null at the two ends. *)
Theorem leaf_list_follows_tree (N : nat) (s : ADS_set) :
  0 < N → reachable N s →
  left_leaf s = leaves (root s) !! 0 ∧ NoDup (leaves (root s)) ∧
  ∀ i a, leaves (root s) !! i = Some a →
    ∃ l, heap s !! a = Some l ∧
      left_neighbour l = match i with O => None | S j => leaves (root s) !! j end ∧
      right_neighbour l = leaves (root s) !! S i.
Proof.
  intros HN [d [_ _ Hc Hnd Hleft _]]%(reachable_Inv N HN).
  split; [by rewrite Hleft, head_lookup|]. split; [done|].
  intros i a Hi. destruct (chain_lookup _ _ _ _ i a Hc Hi) as (l & Hl & Hlf & Hrt).
  exists l. split; [done|]. split; [done|]. rewrite Hrt.
  by destruct (leaves (root s) !! S i).
Qed.

Lemma leaf_list_follows_tree_witness :
  left_leaf three_keys = leaves (root three_keys) !! 0 ∧
  NoDup (leaves (root three_keys)) ∧
  ∀ i a, leaves (root three_keys) !! i = Some a →
    ∃ l, heap three_keys !! a = Some l ∧
      left_neighbour l
      = match i with O => None | S j => leaves (root three_keys) !! j end ∧
      right_neighbour l = leaves (root three_keys) !! S i.
Proof.
  apply (leaf_list_follows_tree 1 three_keys); [lia|].
  eapply reachable_state_after. vm_compute. reflexivity.
Defined.

(** * The first key *)

(** On a reachable container, [begin()] is [end()] exactly when the
    container is empty, and then [count] is 0 for every key; otherwise
    [*begin()] is a key of the container, and the least one. *)
Theorem begin_is_least (N : nat) (s : ADS_set) :
  0 < N → reachable N s →
  if empty s then begin s = end_ s ∧ ∀ k, ADS_count s k = Some 0
  else begin s ≠ end_ s ∧
    ∃ m, Iterator_deref (heap s) (begin s) = Some m ∧ ADS_count s m = Some 1 ∧
      ∀ k, ADS_count s k = Some 1 → (m ≤ k)%Z.
Proof.
  intros HN [d Hinv]%(reachable_Inv N HN).
  pose proof (traverse_ok N HN d s (sz s) Hinv (le_n _)) as Htr.
  pose proof Hinv as [Hsh Hs _ _ _ Hsize].
  pose proof (sorted_keys N _ _ _ _ _ Hsh Hs) as Hsorted. fold (stored s) in Hsorted.
  unfold empty. case_bool_decide as Hz.
  - split; [unfold begin; by rewrite bool_decide_true|].
    intros k. apply (count_stored N d s k Hinv).
    rewrite Hz in Hsize. destruct (stored s); [|done]. apply not_elem_of_nil.
  - destruct (stored s) as [|m rest] eqn:Hst; [simpl in Hsize; lia|].
    unfold traverse, end_ in Htr.
    apply iterate_cons in Htr as (f & next & _ & Hne & Hderef & _).
    split; [done|]. exists m. split; [done|]. split.
    + apply (count_stored N d s m Hinv). rewrite Hst. by left.
    + intros k Hk%(count_stored N d s k Hinv). rewrite Hst in Hk.
      apply StronglySorted_inv in Hsorted as [_ Hall].
      apply elem_of_cons in Hk as [->|Hk]; [lia|].
      rewrite Forall_forall in Hall. specialize (Hall k Hk). lia.
Qed.

Lemma begin_is_least_witness :
  if empty three_keys then begin three_keys = end_ three_keys ∧
                           ∀ k, ADS_count three_keys k = Some 0
  else begin three_keys ≠ end_ three_keys ∧
    ∃ m, Iterator_deref (heap three_keys) (begin three_keys) = Some m ∧
      ADS_count three_keys m = Some 1 ∧
      ∀ k, ADS_count three_keys k = Some 1 → (m ≤ k)%Z.
Proof.
  apply (begin_is_least 1 three_keys); [lia|].
  eapply reachable_state_after. vm_compute. reflexivity.
Defined.

(** * [clear] *)

(** [clear()] on a reachable container is defined and leaves a reachable
    container without keys: [size()] is 0, [empty()] holds, [begin()] is
    [end()], [count] is 0 for every key, and the root is one empty leaf at
    which [left_leaf] points. *)
Theorem clear_leaves_empty (N : nat) (s : ADS_set) :
  0 < N → reachable N s →
  ∃ s' a, clear s = Some s' ∧ reachable N s' ∧ size s' = 0 ∧ empty s' = true ∧
    begin s' = end_ s' ∧ (∀ k, ADS_count s' k = Some 0) ∧
    root s' = External a ∧ left_leaf s' = Some a ∧
    heap s' !! a = Some (mkExternal [] None None).
Proof.
  intros HN Hreach. pose proof Hreach as [d Hinv]%(reachable_Inv N HN).
  destruct (clear_ok N HN d s Hinv) as (s' & Hclear & Hinv' & Hst).
  pose proof Hclear as Hc. unfold clear in Hc.
  destruct (delete_node (root s) (heap s)) as [h|]; [|done]. simpl in Hc.
  injection Hc as <-. eexists _, (fresh (dom h)). split; [done|].
  split. { apply (reachable_step N s OpClear); [done|]. simpl. by rewrite Hclear. }
  split; [done|]. split; [done|]. split; [done|].
  split; [|split; [done|split; [done|simpl; by rewrite lookup_insert_eq]]].
  intros k. apply (count_stored N 0 _ k Hinv'). rewrite Hst. apply not_elem_of_nil.
Qed.

Lemma clear_leaves_empty_witness :
  ∃ s' a, clear three_keys = Some s' ∧ reachable 1 s' ∧ size s' = 0 ∧
    empty s' = true ∧ begin s' = end_ s' ∧ (∀ k, ADS_count s' k = Some 0) ∧
    root s' = External a ∧ left_leaf s' = Some a ∧
    heap s' !! a = Some (mkExternal [] None None).
Proof.
  apply (clear_leaves_empty 1 three_keys); [lia|].
  eapply reachable_state_after. vm_compute. reflexivity.
Defined.

(** * [split] on an internal child, and [merge] *)

(** [split(pos)] on an internal child of [2N + 1] keys and [2N + 2]
    children: the child keeps its first [N] keys and [N + 1] children, a new
    internal node gets the last [N] keys and [N + 1] children and becomes
    child [pos + 1], and the middle key moves up into the parent at [pos]: it
    stays in neither half. No leaf is touched. *)
Theorem split_internal_child (N : nat) (vals : list key_type) (cs : list Node)
    (pos : nat) (cv : list key_type) (cc : list Node) (h : store) :
  cs !! pos = Some (Internal cv cc) →
  length cv = 2 * N + 1 → length cc = S (length cv) →
  ∃ k, cv !! N = Some k ∧
    split (Internal vals cs) pos h
    = Some (Internal (insert_at pos k vals)
                     (insert_at (S pos) (Internal (drop (S N) cv) (drop (S N) cc))
                                (<[pos := Internal (take N cv) (take (S N) cc)]> cs)),
            h) ∧
    cv = take N cv ++ k :: drop (S N) cv ∧ cc = take (S N) cc ++ drop (S N) cc ∧
    length (take N cv) = N ∧ length (take (S N) cc) = N + 1 ∧
    length (drop (S N) cv) = N ∧ length (drop (S N) cc) = N + 1.
Proof.
  intros Hc Hcv Hcc.
  destruct (lookup_lt_is_Some_2 cv N) as [k Hk]; [lia|].
  exists k. split; [done|]. split.
  - unfold split. rewrite Hc. simpl.
    unfold split_internal. rewrite Hcv, half_odd, Hk. simpl.
    rewrite (mapM_ext (λ i, cv !! (i + N + 1)) (λ e, cv !! (e + S N)))
      by (intros; f_equal; lia).
    rewrite (mapM_ext (λ i, cc !! (i + N + 1)) (λ e, cc !! (e + S N)))
      by (intros; f_equal; lia).
    rewrite !mapM_lookup_seq by lia. simpl.
    by rewrite !take_ge by (rewrite length_drop; lia).
  - split; [by rewrite take_drop_middle|]. split; [by rewrite take_drop|].
    rewrite !length_take, !length_drop. lia.
Qed.

Lemma split_internal_child_witness :
  ∃ k, wide_child_keys !! 1 = Some k ∧
    split wide_parent 0 ∅
    = Some (Internal (insert_at 0 k [])
                     (insert_at 1 (Internal (drop 2 wide_child_keys)
                                            (drop 2 wide_child_children))
                                (<[0 := Internal (take 1 wide_child_keys)
                                                 (take 2 wide_child_children)]>
                                   [Internal wide_child_keys wide_child_children])),
            ∅) ∧
    wide_child_keys = take 1 wide_child_keys ++ k :: drop 2 wide_child_keys ∧
    wide_child_children = take 2 wide_child_children ++ drop 2 wide_child_children ∧
    length (take 1 wide_child_keys) = 1 ∧ length (take 2 wide_child_children) = 1 + 1 ∧
    length (drop 2 wide_child_keys) = 1 ∧ length (drop 2 wide_child_children) = 1 + 1.
Proof.
  apply (split_internal_child 1 [] [Internal wide_child_keys wide_child_children] 0
           wide_child_keys wide_child_children ∅); reflexivity.
Defined.

(** [merge(pos)] on a parent whose child at [pos] has fallen to [N - 1]
    keys among well-formed siblings: it is defined, the parent keeps its
    keys or loses one separator, every child holds between [N] and [2N]
    keys again, and the keys below, their order and the list of leaves read
    as before, within the same surroundings. *)
Theorem merge_restores_fill (N : nat) (h : store) (d : nat) (vals : list key_type)
    (csA : list Node) (c : Node) (csB : list Node) (tp tq : list Z)
    (lp lq : list positive) :
  0 < N → length (csA ++ c :: csB) = S (length vals) → 1 ≤ length vals →
  shape N h d (N - 1) (N - 1) c →
  Forall (shape N h d N (N * 2)) csA → Forall (shape N h d N (N * 2)) csB →
  in_ctx h (Internal vals (csA ++ c :: csB)) tp tq lp lq →
  ∃ vals' cs' h',
    merge N (Internal vals (csA ++ c :: csB)) (length csA) h
    = Some (Internal vals' cs', h') ∧
    length cs' = S (length vals') ∧
    (length vals' = length vals ∨ S (length vals') = length vals) ∧
    Forall (shape N h' d N (N * 2)) cs' ∧
    in_ctx h' (Internal vals' cs') tp tq lp lq ∧
    keys h' (Internal vals' cs') = keys h (Internal vals (csA ++ c :: csB)) ∧
    head (leaves (Internal vals' cs')) = head (leaves (Internal vals (csA ++ c :: csB))) ∧
    same_keys h h' (lp ++ lq).
Proof.
  intros HN Hlen Hvals Hc HcsA HcsB Hctx.
  destruct (merge_ok N HN h d vals csA c csB tp tq lp lq)
    as (act & n' & h' & k & _ & Hmerge & Hk & Hmerged & _); try done.
  destruct Hmerged as ((vals' & cs' & -> & Hlv & Hlc & Hall) & Hctx' & Hkeys & Hhead & Hsame).
  exists vals', cs', h'. split; [done|]. split; [lia|]. split; [lia|]. done.
Qed.

Lemma merge_restores_fill_witness :
  ∃ vals' cs' h',
    merge 1 (Internal [2; 3]%Z ([External 1%positive] ++ External 2%positive
                                  :: [External 3%positive]))
          (length [External 1%positive]) tie_store
    = Some (Internal vals' cs', h') ∧
    length cs' = S (length vals') ∧
    (length vals' = length [2; 3]%Z ∨ S (length vals') = length [2; 3]%Z) ∧
    Forall (shape 1 h' 0 1 (1 * 2)) cs' ∧
    in_ctx h' (Internal vals' cs') [] [] [] [] ∧
    keys h' (Internal vals' cs')
    = keys tie_store (Internal [2; 3]%Z ([External 1%positive] ++ External 2%positive
                                           :: [External 3%positive])) ∧
    head (leaves (Internal vals' cs'))
    = head (leaves (Internal [2; 3]%Z ([External 1%positive] ++ External 2%positive
                                         :: [External 3%positive]))) ∧
    same_keys tie_store h' ([] ++ []).
Proof.
  apply (merge_restores_fill 1 tie_store 0 [2; 3]%Z [External 1%positive]
           (External 2%positive) [External 3%positive] [] [] [] []).
  - lia.
  - reflexivity.
  - simpl. lia.
  - apply (leaf_of_size 1 tie_store 2%positive
             (mkExternal [] (Some 1%positive) (Some 3%positive)));
      [reflexivity|simpl; lia].
  - apply Forall_cons. split; [|apply Forall_nil_2].
    apply (leaf_of_size 1 tie_store 1%positive
             (mkExternal [0; 1]%Z None (Some 2%positive)));
      [reflexivity|simpl; lia].
  - apply Forall_cons. split; [|apply Forall_nil_2].
    apply (leaf_of_size 1 tie_store 3%positive
             (mkExternal [3; 4]%Z (Some 2%positive) None));
      [reflexivity|simpl; lia].
  - split; [|split].
    + vm_compute. repeat constructor.
    + vm_compute. eexists. split; [reflexivity|]. split; [reflexivity|].
      split; [reflexivity|]. eexists. split; [reflexivity|]. split; [reflexivity|].
      split; [reflexivity|]. eexists. split; [reflexivity|]. done.
    + refine (bool_decide_unpack _ _). vm_compute. exact I.
Defined.

(** * Walking on from [find] *)

(** [find] ends in the leaf that holds the key, at the index of the key. *)
Lemma find_position N d : ∀ n mn mx h e tp tq,
  shape N h d mn mx n → StronglySorted Z.lt (tp ++ trace h n ++ tq) →
  Forall (λ x, x < kcode e)%Z tp → Forall (λ x, kcode e < x)%Z tq →
  kcode e ∈ trace h n →
  ∃ a l i L1 L2, find n e h = Some (mkIterator (Some a) i) ∧
    leaves n = L1 ++ a :: L2 ∧ h !! a = Some l ∧ values l !! i = Some e.
Proof.
  induction d as [|d IH]; intros n mn mx h e tp tq Hsh Hs Htp Htq He.
  { apply shape_leaf in Hsh as (a & l & -> & Hl & Hsz).
    assert (Hva : vals_at h a = values l) by (unfold vals_at; by rewrite Hl).
    rewrite trace_External, Hva in *.
    assert (HsV : StronglySorted Z.lt (values l)).
    { apply sorted_fmap_kcode.
      by eapply StronglySorted_app_1_l, StronglySorted_app_1_r. }
    rewrite find_External, Hl. simpl.
    destruct (External_find_spec a l e HsV) as (it & -> & _ & Hin).
    apply list_elem_of_fmap in He as (x & Hx%kcode_inj & Hx'). subst x.
    destruct (Hin Hx') as (i & -> & Hi).
    exists a, l, i, [], []. by rewrite leaves_External. }
  apply shape_node in Hsh as (vals & cs & -> & Hlen & Hsz & Hall).
  pose proof (find_pos_before h vals cs e tp tq Hlen Hs Htp) as Hbefore.
  pose proof (find_pos_after h vals cs e tp tq Hlen Hs Htq) as Hafter.
  rewrite find_Internal.
  pose proof (first_greater_le e vals) as Hpos. fold (Internal_find_pos vals e) in Hpos.
  remember (Internal_find_pos vals e) as pos eqn:Hpos_def. clear Hpos_def.
  destruct (lookup_lt_is_Some_2 cs pos) as [c Hc]; [lia|].
  rewrite Hc. simpl.
  destruct (split_at cs pos c Hc) as (cs1 & cs2 & -> & Hlen1).
  assert (∃ vs1 vs2, vals = vs1 ++ vs2 ∧ length vs1 = pos) as (vs1 & vs2 & -> & Hlen2).
  { exists (take pos vals), (drop pos vals). rewrite take_drop, length_take.
    split; [done|lia]. }
  rewrite !take_app_length', !drop_app_length' in * by lia.
  rewrite drop_middle_S in Hafter by lia.
  apply Forall_app in Hall as (Hcs1 & [Hcsh Hcs2]%Forall_cons).
  apply (not_in_parent_trace h vs1 vs2 cs1 c cs2 tp tq (kcode e)
           ltac:(lia) Hbefore Hafter) in He.
  rewrite trace_Internal_middle in Hs by lia.
  destruct (IH c N (N * 2) h e (tp ++ pre (trace h <$> cs1) (scode <$> vs1))
              (weave (scode <$> vs2) (trace h <$> cs2) ++ tq) Hcsh)
    as (a & l & i & L1 & L2 & Hfind & Hleaves & Hl & Hi); [|done|done|done|].
  { eapply sorted_eq; [|exact Hs]. by norm_list. }
  exists a, l, i, ((cs1 ≫= leaves) ++ L1), (L2 ++ (cs2 ≫= leaves)).
  split; [done|]. split; [|done].
  rewrite leaves_Internal_middle, Hleaves. by norm_list.
Qed.

Lemma Inv_leaves_filled N (HN : 0 < N) d s :
  Inv_at N d s → sz s ≠ 0 →
  Forall (λ x, vals_at (heap s) x ≠ []) (leaves (root s)).
Proof.
  intros [Hsh _ _ _ _ Hsize] Hz. destruct d.
  - pose proof Hsh as (a & l & Hr & Hl & _)%shape_leaf.
    rewrite Hr, leaves_External. apply Forall_singleton.
    unfold stored in Hsize. rewrite Hr, keys_External in Hsize.
    intros Hnil. rewrite Hnil in Hsize. simpl in Hsize. lia.
  - eapply shape_leaves_filled; [exact HN|exact Hsh|done].
Qed.

(** On a reachable container, the iterator [find(k)] returns for a key of
    the container can be walked on to [end()]: the walk reads [k] and then
    exactly the keys that follow [k] in the walk from [begin()], the keys
    greater than [k] in increasing order. *)
Theorem find_then_walk (N : nat) (s : ADS_set) (k : key_type) (fuel : nat) :
  0 < N → reachable N s → ADS_count s k = Some 1 → size s ≤ fuel →
  ∃ it before after, ADS_find s k = Some it ∧
    traverse fuel s = Some (before ++ k :: after) ∧
    iterate fuel (heap s) it (end_ s) = Some (k :: after) ∧
    Forall (λ x, (x < k)%Z) before ∧ Forall (λ x, (k < x)%Z) after.
Proof.
  intros HN [d Hinv]%(reachable_Inv N HN) Hcount Hfuel.
  apply (count_stored N d s k Hinv) in Hcount.
  pose proof Hinv as [Hsh Hs Hc Hnd Hleft Hsize].
  pose proof (sorted_keys N _ _ _ _ _ Hsh Hs) as Hsorted. fold (stored s) in Hsorted.
  assert (Hz : sz s ≠ 0).
  { intros Hz. rewrite Hz in Hsize. destruct (stored s); [|done].
    by apply elem_of_nil in Hcount. }
  pose proof (Inv_leaves_filled N HN d s Hinv Hz) as Hfilled.
  destruct (find_position N d (root s) _ _ (heap s) k [] [] Hsh)
    as (a & l & i & L1 & L2 & Hfind & Hleaves & Hl & Hi);
    [by rewrite app_nil_r|done|done
    |by apply (trace_keys_elem N _ _ _ _ _ _ Hsh)|].
  assert (Hva : vals_at (heap s) a = values l) by (unfold vals_at; by rewrite Hl).
  assert (Hst : stored s = (keys_of (heap s) L1 ++ take i (values l))
                           ++ k :: (drop (S i) (values l) ++ keys_of (heap s) L2)).
  { unfold stored. rewrite keys_keys_of, Hleaves, keys_of_app, keys_of_cons, Hva.
    rewrite <- (take_drop_middle (values l) i k Hi) at 1. by norm_list. }
  exists (mkIterator (Some a) i), (keys_of (heap s) L1 ++ take i (values l)),
         (drop (S i) (values l) ++ keys_of (heap s) L2).
  split; [done|]. split; [by rewrite (traverse_ok N HN d s fuel Hinv Hfuel), Hst|].
  rewrite Hst in Hsorted.
  apply StronglySorted_app in Hsorted as (Hcross & _ & Hafter).
  apply StronglySorted_inv in Hafter as [_ Hafter].
  split; [|split; [|done]].
  - rewrite Hleaves in Hc, Hfilled.
    apply chain_app in Hc as [_ Hc]. apply Forall_app in Hfilled as [_ Hfilled].
    pose proof (lookup_lt_Some _ _ _ Hi) as Hlt.
    assert (Hlen : length (stored s)
                   = length (keys_of (heap s) L1) + length (values l)
                     + length (keys_of (heap s) L2)).
    { unfold stored. rewrite keys_keys_of, Hleaves, keys_of_app, keys_of_cons, Hva.
      rewrite !length_app. lia. }
    unfold size in Hfuel. unfold end_.
    rewrite (iterate_leaf N HN (heap s) a l fuel i Hl Hlt) by lia.
    destruct Hc as (l' & Hl' & _ & Hright & Hc). rewrite Hl in Hl'. injection Hl' as <-.
    rewrite Hright, (drop_S _ _ _ Hi).
    destruct L2 as [|b L2]; simpl.
    + fold Iterator_end. rewrite iterate_end. simpl. by rewrite !app_nil_r.
    + apply Forall_cons in Hfilled as [_ Hfilled].
      rewrite (iterate_chain N HN (heap s) L2 (Some a) b); [done|done|done|].
      lia.
  - rewrite Forall_forall. intros x Hx. apply (Hcross x k); [done|by left].
Qed.

Lemma find_then_walk_witness :
  ∃ it before after, ADS_find three_keys 5%Z = Some it ∧
    traverse 3 three_keys = Some (before ++ 5%Z :: after) ∧
    iterate 3 (heap three_keys) it (end_ three_keys) = Some (5%Z :: after) ∧
    Forall (λ x, (x < 5)%Z) before ∧ Forall (λ x, (5 < x)%Z) after.
Proof.
  apply (find_then_walk 1 three_keys 5%Z 3);
    [lia| |vm_compute; reflexivity|vm_compute; lia].
  eapply reachable_state_after. vm_compute. reflexivity.
Defined.


#[local] Arguments Nat.div : simpl never.
#[local] Arguments mapM : simpl never.
#[local] Arguments seq : simpl never.
#[local] Arguments insert_at : simpl never.
#[local] Arguments shift_down : simpl never.
#[local] Arguments split_external : simpl never.
#[local] Arguments split_internal : simpl never.
#[local] Arguments split : simpl never.
#[local] Arguments trace : simpl never.
#[local] Arguments leaves : simpl never.
#[local] Arguments shape : simpl never.
#[local] Arguments add_elem : simpl never.
#[local] Arguments remove_elem : simpl never.
#[local] Arguments find : simpl never.
#[local] Arguments count : simpl never.
#[local] Arguments delete_node : simpl never.
#[local] Arguments merge : simpl never.

(** * No leaf is lost *)

Lemma footprint_intro h h' n n' :
  (∀ x, is_Some (h' !! x) → is_Some (h !! x) ∨ x ∈ leaves n') →
  (∀ x, is_Some (h' !! x) → x ∈ leaves n → x ∈ leaves n') →
  footprint h h' n n'.
Proof.
  intros H1 H2 x Hx. destruct (decide (x ∈ leaves n')) as [|Hn]; [by left|].
  right. destruct (H1 x Hx) as [Hh|]; [|done]. split; [done|].
  intros Hin. by apply Hn, H2.
Qed.

Lemma footprint_same_leaves h h' n n' :
  leaves n' = leaves n → (∀ x, is_Some (h' !! x) → is_Some (h !! x)) →
  footprint h h' n n'.
Proof.
  intros Hl Hd. apply footprint_intro; [auto|]. intros x _. by rewrite Hl.
Qed.

Lemma footprint_trans h1 h2 h3 n1 n2 n3 :
  footprint h1 h2 n1 n2 → footprint h2 h3 n2 n3 → footprint h1 h3 n1 n3.
Proof.
  intros H12 H23 x Hx. destruct (H23 x Hx) as [|[Hx2 Hn2]]; [by left|].
  destruct (H12 x Hx2) as [|]; [done|by right].
Qed.

Lemma footprint_child h h' vals vals' (cs1 : list Node) c c' cs2 :
  footprint h h' c c' →
  footprint h h' (Internal vals (cs1 ++ c :: cs2)) (Internal vals' (cs1 ++ c' :: cs2)).
Proof.
  intros H x Hx. rewrite !leaves_Internal_middle, !elem_of_app.
  destruct (decide (x ∈ cs1 ≫= leaves)); [tauto|].
  destruct (decide (x ∈ cs2 ≫= leaves)); [tauto|].
  destruct (H x Hx) as [|[? ?]]; tauto.
Qed.

Lemma footprint_pair h h' vals vals' (cs1 : list Node) L R F cs2 :
  (∀ x, is_Some (h' !! x) → is_Some (h !! x)) →
  (∀ x, is_Some (h' !! x) → x ∈ leaves L ++ leaves R → x ∈ leaves F) →
  footprint h h' (Internal vals (cs1 ++ L :: R :: cs2))
            (Internal vals' (cs1 ++ F :: cs2)).
Proof.
  intros Hd Hl. apply footprint_intro; [auto|]. intros x Hx.
  rewrite leaves_Internal_pair, leaves_Internal_middle, !elem_of_app.
  specialize (Hl x Hx). rewrite elem_of_app in Hl. tauto.
Qed.

Lemma is_Some_insert_alloc (h : store) a v x :
  is_Some (h !! a) → is_Some (<[a := v]> h !! x) → is_Some (h !! x).
Proof. rewrite lookup_insert_is_Some. intros Ha [<-|[_ ?]]; done. Qed.

(** The next step of a computation in the option monad is defined, since
    the whole is. *)
Ltac bind_step H x :=
  match type of H with
  | (?t ≫= _) = Some _ => destruct t as [x|] eqn:?; [|done]; simpl in H
  end.
Ltac bind_step_eq H x Hx :=
  match type of H with
  | (?t ≫= _) = Some _ => destruct t as [x|] eqn:Hx; [|done]; simpl in H
  end.

Section footprints.
Context (N : nat) (HN : 0 < N).

(** [split] adds the new leaf to the store and to the tree. *)
Lemma split_footprint h d vals (cs1 : list Node) c cs2 n' h' :
  shape N h d (N * 2 + 1) (N * 2 + 1) c →
  split (Internal vals (cs1 ++ c :: cs2)) (length cs1) h = Some (n', h') →
  footprint h h' (Internal vals (cs1 ++ c :: cs2)) n'.
Proof.
  intros Hc Heq. unfold split in Heq. rewrite lookup_middle_eq in Heq by done.
  simpl in Heq. destruct d.
  - apply shape_leaf in Hc as (a & l & -> & Hl & Hsz).
    unfold split_external in Heq. rewrite Hl in Heq. simpl in Heq.
    destruct (mapM _ _) as [rvals|]; [|done]. simpl in Heq.
    set (r := fresh (dom h)) in *.
    destruct (right_neighbour l) as [b|]; simpl in Heq.
    + destruct (_ !! b) as [nb|] eqn:Hb; [|done]. simpl in Heq.
      bind_step Heq child. bind_step Heq k.
      injection Heq as <- <-. rewrite insert_at_middle_S by done.
      apply footprint_intro.
      * intros x. rewrite leaves_Internal_pair, !leaves_External, !elem_of_app.
        rewrite !lookup_insert_is_Some. intros Hx.
        assert (is_Some (h !! b) ∨ b = r) as Hb'.
        { apply mk_is_Some in Hb. rewrite !lookup_insert_is_Some in Hb.
          destruct Hb as [<-|[_ [<-|[_ ?]]]]; eauto. }
        destruct (decide (x = r)) as [->|]; [right; right; right; left; by left|]. left.
        destruct Hx as [<-|[_ [<-|[_ [<-|[_ [<-|[_ ?]]]]]]]]; try done.
        by destruct Hb'.
      * intros x _. rewrite leaves_Internal_pair, leaves_Internal_middle, !elem_of_app.
        tauto.
    + bind_step Heq child. bind_step Heq k.
      injection Heq as <- <-. rewrite insert_at_middle_S by done.
      apply footprint_intro.
      * intros x. rewrite leaves_Internal_pair, !leaves_External, !elem_of_app.
        rewrite !lookup_insert_is_Some. intros Hx.
        destruct (decide (x = r)) as [->|]; [right; right; right; left; by left|]. left.
        destruct Hx as [<-|[_ [<-|[_ [<-|[_ ?]]]]]]; done.
      * intros x _. rewrite leaves_Internal_pair, leaves_Internal_middle, !elem_of_app.
        tauto.
  - apply shape_node in Hc as (cv & cc & -> & Hcc & Hcv & _).
    assert (Hlen : length cv = 2 * N + 1) by lia.
    destruct (lookup_lt_is_Some_2 cv N) as [k Hk]; [lia|].
    unfold split_internal in Heq. rewrite Hlen, half_odd, Hk in Heq. simpl in Heq.
    rewrite (mapM_ext (λ i, cv !! (i + N + 1)) (λ e, cv !! (e + S N))) in Heq
      by (intros; f_equal; lia).
    rewrite (mapM_ext (λ i, cc !! (i + N + 1)) (λ e, cc !! (e + S N))) in Heq
      by (intros; f_equal; lia).
    rewrite !mapM_lookup_seq in Heq by lia. simpl in Heq.
    rewrite !take_ge in Heq by (rewrite length_drop; lia).
    injection Heq as <- <-.
    rewrite list_insert_at_middle, insert_at_middle_S by done.
    apply footprint_same_leaves; [|done].
    rewrite leaves_Internal_pair, leaves_Internal_middle, !leaves_Internal.
    f_equal. rewrite app_assoc. f_equal.
    by rewrite <- bind_app, take_drop.
Qed.

(** [add_elem] *)
Lemma add_elem_footprint d : ∀ n mn h e tp tq lp lq msg n' h',
  shape N h d mn (N * 2) n → in_ctx h n tp tq lp lq →
  Forall (λ x, x < kcode e)%Z tp → Forall (λ x, kcode e < x)%Z tq →
  add_elem N n e h = Some (msg, n', h') → footprint h h' n n'.
Proof.
  induction d as [|d IH]; intros n mn h e tp tq lp lq msg n' h' Hsh Hctx Htp Htq Heq.
  { apply shape_leaf in Hsh as (a & l & -> & Hl & Hsz).
    rewrite add_elem_External, Hl in Heq. simpl in Heq.
    destruct (External_add_elem N l e) as [[m l']|]; [|done]. simpl in Heq.
    injection Heq as <- <- <-.
    apply footprint_same_leaves; [done|]. intros x. by apply is_Some_insert_alloc. }
  apply shape_node in Hsh as (vals & cs & -> & Hlen & Hsz & Hall).
  pose proof (find_pos_before h vals cs e tp tq Hlen (proj1 Hctx) Htp) as Hbefore.
  pose proof (find_pos_after h vals cs e tp tq Hlen (proj1 Hctx) Htq) as Hafter.
  rewrite add_elem_Internal in Heq.
  pose proof (first_greater_le e vals) as Hpos. fold (Internal_find_pos vals e) in Hpos.
  remember (Internal_find_pos vals e) as pos eqn:Hpos_def. clear Hpos_def.
  destruct (lookup_lt_is_Some_2 cs pos) as [c Hc]; [lia|].
  rewrite Hc in Heq. simpl in Heq.
  destruct (split_at cs pos c Hc) as (cs1 & cs2 & -> & Hlen1).
  assert (∃ vs1 vs2, vals = vs1 ++ vs2 ∧ length vs1 = pos) as (vs1 & vs2 & -> & Hlen2).
  { exists (take pos vals), (drop pos vals). rewrite take_drop, length_take.
    split; [done|lia]. }
  rewrite !take_app_length', !drop_app_length' in * by lia.
  rewrite drop_middle_S in Hafter by lia.
  apply Forall_app in Hall as (Hcs1 & [Hcsh Hcs2]%Forall_cons).
  pose proof Hctx as Hctx_c. apply in_ctx_child in Hctx_c; [|lia].
  destruct (add_elem_ok N HN d c N h e _ _ _ _ Hcsh Hctx_c Hbefore Hafter)
    as (msg1 & c' & h1 & Hadd & _ & Hmsg).
  pose proof (IH c N h e _ _ _ _ msg1 c' h1 Hcsh Hctx_c Hbefore Hafter Hadd) as Hfp.
  rewrite Hadd in Heq. simpl in Heq. rewrite list_insert_at_middle in Heq by lia.
  assert (Hfp1 : footprint h h1 (Internal (vs1 ++ vs2) (cs1 ++ c :: cs2))
                   (Internal (vs1 ++ vs2) (cs1 ++ c' :: cs2)))
    by (by apply footprint_child).
  destruct msg1.
  - rewrite bool_decide_false in Heq by done. by injection Heq as <- <- <-.
  - rewrite bool_decide_false in Heq by done. by injection Heq as <- <- <-.
  - rewrite bool_decide_true in Heq by done.
    destruct Hmsg as (_ & Hc' & _).
    destruct (split _ _ _) as [[n2 h2]|] eqn:Hsplit; [|done]. simpl in Heq.
    bind_step Heq k. injection Heq as <- <- <-.
    eapply footprint_trans; [exact Hfp1|].
    rewrite <- Hlen1 in Hsplit. by eapply split_footprint.
Qed.

(** The blocks of [merge] *)
Lemma move_from_right_footprint h vals (cs1 : list Node) L R cs2 n' h' :
  move_from_right vals (cs1 ++ L :: R :: cs2) (length cs1) h = Some (n', h') →
  footprint h h' (Internal vals (cs1 ++ L :: R :: cs2)) n'.
Proof.
  unfold move_from_right.
  rewrite (lookup_middle_eq cs1 (R :: cs2) L (length cs1)) by done. simpl.
  rewrite (lookup_middle_S cs1 cs2 L R (length cs1 + 1)) by lia. simpl.
  intros Heq. destruct L as [|a|cv cc], R as [|b|rv rc]; try done.
  - bind_step_eq Heq c Hc. bind_step_eq Heq s Hs. bind_step Heq x. bind_step Heq y.
    injection Heq as <- <-. apply footprint_same_leaves; [done|].
    intros z. rewrite !lookup_insert_is_Some. intros [<-|[_ [<-|[_ ?]]]]; eauto.
  - bind_step Heq v. bind_step Heq r0. bind_step_eq Heq c0 Hc0.
    injection Heq as <- <-.
    rewrite (list_insert_at_middle cs1) by done.
    rewrite (list_insert_at_middle_S cs1) by lia.
    apply footprint_same_leaves; [|done].
    rewrite !leaves_Internal_pair, !leaves_Internal. f_equal.
    destruct rc as [|c1 rc]; [done|]. injection Hc0 as ->.
    change (drop 1 (c0 :: rc)) with rc.
    rewrite bind_app, !bind_cons. change ([] ≫= leaves) with (@nil positive).
    by rewrite app_nil_r, <- !app_assoc.
Qed.

Lemma move_from_left_footprint h vals (cs1 : list Node) L R cs2 n' h' :
  (∀ lv lc, L = Internal lv lc → length lc = S (length lv)) →
  move_from_left vals (cs1 ++ L :: R :: cs2) (S (length cs1)) h = Some (n', h') →
  footprint h h' (Internal vals (cs1 ++ L :: R :: cs2)) n'.
Proof.
  intros HL. unfold move_from_left. simpl.
  rewrite (lookup_middle_S cs1 cs2 L R (S (length cs1))) by lia. simpl.
  rewrite (lookup_middle_eq cs1 (R :: cs2) L (length cs1)) by done. simpl.
  intros Heq. destruct R as [|a|cv cc], L as [|b|lv lc]; try done.
  - bind_step_eq Heq c Hc. bind_step_eq Heq s Hs. bind_step Heq x.
    injection Heq as <- <-. apply footprint_same_leaves; [done|].
    intros z. rewrite !lookup_insert_is_Some. intros [<-|[_ [<-|[_ ?]]]]; eauto.
  - bind_step Heq v. bind_step Heq l_last. bind_step_eq Heq c_last Hlast.
    injection Heq as <- <-.
    rewrite (list_insert_at_middle_S cs1) by lia.
    rewrite (list_insert_at_middle cs1) by done.
    apply footprint_same_leaves; [|done].
    rewrite !leaves_Internal_pair, !leaves_Internal. f_equal.
    specialize (HL lv lc eq_refl).
    rewrite <- (take_drop (length lv) lc) at 2.
    rewrite (drop_S lc c_last (length lv) Hlast).
    rewrite (drop_ge lc (S (length lv))) by lia.
    rewrite bind_app, !bind_cons. change ([] ≫= leaves) with (@nil positive).
    by rewrite app_nil_r, <- !app_assoc.
Qed.

Lemma fuse_footprint (L R F : Node) v h h' :
  fuse L R v h = Some (F, h') →
  (∀ x, is_Some (h' !! x) → is_Some (h !! x)) ∧
  (∀ x, is_Some (h' !! x) → x ∈ leaves L ++ leaves R → x ∈ leaves F).
Proof.
  unfold fuse. intros Heq. destruct L as [|b|dv dc], R as [|a|sv sc]; try done.
  - destruct (fuse_external b a h) as [h1|] eqn:Hfuse; [|done]. simpl in Heq.
    injection Heq as <- <-. unfold fuse_external in Hfuse.
    bind_step_eq Hfuse d Hd. bind_step_eq Hfuse s Hs.
    bind_step_eq Hfuse h3 Hh3. bind_step Hfuse y. injection Hfuse as <-.
    assert (∀ x, is_Some (h3 !! x) → is_Some (h !! x)) as Hdom3.
    { destruct (right_neighbour s) as [c|]; simpl in Hh3.
      - bind_step_eq Hh3 nb Hnb. injection Hh3 as <-.
        apply mk_is_Some in Hnb. rewrite lookup_insert_is_Some in Hnb.
        intros x. rewrite !lookup_insert_is_Some.
        intros [<-|[_ [<-|[_ ?]]]]; eauto. by destruct Hnb as [<-|[_ ?]].
      - injection Hh3 as <-. intros x. rewrite lookup_insert_is_Some.
        intros [<-|[_ ?]]; eauto. }
    assert (∀ x, is_Some (delete a h3 !! x) → is_Some (h !! x) ∧ x ≠ a) as Hdom.
    { intros x. rewrite lookup_delete_is_Some. intros [? ?]. split; [by apply Hdom3|done]. }
    split; [intros x Hx; by apply Hdom|].
    intros x [_ Hxa]%Hdom. rewrite !leaves_External.
    intros [Hx|Hx]%elem_of_app; [done|]. by apply list_elem_of_singleton in Hx.
  - destruct (decide (sc = [])) as [->|Hsc]; [done|].
    rewrite delete_emptied in Heq by done. simpl in Heq. injection Heq as <- <-.
    split; [done|]. intros x _. by rewrite !leaves_Internal, bind_app.
Qed.

Lemma delete_second {A} (l1 l2 : list A) x y i :
  i = S (length l1) → delete i (l1 ++ x :: y :: l2) = l1 ++ x :: l2.
Proof.
  intros ->. rewrite (cons_middle x), app_assoc.
  rewrite (delete_middle_eq (l1 ++ [x])) by (rewrite length_app; simpl; lia).
  by rewrite <- app_assoc.
Qed.

Lemma fuse_right_footprint h vals (cs1 : list Node) L R cs2 n' h' :
  length (cs1 ++ L :: R :: cs2) = S (length vals) →
  fuse_right vals (cs1 ++ L :: R :: cs2) (length cs1) h = Some (n', h') →
  footprint h h' (Internal vals (cs1 ++ L :: R :: cs2)) n'.
Proof.
  intros Hlen. unfold fuse_right.
  rewrite (lookup_middle_eq cs1 (R :: cs2) L (length cs1)) by done. simpl.
  rewrite (lookup_middle_S cs1 cs2 L R (length cs1 + 1)) by lia. simpl.
  intros Heq. bind_step Heq v.
  destruct (fuse L R v h) as [[F h1]|] eqn:Hfuse; [|done]. simpl in Heq.
  injection Heq as <- <-.
  rewrite (list_insert_at_middle cs1) by done.
  rewrite (shift_down_delete_at (cs1 ++ F :: R :: cs2))
    by (rewrite ?length_app in *; simpl in *; lia).
  rewrite (delete_second cs1) by lia.
  apply fuse_footprint in Hfuse as [Hdom Hl]. by apply footprint_pair.
Qed.

Lemma fuse_left_footprint h vals (cs1 : list Node) L R cs2 n' h' :
  length (cs1 ++ L :: R :: cs2) = S (length vals) →
  fuse_left vals (cs1 ++ L :: R :: cs2) (S (length cs1)) h = Some (n', h') →
  footprint h h' (Internal vals (cs1 ++ L :: R :: cs2)) n'.
Proof.
  intros Hlen. unfold fuse_left. simpl.
  rewrite (lookup_middle_S cs1 cs2 L R (S (length cs1))) by lia. simpl.
  rewrite (lookup_middle_eq cs1 (R :: cs2) L (length cs1)) by done. simpl.
  intros Heq. bind_step Heq v.
  destruct (fuse L R v h) as [[F h1]|] eqn:Hfuse; [|done]. simpl in Heq.
  injection Heq as <- <-.
  rewrite (list_insert_at_middle cs1) by done.
  rewrite (shift_down_delete_at (cs1 ++ F :: R :: cs2))
    by (rewrite ?length_app in *; simpl in *; lia).
  rewrite (delete_second cs1) by lia.
  apply fuse_footprint in Hfuse as [Hdom Hl]. by apply footprint_pair.
Qed.

(** [merge] *)
Lemma merge_footprint h d vals (csA : list Node) c csB tp tq lp lq n' h' :
  length (csA ++ c :: csB) = S (length vals) → 1 ≤ length vals →
  shape N h d (N - 1) (N - 1) c →
  Forall (shape N h d N (N * 2)) csA → Forall (shape N h d N (N * 2)) csB →
  in_ctx h (Internal vals (csA ++ c :: csB)) tp tq lp lq →
  merge N (Internal vals (csA ++ c :: csB)) (length csA) h = Some (n', h') →
  footprint h h' (Internal vals (csA ++ c :: csB)) n'.
Proof.
  intros Hlen Hvals Hc HcsA HcsB Hctx Hmerge.
  destruct (merge_ok N HN h d vals csA c csB tp tq lp lq)
    as (act & n'' & h'' & k & Hact & Hmerge' & _ & _ & Hfused); try done.
  rewrite Hmerge in Hmerge'. injection Hmerge' as <- <-.
  unfold merge in Hmerge. rewrite Hact in Hmerge. simpl in Hmerge.
  assert (HcsA' : csA = [] ∨ ∃ cs1 L, csA = cs1 ++ [L] ∧
            ∀ lv lc, L = Internal lv lc → length lc = S (length lv)).
  { destruct (decide (csA = [])) as [|Hne]; [by left|]. right.
    destruct (exists_last Hne) as (cs1 & L & ->). exists cs1, L. split; [done|].
    apply Forall_app in HcsA as [_ [HL _]%Forall_cons]. intros lv lc ->.
    destruct d; [by apply shape_leaf in HL as (? & ? & ? & _)|].
    by apply shape_node in HL as (? & ? & [= <- <-] & ? & _). }
  destruct act.
  - destruct csB as [|R cs2].
    { unfold move_from_right in Hmerge.
      rewrite (lookup_middle_eq csA [] c (length csA)) in Hmerge by done.
      simpl in Hmerge.
      rewrite (lookup_ge_None_2 (csA ++ [c]) (length csA + 1)) in Hmerge
        by (rewrite length_app; simpl; lia).
      discriminate Hmerge. }
    by apply move_from_right_footprint.
  - destruct HcsA' as [->|(cs1 & L & -> & HL)]; [done|].
    rewrite <- app_assoc in *. simpl in *.
    rewrite length_app in Hmerge. simpl in Hmerge.
    replace (length cs1 + 1) with (S (length cs1)) in Hmerge by lia.
    by apply move_from_left_footprint.
  - destruct Hfused as (vals' & cs' & Hfuse & -> & _).
    destruct HcsA' as [->|(cs1 & L & -> & HL)]; [done|].
    rewrite <- app_assoc in *. simpl in *.
    rewrite length_app in Hfuse. simpl in Hfuse.
    replace (length cs1 + 1) with (S (length cs1)) in Hfuse by lia.
    by apply fuse_left_footprint.
  - destruct Hfused as (vals' & cs' & Hfuse & -> & _).
    destruct csB as [|R cs2].
    { unfold fuse_right in Hfuse.
      rewrite (lookup_middle_eq csA [] c (length csA)) in Hfuse by done.
      simpl in Hfuse.
      rewrite (lookup_ge_None_2 (csA ++ [c]) (length csA + 1)) in Hfuse
        by (rewrite length_app; simpl; lia).
      discriminate Hfuse. }
    by apply fuse_right_footprint.
Qed.

(** [remove_elem] *)
Lemma remove_elem_footprint d : ∀ n mn h e tp tq lp lq msg n' h',
  mn ≤ N → root_min d ≤ mn →
  shape N h d mn (N * 2) n → in_ctx h n tp tq lp lq →
  Forall (λ x, x < kcode e)%Z tp → Forall (λ x, kcode e < x)%Z tq →
  remove_elem N n e h = Some (msg, n', h') → footprint h h' n n'.
Proof.
  induction d as [|d IH];
    intros n mn h e tp tq lp lq msg n' h' Hmn Hrm Hsh Hctx Htp Htq Heq.
  { apply shape_leaf in Hsh as (a & l & -> & Hl & Hsz).
    rewrite remove_elem_External, Hl in Heq. simpl in Heq.
    destruct (External_remove_elem N l e) as [[m l']|]; [|done]. simpl in Heq.
    injection Heq as <- <- <-.
    apply footprint_same_leaves; [done|]. intros x. by apply is_Some_insert_alloc. }
  apply shape_node in Hsh as (vals & cs & -> & Hlen & Hsz & Hall).
  simpl in Hrm.
  pose proof (find_pos_before h vals cs e tp tq Hlen (proj1 Hctx) Htp) as Hbefore.
  pose proof (find_pos_after h vals cs e tp tq Hlen (proj1 Hctx) Htq) as Hafter.
  rewrite remove_elem_Internal in Heq.
  pose proof (first_greater_le e vals) as Hpos. fold (Internal_find_pos vals e) in Hpos.
  remember (Internal_find_pos vals e) as pos eqn:Hpos_def. clear Hpos_def.
  destruct (lookup_lt_is_Some_2 cs pos) as [c Hc]; [lia|].
  rewrite Hc in Heq. simpl in Heq.
  destruct (split_at cs pos c Hc) as (cs1 & cs2 & -> & Hlen1).
  assert (∃ vs1 vs2, vals = vs1 ++ vs2 ∧ length vs1 = pos) as (vs1 & vs2 & -> & Hlen2).
  { exists (take pos vals), (drop pos vals). rewrite take_drop, length_take.
    split; [done|lia]. }
  rewrite !take_app_length', !drop_app_length' in * by lia.
  rewrite drop_middle_S in Hafter by lia.
  apply Forall_app in Hall as (Hcs1 & [Hcsh Hcs2]%Forall_cons).
  pose proof Hctx as Hctx_c. apply in_ctx_child in Hctx_c; [|lia].
  destruct (remove_elem_ok N HN d c N h e _ _ _ _ ltac:(lia)
              ltac:(destruct d; simpl; lia) Hcsh Hctx_c Hbefore Hafter)
    as (msg1 & c' & h1 & Hrem & Hsame & Hmsg).
  pose proof (IH c N h e _ _ _ _ msg1 c' h1 ltac:(lia) ltac:(destruct d; simpl; lia)
                Hcsh Hctx_c Hbefore Hafter Hrem) as Hfp.
  rewrite Hrem in Heq. simpl in Heq. rewrite list_insert_at_middle in Heq by lia.
  assert (Hfp1 : footprint h h1 (Internal (vs1 ++ vs2) (cs1 ++ c :: cs2))
                   (Internal (vs1 ++ vs2) (cs1 ++ c' :: cs2)))
    by (by apply footprint_child).
  assert (Hsame1 : same_keys h h1 (cs1 ≫= leaves)).
  { eapply same_keys_sub; [exact Hsame|]. intros x Hx. rewrite !elem_of_app. auto. }
  assert (Hsame2 : same_keys h h1 (cs2 ≫= leaves)).
  { eapply same_keys_sub; [exact Hsame|]. intros x Hx. rewrite !elem_of_app. auto. }
  assert (Hsame0 : same_keys h h1 (lp ++ lq)).
  { eapply same_keys_sub; [exact Hsame|]. intros x Hx. rewrite !elem_of_app in *. tauto. }
  destruct msg1.
  - rewrite bool_decide_false in Heq by done. by injection Heq as <- <- <-.
  - rewrite bool_decide_false in Heq by done. by injection Heq as <- <- <-.
  - rewrite bool_decide_true in Heq by done.
    destruct Hmsg as (Hisin & Hc' & Hshrunk).
    assert (Hshrunk1 : shrunk h h1 (Internal (vs1 ++ vs2) (cs1 ++ c :: cs2))
                         (Internal (vs1 ++ vs2) (cs1 ++ c' :: cs2)) e tp tq lp lq).
    { eapply updated_parent; try done; [apply keys_del_in_context|lia]. }
    destruct Hshrunk1 as (Hctx1 & _ & _).
    destruct (merge N _ _ _) as [[n2 h2]|] eqn:Hmerge; [|done]. simpl in Heq.
    bind_step Heq k. injection Heq as <- <- <-.
    eapply footprint_trans; [exact Hfp1|].
    rewrite <- Hlen1 in Hmerge.
    eapply (merge_footprint h1 d (vs1 ++ vs2) cs1 c' cs2 tp tq lp lq);
      [by rewrite length_app in *|lia|done
      |by eapply shapes_same|by eapply shapes_same|done|done].
Qed.

(** [delete] of a subtree releases each of its leaves. *)
Lemma delete_each_all (d : nat) (cs : list Node) :
  (∀ c h, c ∈ cs → shape N h d N (N * 2) c → NoDup (leaves c) →
     ∃ h', delete_node c h = Some h' ∧ (∀ x, x ∉ leaves c → h' !! x = h !! x) ∧
       ∀ x, x ∈ leaves c → h' !! x = None) →
  ∀ h, Forall (shape N h d N (N * 2)) cs → NoDup (cs ≫= leaves) →
  ∃ h', delete_each delete_node cs (length cs) h = Some h' ∧
    (∀ x, x ∉ cs ≫= leaves → h' !! x = h !! x) ∧
    ∀ x, x ∈ cs ≫= leaves → h' !! x = None.
Proof.
  induction cs as [|c cs IH]; intros Hdel h Hall Hnd.
  { exists h. split; [done|]. split; [done|]. by intros x ?%elem_of_nil. }
  apply Forall_cons in Hall as [Hc Hall].
  rewrite bind_cons in Hnd. apply NoDup_app in Hnd as (Hndc & Hdisj & Hndcs).
  destruct (Hdel c h ltac:(by left) Hc Hndc) as (h1 & Hdel1 & Hframe1 & Hfreed1).
  simpl. rewrite Hdel1. simpl.
  destruct (IH ltac:(intros c' h0 Hc'; apply Hdel; by right) h1)
    as (h2 & Hdel2 & Hframe2 & Hfreed2).
  - eapply shapes_same; [done|]. intros x Hx. rewrite Hframe1; [done|].
    intros Hxc. by apply (Hdisj x Hxc).
  - done.
  - exists h2. split; [done|]. split.
    + intros x Hx. rewrite ?bind_cons in Hx.
      rewrite Hframe2, Hframe1; [done|..]; intros ?; apply Hx, elem_of_app; auto.
    + intros x [Hx|Hx]%elem_of_app; [|by apply Hfreed2].
      rewrite Hframe2; [by apply Hfreed1|]. by apply Hdisj.
Qed.

Lemma delete_node_all d : ∀ n mn mx h,
  shape N h d mn mx n → NoDup (leaves n) →
  ∃ h', delete_node n h = Some h' ∧ (∀ x, x ∉ leaves n → h' !! x = h !! x) ∧
    ∀ x, x ∈ leaves n → h' !! x = None.
Proof.
  induction d as [|d IH]; intros n mn mx h Hsh Hnd.
  - apply shape_leaf in Hsh as (a & l & -> & Hl & _).
    unfold delete_node. rewrite Hl. simpl. eexists. split; [done|].
    rewrite leaves_External. split.
    + intros x Hx. apply lookup_delete_ne. intros ->. apply Hx. by left.
    + intros x ->%list_elem_of_singleton. apply lookup_delete_eq.
  - apply shape_node in Hsh as (vals & cs & -> & Hlen & _ & Hall).
    rewrite delete_node_Internal, <- Hlen. rewrite leaves_Internal in Hnd |- *.
    apply delete_each_all with (d := d); [|done|done].
    intros c h0 _ Hc Hndc. by eapply IH.
Qed.

(** * The containers reached have no leaf outside their tree *)

Lemma all_in_tree_footprint h h' n n' :
  all_in_tree h n → footprint h h' n n' → all_in_tree h' n'.
Proof.
  intros Hall Hfp x Hx. destruct (Hfp x Hx) as [|[Hh Hn]]; [done|].
  exfalso. by apply Hn, Hall.
Qed.

Lemma insert_all_in_tree d s k it b s' :
  Inv_at N d s → all_in_tree (heap s) (root s) →
  insert N s k = Some (it, b, s') → all_in_tree (heap s') (root s').
Proof.
  intros Hinv Hall Hins. pose proof Hinv as [Hsh Hs _ _ Hleft Hsize].
  destruct (add_elem_ok N HN d (root s) (root_min d) (heap s) k [] [] [] [])
    as (msg & n' & h' & Hadd & _ & Hmsg); [done|by eapply Inv_in_ctx|done|done|].
  pose proof (add_elem_footprint d (root s) (root_min d) (heap s) k [] [] [] []
                msg n' h' Hsh ltac:(by eapply Inv_in_ctx) ltac:(done) ltac:(done) Hadd)
    as Hfp.
  pose proof (all_in_tree_footprint _ _ _ _ Hall Hfp) as Hall'.
  unfold insert in Hins. rewrite Hadd in Hins. simpl in Hins. destruct msg.
  - bind_step Hins it'. by injection Hins as <- <- <-.
  - bind_step Hins it'. by injection Hins as <- <- <-.
  - destruct Hmsg as (_ & Hsh' & _).
    destruct (split _ _ _) as [[r2 h2]|] eqn:Hsplit; [|done]. simpl in Hins.
    bind_step Hins it'. injection Hins as <- <- <-. simpl.
    apply (all_in_tree_footprint h' h2 (Internal [] [n']) r2).
    + intros x Hx. rewrite leaves_root_single. by apply Hall'.
    + by apply (split_footprint h' d [] [] n' [] r2 h2).
Qed.

Lemma erase_all_in_tree d s k r s' :
  Inv_at N d s → all_in_tree (heap s) (root s) →
  erase N s k = Some (r, s') → all_in_tree (heap s') (root s').
Proof.
  intros Hinv Hall Herase. pose proof Hinv as [Hsh Hs _ _ Hleft Hsize].
  destruct (remove_elem_ok N HN d (root s) (root_min d) (heap s) k [] [] [] [])
    as (msg & n' & h' & Hrem & _ & Hmsg);
    [destruct d; simpl; lia|done|done|by eapply Inv_in_ctx|done|done|].
  pose proof (remove_elem_footprint d (root s) (root_min d) (heap s) k [] [] [] []
                msg n' h' ltac:(destruct d; simpl; lia) ltac:(done) Hsh
                ltac:(by eapply Inv_in_ctx) ltac:(done) ltac:(done) Hrem) as Hfp.
  pose proof (all_in_tree_footprint _ _ _ _ Hall Hfp) as Hall'.
  unfold erase in Herase. rewrite Hrem in Herase. simpl in Herase. destruct msg.
  - by injection Herase as <- <-.
  - by injection Herase as <- <-.
  - destruct Hmsg as (_ & Hsh' & _). destruct d as [|d].
    + apply shape_leaf in Hsh' as (a & l & -> & Hl & Hsz). simpl in Herase.
      rewrite Hl in Herase. simpl in Herase. by injection Herase as <- <-.
    + apply shape_node in Hsh' as (vals' & cs' & -> & Hlc & Hlv & _).
      simpl in Herase. destruct vals' as [|v vals'].
      * destruct cs' as [|c [|? ?]]; try done. simpl in Herase.
        change (delete_node (Internal [] [Null]) h') with (Some h') in Herase.
        simpl in Herase. injection Herase as <- <-. simpl.
        intros x Hx. rewrite <- (leaves_root_single c). by apply Hall'.
      * simpl in Herase. by injection Herase as <- <-.
Qed.

Lemma delete_root_all d s :
  Inv_at N d s → all_in_tree (heap s) (root s) →
  delete_node (root s) (heap s) = Some ∅.
Proof.
  intros [Hsh _ _ Hnd _ _] Hall.
  destruct (delete_node_all d (root s) _ _ (heap s) Hsh Hnd)
    as (h1 & Hdel & Hframe & Hfreed).
  rewrite Hdel. f_equal.
  apply map_empty. intros x. destruct (decide (x ∈ leaves (root s))) as [Hx|Hx].
  - by apply Hfreed.
  - rewrite Hframe by done. apply eq_None_not_Some. intros Hs. by apply Hx, Hall.
Qed.

Lemma clear_all_in_tree d s s' :
  Inv_at N d s → all_in_tree (heap s) (root s) → clear s = Some s' →
  heap s' = {[ fresh (dom (∅ : store)) := mkExternal [] None None ]} ∧
  root s' = External (fresh (dom (∅ : store))).
Proof.
  intros Hinv Hall Hclear. unfold clear in Hclear.
  rewrite (delete_root_all d s Hinv Hall) in Hclear. simpl in Hclear.
  by injection Hclear as <-.
Qed.

Lemma step_all_in_tree d s o s' :
  Inv_at N d s → all_in_tree (heap s) (root s) → step N s o = Some s' →
  all_in_tree (heap s') (root s').
Proof.
  intros Hinv Hall Hstep. destruct o as [k|k|]; simpl in Hstep.
  - destruct (insert N s k) as [[[it b] s1]|] eqn:Hins; [|done].
    injection Hstep as <-. by eapply insert_all_in_tree.
  - destruct (erase N s k) as [[r s1]|] eqn:Herase; [|done].
    injection Hstep as <-. by eapply erase_all_in_tree.
  - destruct (clear_all_in_tree d s s' Hinv Hall Hstep) as [-> ->].
    intros x [l Hx]. apply lookup_singleton_Some in Hx as [<- _].
    rewrite leaves_External. by left.
Qed.

Lemma run_all_in_tree ops : ∀ s s',
  Inv N s → all_in_tree (heap s) (root s) → run N s ops = Some s' →
  all_in_tree (heap s') (root s').
Proof.
  induction ops as [|o ops IH]; intros s s' Hinv Hall Hrun; simpl in Hrun.
  - by injection Hrun as <-.
  - destruct (step N s o) as [s1|] eqn:Hstep; [|done]. simpl in Hrun.
    destruct Hinv as [d Hinv].
    destruct (step_ok N HN s o) as (s1' & Hstep' & Hinv1); [by exists d|].
    rewrite Hstep in Hstep'. injection Hstep' as <-.
    apply (IH s1 s' Hinv1); [|done]. by eapply step_all_in_tree.
Qed.

Lemma reachable_all_in_tree s : reachable N s → all_in_tree (heap s) (root s).
Proof.
  intros [ops Hrun]. apply (run_all_in_tree ops ADS_set_new s); [| |done].
  - exists 0. by apply Inv_new.
  - intros x [l Hx]. unfold ADS_set_new in *. simpl in *.
    apply lookup_singleton_Some in Hx as [<- _]. rewrite leaves_External. by left.
Qed.

End footprints.

(** In a reachable container the leaves allocated are exactly the leaves of
    the tree: [split] puts each leaf it allocates into the tree, [merge]
    releases the leaf it takes out, so that no leaf is lost and none in the
    tree is dangling; the store holds as many leaves as the tree has. *)
Theorem no_leaf_outside_tree (N : nat) (s : ADS_set) :
  0 < N → reachable N s →
  (∀ x, is_Some (heap s !! x) ↔ x ∈ leaves (root s)) ∧
  base.size (heap s) = length (leaves (root s)).
Proof.
  intros HN Hreach. pose proof Hreach as [d Hinv]%(reachable_Inv N HN).
  pose proof (reachable_all_in_tree N HN s Hreach) as Hall.
  destruct Hinv as [Hsh _ _ Hnd _ _].
  assert (Hiff : ∀ x, is_Some (heap s !! x) ↔ x ∈ leaves (root s)).
  { intros x. split; [apply Hall|]. intros Hx. by eapply shape_alloc. }
  split; [done|].
  rewrite <- size_dom.
  assert (dom (heap s) = list_to_set (leaves (root s))) as ->.
  { apply set_eq. intros x. by rewrite elem_of_dom, elem_of_list_to_set. }
  by apply size_list_to_set.
Qed.

Lemma no_leaf_outside_tree_witness :
  (∀ x, is_Some (heap three_keys !! x) ↔ x ∈ leaves (root three_keys)) ∧
  base.size (heap three_keys) = length (leaves (root three_keys)).
Proof.
  apply (no_leaf_outside_tree 1 three_keys); [lia|].
  eapply reachable_state_after. vm_compute. reflexivity.
Defined.

(** The destructor of a reachable container is defined (no leaf is
    released twice or unallocated) and releases every leaf: the store is
    empty afterwards. [clear()] does the same before it allocates the new
    root, so that the store then holds this one leaf and nothing else. *)
Theorem teardown_frees_all (N : nat) (s : ADS_set) :
  0 < N → reachable N s →
  ADS_set_destroy s = Some ∅ ∧
  ∃ s' a, clear s = Some s' ∧ root s' = External a ∧
    heap s' = {[ a := mkExternal [] None None ]}.
Proof.
  intros HN Hreach. pose proof Hreach as [d Hinv]%(reachable_Inv N HN).
  pose proof (reachable_all_in_tree N HN s Hreach) as Hall.
  pose proof (delete_root_all N d s Hinv Hall) as Hdel.
  split; [done|]. unfold clear. rewrite Hdel. simpl. by eexists _, _.
Qed.

Lemma teardown_frees_all_witness :
  ADS_set_destroy three_keys = Some ∅ ∧
  ∃ s' a, clear three_keys = Some s' ∧ root s' = External a ∧
    heap s' = {[ a := mkExternal [] None None ]}.
Proof.
  apply (teardown_frees_all 1 three_keys); [lia|].
  eapply reachable_state_after. vm_compute. reflexivity.
Defined.

(** * The separators *)

Lemma separators_of_node h vals (cs : list Node) i c x :
  length cs = S (length vals) → StronglySorted Z.lt (trace h (Internal vals cs)) →
  cs !! i = Some c → x ∈ trace h c →
  (∀ v, vals !! i = Some v → (x < scode v)%Z) ∧
  (∀ j v, i = S j → vals !! j = Some v → (scode v < x)%Z).
Proof.
  intros Hlen Hs Hc Hx.
  pose proof (lookup_lt_Some _ _ _ Hc) as Hi.
  destruct (split_at cs i c Hc) as (cs1 & cs2 & -> & Hlen1).
  assert (∃ vs1 vs2, vals = vs1 ++ vs2 ∧ length vs1 = i) as (vs1 & vs2 & -> & Hlen2).
  { exists (take i vals), (drop i vals). rewrite take_drop, length_take.
    split; [done|lia]. }
  rewrite trace_Internal_middle in Hs by lia.
  rewrite !length_app in Hlen. simpl in Hlen.
  split.
  - intros v Hv. rewrite lookup_app_r, Hlen2, Nat.sub_diag in Hv by lia.
    destruct vs2 as [|v' vs2]; [done|]. injection Hv as ->.
    rewrite fmap_cons, weave_cons in Hs by (destruct cs2; [simpl in Hlen; lia|done]).
    apply StronglySorted_app in Hs as (_ & _ & Hs).
    apply StronglySorted_app in Hs as (Hcross & _ & _).
    apply Hcross; [done|by left].
  - intros j v -> Hv.
    destruct (decide (vs1 = [])) as [->|Hne]; [done|].
    destruct (exists_last Hne) as (vs1' & v' & ->).
    rewrite length_app in Hlen2. simpl in Hlen2.
    rewrite lookup_app_l in Hv by (rewrite length_app; simpl; lia).
    rewrite lookup_app_r in Hv by lia.
    replace (j - length vs1') with 0 in Hv by lia. injection Hv as ->.
    destruct (decide (cs1 = [])) as [->|Hne1]; [simpl in Hlen1; lia|].
    destruct (exists_last Hne1) as (cs1' & c0 & ->).
    rewrite length_app in Hlen1. simpl in Hlen1.
    rewrite !fmap_app in Hs. simpl in Hs.
    rewrite pre_snoc in Hs by (rewrite !length_fmap; lia).
    apply StronglySorted_app in Hs as (Hcross & _ & _).
    apply Hcross; [|rewrite elem_of_app; by left].
    rewrite !elem_of_app. right. right. by left.
Qed.

Lemma subnode_sorted N h d : ∀ n mn mx m,
  shape N h d mn mx n → StronglySorted Z.lt (trace h n) → m ∈ nodes n →
  StronglySorted Z.lt (trace h m) ∧ ∃ d' mn' mx', shape N h d' mn' mx' m.
Proof.
  induction d as [|d IH]; intros n mn mx m Hsh Hs Hm.
  - pose proof Hsh as (a & l & -> & _)%shape_leaf.
    apply list_elem_of_singleton in Hm as ->. split; [done|]. by exists 0, mn, mx.
  - pose proof Hsh as (vals & cs & -> & Hlen & Hsz & Hall)%shape_node.
    cbn [nodes] in Hm. apply elem_of_cons in Hm as [->|Hm].
    { split; [done|]. by exists (S d), mn, mx. }
    apply list_elem_of_bind in Hm as (c & Hm & Hc).
    apply list_elem_of_lookup in Hc as [i Hc].
    pose proof (lookup_lt_Some _ _ _ Hc) as Hi.
    destruct (split_at cs i c Hc) as (cs1 & cs2 & -> & Hlen1).
    assert (∃ vs1 vs2, vals = vs1 ++ vs2 ∧ length vs1 = i) as (vs1 & vs2 & -> & Hlen2).
    { exists (take i vals), (drop i vals). rewrite take_drop, length_take.
      split; [done|lia]. }
    rewrite trace_Internal_middle in Hs by lia.
    apply StronglySorted_app in Hs as (_ & _ & Hs).
    apply StronglySorted_app in Hs as (_ & Hs & _).
    apply Forall_app in Hall as (_ & [Hcsh _]%Forall_cons).
    by apply (IH c N (N * 2) m).
Qed.

(** In a reachable container the keys of every internal node separate its
    children: every key below child [i] is smaller than key [i] of the node
    (if there is one) and at least key [i - 1] (if there is one). *)
Theorem separators_bound_children (N : nat) (s : ADS_set) (vals : list key_type)
    (cs : list Node) (i : nat) (c : Node) (k : key_type) :
  0 < N → reachable N s → Internal vals cs ∈ nodes (root s) →
  cs !! i = Some c → k ∈ keys (heap s) c →
  (∀ v, vals !! i = Some v → (k < v)%Z) ∧
  (∀ j v, i = S j → vals !! j = Some v → (v ≤ k)%Z).
Proof.
  intros HN [d [Hsh Hs _ _ _ _]]%(reachable_Inv N HN) Hm Hc Hk.
  destruct (subnode_sorted N _ d _ _ _ _ Hsh Hs Hm) as (Hsm & d' & mn' & mx' & Hshm).
  destruct d' as [|d']; [by apply shape_leaf in Hshm as (? & ? & ? & _)|].
  apply shape_node in Hshm as (? & ? & [= <- <-] & Hlen & _ & Hall).
  assert (Hkc : kcode k ∈ trace (heap s) c).
  { rewrite Forall_forall in Hall.
    apply (trace_keys_elem N _ d' N (N * 2)); [|done].
    apply Hall. by eapply list_elem_of_lookup_2. }
  destruct (separators_of_node (heap s) vals cs i c (kcode k) Hlen Hsm Hc Hkc)
    as [Hlt Hge].
  unfold kcode, scode in *. split.
  - intros v Hv. specialize (Hlt v Hv). lia.
  - intros j v Hj Hv. specialize (Hge j v Hj Hv). lia.
Qed.

Lemma separators_bound_children_witness :
  (∀ v, [5%Z] !! 1 = Some v → (8 < v)%Z) ∧
  (∀ j v, 1 = S j → [5%Z] !! j = Some v → (v ≤ 8)%Z).
Proof.
  apply (separators_bound_children 1 three_keys [5%Z]
           [External 1%positive; External 2%positive] 1 (External 2%positive) 8%Z).
  - lia.
  - eapply reachable_state_after. vm_compute. reflexivity.
  - vm_compute. left.
  - reflexivity.
  - vm_compute. right. left.
Defined.

(** * What [add_elem] and [remove_elem] tell the parent *)





